(* ===== verification/_CoqProject ===== *)
-Q . S2P
Prelude.v
Types.v
Event.v
BatchWire.v
AtRest.v
Kek.v
CheckpointWal.v
L2Body.v
L2BodyProofs.v
Partition.v
PartitionProofs.v
PlanProofs.v
Kv.v
L3.v
Indexed.v
L3Checkpoint.v
L3CheckpointProofs.v
RaftLog.v
RaftLogProofs.v
ClusterStore.v
ClusterProofs.v
Recovery.v
RecoveryProofs.v
Backpressure.v
Gate.v
Eo2.v
Eo2Proofs.v
