(* ===== verification/Prelude.v ===== *)
(** * Aeon: event durability and cluster state, verified

    Aeon (aeon-rust/aeon) is a stream engine. Sources produce events, processors turn them into
    outputs, sinks deliver them. This library models the parts that keep data across failures
    and across nodes. All paths below are under [src/crates].

    ** The program and the files

    - [Prelude], [Types]: Rust's [Result] and [?], machine integers with their wrap-around and
      casts, little- and big-endian fields, byte slices; errors, source kinds and durability
      modes of aeon-types; [io], what the environment does to one file operation (done, refused,
      cut after [k] bytes); [Codec], a serializer with its round-trip law.
    - [Event], [BatchWire]: event and output envelopes, their transport codec, and the batch
      frames exchanged with out-of-process processors (aeon-types/src/event.rs,
      transport_codec.rs; aeon-engine/src/batch_wire.rs).
    - [AtRest], [Kek]: the at-rest cipher (aeon-crypto/src/at_rest.rs) written against the
      interface [CryptoOps]/[CryptoLaws], and the key handles over the secret registry
      (aeon-crypto/src/kek.rs, aeon-types/src/secrets.rs) that implement it.
    - [CheckpointWal]: the checkpoint log (aeon-engine/src/checkpoint.rs). The trait
      [CheckpointPersist] is a class with its laws [CheckpointPersistLaws]; the log is an instance.
    - [L2Body], [L2BodyProofs]: the event-body store of a partition: segment files and their key
      sidecars, rollover, garbage collection, recovery reads (aeon-engine/src/l2_body.rs).
    - [Kv], [L3], [Indexed], [L3Checkpoint], [L3CheckpointProofs]: the [L3Store] trait as the
      class [L3Store]/[L3Laws], the redb store and the encrypting store that satisfy it
      (aeon-state/src/l3.rs, l3_encrypted.rs), and the checkpoint store above any of them.
    - [Recovery], [RecoveryProofs]: fallback from a failed checkpoint store to the log, recovery,
      and the plan a source receives at start-up (aeon-engine/src/eo2_recovery.rs).
    - [Backpressure], [Gate]: byte accounting of the event-body stores and the pressure decision
      (aeon-engine/src/eo2_backpressure.rs); the source tasks that ask for it before each fetch
      (aeon-engine/src/pipeline.rs).
    - [Eo2], [Eo2Proofs]: the store registry, the source adapter that writes bodies, the ack
      tracker (aeon-engine/src/eo2.rs), the sweep and the recovery plan (pipeline.rs).
    - [Partition], [PartitionProofs], [PlanProofs]: partition ownership, the assignment,
      rebalance and drain planners, the transfer tracker (aeon-cluster/src/types.rs,
      partition_manager.rs, rebalance.rs, transfer.rs).
    - [RaftLog], [RaftLogProofs]: the in-memory and the persistent Raft log
      (aeon-cluster/src/store.rs, log_store.rs).
    - [ClusterStore], [ClusterProofs]: the replicated state machine and its snapshots
      (aeon-cluster/src/store.rs, snapshot.rs).

    State is passed explicitly: a record per Rust struct, a function per method that returns the
    new state with a [Result], a failed call included (the state it leaves behind is part of the
    result). Mutexes and handles shared between components become one entry of the record that
    owns them; where tasks interleave between two locks the model is a step relation ([Gate],
    [Eo2Proofs]). A [HashMap] whose iteration order reaches the result takes the order as a
    parameter, one per node, constrained only to list every entry once.

    ** What is proved

    - Stored bytes (C1-C5, C12): the checkpoint log and the event-body store return exactly what
      was appended, through restarts, cuts at any byte and garbage collection; a partial write
      failure is not repaired, and C3 and C5 say exactly what is lost after it. The checkpoint
      store over L3 keeps exactly the newest records.
    - Key-value tier (C10, C11): redb and the encrypting store refine a finite map over every
      sequence of calls and failures.
    - Partitions (C6-C9, C18): quotas, fairness, ceilings and move lists of the planners, for
      every iteration order; the outcome of a transfer.
    - Cluster (C13-C17): the persistent Raft log simulates the in-memory one with restarts
      anywhere; offsets merge monotonically; a partition changes hands in two phases; replicas
      with their own iteration orders agree on every log without a rebalance; snapshots restore
      the replicated state.
    - Checkpoint fallback (C19): the outcome of an outage in every case, shadowing included.
    - Capacity (C20, C21): the node counter is the sum of all partitions, and sources that ask
      first keep node and pipeline below 95% of their caps plus one batch per task.
    - Acknowledgement (C22): the sweep keeps what some sink has still to acknowledge.
    - Wire formats (C23-C25) and keys (C26): exact decoders, the batch exchange, key rotation.

    Theorems without a number document where the code departs from its intent
    ([rebalance_diverges], [plan_rebalance_below_floor], [cross_partition_gc],
    [node_counter_undercounts], [redb_len_drifts], [stale_abort_reverts] and others).

    ** Bounds and fuel

    Integers are [Z] at their width: [u64] wraps, [as_i64] casts, saturating operations saturate;
    hypotheses bound a run below 2^64 where ids would wrap. The record loops of the two file
    formats recurse on the length of the file: every turn consumes at least the record header,
    so they end before the fuel does, and the theorems state what is returned, not only what
    holds if something is.

    ** Parameters

    Serializers (bincode, serde), CRC-32, AES-256-GCM, redb's transactions, openraft's vote and
    membership types, the registry behind [RegistryApplier], the random draws and the outcome of
    each file operation. Their laws are classes or section hypotheses, and every theorem that
    uses one is also applied to a concrete instance.

    ** Not modelled

    The task wiring of pipeline.rs beyond the sweep, the plan and the capacity check; replay of
    stored bodies (no source of the repository implements it); delivery, retry, DAG, windowed
    state, Merkle trees, registries, compliance; openraft itself, the transports, the REST API,
    connectors, Wasm and native processors, vault and cloud secrets; logs, metrics and audit
    events; memory exhaustion and poisoned locks; failing reads of existing event-body files. *)
From stdpp Require Import base gmap list strings sorting numbers.

#[export] Set Default Goal Selector "!".
#[export] Set Warnings "-clear-no-such-hyp".

(** * Results: Rust's [Result<T, E>] with its [?] operator *)

Inductive result (E A : Type) : Type :=
| Ok (a : A)
| Err (e : E).
Arguments Ok {E A} a.
Arguments Err {E A} e.

Declare Scope aeon_scope.
Delimit Scope aeon_scope with aeon.
Open Scope aeon_scope.

Notation "'let?' x ':=' c 'in' k" :=
  (match c with Ok x => k | Err e => Err e end)
  (at level 10, x pattern, c at level 100, k at level 200) : aeon_scope.

Definition is_ok {E A} (r : result E A) : bool :=
  match r with Ok _ => true | Err _ => false end.

(** [iter().map(f).collect::<Result<Vec<_>, _>>()]: the first error wins. *)
Fixpoint try_map {E A B} (f : A -> result E B) (l : list A) : result E (list B) :=
  match l with
  | [] => Ok []
  | x :: l' => let? y := f x in let? ys := try_map f l' in Ok (y :: ys)
  end.

Lemma try_map_ok {E A B} (f : A -> result E B) l ys :
  try_map f l = Ok ys <-> Forall2 (fun x y => f x = Ok y) l ys.
Proof.
  revert ys. induction l as [|x l IH]; intros ys; cbn.
  - split; [by intros [= <-]|by inversion 1].
  - split.
    + destruct (f x) as [y|] eqn:Hx; [|done]. destruct (try_map f l) as [ys'|]; [|done].
      intros [= <-]. constructor; [done|]. by apply IH.
    + inversion 1 as [|? y ? ys' Hx Hl]; subst. rewrite Hx. apply IH in Hl. by rewrite Hl.
Qed.

(** * Machine-width integers *)

Definition wrap (w : Z) (x : Z) : Z := (x `mod` 2 ^ w)%Z.
Abbreviation u16 x := (wrap 16 x).
Abbreviation u32 x := (wrap 32 x).
Abbreviation u64 x := (wrap 64 x).

Definition u64_max : Z := (2 ^ 64 - 1)%Z.
Definition u64_sat_add (a b : Z) : Z := Z.min (a + b) u64_max.
Definition u64_sat_sub (a b : Z) : Z := Z.max (a - b) 0.

(** [x as i64] for a [u64] value. *)
Definition as_i64 (x : Z) : Z := if decide (x < 2 ^ 63)%Z then x else (x - 2 ^ 64)%Z.

Definition in_u16 (x : Z) : Prop := (0 <= x < 2 ^ 16)%Z.
Definition in_u32 (x : Z) : Prop := (0 <= x < 2 ^ 32)%Z.
Definition in_u64 (x : Z) : Prop := (0 <= x < 2 ^ 64)%Z.

Lemma wrap_small w x : (0 <= x < 2 ^ w)%Z -> wrap w x = x.
Proof. intros. unfold wrap. by rewrite Z.mod_small. Qed.

Lemma wrap_bound w x : (0 <= w)%Z -> (0 <= wrap w x < 2 ^ w)%Z.
Proof. intros. unfold wrap. apply Z.mod_pos_bound. apply Z.pow_pos_nonneg; lia. Qed.

(** * Byte strings

    A byte is a [Z] in [0, 256); a [Vec<u8>], [&[u8]] or the contents of a file is a
    list of bytes. *)
Abbreviation bytes := (list Z).

Definition is_byte (b : Z) : Prop := (0 <= b < 256)%Z.

(** Little- and big-endian encodings of the low [8 * n] bits: [to_le_bytes] and
    [to_be_bytes]; [un_le] and [un_be] are [from_le_bytes] and [from_be_bytes]. *)
Fixpoint le (n : nat) (z : Z) : bytes :=
  match n with
  | O => []
  | S n' => (z `mod` 256)%Z :: le n' (z `div` 256)%Z
  end.

Fixpoint un_le (bs : bytes) : Z :=
  match bs with
  | [] => 0%Z
  | b :: bs' => (b + 256 * un_le bs')%Z
  end.

Definition be (n : nat) (z : Z) : bytes := reverse (le n z).
Definition un_be (bs : bytes) : Z := un_le (reverse bs).

Lemma length_le n z : length (le n z) = n.
Proof. revert z. induction n; simpl; auto. Qed.

Lemma length_be n z : length (be n z) = n.
Proof. unfold be. by rewrite length_reverse, length_le. Qed.

Lemma un_le_le n z : (0 <= z < 256 ^ Z.of_nat n)%Z -> un_le (le n z) = z.
Proof.
  revert z. induction n as [|n IH]; intros z Hz.
  { change (256 ^ Z.of_nat 0)%Z with 1%Z in Hz. simpl. lia. }
  rewrite Nat2Z.inj_succ, Z.pow_succ_r in Hz by lia. simpl.
  rewrite IH.
  - pose proof (Z.div_mod z 256). lia.
  - split; [apply Z.div_pos; lia|]. apply Z.div_lt_upper_bound; lia.
Qed.

Lemma le_bytes n z : Forall is_byte (le n z).
Proof.
  revert z. induction n; intros z; simpl; constructor; auto.
  apply Z.mod_pos_bound. lia.
Qed.

Lemma un_be_be n z : (0 <= z < 256 ^ Z.of_nat n)%Z -> un_be (be n z) = z.
Proof. intros. unfold un_be, be. rewrite reverse_involutive. by apply un_le_le. Qed.

Lemma un_le_le_u16 z : in_u16 z -> un_le (le 2 z) = z.
Proof. intros. apply un_le_le. exact H. Qed.
Lemma un_le_le_u32 z : in_u32 z -> un_le (le 4 z) = z.
Proof. intros. apply un_le_le. exact H. Qed.
Lemma un_le_le_u64 z : in_u64 z -> un_le (le 8 z) = z.
Proof. intros. apply un_le_le. exact H. Qed.
Lemma un_be_be_u64 z : in_u64 z -> un_be (be 8 z) = z.
Proof. intros. apply un_be_be. exact H. Qed.

Lemma length_un_le_bound bs : Forall is_byte bs -> (0 <= un_le bs < 256 ^ Z.of_nat (length bs))%Z.
Proof.
  induction 1 as [|b bs Hb _ IH].
  { simpl. change (256 ^ Z.of_nat 0)%Z with 1%Z. lia. }
  cbn [length]. rewrite Nat2Z.inj_succ, Z.pow_succ_r by lia. unfold is_byte in Hb.
  cbn [un_le]. lia.
Qed.

Lemma le_un_le bs : Forall is_byte bs -> le (length bs) (un_le bs) = bs.
Proof.
  induction 1 as [|b bs Hb _ IH]; [done|]. unfold is_byte in Hb. cbn [length le un_le].
  rewrite (Z.mul_comm 256), Z_mod_plus_full, Z.mod_small, Z_div_plus_full, Z.div_small by lia. by rewrite Z.add_0_l, IH.
Qed.

(** * Slices: [&data[off..off + len]] *)

Definition slice (off len : nat) (bs : bytes) : bytes := take len (drop off bs).

Lemma slice_app_r off len (pre bs : bytes) :
  off = length pre -> len = length bs -> slice off len (pre ++ bs) = bs.
Proof.
  intros -> ->. unfold slice. rewrite drop_app_length. apply take_ge. done.
Qed.

Lemma slice_app_mid off len (pre mid post : bytes) :
  off = length pre -> len = length mid -> slice off len (pre ++ mid ++ post) = mid.
Proof. intros -> ->. unfold slice. by rewrite drop_app_length, take_app_length. Qed.

Lemma slice_add off a b (bs : bytes) : slice off (a + b) bs = slice off a bs ++ slice (off + a) b bs.
Proof. unfold slice. by rewrite <-take_take_drop, drop_drop. Qed.

(** * Lists *)

Lemma elem_of_concat {A} (x : A) ls : x ∈ concat ls <-> exists l, l ∈ ls /\ x ∈ l.
Proof.
  induction ls as [|l ls IH]; cbn.
  - split; [intros Hx|intros (? & Hx & _)]; by apply not_elem_of_nil in Hx.
  - rewrite elem_of_app, IH. split.
    + intros [Hx|(l' & Hl & Hx)]; [exists l|exists l']; split; auto; set_solver.
    + intros (l' & Hl & Hx). apply elem_of_cons in Hl as [->|Hl]; eauto.
Qed.

Lemma elem_of_take_elem {A} (x : A) n l : x ∈ take n l -> x ∈ l.
Proof. intros (i & Hi & _)%elem_of_take. by eapply list_elem_of_lookup_2. Qed.

(** * A reference codec for countable types, one byte per bit; used to instantiate the
    codec parameters in examples. *)

Fixpoint pos_bits (p : positive) : bytes :=
  match p with
  | xH => []
  | xO p' => 0%Z :: pos_bits p'
  | xI p' => 1%Z :: pos_bits p'
  end.

Fixpoint bits_pos (bs : bytes) : positive :=
  match bs with
  | [] => xH
  | b :: bs' => if decide (b = 0%Z) then xO (bits_pos bs') else xI (bits_pos bs')
  end.

Lemma bits_pos_bits p : bits_pos (pos_bits p) = p.
Proof. induction p; simpl; congruence. Qed.

Definition bits_of {A} `{Countable A} (x : A) : bytes := pos_bits (encode x).
Definition of_bits {A} `{Countable A} (bs : bytes) : option A := decode (bits_pos bs).

Lemma of_bits_of {A} `{Countable A} (x : A) : of_bits (bits_of x) = Some x.
Proof. unfold of_bits, bits_of. by rewrite bits_pos_bits, decode_encode. Qed.

(** A checksum to instantiate the CRC parameter with. *)
Definition sum32 (bs : bytes) : Z := u32 (foldr Z.add 0%Z bs).

Lemma sum32_u32 bs : in_u32 (sum32 bs).
Proof. apply wrap_bound. lia. Qed.

(** * Hints *)

Create HintDb aeon.
Create Rewrite HintDb aeon_len.
#[export] Hint Rewrite length_le length_be : aeon_len.
#[export] Hint Rewrite @length_app @length_take @length_drop @length_reverse : aeon_len.
#[export] Hint Resolve le_bytes : aeon.

Ltac len := autorewrite with aeon_len in *; simpl in *; lia.
