(* ===== verification/Types.v ===== *)
(** Shared vocabulary of the engine crates ([aeon-types]): errors, partition ids, source
    kinds, durability modes, and the environment's choices for an I/O call. *)
From stdpp Require Import base gmap list strings.
From S2P Require Import Prelude.

(** * [AeonError] (crates/aeon-types/src/error.rs)

    The [source] chain of an error is never inspected by the modelled code and is
    dropped; [message] keeps the fixed part of the text. *)
Inductive AeonError :=
| Connection (message : string) (retryable : bool)
| Serialization (message : string)
| State (message : string)
| Processor (message : string)
| Config (message : string)
| Cluster (message : string)
| Crypto (message : string)
| Resource (message : string)
| Timeout (message : string)
| NotFound (message : string).

Definition is_retryable (e : AeonError) : bool :=
  match e with
  | Connection _ retryable => retryable
  | Timeout _ => true
  | Cluster _ => true
  | Serialization _ | Processor _ | Config _ | Crypto _ | Resource _ | NotFound _ | State _ => false
  end.

Definition connection (m : string) : AeonError := Connection m true.

#[export] Instance AeonError_eq_dec : EqDecision AeonError.
Proof. solve_decision. Defined.

Abbreviation Result A := (result AeonError A).

(** * Partition ids: a newtype around [u16] *)
Abbreviation PartitionId := Z (only parsing).

(** * Source kinds (crates/aeon-types/src/traits.rs) *)
Inductive SourceKind := Pull | Push | Poll.

#[export] Instance SourceKind_eq_dec : EqDecision SourceKind.
Proof. solve_decision. Defined.

(** * The environment of an I/O call

    Every call that reaches the operating system or a storage engine takes the
    environment's choice as an argument: it succeeds, it fails after [k] bytes of the
    buffer reached the file ([k] at least the buffer's length means the failure came
    after the write, e.g. in [flush]), or the file cannot even be opened or created. *)
Inductive io := IoOk | IoErr (k : nat) | IoDenied.

Definition io_written (o : io) (buf : bytes) : bytes :=
  match o with IoOk => buf | IoErr k => take k buf | IoDenied => [] end.

Definition io_ok (o : io) : bool := match o with IoOk => true | _ => false end.

(** A file system: path to contents. *)
Abbreviation Disk := (gmap string bytes) (only parsing).

(** * Durability modes (crates/aeon-types/src/durability.rs) *)
Inductive DurabilityMode := DNone | UnorderedBatch | OrderedBatch | PerEvent.

#[export] Instance DurabilityMode_eq_dec : EqDecision DurabilityMode.
Proof. solve_decision. Defined.

Definition requires_l2_body_store (m : DurabilityMode) : bool :=
  match m with DNone => false | _ => true end.

Definition fsync_per_event (m : DurabilityMode) : bool :=
  match m with PerEvent => true | _ => false end.

(** * Codecs supplied by third-party crates *)

(** [serialize] may fail; [deserialize] gives back what a successful [serialize] wrote. *)
Class Codec (A : Type) := {
  serialize : A -> option bytes;
  deserialize : bytes -> option A;
}.
Class CodecLaws (A : Type) `{Codec A} : Prop := {
  deserialize_serialize (x : A) bs : serialize x = Some bs -> deserialize bs = Some x;
}.
