(* ===== verification/Event.v ===== *)
(** Events and outputs (crates/aeon-types/src/event.rs) and the transport codec of their
    envelopes (src/transport_codec.rs). MessagePack and JSON are third-party codecs of the wire
    structs and are parameters; [source_ts] never travels. *)
From stdpp Require Import base gmap list strings.
From S2P Require Import Prelude Types.

(** A UUID is its 16 bytes; an [Instant] is opaque. [Arc<str>] and [String] are strings. *)
Abbreviation Uuid := bytes (only parsing).
Abbreviation Instant := Z (only parsing).
Abbreviation Headers := (list (string * string)) (only parsing).

(** * Envelopes *)

Record Event := {
  ev_id : Uuid;
  ev_timestamp : Z;
  ev_source : string;
  ev_partition : PartitionId;
  ev_metadata : Headers;
  ev_payload : bytes;
  ev_source_ts : option Instant;
  ev_source_offset : option Z;
  ev_l2_seq : option Z;
}.

Record Output := {
  out_destination : string;
  out_key : option bytes;
  out_payload : bytes;
  out_headers : Headers;
  out_source_ts : option Instant;
  out_source_event_id : option Uuid;
  out_source_partition : option PartitionId;
  out_source_offset : option Z;
  out_l2_seq : option Z;
}.

Definition Event_new (id : Uuid) (timestamp : Z) (source : string) (partition : PartitionId) (payload : bytes) : Event :=
  {| ev_id := id; ev_timestamp := timestamp; ev_source := source; ev_partition := partition;
     ev_metadata := []; ev_payload := payload; ev_source_ts := None; ev_source_offset := None; ev_l2_seq := None |}.

Definition ev_with_metadata (e : Event) (k v : string) : Event :=
  {| ev_id := ev_id e; ev_timestamp := ev_timestamp e; ev_source := ev_source e; ev_partition := ev_partition e;
     ev_metadata := ev_metadata e ++ [(k, v)]; ev_payload := ev_payload e; ev_source_ts := ev_source_ts e;
     ev_source_offset := ev_source_offset e; ev_l2_seq := ev_l2_seq e |}.

Definition ev_set_source_ts (e : Event) (ts : option Instant) : Event :=
  {| ev_id := ev_id e; ev_timestamp := ev_timestamp e; ev_source := ev_source e; ev_partition := ev_partition e;
     ev_metadata := ev_metadata e; ev_payload := ev_payload e; ev_source_ts := ts;
     ev_source_offset := ev_source_offset e; ev_l2_seq := ev_l2_seq e |}.

Definition ev_with_source_ts (e : Event) (ts : Instant) : Event := ev_set_source_ts e (Some ts).

Definition ev_with_source_offset (e : Event) (offset : Z) : Event :=
  {| ev_id := ev_id e; ev_timestamp := ev_timestamp e; ev_source := ev_source e; ev_partition := ev_partition e;
     ev_metadata := ev_metadata e; ev_payload := ev_payload e; ev_source_ts := ev_source_ts e;
     ev_source_offset := Some offset; ev_l2_seq := ev_l2_seq e |}.

(** The assignment [batch[i].l2_seq = Some(seq)] of the source adapter. *)
Definition ev_set_l2_seq (seq : Z) (e : Event) : Event :=
  {| ev_id := ev_id e; ev_timestamp := ev_timestamp e; ev_source := ev_source e; ev_partition := ev_partition e;
     ev_metadata := ev_metadata e; ev_payload := ev_payload e; ev_source_ts := ev_source_ts e;
     ev_source_offset := ev_source_offset e; ev_l2_seq := Some seq |}.

Definition Output_new (destination : string) (payload : bytes) : Output :=
  {| out_destination := destination; out_key := None; out_payload := payload; out_headers := [];
     out_source_ts := None; out_source_event_id := None; out_source_partition := None;
     out_source_offset := None; out_l2_seq := None |}.

Definition with_key (o : Output) (key : bytes) : Output :=
  {| out_destination := out_destination o; out_key := Some key; out_payload := out_payload o;
     out_headers := out_headers o; out_source_ts := out_source_ts o; out_source_event_id := out_source_event_id o;
     out_source_partition := out_source_partition o; out_source_offset := out_source_offset o;
     out_l2_seq := out_l2_seq o |}.

Definition with_header (o : Output) (k v : string) : Output :=
  {| out_destination := out_destination o; out_key := out_key o; out_payload := out_payload o;
     out_headers := out_headers o ++ [(k, v)]; out_source_ts := out_source_ts o;
     out_source_event_id := out_source_event_id o; out_source_partition := out_source_partition o;
     out_source_offset := out_source_offset o; out_l2_seq := out_l2_seq o |}.

Definition out_with_source_ts (o : Output) (ts : option Instant) : Output :=
  {| out_destination := out_destination o; out_key := out_key o; out_payload := out_payload o;
     out_headers := out_headers o; out_source_ts := ts; out_source_event_id := out_source_event_id o;
     out_source_partition := out_source_partition o; out_source_offset := out_source_offset o;
     out_l2_seq := out_l2_seq o |}.

Definition with_event_identity (o : Output) (e : Event) : Output :=
  {| out_destination := out_destination o; out_key := out_key o; out_payload := out_payload o;
     out_headers := out_headers o; out_source_ts := ev_source_ts e; out_source_event_id := Some (ev_id e);
     out_source_partition := Some (ev_partition e); out_source_offset := ev_source_offset e;
     out_l2_seq := ev_l2_seq e |}.

Definition with_source_event_id (o : Output) (id : Uuid) : Output :=
  {| out_destination := out_destination o; out_key := out_key o; out_payload := out_payload o;
     out_headers := out_headers o; out_source_ts := out_source_ts o; out_source_event_id := Some id;
     out_source_partition := out_source_partition o; out_source_offset := out_source_offset o;
     out_l2_seq := out_l2_seq o |}.

Definition with_source_partition (o : Output) (partition : PartitionId) : Output :=
  {| out_destination := out_destination o; out_key := out_key o; out_payload := out_payload o;
     out_headers := out_headers o; out_source_ts := out_source_ts o; out_source_event_id := out_source_event_id o;
     out_source_partition := Some partition; out_source_offset := out_source_offset o;
     out_l2_seq := out_l2_seq o |}.

Definition out_with_source_offset (o : Output) (offset : Z) : Output :=
  {| out_destination := out_destination o; out_key := out_key o; out_payload := out_payload o;
     out_headers := out_headers o; out_source_ts := out_source_ts o; out_source_event_id := out_source_event_id o;
     out_source_partition := out_source_partition o; out_source_offset := Some offset;
     out_l2_seq := out_l2_seq o |}.

Definition into_event (o : Output) (id : Uuid) (timestamp : Z) (source : string) (partition : PartitionId) : Event :=
  {| ev_id := id; ev_timestamp := timestamp; ev_source := source; ev_partition := partition;
     ev_metadata := out_headers o; ev_payload := out_payload o; ev_source_ts := out_source_ts o;
     ev_source_offset := out_source_offset o; ev_l2_seq := out_l2_seq o |}.

(** * Wire structs *)

Record WireEvent := {
  we_id : Uuid;
  we_timestamp : Z;
  we_source : string;
  we_partition : PartitionId;
  we_metadata : Headers;
  we_payload : bytes;
  we_source_offset : option Z;
  we_l2_seq : option Z;
}.

Record WireOutput := {
  wo_destination : string;
  wo_key : option bytes;
  wo_payload : bytes;
  wo_headers : Headers;
  wo_source_event_id : option Uuid;
  wo_source_partition : option PartitionId;
  wo_source_offset : option Z;
  wo_l2_seq : option Z;
}.

Definition WireEvent_from (e : Event) : WireEvent :=
  {| we_id := ev_id e; we_timestamp := ev_timestamp e; we_source := ev_source e; we_partition := ev_partition e;
     we_metadata := ev_metadata e; we_payload := ev_payload e; we_source_offset := ev_source_offset e;
     we_l2_seq := ev_l2_seq e |}.

Definition Event_from (w : WireEvent) : Event :=
  {| ev_id := we_id w; ev_timestamp := we_timestamp w; ev_source := we_source w; ev_partition := we_partition w;
     ev_metadata := we_metadata w; ev_payload := we_payload w; ev_source_ts := None;
     ev_source_offset := we_source_offset w; ev_l2_seq := we_l2_seq w |}.

Definition WireOutput_from (o : Output) : WireOutput :=
  {| wo_destination := out_destination o; wo_key := out_key o; wo_payload := out_payload o;
     wo_headers := out_headers o; wo_source_event_id := out_source_event_id o;
     wo_source_partition := out_source_partition o; wo_source_offset := out_source_offset o;
     wo_l2_seq := out_l2_seq o |}.

Definition Output_from (w : WireOutput) : Output :=
  {| out_destination := wo_destination w; out_key := wo_key w; out_payload := wo_payload w;
     out_headers := wo_headers w; out_source_ts := None; out_source_event_id := wo_source_event_id w;
     out_source_partition := wo_source_partition w; out_source_offset := wo_source_offset w;
     out_l2_seq := wo_l2_seq w |}.

Lemma Event_from_wire e : Event_from (WireEvent_from e) = ev_set_source_ts e None.
Proof. by destruct e. Qed.

Lemma Output_from_wire o : Output_from (WireOutput_from o) = out_with_source_ts o None.
Proof. by destruct o. Qed.

(** * [TransportCodec] *)

Inductive TransportCodec := MsgPack | Json.

(** rmp_serde and serde_json on the wire structs. *)
Class WireCodecs := {
  wire_event_codec : TransportCodec -> Codec WireEvent;
  wire_output_codec : TransportCodec -> Codec WireOutput;
}.
Class WireCodecsLaws `{WireCodecs} : Prop := {
  wire_event_laws c : @CodecLaws WireEvent (wire_event_codec c);
  wire_output_laws c : @CodecLaws WireOutput (wire_output_codec c);
}.

Section Codec.
Context `{WireCodecs}.

Definition encode_event (c : TransportCodec) (e : Event) : Result bytes :=
  match @serialize _ (wire_event_codec c) (WireEvent_from e) with
  | Some bs => Ok bs
  | None => Err (Serialization "encode")
  end.

Definition decode_event (c : TransportCodec) (data : bytes) : Result Event :=
  match @deserialize _ (wire_event_codec c) data with
  | Some wire => Ok (Event_from wire)
  | None => Err (Serialization "decode")
  end.

Definition encode_events (c : TransportCodec) (es : list Event) : Result (list bytes) := try_map (encode_event c) es.
Definition decode_events (c : TransportCodec) (data : list bytes) : Result (list Event) := try_map (decode_event c) data.

Definition encode_output (c : TransportCodec) (o : Output) : Result bytes :=
  match @serialize _ (wire_output_codec c) (WireOutput_from o) with
  | Some bs => Ok bs
  | None => Err (Serialization "encode")
  end.

Definition decode_output (c : TransportCodec) (data : bytes) : Result Output :=
  match @deserialize _ (wire_output_codec c) data with
  | Some wire => Ok (Output_from wire)
  | None => Err (Serialization "decode")
  end.

Definition encode_outputs (c : TransportCodec) (os : list Output) : Result (list bytes) := try_map (encode_output c) os.
Definition decode_outputs (c : TransportCodec) (data : list bytes) : Result (list Output) := try_map (decode_output c) data.

Context `{!WireCodecsLaws}.

Lemma decode_encode_event c e bs : encode_event c e = Ok bs -> decode_event c bs = Ok (ev_set_source_ts e None).
Proof.
  unfold encode_event, decode_event. destruct (serialize _) as [b|] eqn:E; [|done]. intros [= <-].
  by rewrite (@deserialize_serialize _ _ (wire_event_laws c) _ _ E), Event_from_wire.
Qed.

Lemma decode_encode_output c o bs : encode_output c o = Ok bs -> decode_output c bs = Ok (out_with_source_ts o None).
Proof.
  unfold encode_output, decode_output. destruct (serialize _) as [b|] eqn:E; [|done]. intros [= <-].
  by rewrite (@deserialize_serialize _ _ (wire_output_laws c) _ _ E), Output_from_wire.
Qed.
End Codec.

(** Decoding each item of an encoded batch. *)
Lemma try_map_roundtrip {E A B} (f : A -> result E B) (g : B -> result E A) (norm : A -> A) l ys :
  (forall x y, f x = Ok y -> g y = Ok (norm x)) -> try_map f l = Ok ys -> try_map g ys = Ok (map norm l).
Proof.
  intros Hg Hl. apply try_map_ok in Hl. apply try_map_ok. induction Hl; cbn; constructor; auto.
Qed.
