(* ===== verification/BatchWire.v ===== *)
(** Batch framing between the engine and out-of-process processors
    (crates/aeon-engine/src/batch_wire.rs). The decoder is characterised exactly: which byte
    strings it accepts and what it returns on them. The up-front reservations
    ([Vec::with_capacity] of the announced counts) can exhaust memory and are not modelled. *)
From stdpp Require Import base gmap list strings.
From S2P Require Import Prelude Types Event.

Section BatchWire.
Variable crc32 : bytes -> Z.

(** * Encoding *)

(** [4B len + bytes]; the cast to [u32] truncates. *)
Definition item (e : bytes) : bytes := le 4 (Z.of_nat (length e)) ++ e.
Definition items (es : list bytes) : bytes := concat (item <$> es).
Definition group (es : list bytes) : bytes := le 4 (Z.of_nat (length es)) ++ items es.

Definition serialize_batch_request (batch_id : Z) (events : list bytes) : bytes :=
  let buf := le 8 batch_id ++ le 4 (Z.of_nat (length events)) ++ items events in
  buf ++ le 4 (crc32 buf).

Definition serialize_batch_response (batch_id : Z) (outputs_per_event : list (list bytes)) (signature : bytes) : bytes :=
  let buf := le 8 batch_id ++ le 4 (Z.of_nat (length outputs_per_event)) ++ concat (group <$> outputs_per_event) in
  buf ++ le 4 (crc32 buf) ++ signature.

(** * Decoding *)

Record BatchRequest := { rq_batch_id : Z; rq_events : list bytes }.
Record BatchResponse := { rs_batch_id : Z; rs_outputs_per_event : list (list bytes); rs_signature : bytes }.

(** [for _ in 0..n]: a length and that many bytes, all inside the first [plen] bytes. *)
Fixpoint read_items (short long : string) (n : nat) (data : bytes) (plen offset : nat) (acc : list bytes)
    : Result (list bytes * nat) :=
  match n with
  | O => Ok (acc, offset)
  | S n' =>
    if decide (plen < offset + 4) then Err (Serialization short)
    else
      let len := un_le (slice offset 4 data) in
      let offset := offset + 4 in
      if decide (Z.of_nat plen < Z.of_nat offset + len)%Z then Err (Serialization long)
      else read_items short long n' data plen (offset + Z.to_nat len) (acc ++ [slice offset (Z.to_nat len) data])
  end.

Fixpoint read_groups (n : nat) (data : bytes) (plen offset : nat) (acc : list (list bytes))
    : Result (list (list bytes) * nat) :=
  match n with
  | O => Ok (acc, offset)
  | S n' =>
    if decide (plen < offset + 4) then Err (Serialization "unexpected end of batch response")
    else
      let output_count := un_le (slice offset 4 data) in
      let? (outputs, offset) :=
        read_items "unexpected end of output data" "output data exceeds buffer" (Z.to_nat output_count) data plen (offset + 4) [] in
      read_groups n' data plen offset (acc ++ [outputs])
  end.

Definition deserialize_batch_request (data : bytes) : Result BatchRequest :=
  if decide (length data < 16) then Err (Serialization "batch request too short")
  else
    let plen := length data - 4 in
    let payload := take plen data in
    if decide (un_le (slice plen 4 data) = crc32 payload) then
      let batch_id := un_le (slice 0 8 data) in
      let event_count := un_le (slice 8 4 data) in
      let? (events, _) :=
        read_items "unexpected end of batch request" "event data exceeds buffer" (Z.to_nat event_count) data plen 12 [] in
      Ok {| rq_batch_id := batch_id; rq_events := events |}
    else Err (Serialization "CRC32 mismatch").

Definition deserialize_batch_response (data : bytes) : Result BatchResponse :=
  if decide (length data < 80) then Err (Serialization "batch response too short")
  else
    let signature := drop (length data - 64) data in
    let crc_offset := length data - 64 - 4 in
    let payload := take crc_offset data in
    if decide (un_le (slice crc_offset 4 data) = crc32 payload) then
      let batch_id := un_le (slice 0 8 data) in
      let event_count := un_le (slice 8 4 data) in
      let? (outputs, _) := read_groups (Z.to_nat event_count) data crc_offset 12 [] in
      Ok {| rs_batch_id := batch_id; rs_outputs_per_event := outputs; rs_signature := signature |}
    else Err (Serialization "CRC32 mismatch").

(** * Typed helpers *)

Context `{WireCodecs}.

Definition encode_batch_request (batch_id : Z) (events : list Event) (codec : TransportCodec) : Result bytes :=
  let? encoded := encode_events codec events in Ok (serialize_batch_request batch_id encoded).

Definition decode_batch_request (data : bytes) (codec : TransportCodec) : Result (Z * list Event) :=
  let? parsed := deserialize_batch_request data in
  let? events := decode_events codec (rq_events parsed) in
  Ok (rq_batch_id parsed, events).

Definition encode_batch_response (batch_id : Z) (outputs_per_event : list (list Output)) (signature : bytes)
    (codec : TransportCodec) : Result bytes :=
  let? encoded := try_map (encode_outputs codec) outputs_per_event in
  Ok (serialize_batch_response batch_id encoded signature).

Record DecodedBatchResponse := {
  db_batch_id : Z;
  db_outputs_per_event : list (list Output);
  db_signature : bytes;
}.

Definition decode_batch_response (data : bytes) (codec : TransportCodec) : Result DecodedBatchResponse :=
  let? parsed := deserialize_batch_response data in
  let? all := try_map (decode_outputs codec) (rs_outputs_per_event parsed) in
  Ok {| db_batch_id := rs_batch_id parsed; db_outputs_per_event := all; db_signature := rs_signature parsed |}.

(** * What the loops accept *)

Definition fits (e : bytes) : Prop := (Z.of_nat (length e) < 2 ^ 32)%Z.

Lemma length_item e : length (item e) = 4 + length e.
Proof. unfold item. len. Qed.

(** Reading the item at [offset]. *)
Lemma slice_item data offset pre e suf :
  data = pre ++ item e ++ suf -> offset = length pre -> fits e ->
  un_le (slice offset 4 data) = Z.of_nat (length e) /\ slice (offset + 4) (length e) data = e.
Proof.
  unfold item, fits. intros -> -> He. split.
  - rewrite <-app_assoc, slice_app_mid by len. apply un_le_le_u32. unfold in_u32. lia.
  - rewrite <-app_assoc, app_assoc. apply slice_app_mid; len.
Qed.

Lemma read_items_complete short long es : forall data plen offset acc pre suf tl,
  data = pre ++ items es ++ suf ++ tl -> offset = length pre ->
  plen = offset + length (items es) + length suf -> Forall fits es ->
  read_items short long (length es) data plen offset acc = Ok (acc ++ es, offset + length (items es)).
Proof.
  induction es as [|e es IH]; intros data plen offset acc pre suf tl Hd Ho Hp Hf.
  { cbn. by rewrite app_nil_r, Nat.add_0_r. }
  apply Forall_cons in Hf as [He Hf]. change (items (e :: es)) with (item e ++ items es) in *.
  rewrite <-app_assoc in Hd. destruct (slice_item _ _ _ _ _ Hd Ho He) as [Hl Hs].
  rewrite length_app, length_item in *. cbn [length read_items]. rewrite decide_False by lia.
  rewrite Hl, decide_False, Nat2Z.id, Hs by lia.
  rewrite (IH data plen _ _ (pre ++ item e) suf tl).
  - rewrite <-app_assoc. do 2 f_equal. lia.
  - by rewrite <-app_assoc.
  - rewrite length_app, length_item. lia.
  - lia.
  - done.
Qed.

(** A length field inside the data. *)
Lemma slice_field k offset data :
  Forall is_byte data -> offset + k <= length data ->
  (0 <= un_le (slice offset k data) < 256 ^ Z.of_nat k)%Z /\ le k (un_le (slice offset k data)) = slice offset k data.
Proof.
  intros Hb Hl. assert (Hsb : Forall is_byte (slice offset k data)) by (by apply Forall_take, Forall_drop).
  assert (Hsl : length (slice offset k data) = k) by (unfold slice; rewrite length_take, length_drop; lia).
  pose proof (le_un_le _ Hsb) as Hle. pose proof (length_un_le_bound _ Hsb) as Hlb. by rewrite Hsl in *.
Qed.

Lemma read_items_sound short long n : forall data plen offset acc es off',
  Forall is_byte data -> plen <= length data -> offset <= plen ->
  read_items short long n data plen offset acc = Ok (es, off') ->
  exists new, es = acc ++ new /\ length new = n /\ Forall fits new /\ off' <= plen
    /\ off' = offset + length (items new) /\ slice offset (off' - offset) data = items new.
Proof.
  induction n as [|n IH]; intros data plen offset acc es off' Hb Hpl Ho.
  { cbn. intros [= <- <-]. exists []. rewrite app_nil_r, Nat.sub_diag. unfold slice. cbn. repeat split; auto with lia. }
  cbn [read_items]. case_decide as Ho4; [done|]. set (l := un_le _). case_decide as Hl; [done|].
  destruct (slice_field 4 offset data Hb) as [Hlb Hle]; [lia|]. fold l in Hlb, Hle.
  change (256 ^ Z.of_nat 4)%Z with (2 ^ 32)%Z in Hlb. intros Hr.
  apply IH in Hr as (new & -> & Hn & Hf & Hoff & -> & Hs); [|done|done|lia].
  set (e := slice (offset + 4) (Z.to_nat l) data) in *.
  assert (He : length e = Z.to_nat l) by (unfold e, slice; rewrite length_take, length_drop; lia).
  exists (e :: new). change (items (e :: new)) with (item e ++ items new). rewrite length_app, length_item.
  split; [by rewrite <-app_assoc|]. split; [cbn; lia|]. split; [constructor; [unfold fits; lia|done]|].
  split; [lia|]. split; [lia|].
  replace (_ - _) with (4 + (Z.to_nat l + length (items new))) by lia.
  replace (_ - _) with (length (items new)) in Hs by lia.
  rewrite !slice_add, Hs. unfold item. rewrite He, Z2Nat.id, Hle by lia. by rewrite <-app_assoc.
Qed.

Lemma length_group es : length (group es) = 4 + length (items es).
Proof. unfold group. len. Qed.

Definition group_fits (es : list bytes) : Prop := (Z.of_nat (length es) < 2 ^ 32)%Z /\ Forall fits es.
Definition groups (gs : list (list bytes)) : bytes := concat (group <$> gs).

Lemma read_groups_complete gs : forall data plen offset acc pre suf tl,
  data = pre ++ groups gs ++ suf ++ tl -> offset = length pre ->
  plen = offset + length (groups gs) + length suf -> Forall group_fits gs ->
  read_groups (length gs) data plen offset acc = Ok (acc ++ gs, offset + length (groups gs)).
Proof.
  induction gs as [|g gs IH]; intros data plen offset acc pre suf tl Hd Ho Hp Hf.
  { cbn. by rewrite app_nil_r, Nat.add_0_r. }
  apply Forall_cons in Hf as [[Hn Hg] Hf]. change (groups (g :: gs)) with (group g ++ groups gs) in *.
  rewrite length_app, length_group in *. cbn [length read_groups]. rewrite decide_False by lia.
  assert (Hc : un_le (slice offset 4 data) = Z.of_nat (length g)).
  { rewrite Hd, Ho. unfold group. rewrite <-!app_assoc, slice_app_mid by len. apply un_le_le_u32. unfold in_u32. lia. }
  rewrite Hc, Nat2Z.id. erewrite (read_items_complete _ _ g data plen (offset + 4) [] (pre ++ le 4 (Z.of_nat (length g))) (groups gs ++ suf) tl);
    [|rewrite Hd; unfold group; by rewrite <-!app_assoc|rewrite Ho; len|rewrite length_app; lia|done].
  rewrite (IH data plen _ _ (pre ++ group g) suf tl).
  - rewrite <-app_assoc. cbn [app]. do 2 f_equal. lia.
  - by rewrite <-app_assoc, Hd, <-app_assoc.
  - rewrite length_app, length_group. lia.
  - lia.
  - done.
Qed.

Lemma read_groups_sound n : forall data plen offset acc gs off',
  Forall is_byte data -> plen <= length data -> offset <= plen ->
  read_groups n data plen offset acc = Ok (gs, off') ->
  exists new, gs = acc ++ new /\ length new = n /\ Forall group_fits new /\ off' <= plen
    /\ off' = offset + length (groups new) /\ slice offset (off' - offset) data = groups new.
Proof.
  induction n as [|n IH]; intros data plen offset acc gs off' Hb Hpl Ho.
  { cbn. intros [= <- <-]. exists []. rewrite app_nil_r, Nat.sub_diag. unfold slice. cbn. repeat split; auto with lia. }
  cbn [read_groups]. case_decide as Ho4; [done|]. set (c := un_le _).
  destruct (slice_field 4 offset data Hb) as [Hlb Hle]; [lia|]. fold c in Hlb, Hle.
  change (256 ^ Z.of_nat 4)%Z with (2 ^ 32)%Z in Hlb.
  destruct (read_items _ _ _ _ _ _ _) as [[g o1]|] eqn:Hg; [|done]. intros Hr.
  apply read_items_sound in Hg as (g' & -> & Hgn & Hgf & Ho1 & -> & Hgs); [|done|done|lia]. cbn [app] in *.
  apply IH in Hr as (new & -> & Hn & Hf & Hoff & -> & Hs); [|done|done|lia].
  exists (g' :: new). change (groups (g' :: new)) with (group g' ++ groups new). rewrite length_app, length_group.
  split; [by rewrite <-app_assoc|]. split; [cbn; lia|]. split; [constructor; [split; [lia|done]|done]|].
  split; [lia|]. split; [lia|].
  replace (_ - _) with (4 + (length (items g') + length (groups new))) by lia.
  replace (_ - _) with (length (items g')) in Hgs by lia. replace (_ - _) with (length (groups new)) in Hs by lia.
  rewrite !slice_add, Hgs, Hs. unfold group. rewrite Hgn, Z2Nat.id, Hle by lia. by rewrite <-app_assoc.
Qed.

(** * The accepted byte strings *)

Lemma split_tail k (data : bytes) :
  k <= length data -> data = take (length data - k) data ++ slice (length data - k) k data.
Proof. intros Hk. unfold slice. rewrite (take_ge _ k) by (rewrite length_drop; lia). by rewrite take_drop. Qed.

(** The bytes before the checksum: a 12-byte header, [body], and [trailing] bytes. *)
Lemma split_header (data : bytes) off plen body :
  12 <= off -> off <= plen -> plen <= length data -> slice 12 (off - 12) data = body ->
  take plen data = slice 0 8 data ++ slice 8 4 data ++ body ++ slice off (plen - off) data.
Proof.
  intros H12 Ho Hp <-. change (take plen data) with (slice 0 plen data).
  replace plen with (8 + (4 + ((off - 12) + (plen - off)))) at 1 by lia.
  rewrite !slice_add. repeat f_equal. lia.
Qed.

Lemma header_fields (data : bytes) id n rest :
  data = le 8 id ++ le 4 n ++ rest -> in_u64 id -> in_u32 n ->
  un_le (slice 0 8 data) = id /\ un_le (slice 8 4 data) = n.
Proof.
  intros -> Hid Hn. pose proof (slice_app_mid 0 8 [] (le 8 id) (le 4 n ++ rest)) as H0. cbn [app] in H0.
  rewrite H0, slice_app_mid by len. by rewrite un_le_le_u64, un_le_le_u32.
Qed.

Lemma request_decodes data id events trailing :
  (forall bs, in_u32 (crc32 bs)) -> in_u64 id -> (Z.of_nat (length events) < 2 ^ 32)%Z -> Forall fits events ->
  (let payload := le 8 id ++ le 4 (Z.of_nat (length events)) ++ items events ++ trailing in
   data = payload ++ le 4 (crc32 payload)) ->
  deserialize_batch_request data = Ok {| rq_batch_id := id; rq_events := events |}.
Proof.
  intros Hcrc Hid Hn Hf Hd. set (payload := le 8 id ++ _) in Hd.
  assert (Hp : length payload = 12 + length (items events) + length trailing) by (unfold payload; len).
  assert (Hld : length data = length payload + 4) by (rewrite Hd; len).
  assert (Ht : take (length payload) data = payload) by (rewrite Hd; apply take_app_length).
  assert (Hs : slice (length payload) 4 data = le 4 (crc32 payload)) by (rewrite Hd at 1; apply slice_app_r; len).
  destruct (header_fields data id (Z.of_nat (length events)) (items events ++ trailing ++ le 4 (crc32 payload))) as [H8 H4];
    [rewrite Hd; unfold payload at 1; by rewrite <-!app_assoc|done|unfold in_u32; lia|].
  unfold deserialize_batch_request. rewrite decide_False by lia. rewrite Hld, Nat.add_sub, Ht, Hs.
  rewrite un_le_le_u32, decide_True, H8, H4, Nat2Z.id by done.
  erewrite (read_items_complete _ _ events data _ 12 [] (le 8 id ++ le 4 (Z.of_nat (length events))) trailing (le 4 (crc32 payload)));
    [done|rewrite Hd; unfold payload at 1; by rewrite <-!app_assoc|len|lia|done].
Qed.

Lemma response_decodes data id outs sig trailing :
  (forall bs, in_u32 (crc32 bs)) -> in_u64 id -> (Z.of_nat (length outs) < 2 ^ 32)%Z -> Forall group_fits outs ->
  length sig = 64 ->
  (let payload := le 8 id ++ le 4 (Z.of_nat (length outs)) ++ groups outs ++ trailing in
   data = payload ++ le 4 (crc32 payload) ++ sig) ->
  deserialize_batch_response data = Ok {| rs_batch_id := id; rs_outputs_per_event := outs; rs_signature := sig |}.
Proof.
  intros Hcrc Hid Hn Hf Hsig Hd. set (payload := le 8 id ++ _) in Hd.
  assert (Hp : length payload = 12 + length (groups outs) + length trailing) by (unfold payload; len).
  assert (Hld : length data = length payload + 4 + 64) by (rewrite Hd, !length_app, length_le; lia).
  assert (Ht : take (length payload) data = payload) by (rewrite Hd; apply take_app_length).
  assert (Hs : slice (length payload) 4 data = le 4 (crc32 payload)) by (rewrite Hd at 1; apply slice_app_mid; len).
  assert (Hdr : drop (length payload + 4) data = sig).
  { rewrite Hd, app_assoc. apply drop_app_length'. len. }
  destruct (header_fields data id (Z.of_nat (length outs)) (groups outs ++ trailing ++ le 4 (crc32 payload) ++ sig)) as [H8 H4];
    [rewrite Hd; unfold payload at 1; by rewrite <-!app_assoc|done|unfold in_u32; lia|].
  unfold deserialize_batch_response. rewrite decide_False by lia. rewrite Hld, Nat.add_sub, Hdr, Nat.add_sub, Ht, Hs.
  rewrite un_le_le_u32, decide_True, H8, H4, Nat2Z.id by done.
  erewrite (read_groups_complete outs data _ 12 [] (le 8 id ++ le 4 (Z.of_nat (length outs))) trailing (le 4 (crc32 payload) ++ sig));
    [done|rewrite Hd; unfold payload at 1; by rewrite <-!app_assoc|len|lia|done].
Qed.

(** C23. The request decoder is exact: it accepts a byte string iff it is a header, that many
    length-prefixed events, possibly trailing bytes, and the checksum of all of it; and it
    returns precisely that batch id and those events. With no trailing bytes this is the round
    trip of an encoded batch of fewer than 2^32 events, each below 4 GiB. *)
Theorem request_wire_exact data id events :
  (forall bs, in_u32 (crc32 bs)) -> Forall is_byte data ->
  deserialize_batch_request data = Ok {| rq_batch_id := id; rq_events := events |}
  <-> in_u64 id /\ (Z.of_nat (length events) < 2 ^ 32)%Z /\ Forall fits events
      /\ exists trailing, let payload := le 8 id ++ le 4 (Z.of_nat (length events)) ++ items events ++ trailing in
           data = payload ++ le 4 (crc32 payload).
Proof.
  intros Hcrc Hb. split.
  - unfold deserialize_batch_request. case_decide as Hlen; [done|]. case_decide as Hc; [|done].
    destruct (read_items _ _ _ _ _ _ _) as [[es off]|] eqn:Hr; [|done]. intros [= <- ->].
    apply read_items_sound in Hr as (new & -> & Hn & Hf & Hoff & -> & Hs); [|done|lia|lia]. cbn [app] in *.
    destruct (slice_field 8 0 data Hb) as [Hid Hid']; [lia|]. destruct (slice_field 4 8 data Hb) as [Hct Hct']; [lia|].
    destruct (slice_field 4 (length data - 4) data Hb) as [_ Hcc]; [lia|].
    split; [exact Hid|]. split; [rewrite Hn; change (256 ^ Z.of_nat 4)%Z with (2 ^ 32)%Z in Hct; lia|]. split; [done|].
    exists (slice (12 + length (items new)) (length data - 4 - (12 + length (items new))) data).
    rewrite Hn, Z2Nat.id, Hid', Hct' by lia.
    rewrite <-(split_header data (12 + length (items new)) (length data - 4)) by (done || lia).
    cbn zeta. rewrite <-Hc, Hcc. apply split_tail. lia.
  - intros (Hid & Hn & Hf & trailing & Hd). exact (request_decodes _ _ _ trailing Hcrc Hid Hn Hf Hd).
Qed.

(** C24. The response decoder is exact in the same way: header, per input event a count and
    that many length-prefixed outputs, possibly trailing bytes, the checksum, and a 64-byte
    signature which the checksum does not cover and which is returned as it is. *)
Theorem response_wire_exact data id outs sig :
  (forall bs, in_u32 (crc32 bs)) -> Forall is_byte data ->
  deserialize_batch_response data = Ok {| rs_batch_id := id; rs_outputs_per_event := outs; rs_signature := sig |}
  <-> in_u64 id /\ (Z.of_nat (length outs) < 2 ^ 32)%Z /\ Forall group_fits outs /\ length sig = 64
      /\ exists trailing, let payload := le 8 id ++ le 4 (Z.of_nat (length outs)) ++ groups outs ++ trailing in
           data = payload ++ le 4 (crc32 payload) ++ sig.
Proof.
  intros Hcrc Hb. split.
  - unfold deserialize_batch_response. case_decide as Hlen; [done|]. set (plen := length data - 64 - 4).
    case_decide as Hc; [|done].
    destruct (read_groups _ _ _ _ _) as [[es off]|] eqn:Hr; [|done]. intros [= <- -> <-].
    apply read_groups_sound in Hr as (new & -> & Hn & Hf & Hoff & -> & Hs); [|done|lia|lia]. cbn [app] in *.
    destruct (slice_field 8 0 data Hb) as [Hid Hid']; [lia|]. destruct (slice_field 4 8 data Hb) as [Hct Hct']; [lia|].
    destruct (slice_field 4 plen data Hb) as [_ Hcc]; [lia|].
    split; [exact Hid|]. split; [rewrite Hn; change (256 ^ Z.of_nat 4)%Z with (2 ^ 32)%Z in Hct; lia|]. split; [done|].
    split; [rewrite length_drop; lia|].
    exists (slice (12 + length (groups new)) (plen - (12 + length (groups new))) data).
    rewrite Hn, Z2Nat.id, Hid', Hct' by lia.
    rewrite <-(split_header data (12 + length (groups new)) plen) by (done || lia).
    cbn zeta. rewrite <-Hc, Hcc. unfold slice. replace (length data - 64) with (plen + 4) by lia.
    by rewrite <-(drop_drop data 4 plen), take_drop, take_drop.
  - intros (Hid & Hn & Hf & Hsig & trailing & Hd). exact (response_decodes _ _ _ _ trailing Hcrc Hid Hn Hf Hsig Hd).
Qed.

(** C25. A batch survives the exchange with a processor: what the engine encodes, the processor
    decodes to the same batch id and events, in order, and what it sends back decodes to the same
    outputs grouped per event with the same signature; only the local timestamps are dropped. *)
Theorem batch_exchange `{!WireCodecsLaws} codec id events outs sig wire_req wire_resp :
  (forall bs, in_u32 (crc32 bs)) -> in_u64 id -> length sig = 64 ->
  (Z.of_nat (length events) < 2 ^ 32)%Z -> (Z.of_nat (length outs) < 2 ^ 32)%Z ->
  Forall (fun g => (Z.of_nat (length g) < 2 ^ 32)%Z) outs ->
  Forall (fun e => forall bs, encode_event codec e = Ok bs -> fits bs) events ->
  Forall (Forall (fun o => forall bs, encode_output codec o = Ok bs -> fits bs)) outs ->
  encode_batch_request id events codec = Ok wire_req ->
  encode_batch_response id outs sig codec = Ok wire_resp ->
  decode_batch_request wire_req codec = Ok (id, map (fun e => ev_set_source_ts e None) events)
  /\ decode_batch_response wire_resp codec
     = Ok {| db_batch_id := id; db_outputs_per_event := map (map (fun o => out_with_source_ts o None)) outs;
             db_signature := sig |}.
Proof.
  intros Hcrc Hid Hsig Hn Hno Hng Hfe Hfo. unfold encode_batch_request, encode_batch_response.
  destruct (encode_events codec events) as [ebs|] eqn:He; [|done]. intros [= <-].
  destruct (try_map (encode_outputs codec) outs) as [obs|] eqn:Ho; [|done]. intros [= <-].
  pose proof (proj1 (try_map_ok _ _ _) He) as He2. pose proof (proj1 (try_map_ok _ _ _) Ho) as Ho2. split.
  - unfold decode_batch_request. rewrite (request_decodes _ id ebs []); [|done|done|by rewrite <-(Forall2_length _ _ _ He2)| |].
    + cbn. unfold decode_events. by rewrite (try_map_roundtrip _ _ _ _ _ (decode_encode_event codec) He).
    + clear -He2 Hfe. induction He2; inversion Hfe; subst; constructor; auto.
    + cbn zeta. by rewrite app_nil_r.
  - unfold decode_batch_response. rewrite (response_decodes _ id obs sig []);
      [|done|done|by rewrite <-(Forall2_length _ _ _ Ho2)| |done|].
    + cbn. rewrite (try_map_roundtrip (encode_outputs codec) (decode_outputs codec) (map (fun o => out_with_source_ts o None)) outs obs); [done| |done].
      intros os bs Hos. by apply (try_map_roundtrip _ _ _ _ _ (decode_encode_output codec)).
    + clear -Ho2 Hng Hfo. induction Ho2 as [|os bs outs obs Hob _ IH]; [constructor|].
      apply Forall_cons in Hng as [Hn Hng]. apply Forall_cons in Hfo as [Hf Hfo]. constructor; [|auto].
      apply try_map_ok in Hob. split; [by rewrite <-(Forall2_length _ _ _ Hob)|].
      clear -Hob Hf. induction Hob; inversion Hf; subst; constructor; auto.
    + cbn zeta. by rewrite app_nil_r.
Qed.
End BatchWire.

(** * Examples *)

Definition event_tuple (w : WireEvent) :=
  (we_id w, we_timestamp w, we_source w, we_partition w, we_metadata w, we_payload w, we_source_offset w, we_l2_seq w).
Definition output_tuple (w : WireOutput) :=
  (wo_destination w, wo_key w, wo_payload w, wo_headers w, wo_source_event_id w, wo_source_partition w,
   wo_source_offset w, wo_l2_seq w).

Definition bit_codecs : WireCodecs := {|
  wire_event_codec _ := {|
    serialize w := Some (bits_of (event_tuple w));
    deserialize bs := (fun '(i, t, s, p, m, pl, o, q) =>
      {| we_id := i; we_timestamp := t; we_source := s; we_partition := p; we_metadata := m; we_payload := pl;
         we_source_offset := o; we_l2_seq := q |}) <$> of_bits bs |};
  wire_output_codec _ := {|
    serialize w := Some (bits_of (output_tuple w));
    deserialize bs := (fun '(d, k, pl, h, i, p, o, q) =>
      {| wo_destination := d; wo_key := k; wo_payload := pl; wo_headers := h; wo_source_event_id := i;
         wo_source_partition := p; wo_source_offset := o; wo_l2_seq := q |}) <$> of_bits bs |};
|}.

Lemma bit_codecs_laws : @WireCodecsLaws bit_codecs.
Proof.
  split; intros c; constructor; intros x bs; cbn [serialize deserialize wire_event_codec wire_output_codec bit_codecs];
    intros [= <-]; rewrite of_bits_of; by destruct x.
Qed.

Definition ex_event : Event := ev_with_source_ts (Event_new [1; 2]%Z 7 "src" 3 [104; 105]%Z) 99.
Definition ex_output : Output := with_event_identity (Output_new "dst" [111]%Z) ex_event.

Lemma request_wire_exact_witness :
  deserialize_batch_request sum32 (serialize_batch_request sum32 42 [[1; 2]; []; [3]]%Z)
    = Ok {| rq_batch_id := 42; rq_events := [[1; 2]; []; [3]]%Z |}.
Proof.
  apply (request_wire_exact sum32 (serialize_batch_request sum32 42 [[1; 2]; []; [3]]%Z) 42 [[1; 2]; []; [3]]%Z sum32_u32).
  - vm_compute. repeat constructor; discriminate.
  - split; [by unfold in_u64|]. split; [done|]. split; [repeat constructor|]. by exists [].
Defined.

Lemma response_wire_exact_witness :
  deserialize_batch_response sum32 (serialize_batch_response sum32 9 [[[1]; [2; 3]]; []]%Z (replicate 64 5%Z))
    = Ok {| rs_batch_id := 9; rs_outputs_per_event := [[[1]; [2; 3]]; []]%Z; rs_signature := replicate 64 5%Z |}.
Proof.
  apply (response_wire_exact sum32 (serialize_batch_response sum32 9 [[[1]; [2; 3]]; []]%Z (replicate 64 5%Z)) 9
           [[[1]; [2; 3]]; []]%Z (replicate 64 5%Z) sum32_u32).
  - vm_compute. repeat constructor; discriminate.
  - split; [by unfold in_u64|]. split; [done|]. split; [repeat constructor|]. split; [done|]. by exists [].
Defined.

Lemma batch_exchange_witness :
  exists wire_req wire_resp,
    @encode_batch_request sum32 bit_codecs 5 [ex_event] MsgPack = Ok wire_req
    /\ @encode_batch_response sum32 bit_codecs 5 [[ex_output]] (replicate 64 0%Z) MsgPack = Ok wire_resp
    /\ @decode_batch_request sum32 bit_codecs wire_req MsgPack = Ok (5%Z, [ev_set_source_ts ex_event None])
    /\ @decode_batch_response sum32 bit_codecs wire_resp MsgPack
       = Ok {| db_batch_id := 5; db_outputs_per_event := [[out_with_source_ts ex_output None]];
               db_signature := replicate 64 0%Z |}.
Proof.
  eexists _, _. split; [reflexivity|]. split; [reflexivity|].
  apply (@batch_exchange sum32 bit_codecs bit_codecs_laws MsgPack 5 [ex_event] [[ex_output]] (replicate 64 0%Z) _ _ sum32_u32).
  - by unfold in_u64.
  - done.
  - done.
  - done.
  - by repeat constructor.
  - constructor; [|done]. intros bs [= <-]. vm_compute. reflexivity.
  - constructor; [|done]. constructor; [|done]. intros bs [= <-]. vm_compute. reflexivity.
  - reflexivity.
  - reflexivity.
Defined.
