(* ===== verification/AtRest.v ===== *)
(** At-rest encryption of stored payloads (crates/aeon-crypto/src/at_rest.rs).

    AES-256-GCM is a third-party primitive and key wrapping belongs to the KEK component:
    both are operations of the class [CryptoOps]; [CryptoLaws] states what this component
    relies on. *)
From stdpp Require Import base gmap list strings.
From S2P Require Import Prelude Types.

Class CryptoOps := {
  KekHandle : Type;
  DekBytes : Type;
  WrappedDek : Type;
  (** [KekHandle::wrap_new_dek], the random draw being an argument. *)
  wrap_new_dek : KekHandle -> bytes -> Result (DekBytes * WrappedDek);
  unwrap_dek : KekHandle -> WrappedDek -> Result DekBytes;
  aes_encrypt : DekBytes -> bytes -> bytes -> option bytes;
  aes_decrypt : DekBytes -> bytes -> bytes -> option bytes;
}.

Class CryptoLaws `{CryptoOps} : Prop := {
  unwrap_wrapped k rnd dek w : wrap_new_dek k rnd = Ok (dek, w) -> unwrap_dek k w = Ok dek;
  aes_decrypt_encrypt dek nonce pt ct :
    aes_encrypt dek nonce pt = Some ct -> aes_decrypt dek nonce ct = Some pt;
  (** GCM output carries the 16-byte tag. *)
  aes_encrypt_length dek nonce pt ct :
    aes_encrypt dek nonce pt = Some ct -> length ct = length pt + 16;
}.

Definition AT_REST_NONCE_LEN : nat := 12.
Definition AT_REST_TAG_LEN : nat := 16.
Definition AT_REST_OVERHEAD : nat := AT_REST_NONCE_LEN + AT_REST_TAG_LEN.

Section AtRest.
Context `{CryptoOps}.

Record AtRestCipher := { dek : DekBytes; wrapped : WrappedDek }.

Definition generate (kek : KekHandle) (rnd : bytes) : Result AtRestCipher :=
  let? (d, w) := wrap_new_dek kek rnd in Ok {| dek := d; wrapped := w |}.

Definition from_wrapped (kek : KekHandle) (w : WrappedDek) : Result AtRestCipher :=
  let? d := unwrap_dek kek w in Ok {| dek := d; wrapped := w |}.

(** [nonce_bytes] is the draw from the system generator, 12 bytes. *)
Definition seal (c : AtRestCipher) (nonce_bytes : bytes) (plaintext : bytes) : Result bytes :=
  match aes_encrypt (dek c) nonce_bytes plaintext with
  | Some ciphertext => Ok (nonce_bytes ++ ciphertext)
  | None => Err (Crypto "at-rest seal failed")
  end.

Definition open (c : AtRestCipher) (sealed : bytes) : Result bytes :=
  if decide (length sealed < AT_REST_OVERHEAD) then
    Err (Crypto "at-rest sealed blob too short")
  else
    match aes_decrypt (dek c) (take AT_REST_NONCE_LEN sealed) (drop AT_REST_NONCE_LEN sealed) with
    | Some pt => Ok pt
    | None => Err (Crypto "at-rest open failed (wrong DEK? tampering?)")
    end.

Lemma open_seal `{!CryptoLaws} c nonce pt sealed :
  length nonce = AT_REST_NONCE_LEN -> seal c nonce pt = Ok sealed -> open c sealed = Ok pt.
Proof.
  unfold seal, open, AT_REST_OVERHEAD, AT_REST_TAG_LEN, AT_REST_NONCE_LEN. intros Hn.
  destruct (aes_encrypt _ _ _) as [ct|] eqn:E; [|done]. intros [= <-].
  pose proof (aes_encrypt_length _ _ _ _ E). rewrite decide_False by len.
  rewrite take_app_le, take_ge by lia. rewrite drop_app_ge by lia.
  replace (12 - length nonce) with 0 by lia. rewrite drop_0.
  by rewrite (aes_decrypt_encrypt _ _ _ _ E).
Qed.

(** Reopening with the KEK that produced the sidecar restores the same cipher. *)
Lemma from_wrapped_generate `{!CryptoLaws} k rnd c :
  generate k rnd = Ok c -> from_wrapped k (wrapped c) = Ok c.
Proof.
  unfold generate, from_wrapped. destruct (wrap_new_dek k rnd) as [[d w]|] eqn:E; [|done].
  intros [= <-]. cbn. by rewrite (unwrap_wrapped _ _ _ _ E).
Qed.
End AtRest.

(** A toy instance: the key is a byte, a wrapped key carries its KEK id; encryption adds the
    key to every byte and appends sixteen zero bytes. It shows the laws can hold. *)
Definition toy_crypto : CryptoOps := {|
  KekHandle := Z; DekBytes := Z; WrappedDek := (Z * Z);
  wrap_new_dek k rnd := Ok (un_le (take 1 rnd), (k, un_le (take 1 rnd)));
  unwrap_dek k w := if decide (fst w = k) then Ok (snd w) else Err (Crypto "wrong KEK");
  aes_encrypt d _ pt := Some (((Z.add d) <$> pt) ++ replicate 16 0%Z);
  aes_decrypt d _ ct := Some ((fun x => (x - d)%Z) <$> take (length ct - 16) ct);
|}.

Lemma toy_crypto_laws : @CryptoLaws toy_crypto.
Proof.
  constructor; cbn [toy_crypto KekHandle DekBytes WrappedDek wrap_new_dek unwrap_dek aes_encrypt aes_decrypt].
  - intros k rnd d w [= <- <-]. by rewrite decide_True.
  - intros d n pt ct Hs%(inj Some). subst ct. f_equal.
    rewrite length_app, length_replicate, length_fmap, take_app_le by (rewrite length_fmap; lia).
    rewrite take_ge by (rewrite length_fmap; lia). rewrite <-list_fmap_compose.
    rewrite <-(list_fmap_id pt) at 2. apply list_fmap_ext. intros i x _. cbn. lia.
  - intros d n pt ct Hs%(inj Some). subst ct. by rewrite length_app, length_fmap, length_replicate.
Qed.

Definition toy_dek_codec : @Codec (@WrappedDek toy_crypto) :=
  {| serialize (w : Z * Z) := Some (bits_of w); deserialize bs := of_bits bs |}.
Lemma toy_dek_laws : @CodecLaws _ toy_dek_codec.
Proof. constructor. intros w bs Hs%(inj Some). subst bs. apply of_bits_of. Qed.
