(* ===== verification/Kek.v ===== *)
(** Key encryption keys (crates/aeon-crypto/src/kek.rs) over the secret registry
    (crates/aeon-types/src/secrets.rs): wrapping and unwrapping data keys, and rotation. The
    handles are an instance of the operations the at-rest cipher is written against, so what
    [AtRest] relies on is proved here from the laws of AES-256-GCM alone.

    AES-256-GCM is the class [Gcm]; the environment and the providers of other crates (vault,
    cloud stores) are what the [SecretProvider] interface returns. The audit events of a refused
    unwrap are not modelled. *)
From stdpp Require Import base gmap list strings.
From S2P Require Import Prelude Types AtRest.

(** * Secrets *)

Inductive SecretScheme := SEnv | SDotEnv | SVault | SAwsSm | SAwsKms | SLiteral.

#[export] Instance SecretScheme_eq_dec : EqDecision SecretScheme.
Proof. solve_decision. Defined.

Record SecretRef := { scheme : SecretScheme; ref_path : string }.

Inductive SecretError :=
| MalformedRef (ref : string)
| UnknownScheme (name : string)
| SchemeNotRegistered (s : SecretScheme)
| EnvNotSet (name : string)
| DotEnvPathMissing
| DotEnvIo (path message : string)
| DotEnvKeyMissing (key : string)
| ProviderError (s : SecretScheme) (message : string)
| NotUtf8 (len : nat).

Record SecretProvider := { pv_scheme : SecretScheme; pv_resolve : string -> result SecretError bytes }.

(** [env]: the process environment, values as their UTF-8 bytes. *)
Definition EnvProvider (env : string -> option bytes) : SecretProvider :=
  {| pv_scheme := SEnv;
     pv_resolve path := match env path with Some v => Ok v | None => Err (EnvNotSet path) end |}.

(** The map from schemes to providers. *)
Definition SecretRegistry : Type := SecretScheme -> option SecretProvider.

Definition registry_empty : SecretRegistry := fun _ => None.
Definition register (r : SecretRegistry) (p : SecretProvider) : SecretRegistry :=
  fun s => if decide (s = pv_scheme p) then Some p else r s.

Definition resolve (r : SecretRegistry) (ref : SecretRef) : result SecretError bytes :=
  match r (scheme ref) with
  | Some p => pv_resolve p (ref_path ref)
  | None => Err (SchemeNotRegistered (scheme ref))
  end.

(** * Keys *)

Inductive KekDomain := LogContext | DataContext.

#[export] Instance KekDomain_eq_dec : EqDecision KekDomain.
Proof. solve_decision. Defined.

(** AES-256-GCM: key, nonce and text. *)
Class Gcm := {
  gcm_encrypt : bytes -> bytes -> bytes -> option bytes;
  gcm_decrypt : bytes -> bytes -> bytes -> option bytes;
}.
Class GcmLaws `{Gcm} : Prop := {
  gcm_decrypt_encrypt key nonce pt ct :
    gcm_encrypt key nonce pt = Some ct -> gcm_decrypt key nonce ct = Some pt;
  gcm_encrypt_length key nonce pt ct :
    gcm_encrypt key nonce pt = Some ct -> length ct = length pt + 16;
}.

Record Wrapped := {
  kek_domain : KekDomain;
  kek_id : string;
  dek_nonce : bytes;
  ciphertext : bytes;
}.

Record Kek := {
  domain : KekDomain;
  active_id : string;
  active_ref : SecretRef;
  previous_id : option string;
  previous_ref : option SecretRef;
  kek_registry : SecretRegistry;
}.

Definition Kek_new (d : KekDomain) (id : string) (ref : SecretRef) (r : SecretRegistry) : Kek :=
  {| domain := d; active_id := id; active_ref := ref; previous_id := None; previous_ref := None;
     kek_registry := r |}.

Definition with_previous (k : Kek) (id : string) (ref : SecretRef) : Kek :=
  {| domain := domain k; active_id := active_id k; active_ref := active_ref k;
     previous_id := Some id; previous_ref := Some ref; kek_registry := kek_registry k |}.

Definition GCM_NONCE_LEN : nat := 12.
Definition DEK_LEN : nat := 32.

(** [registry.resolve] and [ensure_kek_len]; a secret error becomes a configuration error. *)
Definition key_bytes (k : Kek) (ref : SecretRef) : Result bytes :=
  match resolve (kek_registry k) ref with
  | Err _ => Err (Config "secret")
  | Ok b => if decide (length b = 32) then Ok b else Err (Crypto "KEK is not 32 bytes")
  end.

Definition active_bytes (k : Kek) : Result bytes := key_bytes k (active_ref k).

Definition previous_bytes (k : Kek) : Result (option bytes) :=
  match previous_ref k with
  | None => Ok None
  | Some ref => let? b := key_bytes k ref in Ok (Some b)
  end.

Section Kek.
Context `{Gcm}.

(** [nonce] is the draw of the generator. *)
Definition encrypt_dek (kek nonce dek : bytes) : Result (bytes * bytes) :=
  if decide (length kek <> DEK_LEN) then Err (Crypto "KEK length")
  else match gcm_encrypt kek nonce dek with
       | Some ct => Ok (nonce, ct)
       | None => Err (Crypto "DEK wrap failed")
       end.

Definition decrypt_dek (kek nonce ct : bytes) : Result bytes :=
  if decide (length kek <> DEK_LEN) then Err (Crypto "KEK length")
  else if decide (length nonce <> GCM_NONCE_LEN) then Err (Crypto "GCM nonce length")
  else match gcm_decrypt kek nonce ct with
       | None => Err (Crypto "DEK unwrap failed")
       | Some pt => if decide (length pt <> DEK_LEN) then Err (Crypto "unwrapped DEK length") else Ok pt
       end.

Definition kek_wrap_dek (k : Kek) (nonce dek : bytes) : Result Wrapped :=
  let? kek := active_bytes k in
  let? (nonce, ct) := encrypt_dek kek nonce dek in
  Ok {| kek_domain := domain k; kek_id := active_id k; dek_nonce := nonce; ciphertext := ct |}.

(** Bytes [from .. from + n] of what the generators yield (a [u8] array is always full). *)
Definition draw (rnd : bytes) (from n : nat) : bytes :=
  (fun i => default 0%Z (rnd !! i)) <$> seq from n.

Definition kek_wrap_new_dek (k : Kek) (rnd : bytes) : Result (bytes * Wrapped) :=
  let dek := draw rnd 0 DEK_LEN in
  let? wrapped := kek_wrap_dek k (draw rnd DEK_LEN GCM_NONCE_LEN) dek in
  Ok (dek, wrapped).

Definition kek_unwrap_dek (k : Kek) (w : Wrapped) : Result bytes :=
  let unknown := Err (Crypto "no KEK available for this id") in
  if decide (kek_domain w <> domain k) then Err (Crypto "wrapped DEK belongs to another domain")
  else if decide (kek_id w = active_id k) then
    let? kek := active_bytes k in decrypt_dek kek (dek_nonce w) (ciphertext w)
  else match previous_id k with
       | Some prev_id =>
         if decide (prev_id = kek_id w) then
           let? prev := previous_bytes k in
           match prev with
           | Some kek => decrypt_dek kek (dek_nonce w) (ciphertext w)
           | None => unknown
           end
         else unknown
       | None => unknown
       end.

(** The operations [AtRest] is written against. *)
Definition kek_crypto : CryptoOps := {|
  KekHandle := Kek; DekBytes := bytes; WrappedDek := Wrapped;
  wrap_new_dek := kek_wrap_new_dek; unwrap_dek := kek_unwrap_dek;
  aes_encrypt := gcm_encrypt; aes_decrypt := gcm_decrypt;
|}.
End Kek.

(** * Properties *)

Section Keys.
Context `{!Gcm, !GcmLaws}.

Lemma length_draw rnd a n : length (draw rnd a n) = n.
Proof. unfold draw. by rewrite length_fmap, length_seq. Qed.

Lemma decrypt_encrypt kek nonce dek w :
  length nonce = GCM_NONCE_LEN -> length dek = DEK_LEN -> encrypt_dek kek nonce dek = Ok w ->
  decrypt_dek kek (fst w) (snd w) = Ok dek.
Proof.
  intros Hn Hd. unfold encrypt_dek, decrypt_dek. case_decide as Hk; [done|].
  destruct (gcm_encrypt kek nonce dek) as [ct|] eqn:E; [|done]. intros [= <-]. cbn [fst snd].
  rewrite decide_False by lia. rewrite (gcm_decrypt_encrypt _ _ _ _ E). by rewrite decide_False by lia.
Qed.

(** [kek] opens [w] to [dek]. *)
Definition opens_to (kek dek : bytes) (w : Wrapped) : Prop :=
  decrypt_dek kek (dek_nonce w) (ciphertext w) = Ok dek.

Lemma wrap_new_dek_inv k rnd dek w :
  kek_wrap_new_dek k rnd = Ok (dek, w) ->
  exists kek, active_bytes k = Ok kek /\ opens_to kek dek w
    /\ kek_domain w = domain k /\ kek_id w = active_id k.
Proof.
  unfold kek_wrap_new_dek, kek_wrap_dek. destruct (active_bytes k) as [kek|] eqn:Ha; [|done].
  destruct (encrypt_dek _ _ _) as [[n ct]|] eqn:E; [|done]. cbn. intros [= <- <-].
  exists kek. split_and!; try done. eapply (decrypt_encrypt _ _ _ (n, ct)); [(apply length_draw || done)..|exact E].
Qed.

Lemma unwrap_active k kek dek w :
  kek_domain w = domain k -> kek_id w = active_id k -> active_bytes k = Ok kek -> opens_to kek dek w ->
  kek_unwrap_dek k w = Ok dek.
Proof.
  intros Hd Hi Ha Hw. unfold kek_unwrap_dek. rewrite decide_False by (intros Hn; by apply Hn).
  by rewrite decide_True, Ha.
Qed.

Lemma unwrap_previous k kek dek w :
  kek_domain w = domain k -> kek_id w <> active_id k -> previous_id k = Some (kek_id w) ->
  previous_bytes k = Ok (Some kek) -> opens_to kek dek w -> kek_unwrap_dek k w = Ok dek.
Proof.
  intros Hd Hi Hp Ha Hw. unfold kek_unwrap_dek. rewrite decide_False by (intros Hn; by apply Hn).
  by rewrite decide_False, Hp, decide_True, Ha.
Qed.

Lemma unwrap_other_domain k w : kek_domain w <> domain k -> exists e, kek_unwrap_dek k w = Err e.
Proof. intros Hd. unfold kek_unwrap_dek. rewrite decide_True by done. by eexists. Qed.

Lemma unwrap_unknown_id k w :
  kek_id w <> active_id k -> previous_id k <> Some (kek_id w) -> exists e, kek_unwrap_dek k w = Err e.
Proof.
  intros Ha Hp. unfold kek_unwrap_dek. case_decide; [by eexists|]. rewrite decide_False by done.
  destruct (previous_id k) as [p|]; [|by eexists]. rewrite decide_False by congruence. by eexists.
Qed.

(** Key handles give the at-rest cipher what it relies on. *)
#[export] Instance kek_crypto_laws : @CryptoLaws kek_crypto.
Proof.
  split; cbn.
  - intros k rnd dek w Hw. apply wrap_new_dek_inv in Hw as (kek & Ha & Hw & Hd & Hi). by eapply unwrap_active.
  - apply gcm_decrypt_encrypt.
  - apply gcm_encrypt_length.
Qed.

(** A rotation: a new active key, the old one kept as the previous key. *)
Definition rotated (k : Kek) (id : string) (ref : SecretRef) (r : SecretRegistry) : Kek :=
  with_previous (Kek_new (domain k) id ref r) (active_id k) (active_ref k).

#[local] Abbreviation recover := (@from_wrapped kek_crypto).
#[local] Abbreviation sidecar := (@wrapped kek_crypto).

Lemma recover_unwrap (k : Kek) w d :
  kek_unwrap_dek k w = Ok d -> recover k w = Ok (@Build_AtRestCipher kek_crypto d w).
Proof. intros Hw. unfold from_wrapped. cbn. by rewrite Hw. Qed.

Lemma recover_err (k : Kek) w : (exists e, kek_unwrap_dek k w = Err e) -> exists e, recover k w = Err e.
Proof. intros [e He]. exists e. unfold from_wrapped. cbn. by rewrite He. Qed.

(** C26. Rotating the key encryption key loses no data: while the old key can still be resolved,
    a cipher made before the rotation is recovered from its sidecar by the rotated handle, and
    what it sealed opens; ciphers made after the rotation are recovered too; after a second
    rotation, and by a handle of the other domain, the sidecar is refused. *)
Theorem kek_rotation k rnd c id ref r :
  @generate kek_crypto k rnd = Ok c -> id <> active_id k ->
  resolve r (active_ref k) = resolve (kek_registry k) (active_ref k) ->
  recover (rotated k id ref r) (sidecar c) = Ok c
  /\ (forall nonce pt sealed, length nonce = AT_REST_NONCE_LEN -> @seal kek_crypto c nonce pt = Ok sealed ->
       exists c', recover (rotated k id ref r) (sidecar c) = Ok c' /\ @open kek_crypto c' sealed = Ok pt)
  /\ (forall rnd' c', @generate kek_crypto (rotated k id ref r) rnd' = Ok c' ->
       recover (rotated k id ref r) (sidecar c') = Ok c')
  /\ (forall id2 ref2 r2, id2 <> active_id k ->
       exists e, recover (rotated (rotated k id ref r) id2 ref2 r2) (sidecar c) = Err e)
  /\ (forall k2, domain k2 <> domain k -> exists e, recover k2 (sidecar c) = Err e).
Proof.
  intros Hg Hid Hreg. unfold generate in Hg. cbn in Hg.
  destruct (kek_wrap_new_dek k rnd) as [[d w]|] eqn:Hw; [|done]. injection Hg as <-. cbn [wrapped].
  apply wrap_new_dek_inv in Hw as (kek & Ha & Hw & Hd & Hi).
  assert (Hf : recover (rotated k id ref r) w = Ok (@Build_AtRestCipher kek_crypto d w)).
  { apply recover_unwrap, (unwrap_previous _ kek); cbn; [done|congruence|by rewrite Hi| |done].
    unfold active_bytes, key_bytes in Ha. unfold previous_bytes, key_bytes. cbn. rewrite Hreg. by rewrite Ha. }
  split; [done|]. split; [|split; [by intros; eapply from_wrapped_generate|split]].
  - intros nonce pt sealed Hn Hs. eexists. split; [exact Hf|]. by eapply open_seal.
  - intros id2 ref2 r2 Hid2. apply recover_err, unwrap_unknown_id; cbn; [congruence|]. rewrite Hi. congruence.
  - intros k2 Hk2. apply recover_err, unwrap_other_domain. congruence.
Qed.
End Keys.

(** * Witness *)

(** A cipher that adds the first byte of the key and appends an empty tag. *)
Definition toy_gcm : Gcm := {|
  gcm_encrypt key _ pt := Some ((Z.add (default 0%Z (head key)) <$> pt) ++ replicate 16 0%Z);
  gcm_decrypt key _ ct := Some ((fun b => b - default 0%Z (head key))%Z <$> take (length ct - 16) ct);
|}.

Lemma toy_gcm_laws : @GcmLaws toy_gcm.
Proof.
  split; cbn [gcm_encrypt gcm_decrypt toy_gcm]; intros key nonce pt ct Hs%(inj Some); subst ct.
  - f_equal. rewrite length_app, length_replicate, length_fmap, take_app_le by (rewrite length_fmap; lia).
    rewrite take_ge by (rewrite length_fmap; lia). rewrite <-list_fmap_compose.
    rewrite <-(list_fmap_id pt) at 2. apply list_fmap_ext. intros i x _. cbn. lia.
  - by rewrite length_app, length_fmap, length_replicate.
Qed.

Definition ex_env (name : string) : option bytes :=
  if decide (name = "KEK1") then Some (replicate 32 49%Z)
  else if decide (name = "KEK2") then Some (replicate 32 50%Z) else None.
Definition ex_registry : SecretRegistry := register registry_empty (EnvProvider ex_env).
Definition ex_ref (name : string) : SecretRef := {| scheme := SEnv; ref_path := name |}.
Definition ex_kek : Kek := Kek_new DataContext "k1" (ex_ref "KEK1") ex_registry.
Definition ex_cipher : @AtRestCipher (@kek_crypto toy_gcm) :=
  {| dek := (replicate 32 7%Z : @DekBytes (@kek_crypto toy_gcm));
     wrapped := ({| kek_domain := DataContext; kek_id := "k1"; dek_nonce := replicate 12 7%Z;
                    ciphertext := replicate 32 56%Z ++ replicate 16 0%Z |} : @WrappedDek (@kek_crypto toy_gcm)) |}.

Lemma kek_rotation_witness :
  @from_wrapped (@kek_crypto toy_gcm) (rotated ex_kek "k2" (ex_ref "KEK2") ex_registry)
      (@wrapped (@kek_crypto toy_gcm) ex_cipher) = Ok ex_cipher
  /\ exists e, @from_wrapped (@kek_crypto toy_gcm) (Kek_new LogContext "k1" (ex_ref "KEK1") ex_registry)
      (@wrapped (@kek_crypto toy_gcm) ex_cipher) = Err e.
Proof.
  destruct (@kek_rotation toy_gcm toy_gcm_laws ex_kek (replicate 44 7%Z) ex_cipher "k2" (ex_ref "KEK2") ex_registry)
    as (Hf & _ & _ & _ & Hd).
  - by vm_compute.
  - done.
  - done.
  - split; [exact Hf|]. by apply Hd.
Defined.
