(* ===== verification/CheckpointWal.v ===== *)
(** The checkpoint write-ahead log (crates/aeon-engine/src/checkpoint.rs): record framing,
    the writer and reader, and [WalCheckpointStore]. The [CheckpointPersist] trait is a
    class here: its operations, and separately what an implementation promises.

    bincode and crc32fast are not part of the repository: they are the class parameter
    [Codec CheckpointRecord] and the variable [crc32]. *)
From stdpp Require Import base gmap list strings.
From S2P Require Import Prelude Types.

(** * The record *)

Record CheckpointRecord := {
  checkpoint_id : Z;
  timestamp_nanos : Z;
  source_offsets : gmap Z Z;
  pending_event_ids : list bytes;
  delivered_count : Z;
  failed_count : Z;
  per_sink_ack_seq : gmap string Z;
}.

Definition set_checkpoint_id (i : Z) (r : CheckpointRecord) : CheckpointRecord :=
  {| checkpoint_id := i; timestamp_nanos := timestamp_nanos r;
     source_offsets := source_offsets r; pending_event_ids := pending_event_ids r;
     delivered_count := delivered_count r; failed_count := failed_count r;
     per_sink_ack_seq := per_sink_ack_seq r |}.

(** [CheckpointRecord::new]; [now_nanos] is the clock's [as_nanos()] reading (0 when the
    clock is before the epoch), cast to [i64]. *)
Definition CheckpointRecord_new (now_nanos : Z) (id : Z) (offsets : gmap PartitionId Z)
    (pending : list bytes) (delivered failed : Z) : CheckpointRecord :=
  {| checkpoint_id := id; timestamp_nanos := as_i64 (u64 now_nanos);
     source_offsets := offsets; pending_event_ids := pending;
     delivered_count := delivered; failed_count := failed; per_sink_ack_seq := ∅ |}.

Definition with_per_sink_ack_seq (seq : gmap string Z) (r : CheckpointRecord) : CheckpointRecord :=
  {| checkpoint_id := checkpoint_id r; timestamp_nanos := timestamp_nanos r;
     source_offsets := source_offsets r; pending_event_ids := pending_event_ids r;
     delivered_count := delivered_count r; failed_count := failed_count r;
     per_sink_ack_seq := seq |}.

(** * The [CheckpointPersist] trait *)

(** [E] is the environment of a call: the outcomes of the I/O it performs. *)
Class CheckpointPersist (E S : Type) := {
  cp_append : E -> S -> CheckpointRecord -> S * CheckpointRecord * Result unit;
  cp_read_last : E -> S -> Result (option CheckpointRecord);
  cp_next_checkpoint_id : S -> Z;
  cp_try_recover_primary : E -> S -> S * Result bool;
}.

(** The trait's default [try_recover_primary]. *)
Definition default_try_recover {E S : Type} (e : E) (s : S) : S * Result bool := (s, Ok true).

(** What [append] promises a client that starts from a healthy store: the id is assigned
    from the sequence, the sequence advances by one, and the record just appended is the
    one crash recovery will read. *)
Class CheckpointPersistLaws (E S : Type) `{CheckpointPersist E S} := {
  cp_good : E -> Prop;
  cp_healthy : S -> Prop;
  cp_appendable : S -> CheckpointRecord -> Prop;
  cp_append_ok e s r : cp_good e -> cp_healthy s -> cp_appendable s r ->
    exists s', cp_append e s r = (s', set_checkpoint_id (cp_next_checkpoint_id s) r, Ok tt)
      /\ cp_healthy s'
      /\ cp_next_checkpoint_id s' = (cp_next_checkpoint_id s + 1)%Z
      /\ forall e', cp_good e' ->
          cp_read_last e' s' = Ok (Some (set_checkpoint_id (cp_next_checkpoint_id s) r));
  (** Failed or not, a call only ever rewrites the record's id. *)
  cp_append_id e s r : exists i, snd (fst (cp_append e s r)) = set_checkpoint_id i r;
}.

(** * File format *)

(** b"AEON-CKP" *)
Definition WAL_MAGIC : bytes := [65; 69; 79; 78; 45; 67; 75; 80]%Z.
Definition WAL_VERSION : Z := 2.
Definition HEADER_SIZE : nat := 10.
Definition RECORD_HEADER_SIZE : nat := 8.

Definition wal_header : bytes := WAL_MAGIC ++ le 2 WAL_VERSION.

(** [write_wal_header]: the directory and the file are created ([IoDenied]: one of them is
    refused), then magic and version are written. *)
Definition write_wal_header (o : io) (disk : Disk) (path : string) : Disk * Result unit :=
  match o with
  | IoDenied => (disk, Err (State "wal create"))
  | IoErr k => (<[path := take k wal_header]> disk, Err (State "wal write header"))
  | IoOk => (<[path := wal_header]> disk, Ok tt)
  end.

Section Wal.
Context `{Codec CheckpointRecord}.
Variable crc32 : bytes -> Z.

(** The bytes [CheckpointWriter::append] hands to [write_all]. *)
Definition frame (data : bytes) : bytes :=
  le 4 (u32 (Z.of_nat (length data))) ++ le 4 (crc32 data) ++ data.

(** The record loop of [read_wal_records]. Each turn consumes at least the 8-byte record
    header, so the file length is enough fuel ([read_loop_fuel]). *)
Fixpoint read_loop (fuel : nat) (data : bytes) (offset : nat) (records : list CheckpointRecord)
    : list CheckpointRecord :=
  match fuel with
  | O => records
  | S fuel' =>
    if decide (offset + RECORD_HEADER_SIZE <= length data) then
      let len := un_le (slice offset 4 data) in
      let expected_crc := un_le (slice (offset + 4) 4 data) in
      let offset := offset + RECORD_HEADER_SIZE in
      if decide (Z.of_nat (length data) < Z.of_nat offset + len)%Z then records
      else
        let record_data := slice offset (Z.to_nat len) data in
        let actual_crc := crc32 record_data in
        if decide (actual_crc <> expected_crc) then records
        else match deserialize record_data with
             | Some record => read_loop fuel' data (offset + Z.to_nat len) (records ++ [record])
             | None => records
             end
    else records
  end.

(** [read_wal_records], on the file contents. *)
Definition read_wal_bytes (data : bytes) : Result (list CheckpointRecord) :=
  if decide (length data < HEADER_SIZE) then Err (State "wal file too short for header")
  else if decide (take 8 data <> WAL_MAGIC) then Err (State "wal invalid magic bytes")
  else if decide (un_le (slice 8 2 data) <> WAL_VERSION) then Err (State "wal unsupported version")
  else Ok (read_loop (length data) data HEADER_SIZE []).

Definition read_wal_records (o : io) (disk : Disk) (path : string)
    : Result (list CheckpointRecord) :=
  match o, disk !! path with
  | IoOk, Some data => read_wal_bytes data
  | _, _ => Err (State "wal read")
  end.

(** * Writer *)

Record CheckpointWriter := {
  path : string;
  next_checkpoint_id : Z;
}.

Definition CheckpointWriter_new (o : io) (disk : Disk) (p : string)
    : Disk * Result CheckpointWriter :=
  match disk !! p with
  | Some _ =>
    (disk,
     let? records := read_wal_records o disk p in
     Ok {| path := p;
           next_checkpoint_id :=
             match last records with
             | Some r => u64 (checkpoint_id r + 1)
             | None => 0
             end |})
  | None =>
    let '(disk', res) := write_wal_header o disk p in
    (disk', let? _ := res in Ok {| path := p; next_checkpoint_id := 0 |})
  end.

Definition CheckpointWriter_append (o : io) (disk : Disk) (w : CheckpointWriter)
    (record : CheckpointRecord) : Disk * CheckpointWriter * CheckpointRecord * Result unit :=
  let record := set_checkpoint_id (next_checkpoint_id w) record in
  match serialize record with
  | None => (disk, w, record, Err (State "bincode serialize"))
  | Some data =>
    let buf := frame data in
    match o, disk !! path w with
    | IoDenied, _ | _, None => (disk, w, record, Err (State "wal open for append"))
    | IoErr k, Some contents =>
      (<[path w := contents ++ take k buf]> disk, w, record, Err (State "wal write"))
    | IoOk, Some contents =>
      (<[path w := contents ++ buf]> disk,
       {| path := path w; next_checkpoint_id := u64 (next_checkpoint_id w + 1) |}, record, Ok tt)
    end
  end.

(** * Reader *)

Definition CheckpointReader_read_all (o : io) (disk : Disk) (p : string)
    : Result (list CheckpointRecord) :=
  match disk !! p with
  | None => Ok []
  | Some _ => read_wal_records o disk p
  end.

Definition CheckpointReader_read_last (o : io) (disk : Disk) (p : string)
    : Result (option CheckpointRecord) :=
  match disk !! p with
  | None => Ok None
  | Some _ => let? records := read_wal_records o disk p in Ok (last records)
  end.

(** * [WalCheckpointStore] with the disk it writes to *)

Record WalCheckpointStore := { wal_disk : Disk; writer : CheckpointWriter }.

Definition WalCheckpointStore_open (o : io) (disk : Disk) (p : string)
    : Disk * Result WalCheckpointStore :=
  let '(disk', res) := CheckpointWriter_new o disk p in
  (disk', let? w := res in Ok {| wal_disk := disk'; writer := w |}).

#[export] Instance wal_checkpoint_persist : CheckpointPersist io WalCheckpointStore := {
  cp_append o s r :=
    let '(disk', w', r', res) := CheckpointWriter_append o (wal_disk s) (writer s) r in
    ({| wal_disk := disk'; writer := w' |}, r', res);
  cp_read_last o s := CheckpointReader_read_last o (wal_disk s) (path (writer s));
  cp_next_checkpoint_id s := next_checkpoint_id (writer s);
  cp_try_recover_primary := default_try_recover;
}.
End Wal.

Arguments frame : simpl never.

(** * Correctness of the log *)

Section WalProofs.
Context `{CodecLaws CheckpointRecord}.
Variable crc32 : bytes -> Z.
Hypothesis crc32_u32 : forall bs, in_u32 (crc32 bs).

Definition frames (ds : list bytes) : bytes := concat (frame crc32 <$> ds).

(** [d] is the on-disk payload of [r]. *)
Definition payload (r : CheckpointRecord) (d : bytes) : Prop :=
  serialize r = Some d /\ in_u32 (Z.of_nat (length d)).

(** The file at [p] is a header followed by complete frames holding exactly [rs]. *)
Definition wal_holds (disk : Disk) (p : string) (rs : list CheckpointRecord) : Prop :=
  exists ds, disk !! p = Some (wal_header ++ frames ds) /\ Forall2 payload rs ds.

Definition read_at (data : bytes) (off : nat) : list CheckpointRecord :=
  read_loop crc32 (length data) data off [].

Lemma length_frame d : length (frame crc32 d) = 8 + length d.
Proof. unfold frame. len. Qed.

Lemma read_loop_acc fuel data off acc :
  read_loop crc32 fuel data off acc = acc ++ read_loop crc32 fuel data off [].
Proof.
  revert off acc. induction fuel as [|fuel IH]; intros off acc; simpl; [by rewrite app_nil_r|].
  repeat case_decide; try by rewrite app_nil_r.
  case_match; [|by rewrite app_nil_r].
  rewrite (IH _ (acc ++ _)), (IH _ [_]). by rewrite <-app_assoc.
Qed.

(** Fuel beyond the unread bytes changes nothing: the loop terminates by itself. *)
Lemma read_loop_fuel f1 f2 data off acc :
  length data - off <= f1 -> length data - off <= f2 ->
  read_loop crc32 f1 data off acc = read_loop crc32 f2 data off acc.
Proof.
  assert (Hgen : forall f f' off acc, f <= f' -> length data - off <= f ->
    read_loop crc32 f data off acc = read_loop crc32 f' data off acc).
  { clear. induction f as [|f IH]; intros f' off acc Hle Hf.
    - destruct f'; simpl; [done|]. unfold RECORD_HEADER_SIZE. case_decide; [lia|done].
    - destruct f' as [|f']; [lia|]. simpl. unfold RECORD_HEADER_SIZE.
      repeat case_decide; try done.
      case_match; [|done]. apply IH; lia. }
  intros H1 H2. destruct (decide (f1 <= f2)).
  - by apply Hgen.
  - symmetry. apply Hgen; lia.
Qed.

Lemma read_at_end data off : length data < off + 8 -> read_at data off = [].
Proof.
  intros. unfold read_at. destruct (length data) eqn:E; simpl; [done|].
  unfold RECORD_HEADER_SIZE. case_decide; [lia|done].
Qed.

(** Reading at the start of a frame whose header is complete. *)
Lemma read_at_header pre d body off data :
  data = pre ++ le 4 (u32 (Z.of_nat (length d))) ++ le 4 (crc32 d) ++ body ->
  in_u32 (Z.of_nat (length d)) -> off = length pre ->
  read_at data off =
    if decide (length body < length d) then []
    else let rd := take (length d) body in
         if decide (crc32 rd <> crc32 d) then []
         else match deserialize rd with
              | Some r => r :: read_at data (off + 8 + length d)
              | None => []
              end.
Proof.
  intros Hd Hlen ->. assert (Hn : length data = length pre + 8 + length body) by (subst; len).
  unfold read_at at 1. destruct (length data) as [|n] eqn:E; [lia|]. cbn [read_loop].
  assert (E1 : slice (length pre) 4 data = le 4 (u32 (Z.of_nat (length d)))).
  { rewrite Hd. apply slice_app_mid; [done|]. by rewrite length_le. }
  assert (E2 : slice (length pre + 4) 4 data = le 4 (crc32 d)).
  { rewrite Hd, app_assoc. apply slice_app_mid; len. }
  rewrite E1, E2, (un_le_le_u32 (crc32 d)) by apply crc32_u32.
  rewrite wrap_small by exact Hlen. rewrite un_le_le_u32 by exact Hlen.
  rewrite Nat2Z.id.
  assert (E3 : slice (length pre + RECORD_HEADER_SIZE) (length d) data = take (length d) body).
  { unfold slice, RECORD_HEADER_SIZE. rewrite Hd, !app_assoc, drop_app_ge by len. f_equal.
    replace (_ - _) with 0 by len. done. }
  rewrite E3, E. unfold RECORD_HEADER_SIZE in *.
  rewrite decide_True by lia.
  repeat case_decide; try done; try lia.
  case_match; [|done].
  rewrite read_loop_acc. simpl. f_equal. unfold read_at.
  apply read_loop_fuel; lia.
Qed.

Lemma read_at_frame pre d post r off data :
  data = pre ++ frame crc32 d ++ post -> payload r d -> off = length pre ->
  read_at data off = r :: read_at data (off + length (frame crc32 d)).
Proof.
  intros Hd [Hs Hlen] Hoff.
  rewrite (read_at_header pre d (d ++ post)); [|rewrite Hd; unfold frame; by rewrite <-!app_assoc|done..].
  rewrite decide_False by len. rewrite take_app_length. cbn zeta.
  rewrite decide_False by tauto.
  erewrite deserialize_serialize by exact Hs. by rewrite length_frame, Nat.add_assoc.
Qed.

Lemma read_at_frames rs ds pre post off data :
  data = pre ++ frames ds ++ post -> Forall2 payload rs ds -> off = length pre ->
  read_at data off = rs ++ read_at data (off + length (frames ds)).
Proof.
  intros Hd HF. revert pre off Hd. induction HF as [|r d rs ds Hr HF IH]; intros pre off Hd ->.
  { simpl. by rewrite Nat.add_0_r. }
  cbn in Hd. fold (frames ds) in Hd. rewrite <-app_assoc in Hd.
  erewrite read_at_frame by eauto.
  erewrite (IH (pre ++ frame crc32 d)); [|by rewrite Hd, <-app_assoc|by len].
  cbn. fold (frames ds). rewrite length_app. by rewrite Nat.add_assoc.
Qed.

(** A cut-off frame reads as the end of the log. *)
Lemma read_at_torn pre d k off data :
  data = pre ++ take k (frame crc32 d) -> in_u32 (Z.of_nat (length d)) ->
  k < length (frame crc32 d) -> off = length pre -> read_at data off = [].
Proof.
  intros Hd Hlen Hk ->. rewrite length_frame in Hk.
  destruct (decide (k < 8)).
  { apply read_at_end. subst. len. }
  rewrite (read_at_header pre d (take (k - 8) d)); auto.
  - rewrite decide_True by len. done.
  - rewrite Hd. f_equal. unfold frame.
    rewrite take_app_ge by len. f_equal. rewrite take_app_ge by len. f_equal.
    f_equal. len.
Qed.

(** Whether the reader accepts a frame at the start of [tail]: its header is complete, its
    length fits and the checksum of that many bytes is the stored one. *)
Definition starts_valid (tail : bytes) : bool :=
  bool_decide (8 <= length tail)
  && bool_decide (8 + un_le (take 4 tail) <= Z.of_nat (length tail))%Z
  && bool_decide (crc32 (slice 8 (Z.to_nat (un_le (take 4 tail))) tail) = un_le (slice 4 4 tail)).

Lemma read_at_invalid pre tail off data :
  data = pre ++ tail -> off = length pre -> starts_valid tail = false -> read_at data off = [].
Proof.
  intros -> -> Hv. unfold read_at.
  assert (Hs : forall i n, slice (length pre + i) n (pre ++ tail) = slice i n tail).
  { intros i n. unfold slice. rewrite drop_app_ge by lia. do 2 f_equal. lia. }
  destruct (length (pre ++ tail)) as [|n] eqn:E; [done|]. cbn [read_loop]. unfold RECORD_HEADER_SIZE.
  rewrite E, length_app in *. pose proof (Hs 0 4) as H4. rewrite Nat.add_0_r in H4. rewrite H4, !Hs.
  change (slice 0 4 tail) with (take 4 tail).
  case_decide as H8; [|done]. case_decide as Hl; [done|]. case_decide as Hc; [done|]. exfalso.
  unfold starts_valid in Hv. rewrite (bool_decide_eq_true_2 (8 <= _)) in Hv by lia.
  rewrite (bool_decide_eq_true_2 (_ <= _)%Z) in Hv by lia. by rewrite bool_decide_eq_true_2 in Hv.
Qed.

(** A frame torn after its header passes only if the bytes that follow it complete a checksum
    collision with the record that was being written. *)
Lemma torn_valid_collides d k rest :
  in_u32 (Z.of_nat (length d)) -> 8 <= k < length (frame crc32 d) ->
  starts_valid (take k (frame crc32 d) ++ rest) = true ->
  length d <= k - 8 + length rest
  /\ crc32 (take (length d) (take (k - 8) d ++ rest)) = crc32 d.
Proof.
  intros Hu [Hk Hk']. rewrite length_frame in Hk'. unfold starts_valid.
  assert (Ht : take k (frame crc32 d) ++ rest
    = le 4 (u32 (Z.of_nat (length d))) ++ le 4 (crc32 d) ++ take (k - 8) d ++ rest).
  { unfold frame. rewrite take_app_ge by len. rewrite <-app_assoc. f_equal.
    rewrite take_app_ge by len. rewrite <-app_assoc. do 3 f_equal. len. }
  set (body := take (k - 8) d ++ rest) in *. rewrite Ht.
  assert (E1 : un_le (take 4 (le 4 (u32 (Z.of_nat (length d))) ++ le 4 (crc32 d) ++ body)) = Z.of_nat (length d)).
  { rewrite take_app_le by (rewrite length_le; lia). rewrite take_ge by (rewrite length_le; lia).
    rewrite wrap_small by exact Hu. by apply un_le_le_u32. }
  assert (E2 : slice 4 4 (le 4 (u32 (Z.of_nat (length d))) ++ le 4 (crc32 d) ++ body) = le 4 (crc32 d))
    by (apply slice_app_mid; len).
  rewrite E1, E2, un_le_le_u32, Nat2Z.id by apply crc32_u32.
  rewrite !andb_true_iff, !bool_decide_eq_true. intros [[_ Hl] Hc].
  split; [revert Hl; unfold body; len|]. rewrite <-Hc. unfold slice.
  rewrite app_assoc, drop_app_ge by len. by replace (8 - _) with 0 by len.
Qed.

Lemma read_wal_bytes_header tail :
  read_wal_bytes crc32 (wal_header ++ tail) = Ok (read_at (wal_header ++ tail) 10).
Proof.
  unfold read_wal_bytes.
  rewrite decide_False by (unfold wal_header, WAL_MAGIC, HEADER_SIZE; len).
  rewrite decide_False by (unfold wal_header; rewrite <-app_assoc; intros Hn; by apply Hn).
  rewrite decide_False by (intros Hn; apply Hn; reflexivity).
  done.
Qed.

Lemma wal_holds_read disk p rs :
  wal_holds disk p rs -> read_wal_records crc32 IoOk disk p = Ok rs.
Proof.
  intros (ds & Hd & HF). unfold read_wal_records. rewrite Hd, read_wal_bytes_header.
  f_equal. erewrite (read_at_frames rs ds wal_header []); [|by rewrite app_nil_r|done|done].
  rewrite read_at_end; [by rewrite app_nil_r|]. rewrite length_app. unfold wal_header. len.
Qed.

Lemma wal_holds_new disk p :
  disk !! p = None ->
  CheckpointWriter_new crc32 IoOk disk p =
    (<[p := wal_header]> disk, Ok {| path := p; next_checkpoint_id := 0 |})
  /\ wal_holds (<[p := wal_header]> disk) p [].
Proof.
  intros Hp. unfold CheckpointWriter_new. rewrite Hp. split; [done|].
  exists []. rewrite lookup_insert_eq. by rewrite app_nil_r.
Qed.

Lemma wal_holds_append disk w rs r d :
  wal_holds disk (path w) rs -> payload (set_checkpoint_id (next_checkpoint_id w) r) d ->
  exists disk',
    CheckpointWriter_append crc32 IoOk disk w r =
      (disk', {| path := path w; next_checkpoint_id := u64 (next_checkpoint_id w + 1) |},
       set_checkpoint_id (next_checkpoint_id w) r, Ok tt)
    /\ wal_holds disk' (path w) (rs ++ [set_checkpoint_id (next_checkpoint_id w) r]).
Proof.
  intros (ds & Hd & HF) Hp. unfold CheckpointWriter_append. pose proof Hp as [-> _].
  rewrite Hd. eexists. split; [done|]. exists (ds ++ [d]). rewrite lookup_insert_eq. split.
  - unfold frames. rewrite fmap_app, concat_app. cbn [fmap list_fmap concat].
    by rewrite app_nil_r, <-app_assoc.
  - apply Forall2_app; auto.
Qed.

(** A sequence of successful appends, as the sink task issues them. *)
Fixpoint append_all (disk : Disk) (w : CheckpointWriter) (rs : list CheckpointRecord)
    : Disk * CheckpointWriter * Result unit :=
  match rs with
  | [] => (disk, w, Ok tt)
  | r :: rs' =>
    match CheckpointWriter_append crc32 IoOk disk w r with
    | (disk', w', _, Ok _) => append_all disk' w' rs'
    | (disk', w', _, Err e) => (disk', w', Err e)
    end
  end.

(** [r] fits the frame format whatever id it is given. *)
Definition storable (r : CheckpointRecord) : Prop :=
  forall i, in_u64 i -> exists d, payload (set_checkpoint_id i r) d.

Definition number_from (n : Z) (rs : list CheckpointRecord) : list CheckpointRecord :=
  imap (fun i r => set_checkpoint_id (n + Z.of_nat i) r) rs.

Lemma number_from_cons n r rs :
  number_from n (r :: rs) = set_checkpoint_id n r :: number_from (n + 1) rs.
Proof.
  unfold number_from. cbn [imap]. f_equal; [by rewrite Z.add_0_r|].
  apply imap_ext. intros i x _. simpl. f_equal. lia.
Qed.

(** Appends add one frame each, whatever the file held before. *)
Lemma append_all_bytes rs : forall disk w c,
  disk !! path w = Some c -> Forall storable rs ->
  (0 <= next_checkpoint_id w)%Z ->
  (next_checkpoint_id w + Z.of_nat (length rs) < 2 ^ 64)%Z ->
  exists disk' ds,
    append_all disk w rs =
      (disk', {| path := path w;
                 next_checkpoint_id := (next_checkpoint_id w + Z.of_nat (length rs))%Z |}, Ok tt)
    /\ disk' !! path w = Some (c ++ frames ds)
    /\ Forall2 payload (number_from (next_checkpoint_id w) rs) ds.
Proof.
  induction rs as [|r rs IH]; intros disk w c Hw HF Hpos Hb.
  { exists disk, []. simpl. rewrite Z.add_0_r, app_nil_r. by destruct w. }
  apply Forall_cons in HF as [Hr HF]. destruct (Hr (next_checkpoint_id w)) as [d Hd];
    [cbn [length] in Hb; unfold in_u64; lia|].
  simpl append_all. unfold CheckpointWriter_append at 1. pose proof Hd as [-> _]. rewrite Hw.
  rewrite wrap_small by (cbn [length] in Hb; lia).
  destruct (IH (<[path w := c ++ frame crc32 d]> disk)
               {| path := path w; next_checkpoint_id := next_checkpoint_id w + 1 |}
               (c ++ frame crc32 d)) as (disk' & ds & He & Hc & HF');
    cbn [path next_checkpoint_id length] in *; [apply lookup_insert_eq|done|lia|lia|].
  exists disk', (d :: ds). split; [rewrite He; do 3 f_equal; lia|].
  rewrite number_from_cons. split; [|by constructor]. rewrite Hc.
  change (frames (d :: ds)) with (frame crc32 d ++ frames ds). by rewrite app_assoc.
Qed.

Lemma append_all_holds rs disk w rs0 :
  wal_holds disk (path w) rs0 -> Forall storable rs ->
  (0 <= next_checkpoint_id w)%Z ->
  (next_checkpoint_id w + Z.of_nat (length rs) < 2 ^ 64)%Z ->
  exists disk',
    append_all disk w rs =
      (disk', {| path := path w;
                 next_checkpoint_id := (next_checkpoint_id w + Z.of_nat (length rs))%Z |}, Ok tt)
    /\ wal_holds disk' (path w) (rs0 ++ number_from (next_checkpoint_id w) rs).
Proof.
  intros (ds0 & Hw & HF0) HF Hpos Hb.
  destruct (append_all_bytes rs disk w _ Hw HF Hpos Hb) as (disk' & ds & He & Hc & HF').
  exists disk'. split; [done|]. exists (ds0 ++ ds). split; [|by apply Forall2_app].
  rewrite Hc. unfold frames. by rewrite fmap_app, concat_app, app_assoc.
Qed.

Lemma number_from_last n rs :
  last (number_from n rs) =
    (fun r => set_checkpoint_id (n + Z.of_nat (length rs) - 1) r) <$> last rs.
Proof.
  revert n. induction rs as [|r [|r' rs] IH]; intros n.
  - done.
  - simpl. unfold number_from. simpl. do 3 f_equal. lia.
  - rewrite number_from_cons. specialize (IH (n + 1)%Z).
    rewrite number_from_cons in *. cbn [last] in *. rewrite IH.
    cbn [length]. apply option_fmap_ext. intros x. f_equal. lia.
Qed.

Lemma writer_reopen disk p rs :
  wal_holds disk p rs ->
  CheckpointWriter_new crc32 IoOk disk p =
    (disk, Ok {| path := p;
                 next_checkpoint_id := match last rs with
                                       | Some r => u64 (checkpoint_id r + 1)
                                       | None => 0
                                       end |}).
Proof.
  intros Hw. unfold CheckpointWriter_new. rewrite (wal_holds_read _ _ _ Hw).
  destruct Hw as (ds & -> & _). done.
Qed.

Lemma frames_take_S ds n d :
  ds !! n = Some d -> frames ds = frames (take n ds) ++ frame crc32 d ++ frames (drop (S n) ds).
Proof.
  intros Hn. rewrite <-(take_drop_middle ds n d Hn) at 1.
  unfold frames. by rewrite fmap_app, concat_app.
Qed.

Lemma length_frames_S ds n d :
  ds !! n = Some d ->
  length (frames (take (S n) ds)) = length (frames (take n ds)) + length (frame crc32 d).
Proof.
  intros Hn. rewrite (take_S_r _ _ _ Hn). unfold frames.
  rewrite fmap_app, concat_app, length_app. simpl. by rewrite app_nil_r.
Qed.

(** How many complete frames fit in the first [k] bytes of the record area. *)
Lemma frames_cut ds k :
  k <= length (frames ds) ->
  exists n, n <= length ds /\ length (frames (take n ds)) <= k
    /\ (n < length ds -> k < length (frames (take (S n) ds))).
Proof.
  revert k. induction ds as [|d ds IH]; intros k Hk.
  { exists 0. simpl in *. lia. }
  change (frames (d :: ds)) with (frame crc32 d ++ frames ds) in Hk.
  rewrite length_app in Hk. destruct (decide (k < length (frame crc32 d))) as [Hs|Hs].
  - exists 0. simpl. split; [lia|]. split; [lia|]. intros _.
    unfold frames. simpl. rewrite app_nil_r. done.
  - destruct (IH (k - length (frame crc32 d))) as (n & Hn & Hle & Hlt); [lia|].
    exists (S n). cbn [length take]. split; [lia|].
    split.
    + change (frames (d :: ?l)) with (frame crc32 d ++ frames l). rewrite length_app. lia.
    + intros Hs'. change (frames (d :: ?l)) with (frame crc32 d ++ frames l).
      rewrite length_app. cbn [take] in Hlt. lia.
Qed.

Lemma wal_header_length : length wal_header = 10.
Proof. done. Qed.

(** Reading a log whose record area was cut after [k] bytes. *)
Lemma read_cut rs ds k :
  Forall2 payload rs ds -> k <= length (frames ds) ->
  exists n, read_wal_bytes crc32 (wal_header ++ take k (frames ds)) = Ok (take n rs)
    /\ n <= length rs /\ length (frames (take n ds)) <= k
    /\ (n < length rs -> k < length (frames (take (S n) ds))).
Proof.
  intros HF Hk. destruct (frames_cut ds k Hk) as (n & Hn & Hle & Hlt).
  pose proof (Forall2_length _ _ _ HF) as Hlen. exists n.
  split; [|rewrite Hlen; auto]. rewrite read_wal_bytes_header. f_equal.
  set (t := frames (take n ds)) in *. set (m := k - length t).
  assert (Hcut : exists tail, take k (frames ds) = t ++ tail /\
    (tail = [] \/ exists d, ds !! n = Some d /\ tail = take m (frame crc32 d)
                            /\ m < length (frame crc32 d))).
  { destruct (ds !! n) as [d|] eqn:E.
    - pose proof (lookup_lt_Some _ _ _ E) as Hn'. specialize (Hlt Hn').
      rewrite (length_frames_S _ _ _ E) in Hlt. fold t in Hlt.
      exists (take m (frame crc32 d)). split; [|right; exists d; split; [done|]; split; [done|subst m; lia]].
      rewrite (frames_take_S ds n d E). fold t. rewrite take_app_ge by lia. f_equal.
      fold m. rewrite take_app_le by (subst m; lia). done.
    - apply lookup_ge_None in E. exists []. split; [|by left].
      rewrite app_nil_r. unfold t. rewrite (take_ge ds n) by lia.
      apply take_ge. unfold t in Hle. rewrite (take_ge ds n) in Hle by lia. lia. }
  destruct Hcut as (tail & Htk & Htail). rewrite Htk.
  erewrite (read_at_frames (take n rs) (take n ds) wal_header tail);
    [|done|by apply Forall2_take|done].
  fold t. rewrite <-(app_nil_r (take n rs)) at 2. f_equal.
  destruct Htail as [->|(d & Hd & -> & Hm)].
  - apply read_at_end. rewrite app_nil_r, length_app, wal_header_length. lia.
  - destruct (Forall2_lookup_r _ _ _ _ _ HF Hd) as (r & _ & [_ Hu]).
    apply (read_at_torn (wal_header ++ t) d m); [|done|done|by rewrite length_app].
    by rewrite <-app_assoc.
Qed.
End WalProofs.

(** * Theorems *)

(** C1. Round trip of the checkpoint log: opening a fresh path, appending any run of records
    and reading the file back gives exactly those records, numbered 0, 1, 2, ... in append
    order; reopening the file resumes the id sequence where the writer left it. *)
Theorem wal_roundtrip `{CodecLaws CheckpointRecord} (crc32 : bytes -> Z)
    (crc32_u32 : forall bs, in_u32 (crc32 bs)) (disk : Disk) (p : string)
    (rs : list CheckpointRecord) :
  disk !! p = None -> Forall storable rs -> (Z.of_nat (length rs) < 2 ^ 64)%Z ->
  exists disk0 w disk',
    CheckpointWriter_new crc32 IoOk disk p = (disk0, Ok w)
    /\ append_all crc32 disk0 w rs =
        (disk', {| path := p; next_checkpoint_id := Z.of_nat (length rs) |}, Ok tt)
    /\ CheckpointReader_read_all crc32 IoOk disk' p = Ok (number_from 0 rs)
    /\ CheckpointWriter_new crc32 IoOk disk' p =
        (disk', Ok {| path := p; next_checkpoint_id := Z.of_nat (length rs) |}).
Proof.
  intros Hp HF Hb. destruct (wal_holds_new crc32 disk p Hp) as [Hnew Hh].
  destruct (append_all_holds crc32 rs _ {| path := p; next_checkpoint_id := 0 |} []
              Hh HF) as (disk' & Hap & Hh'); [done|done|].
  exists (<[p := wal_header]> disk), {| path := p; next_checkpoint_id := 0 |}, disk'.
  cbn [app path next_checkpoint_id] in *. split; [done|]. split; [done|].
  pose proof (wal_holds_read crc32 crc32_u32 _ _ _ Hh') as Hrd. split.
  - unfold CheckpointReader_read_all. destruct Hh' as (? & E & _). by rewrite E.
  - rewrite (writer_reopen crc32 crc32_u32 _ _ _ Hh'). do 3 f_equal.
    rewrite number_from_last. destruct rs as [|r rs] using rev_ind; [done|].
    rewrite last_snoc. cbn. rewrite length_app in *. cbn [length] in *.
    rewrite wrap_small by lia. lia.
Qed.

(** C2. Crash safety of the log: if a crash leaves only the first [k] bytes of a well-formed log,
    the reader returns exactly the records whose frames are complete, as a prefix of what was
    written, and never a damaged record; a file cut inside its header is an error. *)
Theorem wal_crash_prefix `{CodecLaws CheckpointRecord} (crc32 : bytes -> Z)
    (crc32_u32 : forall bs, in_u32 (crc32 bs)) (rs : list CheckpointRecord) (ds : list bytes)
    (k : nat) :
  Forall2 payload rs ds -> k <= length (wal_header ++ frames crc32 ds) ->
  (k < HEADER_SIZE /\
   read_wal_bytes crc32 (take k (wal_header ++ frames crc32 ds))
     = Err (State "wal file too short for header"))
  \/ exists n, read_wal_bytes crc32 (take k (wal_header ++ frames crc32 ds)) = Ok (take n rs)
      /\ n <= length rs
      /\ length (wal_header ++ frames crc32 (take n ds)) <= k
      /\ (n < length rs -> k < length (wal_header ++ frames crc32 (take (S n) ds))).
Proof.
  intros HF Hk. destruct (decide (k < HEADER_SIZE)) as [Hs|Hs].
  { left. split; [done|]. unfold read_wal_bytes. rewrite decide_True; [done|].
    rewrite length_take. lia. }
  right. unfold HEADER_SIZE in Hs. rewrite length_app, wal_header_length in Hk.
  destruct (read_cut crc32 crc32_u32 rs ds (k - 10) HF) as (n & Hr & Hn & Hle & Hlt); [lia|].
  exists n. rewrite take_app_ge by (rewrite wal_header_length; lia).
  rewrite wal_header_length, !length_app, wal_header_length. split; [done|]. split; [done|].
  split; [lia|]. intros Hlt'. specialize (Hlt Hlt'). lia.
Qed.

(** C3. What the writer does not do: it never removes a torn frame. When one append fails after
    [k] bytes of its frame reached the file, every later append still succeeds and advances the
    id, however many there are; but unless the bytes now following the torn header pass its
    checksum by accident ([starts_valid]), the reader stops at the torn frame: the log reads as
    if none of those appends had happened, and a reopened writer hands out the old ids again. *)
Theorem wal_torn_append_lost `{CodecLaws CheckpointRecord} (crc32 : bytes -> Z)
    (crc32_u32 : forall bs, in_u32 (crc32 bs)) (disk : Disk) (w : CheckpointWriter)
    (rs : list CheckpointRecord) (r1 : CheckpointRecord) (d1 : bytes) (k : nat)
    (later : list CheckpointRecord) :
  wal_holds crc32 disk (path w) rs -> (0 <= next_checkpoint_id w)%Z ->
  (next_checkpoint_id w + Z.of_nat (length later) < 2 ^ 64)%Z ->
  payload (set_checkpoint_id (next_checkpoint_id w) r1) d1 -> k < length (frame crc32 d1) ->
  Forall storable later ->
  exists disk1 disk2 r1' e ds,
    CheckpointWriter_append crc32 (IoErr k) disk w r1 = (disk1, w, r1', Err e)
    /\ append_all crc32 disk1 w later =
        (disk2, {| path := path w;
                   next_checkpoint_id := (next_checkpoint_id w + Z.of_nat (length later))%Z |}, Ok tt)
    /\ Forall2 payload (number_from (next_checkpoint_id w) later) ds
    /\ (starts_valid crc32 (take k (frame crc32 d1) ++ frames crc32 ds) = false ->
        CheckpointReader_read_all crc32 IoOk disk2 (path w) = Ok rs
        /\ CheckpointReader_read_last crc32 IoOk disk2 (path w) = Ok (last rs)
        /\ CheckpointWriter_new crc32 IoOk disk2 (path w) =
            (disk2, snd (CheckpointWriter_new crc32 IoOk disk (path w)))).
Proof.
  intros Hw Hpos Hb Hp1 Hk HF. pose proof (writer_reopen crc32 crc32_u32 _ _ _ Hw) as Hre.
  destruct Hw as (ds0 & Hd & HF0). unfold CheckpointWriter_append. destruct Hp1 as [-> _]. rewrite Hd.
  set (disk1 := <[path w := _]> disk).
  destruct (append_all_bytes crc32 later disk1 w _ (lookup_insert_eq _ _ _) HF Hpos Hb)
    as (disk2 & ds & Ha & Hc & HFd).
  exists disk1, disk2. eexists _, _, ds. split; [done|]. split; [done|]. split; [done|]. intros Hv.
  assert (Hrd : read_wal_records crc32 IoOk disk2 (path w) = Ok rs).
  { unfold read_wal_records. rewrite Hc, <-!app_assoc, read_wal_bytes_header. f_equal.
    erewrite (read_at_frames crc32 crc32_u32 rs ds0 wal_header); [|done..].
    rewrite (read_at_invalid crc32 (wal_header ++ frames crc32 ds0)
      (take k (frame crc32 d1) ++ frames crc32 ds)); [by rewrite app_nil_r|by rewrite <-app_assoc|len|done]. }
  unfold CheckpointReader_read_all, CheckpointReader_read_last. rewrite Hc, Hrd. split; [done|].
  split; [done|]. rewrite Hre. unfold CheckpointWriter_new. by rewrite Hc, Hrd.
Qed.

(** * [WalCheckpointStore] keeps the [CheckpointPersist] promise *)

Section WalLaws.
Context `{CodecLaws CheckpointRecord}.
Variable crc32 : bytes -> Z.
Hypothesis crc32_u32 : forall bs, in_u32 (crc32 bs).

#[local] Existing Instance wal_checkpoint_persist.

Definition wal_store_healthy (s : WalCheckpointStore) : Prop :=
  in_u64 (next_checkpoint_id (writer s))
  /\ exists rs, wal_holds crc32 (wal_disk s) (path (writer s)) rs.

Definition wal_store_appendable (s : WalCheckpointStore) (r : CheckpointRecord) : Prop :=
  in_u64 (next_checkpoint_id (writer s) + 1)
  /\ exists d, payload (set_checkpoint_id (next_checkpoint_id (writer s)) r) d.

#[export] Instance wal_checkpoint_laws :
  @CheckpointPersistLaws io WalCheckpointStore (wal_checkpoint_persist crc32).
Proof.
  refine {| cp_good o := o = IoOk; cp_healthy := wal_store_healthy;
            cp_appendable := wal_store_appendable |}.
  - intros o s r -> [Hu [rs Hw]] [Hu' [d Hd]].
    destruct (wal_holds_append crc32 _ _ _ _ _ Hw Hd) as (disk' & Hap & Hh).
    rewrite (wrap_small 64) in Hap by exact Hu'.
    eexists. cbn. rewrite Hap. split; [done|]. cbn.
    split; [split; [exact Hu'|by eexists]|]. split; [done|]. intros o' ->.
    unfold CheckpointReader_read_last.
    rewrite (wal_holds_read crc32 crc32_u32 _ _ _ Hh). destruct Hh as (? & -> & _).
    by rewrite last_snoc.
  - intros o s r. exists (next_checkpoint_id (writer s)). cbn. unfold CheckpointWriter_append.
    destruct (serialize _); [|done]. by destruct o, (wal_disk s !! path (writer s)).
Defined.
End WalLaws.

(** * Concrete parameters and witnesses *)

(** A codec through a countable type. *)
Definition tuple_codec {B C} `{Countable C} (to : B -> C) (from : C -> B) : Codec B :=
  {| serialize x := Some (bits_of (to x)); deserialize bs := from <$> of_bits bs |}.
Lemma tuple_codec_laws {B C} `{Countable C} (to : B -> C) (from : C -> B) :
  (forall x, from (to x) = x) -> @CodecLaws B (tuple_codec to from).
Proof.
  intros Hi. constructor. intros x bs Hs%(inj Some). subst bs. cbn [deserialize tuple_codec].
  rewrite of_bits_of. cbn. by rewrite Hi.
Qed.

Definition record_tuple (r : CheckpointRecord) :=
  (timestamp_nanos r, source_offsets r, pending_event_ids r, delivered_count r,
   failed_count r, per_sink_ack_seq r).

(** A fixed-width id followed by the other fields. *)
Definition ref_codec : Codec CheckpointRecord := {|
  serialize r :=
    if decide (0 <= checkpoint_id r < 2 ^ 64)%Z
    then Some (le 8 (checkpoint_id r) ++ bits_of (record_tuple r)) else None;
  deserialize bs :=
    (fun '(t, so, pe, dc, fc, ps) =>
       {| checkpoint_id := un_le (take 8 bs); timestamp_nanos := t; source_offsets := so;
          pending_event_ids := pe; delivered_count := dc; failed_count := fc;
          per_sink_ack_seq := ps |}) <$> of_bits (drop 8 bs);
|}.

Lemma ref_codec_laws : @CodecLaws CheckpointRecord ref_codec.
Proof.
  constructor. intros x bs. cbn [serialize deserialize ref_codec]. case_decide as Hu; [|done].
  intros Hs%(inj Some). subst bs.
  rewrite take_app_le by len. rewrite (take_ge (le 8 _)) by len.
  rewrite drop_app_ge by len. replace (8 - _) with 0 by len. rewrite drop_0, of_bits_of.
  cbn [fmap option_fmap option_map]. rewrite un_le_le_u64 by exact Hu. by destruct x.
Qed.

Definition rec_a : CheckpointRecord :=
  CheckpointRecord_new 5 0 {[ 0 := 42 ]}%Z [] 3 0.
Definition rec_b : CheckpointRecord :=
  with_per_sink_ack_seq {[ "k" := 7 ]}%Z (CheckpointRecord_new 6 0 {[ 0 := 44; 1 := 9 ]}%Z [] 2 1).

Lemma ref_payload r i :
  in_u64 i -> length (bits_of (record_tuple r)) <= 2000 ->
  @payload ref_codec (set_checkpoint_id i r)
    (le 8 i ++ bits_of (record_tuple r)).
Proof.
  intros Hi Hl. split.
  - cbn [serialize ref_codec set_checkpoint_id checkpoint_id]. by rewrite decide_True.
  - unfold in_u32. rewrite length_app, length_le. lia.
Qed.

Lemma ref_storable r : length (bits_of (record_tuple r)) <= 2000 -> @storable ref_codec r.
Proof. intros Hl i Hi. eexists. by apply ref_payload. Qed.

Lemma wal_roundtrip_witness :
  exists disk0 w disk',
    @CheckpointWriter_new ref_codec sum32 IoOk ∅ "wal" = (disk0, Ok w)
    /\ @append_all ref_codec sum32 disk0 w [rec_a; rec_b] =
        (disk', {| path := "wal"; next_checkpoint_id := 2 |}, Ok tt)
    /\ @CheckpointReader_read_all ref_codec sum32 IoOk disk' "wal"
        = Ok [set_checkpoint_id 0 rec_a; set_checkpoint_id 1 rec_b]
    /\ @CheckpointWriter_new ref_codec sum32 IoOk disk' "wal" =
        (disk', Ok {| path := "wal"; next_checkpoint_id := 2 |}).
Proof.
  apply (@wal_roundtrip ref_codec ref_codec_laws sum32 sum32_u32 ∅ "wal" [rec_a; rec_b]).
  - reflexivity.
  - repeat constructor; apply ref_storable; vm_compute; lia.
  - reflexivity.
Defined.

Definition pay_a : bytes := le 8 0 ++ bits_of (record_tuple rec_a).
Definition pay_b : bytes := le 8 1 ++ bits_of (record_tuple rec_b).

(** Two records, the crash 20 bytes into the second frame: the first one is read. *)
Lemma wal_crash_prefix_witness :
  @read_wal_bytes ref_codec sum32
      (take (30 + length (frame sum32 pay_a)) (wal_header ++ frames sum32 [pay_a; pay_b]))
    = Ok [set_checkpoint_id 0 rec_a].
Proof.
  destruct (@wal_crash_prefix ref_codec ref_codec_laws sum32 sum32_u32
           [set_checkpoint_id 0 rec_a; set_checkpoint_id 1 rec_b] [pay_a; pay_b] (30 + length (frame sum32 pay_a)))
    as [[Hs _]|(n & Hr & Hn & Hle & Hlt)].
  - constructor; [|constructor; [|constructor]]; (apply ref_payload; [done|vm_compute; lia]).
  - vm_compute. lia.
  - exfalso. vm_compute in Hs. lia.
  - destruct n as [|[|n]]; [|exact Hr|].
    + exfalso. assert (Hc : 0 < 2) by lia. specialize (Hlt Hc). vm_compute in Hlt. lia.
    + exfalso. assert (Hz : n = 0) by (cbn in Hn; lia). subst n. vm_compute in Hle. lia.
Defined.

Definition torn_writer : CheckpointWriter := {| path := "wal"; next_checkpoint_id := 0 |}.

(** Three equally long records: the first one torn in its payload, the other two lost. *)
Lemma wal_torn_append_lost_witness :
  exists disk1 disk2 r1' e,
    @CheckpointWriter_append ref_codec sum32 (IoErr 20) {[ "wal" := wal_header ]} torn_writer rec_a
      = (disk1, torn_writer, r1', Err e)
    /\ @append_all ref_codec sum32 disk1 torn_writer [rec_a; rec_a] =
        (disk2, {| path := "wal"; next_checkpoint_id := 2 |}, Ok tt)
    /\ @CheckpointReader_read_all ref_codec sum32 IoOk disk2 "wal" = Ok []
    /\ @CheckpointWriter_new ref_codec sum32 IoOk disk2 "wal" =
        (disk2, Ok {| path := "wal"; next_checkpoint_id := 0 |}).
Proof.
  destruct (@wal_torn_append_lost ref_codec ref_codec_laws sum32 sum32_u32 {[ "wal" := wal_header ]}
           torn_writer [] rec_a pay_a 20 [rec_a; rec_a]) as (disk1 & disk2 & r1' & e & ds & Ha & Hl & Hds & Hv).
  - exists []. split; [reflexivity|constructor].
  - done.
  - reflexivity.
  - apply ref_payload; [done|]. vm_compute. lia.
  - vm_compute. lia.
  - repeat constructor; apply ref_storable; vm_compute; lia.
  - exists disk1, disk2, r1', e. split; [exact Ha|]. split; [exact Hl|].
    assert (E : ds = [pay_a; le 8 1 ++ bits_of (record_tuple rec_a)]).
    { apply Forall2_cons_inv_l in Hds as (d1 & ds1 & [H1 _] & Hds & ->).
      apply Forall2_cons_inv_l in Hds as (d2 & ds2 & [H2 _] & Hds & ->).
      apply Forall2_nil_inv_l in Hds as ->. vm_compute in H1, H2. simplify_eq. by vm_compute. }
    destruct (Hv ltac:(rewrite E; by vm_compute)) as (H1 & _ & H2). split; [exact H1|].
    etrans; [exact H2|reflexivity].
Defined.
