(* ===== verification/L2Body.v ===== *)
(** The EO-2 event-body store (crates/aeon-engine/src/l2_body.rs): segment files, the
    per-partition multi-segment store, garbage collection and recovery reads.

    A partition directory is a pair of finite maps keyed by the start sequence that names a
    segment file ([{start_seq:020}.l2b]) and its sidecar ([.l2b.meta]). Events are encoded
    by the transport codec, the class parameter [Codec Event]; the JSON of a sidecar is
    [Codec WrappedDek]; [crc32] is crc32fast. Reading an existing file succeeds. *)
From stdpp Require Import base gmap list strings sorting.
From S2P Require Import Prelude Types AtRest CheckpointWal.

(** b"AEON-L2B" *)
Definition SEGMENT_MAGIC : bytes := [65; 69; 79; 78; 45; 76; 50; 66]%Z.
Definition SEGMENT_VERSION : Z := 1.
Definition SEG_HEADER_SIZE : nat := 12.
Definition SEG_RECORD_HEADER_SIZE : nat := 16.
Definition DEFAULT_SEGMENT_BYTES : Z := (256 * 1024 * 1024)%Z.

Definition segment_header : bytes := SEGMENT_MAGIC ++ le 2 SEGMENT_VERSION ++ le 2 0.

Section L2Body.
Context `{CryptoOps} `{Codec WrappedDek}.
Context {Event : Type} `{Codec Event}.
Variable crc32 : bytes -> Z.

Record Dir := { seg_files : gmap Z bytes; meta_files : gmap Z bytes }.

Definition write_seg (s : Z) (c : bytes) (d : Dir) : Dir :=
  {| seg_files := <[s := c]> (seg_files d); meta_files := meta_files d |}.
Definition write_meta (s : Z) (c : bytes) (d : Dir) : Dir :=
  {| seg_files := seg_files d; meta_files := <[s := c]> (meta_files d) |}.
(** [gc] removes the segment file; the sidecar stays. *)
Definition remove_seg (s : Z) (d : Dir) : Dir :=
  {| seg_files := delete s (seg_files d); meta_files := meta_files d |}.

(** The sidecar: the serialized wrapped key, created or replaced. *)
Definition write_wrapped_dek (o : io) (s : Z) (w : WrappedDek) (d : Dir) : Dir * Result unit :=
  match serialize w with
  | None => (d, Err (State "l2-body: serialize wrapped DEK"))
  | Some json =>
    match o with
    | IoOk => (write_meta s json d, Ok tt)
    | IoErr k => (write_meta s (take k json) d, Err (State "l2-body: write sidecar"))
    | IoDenied => (d, Err (State "l2-body: write sidecar"))
    end
  end.

Definition read_wrapped_dek (json : bytes) : Result WrappedDek :=
  match deserialize json with
  | Some w => Ok w
  | None => Err (State "l2-body: parse wrapped DEK")
  end.

Definition load_cipher_for (d : Dir) (s : Z) (kek : option KekHandle)
    : Result (option AtRestCipher) :=
  match kek, meta_files d !! s with
  | Some k, Some json => let? w := read_wrapped_dek json in let? c := from_wrapped k w in Ok (Some c)
  | None, Some _ => Err (State "l2-body: encryption sidecar present but no KEK configured")
  | _, None => Ok None
  end.

(** * Segments *)

Record L2BodySegment := {
  start_seq : Z;
  max_seq : option Z;
  byte_len : Z;
  encryptor : option AtRestCipher;
}.

(** The two files a new segment writes; a directory that cannot be made refuses the first. *)
Record CreateIo := { c_meta : io; c_file : io }.
Definition create_ok : CreateIo := {| c_meta := IoOk; c_file := IoOk |}.

Definition Segment_create (o : CreateIo) (rnd : bytes) (d : Dir) (s : Z) (kek : option KekHandle)
    : Dir * Result L2BodySegment :=
  let '(d, enc) :=
    match kek with
    | Some k =>
      match generate k rnd with
      | Err e => (d, Err e)
      | Ok c => let '(d, r) := write_wrapped_dek (c_meta o) s (wrapped c) d in
                (d, let? _ := r in Ok (Some c))
      end
    | None => (d, Ok None)
    end in
  match enc with
  | Err e => (d, Err e)
  | Ok enc =>
    match c_file o, seg_files d !! s with
    | IoDenied, _ | _, Some _ => (d, Err (State "l2-body: create"))
    | IoErr k, None =>
      (write_seg s (take k segment_header) d, Err (State "l2-body: write header"))
    | IoOk, None =>
      (write_seg s segment_header d,
       Ok {| start_seq := s; max_seq := None; byte_len := Z.of_nat SEG_HEADER_SIZE; encryptor := enc |})
    end
  end.

(** CRC over [len || payload]. *)
Definition seg_crc (payload : bytes) : Z :=
  crc32 (le 4 (Z.of_nat (length payload)) ++ payload).

Definition seg_frame (seq : Z) (payload : bytes) : bytes :=
  le 8 seq ++ le 4 (seg_crc payload) ++ le 4 (Z.of_nat (length payload)) ++ payload.

Definition unseal (enc : option AtRestCipher) (on_disk : bytes) : Result bytes :=
  match enc with Some c => open c on_disk | None => Ok on_disk end.

(** [SegmentRecordIter]: the records yielded before the iterator stops, and the error it
    yields last, if any. Every turn consumes the 16-byte header, so the file length is
    enough fuel. *)
Fixpoint iter_loop (fuel : nat) (data : bytes) (offset : nat) (enc : option AtRestCipher)
    : list (Z * Event) * option AeonError :=
  match fuel with
  | O => ([], None)
  | S fuel' =>
    if decide (length data < offset + SEG_RECORD_HEADER_SIZE) then ([], None)
    else
      let seq := un_le (slice offset 8 data) in
      let crc := un_le (slice (offset + 8) 4 data) in
      let len := un_le (slice (offset + 12) 4 data) in
      let body_start := offset + SEG_RECORD_HEADER_SIZE in
      if decide (Z.of_nat (length data) < Z.of_nat body_start + len)%Z then ([], None)
      else
        let on_disk := slice body_start (Z.to_nat len) data in
        if decide (crc32 (le 4 len ++ on_disk) <> crc) then ([], None)
        else
          match unseal enc on_disk with
          | Err e => ([], Some e)
          | Ok decoded_bytes =>
            match deserialize decoded_bytes with
            | None => ([], Some (State "l2-body: decode event"))
            | Some event =>
              let '(rest, err) := iter_loop fuel' data (body_start + Z.to_nat len) enc in
              ((seq, event) :: rest, err)
            end
          end
  end.

Definition iter_records (d : Dir) (s : Z) (kek : option KekHandle)
    : Result (list (Z * Event) * option AeonError) :=
  let? enc := load_cipher_for d s kek in
  match seg_files d !! s with
  | None => Err (State "l2-body: read")
  | Some data =>
    if decide (length data < SEG_HEADER_SIZE \/ take 8 data <> SEGMENT_MAGIC)
    then Err (State "l2-body: bad header on read")
    else Ok (iter_loop (length data) data SEG_HEADER_SIZE enc)
  end.

(** Draining the iterator with [?]: an error stops the caller. *)
Definition collect (it : list (Z * Event) * option AeonError) : Result (list (Z * Event)) :=
  match snd it with Some e => Err e | None => Ok (fst it) end.

Definition Segment_open (d : Dir) (s : Z) (kek : option KekHandle) : Result L2BodySegment :=
  let? enc := load_cipher_for d s kek in
  match seg_files d !! s with
  | None => Err (State "l2-body: open")
  | Some data =>
    if decide (length data < SEG_HEADER_SIZE) then Err (State "l2-body: file shorter than header")
    else if decide (take 8 data <> SEGMENT_MAGIC) then Err (State "l2-body: bad magic")
    else if decide (un_le (slice 8 2 data) <> SEGMENT_VERSION)
    then Err (State "l2-body: unsupported version")
    else
      let? it := iter_records d s kek in
      let? records := collect it in
      Ok {| start_seq := s; max_seq := fst <$> last records;
            byte_len := Z.of_nat (length data); encryptor := enc |}
  end.

Definition Segment_append (o : io) (nonce : bytes) (d : Dir) (g : L2BodySegment) (seq : Z)
    (event : Event) : Dir * L2BodySegment * Result unit :=
  if match max_seq g with Some m => bool_decide (seq <= m)%Z | None => false end
  then (d, g, Err (State "l2-body: non-monotonic seq"))
  else match serialize event with
  | None => (d, g, Err (State "l2-body: encode event"))
  | Some plaintext =>
    match match encryptor g with
          | Some cipher => seal cipher nonce plaintext
          | None => Ok plaintext
          end with
    | Err e => (d, g, Err e)
    | Ok payload =>
      if decide (2 ^ 32 <= Z.of_nat (length payload))%Z
      then (d, g, Err (State "l2-body: event exceeds u32 len"))
      else
        let contents := default [] (seg_files d !! start_seq g) in
        let d' := write_seg (start_seq g) (contents ++ io_written o (seg_frame seq payload)) d in
        match o with
        | IoErr _ | IoDenied => (d', g, Err (State "l2-body: write record"))
        | IoOk =>
          (d', {| start_seq := start_seq g; max_seq := Some seq;
                  byte_len := u64 (byte_len g + Z.of_nat SEG_RECORD_HEADER_SIZE
                                   + Z.of_nat (length payload));
                  encryptor := encryptor g |}, Ok tt)
        end
    end
  end.

(** * The partition store *)

Record L2BodyConfig := {
  segment_bytes : Z;
  kek : option KekHandle;
  gc_min_hold : Z;
}.

Definition effective_segment_bytes (c : L2BodyConfig) : Z :=
  if decide (segment_bytes c = 0)%Z then DEFAULT_SEGMENT_BYTES else segment_bytes c.

Record L2BodyStore := {
  dir : Dir;
  config : L2BodyConfig;
  segments : list L2BodySegment;
  next_seq : Z;
  eligible_since : gmap Z Z;
}.

(** The loop of [L2BodyStore::open] over the sorted start sequences. *)
Fixpoint open_segments (d : Dir) (k : option KekHandle) (starts : list Z)
    (segs : list L2BodySegment) (next : Z) : Result (list L2BodySegment * Z) :=
  match starts with
  | [] => Ok (segs, next)
  | s :: starts' =>
    let? seg := Segment_open d s k in
    let next' := match max_seq seg with
                 | Some m => Z.max (u64 (m + 1)) next
                 | None => next
                 end in
    open_segments d k starts' (segs ++ [seg]) next'
  end.

Definition Store_open (d : Dir) (c : L2BodyConfig) : Result L2BodyStore :=
  let starts := merge_sort Z.le (elements (dom (seg_files d))) in
  let? (segs, next) := open_segments d (kek c) starts [] 0%Z in
  Ok {| dir := d; config := c; segments := segs; next_seq := next; eligible_since := ∅ |}.

Definition Store_append (o_create : CreateIo) (o_write : io) (rnd nonce : bytes) (st : L2BodyStore)
    (event : Event) : L2BodyStore * Result Z :=
  let seq := next_seq st in
  let threshold := effective_segment_bytes (config st) in
  let need_new := match last (segments st) with
                  | None => true
                  | Some s => bool_decide (threshold <= byte_len s)%Z
                  end in
  let '(d, created) :=
    if need_new
    then let '(d, r) := Segment_create o_create rnd (dir st) seq (kek (config st)) in
         (d, let? seg := r in Ok (segments st ++ [seg]))
    else (dir st, Ok (segments st)) in
  match created with
  | Err e => ({| dir := d; config := config st; segments := segments st; next_seq := next_seq st;
                 eligible_since := eligible_since st |}, Err e)
  | Ok segs =>
    match last segs with
    | None => (st, Err (State "unreachable: no writable segment"))
    | Some writable =>
      let '(d', writable', r) := Segment_append o_write nonce d writable seq event in
      let segs' := removelast segs ++ [writable'] in
      match r with
      | Err e => ({| dir := d'; config := config st; segments := segs'; next_seq := next_seq st;
                     eligible_since := eligible_since st |}, Err e)
      | Ok _ => ({| dir := d'; config := config st; segments := segs'; next_seq := u64 (seq + 1);
                    eligible_since := eligible_since st |}, Ok seq)
      end
    end
  end.

Definition Store_fsync (o : io) (st : L2BodyStore) : Result unit :=
  match last (segments st) with
  | Some _ => if io_ok o then Ok tt else Err (State "l2-body: fsync")
  | None => Ok tt
  end.

(** [gc_up_to_at]'s loop. [IoErr k] lets [k] file removals succeed and the next one fail. *)
Fixpoint gc_loop (o : io) (hold now min_ack_seq : Z) (d : Dir) (segs : list L2BodySegment)
    (elig : gmap Z Z) (reclaimed : nat)
    : Dir * list L2BodySegment * gmap Z Z * Result nat :=
  match segs with
  | seg :: ((_ :: _) as rest) =>
    match max_seq seg with
    | Some m =>
      if decide (m < min_ack_seq)%Z then
        let s := start_seq seg in
        let reclaim (elig : gmap Z Z) :=
          match o with
          | IoErr 0 | IoDenied => (d, segs, elig, Err (State "l2-body: gc remove"))
          | IoErr (S k) =>
            gc_loop (IoErr k) hold now min_ack_seq (remove_seg s d) rest (delete s elig) (S reclaimed)
          | IoOk =>
            gc_loop IoOk hold now min_ack_seq (remove_seg s d) rest (delete s elig) (S reclaimed)
          end in
        if decide (hold = 0)%Z then reclaim elig
        else
          let stamp := default now (elig !! s) in
          let elig := <[s := stamp]> elig in
          if decide (hold <= Z.max 0 (now - stamp))%Z then reclaim elig
          else (d, segs, elig, Ok reclaimed)
      else (d, segs, elig, Ok reclaimed)
    | None => (d, segs, elig, Ok reclaimed)
    end
  | _ => (d, segs, elig, Ok reclaimed)
  end.

Definition gc_up_to_at (o : io) (st : L2BodyStore) (min_ack_seq now : Z)
    : L2BodyStore * Result nat :=
  let '(d, segs, elig, r) :=
    gc_loop o (gc_min_hold (config st)) now min_ack_seq (dir st) (segments st)
      (eligible_since st) 0 in
  ({| dir := d; config := config st; segments := segs; next_seq := next_seq st;
      eligible_since := elig |}, r).

(** [values().sum()] of the segment lengths. *)
Definition disk_bytes (st : L2BodyStore) : Z :=
  foldr (fun s acc => u64 (byte_len s + acc)) 0%Z (segments st).

Fixpoint iter_segments (d : Dir) (k : option KekHandle) (from_seq : Z)
    (segs : list L2BodySegment) (out : list (Z * Event)) : Result (list (Z * Event)) :=
  match segs with
  | [] => Ok out
  | seg :: segs' =>
    match max_seq seg with
    | Some m =>
      if decide (m < from_seq)%Z then iter_segments d k from_seq segs' out
      else
        let? it := iter_records d (start_seq seg) k in
        let? recs := collect it in
        iter_segments d k from_seq segs'
          (out ++ filter (fun p => (from_seq <= fst p)%Z) recs)
    | None => iter_segments d k from_seq segs' out
    end
  end.

Definition iter_from (st : L2BodyStore) (from_seq : Z) : Result (list (Z * Event)) :=
  iter_segments (dir st) (kek (config st)) from_seq (segments st) [].
End L2Body.
