(* ===== verification/L2BodyProofs.v ===== *)
(** Correctness of the event-body store of [L2Body]: what a healthy store holds, that every
    operation keeps it, and what appends, garbage collection, recovery reads and reopening
    do to the sequence of stored events. *)
From stdpp Require Import base gmap list strings sorting.
From S2P Require Import Prelude Types AtRest CheckpointWal L2Body.

Arguments seg_frame : simpl never.

(** Consecutive numbering of events from [s]. *)
Fixpoint numbered {A} (s : Z) (l : list A) : list (Z * A) :=
  match l with
  | [] => []
  | x :: l' => (s, x) :: numbered (s + 1) l'
  end.

Lemma numbered_app {A} s (l1 l2 : list A) :
  numbered s (l1 ++ l2) = numbered s l1 ++ numbered (s + Z.of_nat (length l1)) l2.
Proof.
  revert s. induction l1 as [|x l1 IH]; intros s; simpl.
  - by rewrite Z.add_0_r.
  - rewrite IH. do 3 f_equal. lia.
Qed.

Lemma numbered_length {A} s (l : list A) : length (numbered s l) = length l.
Proof. revert s. induction l; intros s; simpl; auto. Qed.

Lemma numbered_bound {A} s (l : list A) :
  Forall (fun p => s <= fst p < s + Z.of_nat (length l))%Z (numbered s l).
Proof.
  revert s. induction l as [|x l IH]; intros s; simpl; constructor; simpl; [lia|].
  eapply Forall_impl; [apply (IH (s + 1)%Z)|]. simpl. intros; lia.
Qed.

Lemma numbered_last {A} s (l : list A) :
  fst <$> last (numbered s l) =
    match l with [] => None | _ => Some (s + Z.of_nat (length l) - 1)%Z end.
Proof.
  destruct l as [|x l] using rev_ind; [done|].
  rewrite numbered_app, length_app. simpl. rewrite last_snoc. simpl.
  destruct (l ++ [x]) eqn:E; [by destruct l|]. f_equal. lia.
Qed.

Section L2Proofs.
Context `{CryptoLaws} `{CodecLaws WrappedDek}.
Context {Event : Type} `{CodecLaws Event}.
Variable crc32 : bytes -> Z.
Hypothesis crc32_u32 : forall bs, in_u32 (crc32 bs).

(** [d] is an on-disk payload of [e] under the segment's cipher. *)
Definition rec_payload (enc : option AtRestCipher) (e : Event) (d : bytes) : Prop :=
  exists pt nonce, length nonce = AT_REST_NONCE_LEN /\ serialize e = Some pt
    /\ match enc with Some c => seal c nonce pt = Ok d | None => d = pt end
    /\ in_u32 (Z.of_nat (length d)).

Lemma rec_payload_read enc e d :
  rec_payload enc e d -> exists pt, unseal enc d = Ok pt /\ deserialize pt = Some e.
Proof.
  intros (pt & nonce & Hn & Hs & He & _). exists pt. split.
  - destruct enc; cbn; [by eapply open_seal|by subst].
  - by eapply deserialize_serialize.
Qed.

Fixpoint seg_frames (s : Z) (ds : list bytes) : bytes :=
  match ds with
  | [] => []
  | d :: ds' => seg_frame crc32 s d ++ seg_frames (s + 1) ds'
  end.

Lemma seg_frames_snoc s ds d :
  seg_frames s (ds ++ [d]) = seg_frames s ds ++ seg_frame crc32 (s + Z.of_nat (length ds)) d.
Proof.
  revert s. induction ds as [|d' ds IH]; intros s; cbn [seg_frames app length].
  - by rewrite Z.add_0_r, app_nil_r.
  - rewrite IH, <-app_assoc. do 3 f_equal. lia.
Qed.

Lemma length_seg_frame s d : length (seg_frame crc32 s d) = 16 + length d.
Proof. unfold seg_frame. len. Qed.

Definition iter_at (data : bytes) (off : nat) (enc : option AtRestCipher)
    : list (Z * Event) * option AeonError := iter_loop crc32 (length data) data off enc.

(** The record iterator stops by itself: fuel beyond the unread bytes changes nothing. *)
Lemma iter_loop_fuel f1 f2 data off enc :
  length data - off <= f1 -> length data - off <= f2 ->
  iter_loop crc32 f1 data off enc = (iter_loop crc32 f2 data off enc : list (Z * Event) * _).
Proof.
  assert (Hgen : forall f f' off, f <= f' -> length data - off <= f ->
    iter_loop crc32 f data off enc = (iter_loop crc32 f' data off enc : list (Z * Event) * _)).
  { clear. induction f as [|f IH]; intros f' off Hle Hf.
    - destruct f'; simpl; [done|]. unfold SEG_RECORD_HEADER_SIZE. case_decide; [done|lia].
    - destruct f' as [|f']; [lia|]. simpl. unfold SEG_RECORD_HEADER_SIZE.
      repeat case_decide; try done.
      case_match; [|done]. case_match; [|done]. rewrite (IH f'); [done|lia..]. }
  intros H1' H2'. destruct (decide (f1 <= f2)).
  - by apply Hgen.
  - symmetry. apply Hgen; lia.
Qed.

Lemma iter_at_end data off enc : length data < off + 16 -> iter_at data off enc = ([], None).
Proof.
  intros. unfold iter_at. destruct (length data) eqn:E; simpl; [done|].
  unfold SEG_RECORD_HEADER_SIZE. case_decide; [done|lia].
Qed.

(** Reading at a complete record header announcing payload [d]. *)
Lemma iter_at_header pre s d body off data enc :
  data = pre ++ le 8 s ++ le 4 (seg_crc crc32 d) ++ le 4 (Z.of_nat (length d)) ++ body ->
  in_u64 s -> in_u32 (Z.of_nat (length d)) -> off = length pre ->
  iter_at data off enc =
    if decide (length body < length d) then ([], None)
    else let on_disk := take (length d) body in
         if decide (crc32 (le 4 (Z.of_nat (length d)) ++ on_disk) <> seg_crc crc32 d)
         then ([], None)
         else match unseal enc on_disk with
              | Err e => ([], Some e)
              | Ok pt => match deserialize pt with
                         | None => ([], Some (State "l2-body: decode event"))
                         | Some ev =>
                           let '(rest, err) := iter_at data (off + 16 + length d) enc in
                           ((s, ev) :: rest, err)
                         end
              end.
Proof.
  intros Hd Hs Hlen ->. assert (Hn : length data = length pre + 16 + length body) by (subst; len).
  unfold iter_at at 1. destruct (length data) as [|n] eqn:E; [lia|]. cbn [iter_loop].
  assert (E1 : slice (length pre) 8 data = le 8 s).
  { rewrite Hd. apply slice_app_mid; [done|]. by rewrite length_le. }
  assert (E2 : slice (length pre + 8) 4 data = le 4 (seg_crc crc32 d)).
  { rewrite Hd, app_assoc. apply slice_app_mid; len. }
  assert (E3 : slice (length pre + 12) 4 data = le 4 (Z.of_nat (length d))).
  { rewrite Hd, !app_assoc, <-(app_assoc _ _ body). apply slice_app_mid; len. }
  rewrite E1, E2, E3, un_le_le_u64, (un_le_le_u32 (seg_crc _ _)), un_le_le_u32
    by (done || apply crc32_u32).
  rewrite Nat2Z.id.
  assert (E4 : slice (length pre + SEG_RECORD_HEADER_SIZE) (length d) data = take (length d) body).
  { unfold slice, SEG_RECORD_HEADER_SIZE. rewrite Hd, !app_assoc, drop_app_ge by len. f_equal.
    replace (_ - _) with 0 by len. done. }
  rewrite E4, E. unfold SEG_RECORD_HEADER_SIZE in *.
  rewrite decide_False by lia. cbn zeta.
  repeat case_decide; try done; try lia.
  case_match; [|done]. case_match; [|done]. unfold iter_at.
  rewrite (iter_loop_fuel n (length data)); [done|lia..].
Qed.

Lemma iter_at_frame pre s d post e off data enc :
  data = pre ++ seg_frame crc32 s d ++ post -> rec_payload enc e d -> in_u64 s ->
  off = length pre ->
  iter_at data off enc =
    let '(rest, err) := iter_at data (off + length (seg_frame crc32 s d)) enc in
    ((s, e) :: rest, err).
Proof.
  intros Hd Hp Hs Hoff. destruct (rec_payload_read _ _ _ Hp) as (pt & Hu & Hde).
  pose proof Hp as (? & ? & _ & _ & _ & Hlen).
  rewrite (iter_at_header pre s d (d ++ post));
    [|rewrite Hd; unfold seg_frame; by rewrite <-!app_assoc|done..].
  rewrite decide_False by len. rewrite take_app_length. cbn zeta.
  rewrite decide_False by (intros Hn; by apply Hn).
  rewrite Hu, Hde. by rewrite length_seg_frame, Nat.add_assoc.
Qed.

Lemma iter_at_frames evs ds s pre post off data enc :
  data = pre ++ seg_frames s ds ++ post -> Forall2 (rec_payload enc) evs ds ->
  (0 <= s)%Z -> (s + Z.of_nat (length evs) <= 2 ^ 64)%Z -> off = length pre ->
  iter_at data off enc =
    let '(rest, err) := iter_at data (off + length (seg_frames s ds)) enc in
    (numbered s evs ++ rest, err).
Proof.
  intros Hd HF. revert s pre off Hd.
  induction HF as [|e d evs ds Hr HF IH]; intros s pre off Hd Hs Hb ->.
  { simpl. rewrite Nat.add_0_r. by destruct (iter_at data _ enc). }
  cbn [seg_frames] in Hd. rewrite <-app_assoc in Hd. cbn [length] in Hb.
  erewrite iter_at_frame; [|exact Hd|exact Hr|unfold in_u64; lia|done].
  erewrite (IH (s + 1)%Z (pre ++ seg_frame crc32 s d));
    [|by rewrite Hd, <-app_assoc|lia|lia|by rewrite length_app].
  cbn [seg_frames numbered]. rewrite length_app, Nat.add_assoc.
  by destruct (iter_at data _ enc).
Qed.

(** * Healthy segments *)

Lemma segment_header_length : length segment_header = 12.
Proof. done. Qed.

Lemma not_short tail : ~ length (segment_header ++ tail) < SEG_HEADER_SIZE.
Proof. rewrite length_app, segment_header_length. unfold SEG_HEADER_SIZE. lia. Qed.

Lemma good_magic tail : ~ take 8 (segment_header ++ tail) <> SEGMENT_MAGIC.
Proof. intros Hn. by apply Hn. Qed.

Definition seg_contents (s : Z) (ds : list bytes) : bytes := segment_header ++ seg_frames s ds.

(** Segment [g] of directory [d] stores exactly [evs], numbered from its start. *)
Definition seg_holds (d : Dir) (k : option KekHandle) (g : L2BodySegment) (evs : list Event)
    : Prop :=
  exists ds,
    seg_files d !! start_seq g = Some (seg_contents (start_seq g) ds)
    /\ Forall2 (rec_payload (encryptor g)) evs ds
    /\ load_cipher_for d (start_seq g) k = Ok (encryptor g)
    /\ max_seq g = match evs with
                   | [] => None
                   | _ => Some (start_seq g + Z.of_nat (length evs) - 1)%Z
                   end
    /\ byte_len g = Z.of_nat (length (seg_contents (start_seq g) ds))
    /\ (0 <= start_seq g)%Z /\ (start_seq g + Z.of_nat (length evs) < 2 ^ 64)%Z.

Lemma seg_holds_iter d k g evs :
  seg_holds d k g evs ->
  iter_records crc32 d (start_seq g) k = Ok (numbered (start_seq g) evs, None).
Proof.
  intros (ds & Hf & HF & Hc & _ & _ & H0' & Hb). unfold iter_records. rewrite Hc, Hf.
  unfold seg_contents. rewrite decide_False.
  2:{ intros [Hl|Hm]; [by apply not_short in Hl|by apply good_magic in Hm]. }
  f_equal. change (iter_loop _ _ ?d _ _) with (iter_at d 12 (encryptor g)).
  erewrite (iter_at_frames evs ds (start_seq g) segment_header []);
    [|by rewrite app_nil_r|done|done|lia|done].
  rewrite iter_at_end; [by rewrite app_nil_r|].
  rewrite length_app, segment_header_length. lia.
Qed.

Lemma seg_holds_open d k g evs :
  seg_holds d k g evs -> Segment_open crc32 d (start_seq g) k = Ok g.
Proof.
  intros Hh. pose proof (seg_holds_iter _ _ _ _ Hh) as Hit.
  destruct Hh as (ds & Hf & HF & Hc & Hm & Hl & _). unfold Segment_open.
  rewrite Hc, Hf, Hit. unfold seg_contents.
  rewrite decide_False by apply not_short. rewrite decide_False by apply good_magic.
  rewrite decide_False by (intros Hn; apply Hn; reflexivity).
  cbn. rewrite numbered_last, <-Hm. destruct g; cbn in *. by subst.
Qed.

(** Segment operations only touch their own files. *)
Lemma seg_holds_frame d d' k g evs :
  seg_holds d k g evs ->
  seg_files d' !! start_seq g = seg_files d !! start_seq g ->
  meta_files d' !! start_seq g = meta_files d !! start_seq g ->
  seg_holds d' k g evs.
Proof.
  intros (ds & Hf & HF & Hc & Hrest) Hs Hm. exists ds. rewrite Hs. split; [done|].
  split; [done|]. split; [|done]. unfold load_cipher_for in *. by rewrite Hm.
Qed.

(** What an append needs from its environment: the event encodes, the key service and the
    cipher work, and the sealed payload fits a [u32] length. *)
Definition can_append (k : option KekHandle) (rnd nonce : bytes) (e : Event) : Prop :=
  length nonce = AT_REST_NONCE_LEN
  /\ (forall kk, k = Some kk -> exists c json, generate kk rnd = Ok c /\ serialize (wrapped c) = Some json)
  /\ exists pt, serialize e = Some pt /\ in_u32 (Z.of_nat (length pt))
      /\ forall c, exists d, seal c nonce pt = Ok d /\ in_u32 (Z.of_nat (length d)).

Lemma can_append_payload k rnd nonce e enc :
  can_append k rnd nonce e -> exists pt d,
    serialize e = Some pt
    /\ match enc with Some c => seal c nonce pt | None => Ok pt end = Ok d
    /\ rec_payload enc e d.
Proof.
  intros (Hn & _ & pt & Hs & Hl & Hseal). destruct enc as [c|].
  - destruct (Hseal c) as (d & Hd & Hld). exists pt, d. split; [done|]. split; [done|].
    exists pt, nonce. done.
  - exists pt, pt. split; [done|]. split; [done|]. exists pt, nonce. done.
Qed.

Lemma seg_holds_append d k g evs e rnd nonce :
  seg_holds d k g evs -> can_append k rnd nonce e ->
  (start_seq g + Z.of_nat (length evs) + 1 < 2 ^ 64)%Z -> (byte_len g < 2 ^ 63)%Z ->
  exists d' g',
    Segment_append crc32 IoOk nonce d g (start_seq g + Z.of_nat (length evs)) e = (d', g', Ok tt)
    /\ start_seq g' = start_seq g /\ seg_holds d' k g' (evs ++ [e])
    /\ (forall s, s <> start_seq g -> seg_files d' !! s = seg_files d !! s)
    /\ dom (seg_files d') = dom (seg_files d) /\ meta_files d' = meta_files d.
Proof.
  intros (ds & Hf & HF & Hc & Hm & Hbl & Hs0 & Hb) Hca Hb' Hlt.
  destruct (can_append_payload _ _ _ _ (encryptor g) Hca) as (pt & p & Hser & Hseal & Hp).
  pose proof Hp as (_ & _ & _ & _ & _ & Hlp). unfold in_u32 in Hlp.
  unfold Segment_append. rewrite Hm.
  replace (match match evs with [] => None | _ => _ end with Some m => _ | None => _ end)
    with false; [|destruct evs; [done|]; symmetry; apply bool_decide_eq_false; lia].
  rewrite Hser, Hseal, decide_False by lia. rewrite Hf. cbn [default from_option id io_written].
  eexists _, _. split; [done|]. cbn [start_seq]. split; [done|].
  split; [|split; [|split; [|done]]].
  - exists (ds ++ [p]). cbn [start_seq encryptor max_seq byte_len write_seg seg_files].
    rewrite lookup_insert_eq. unfold seg_contents. rewrite seg_frames_snoc.
    rewrite <-(Forall2_length _ _ _ HF). split; [by rewrite <-app_assoc|].
    split; [by apply Forall2_app; auto|]. split; [exact Hc|]. rewrite length_app. cbn [length].
    split; [destruct (evs ++ [e]) eqn:E; [by destruct evs|]; f_equal; lia|].
    split; [|lia]. rewrite Hbl. unfold seg_contents. rewrite !length_app, length_seg_frame.
    unfold SEG_RECORD_HEADER_SIZE. rewrite wrap_small; [lia|].
    rewrite Hbl in Hlt. unfold seg_contents in Hlt. rewrite length_app in Hlt. lia.
  - intros s Hne. cbn. by rewrite lookup_insert_ne.
  - cbn. rewrite dom_insert_L. apply subseteq_union_1_L, singleton_subseteq_l, elem_of_dom.
    by rewrite Hf.
Qed.

Lemma seg_holds_create d k s rnd nonce e :
  can_append k rnd nonce e -> seg_files d !! s = None -> meta_files d !! s = None ->
  (0 <= s < 2 ^ 64)%Z ->
  exists d' g, Segment_create create_ok rnd d s k = (d', Ok g)
    /\ start_seq g = s /\ seg_holds d' k g [] /\ byte_len g = 12%Z
    /\ (forall s', s' <> s -> seg_files d' !! s' = seg_files d !! s')
    /\ (forall s', s' <> s -> meta_files d' !! s' = meta_files d !! s')
    /\ dom (seg_files d') = {[ s ]} ∪ dom (seg_files d).
Proof.
  intros (_ & Hgen & _) Hnf Hnm Hs. unfold Segment_create. destruct k as [kk|].
  - destruct (Hgen kk eq_refl) as (c & json & Hc & Hj). unfold write_wrapped_dek. rewrite Hc, Hj.
    cbn [create_ok c_meta c_file write_meta seg_files]. rewrite Hnf.
    eexists _, _. split; [done|]. cbn. split; [done|]. split.
    { exists []. cbn. rewrite lookup_insert_eq. unfold seg_contents. cbn [seg_frames].
      split; [done|]. split; [done|].
      unfold load_cipher_for, read_wrapped_dek. cbn. rewrite lookup_insert_eq.
      rewrite (deserialize_serialize _ _ Hj), (from_wrapped_generate _ _ _ Hc). repeat split; lia. }
    split; [done|]. split; [intros; by rewrite lookup_insert_ne|].
    split; [intros; by rewrite lookup_insert_ne|]. by rewrite dom_insert_L.
  - cbn [create_ok c_file]. rewrite Hnf. eexists _, _. split; [done|]. cbn. split; [done|]. split.
    { exists []. cbn. rewrite lookup_insert_eq. unfold seg_contents. cbn [seg_frames].
      split; [done|]. split; [done|].
      unfold load_cipher_for. cbn. rewrite Hnm. repeat split; lia. }
    split; [done|]. split; [intros; by rewrite lookup_insert_ne|].
    split; [done|]. by rewrite dom_insert_L.
Qed.

(** * Healthy stores *)

(** Segments [segs] store the non-empty groups [gs], numbered without gaps from [n] up to
    (excluding) [next]. *)
Fixpoint chained (d : Dir) (k : option KekHandle) (n : Z) (segs : list L2BodySegment)
    (gs : list (list Event)) (next : Z) : Prop :=
  match segs, gs with
  | [], [] => n = next
  | g :: segs', evs :: gs' =>
    start_seq g = n /\ evs <> [] /\ seg_holds d k g evs
    /\ chained d k (n + Z.of_nat (length evs)) segs' gs' next
  | _, _ => False
  end.

(** The store holds the events [concat gs], numbered from [base] to [next_seq]. *)
Record store_holds (st : L2BodyStore) (base : Z) (gs : list (list Event)) : Prop := {
  sh_chain : chained (dir st) (kek (config st)) base (segments st) gs (next_seq st);
  sh_files : forall s, is_Some (seg_files (dir st) !! s) <-> s ∈ start_seq <$> segments st;
  sh_metas : forall s, (next_seq st <= s)%Z -> meta_files (dir st) !! s = None;
  sh_range : (0 <= base)%Z /\ (next_seq st < 2 ^ 64)%Z;
  sh_empty : segments st = [] -> next_seq st = 0%Z;
}.

Definition stored (base : Z) (gs : list (list Event)) : list (Z * Event) :=
  numbered base (concat gs).

Lemma chained_frame d d' k segs : forall n gs next,
  chained d k n segs gs next ->
  (forall g, g ∈ segs -> seg_files d' !! start_seq g = seg_files d !! start_seq g
                        /\ meta_files d' !! start_seq g = meta_files d !! start_seq g) ->
  chained d' k n segs gs next.
Proof.
  induction segs as [|g segs IH]; intros n gs next Hc Hd; [done|]. destruct gs; [done|].
  destruct Hc as (Hs & Hne & Hg & Hc). cbn. split; [done|]. split; [done|]. split.
  - destruct (Hd g) as [H1' H2']; [set_solver|]. by eapply seg_holds_frame.
  - apply IH; [done|]. intros g' Hg'. apply Hd. set_solver.
Qed.

Lemma chained_starts d k segs : forall n gs next,
  chained d k n segs gs next ->
  (n <= next)%Z
  /\ next = (n + Z.of_nat (length (concat gs)))%Z
  /\ Forall (fun g => (n <= start_seq g < next)%Z) segs
  /\ StronglySorted Z.le (start_seq <$> segs) /\ NoDup (start_seq <$> segs).
Proof.
  induction segs as [|g segs IH]; intros n gs next Hc; destruct gs as [|evs gs]; try done.
  { cbn in Hc. subst. cbn. repeat split; try constructor; lia. }
  destruct Hc as (Hs & Hne & Hg & Hc). destruct (IH _ _ _ Hc) as (Hle & Hnx & HF & HS & HN).
  assert (0 < length evs) by (destruct evs; simpl; [done|lia]).
  cbn [concat fmap list_fmap]. rewrite length_app. split; [lia|]. split; [lia|]. split; [|split].
  - constructor; [lia|]. eapply Forall_impl; [exact HF|]. cbn. intros; lia.
  - constructor; [done|]. apply Forall_fmap. eapply Forall_impl; [exact HF|]. cbn. intros; lia.
  - constructor; [|done]. intros (g' & He & Hin)%list_elem_of_fmap.
    rewrite Forall_forall in HF. specialize (HF g' Hin). lia.
Qed.

Lemma chained_app d k segs1 segs2 : forall n gs1 gs2 next,
  length segs1 = length gs1 ->
  chained d k n (segs1 ++ segs2) (gs1 ++ gs2) next <->
  exists mid, chained d k n segs1 gs1 mid /\ chained d k mid segs2 gs2 next.
Proof.
  induction segs1 as [|g segs1 IH]; intros n gs1 gs2 next Hl;
    destruct gs1 as [|evs gs1]; try done.
  - cbn. naive_solver.
  - cbn. rewrite IH by (cbn in Hl; lia). naive_solver.
Qed.

Lemma chained_length d k segs : forall n gs next, chained d k n segs gs next -> length segs = length gs.
Proof. induction segs; intros n [|]; cbn; naive_solver. Qed.

Lemma store_fresh st base gs :
  store_holds st base gs -> seg_files (dir st) !! next_seq st = None.
Proof.
  intros [Hc Hf _ _ _]. destruct (chained_starts _ _ _ _ _ _ Hc) as (_ & _ & HF & _).
  apply eq_None_not_Some. rewrite Hf. intros (g & He & Hin)%list_elem_of_fmap.
  rewrite Forall_forall in HF. specialize (HF g Hin). lia.
Qed.

(** * Recovery reads *)

Lemma filter_all (f : Z) (l : list (Z * Event)) :
  Forall (fun p => f <= fst p)%Z l -> filter (fun p => f <= fst p)%Z l = l.
Proof. induction 1; [done|]. rewrite filter_cons_True by done. congruence. Qed.

Lemma filter_none (f : Z) (l : list (Z * Event)) :
  Forall (fun p => fst p < f)%Z l -> filter (fun p => f <= fst p)%Z l = [].
Proof. induction 1; [done|]. by rewrite filter_cons_False by lia. Qed.

Lemma iter_segments_spec d k from segs : forall n gs next out,
  chained d k n segs gs next ->
  iter_segments crc32 d k from segs out =
    Ok (out ++ filter (fun p => from <= fst p)%Z (stored n gs)).
Proof.
  induction segs as [|g segs IH]; intros n gs next out Hc; destruct gs as [|evs gs]; try done.
  { cbn. by rewrite app_nil_r. }
  destruct Hc as (<- & Hne & Hg & Hc). pose proof Hg as (ds & _ & _ & _ & Hm & _).
  cbn [iter_segments]. rewrite Hm. destruct evs as [|e evs]; [done|].
  unfold stored. cbn [concat]. rewrite numbered_app, filter_app.
  set (evs' := e :: evs) in *. case_decide as Hd.
  - rewrite (IH _ _ _ _ Hc). do 2 f_equal.
    rewrite (filter_none _ (numbered _ evs')); [done|].
    eapply Forall_impl; [apply numbered_bound|]. cbn beta. intros; lia.
  - rewrite (seg_holds_iter _ _ _ _ Hg). cbn [collect fst snd].
    rewrite (IH _ _ _ _ Hc). by rewrite <-app_assoc.
Qed.

Lemma iter_from_spec st base gs from :
  store_holds st base gs ->
  iter_from crc32 st from = Ok (filter (fun p => from <= fst p)%Z (stored base gs)).
Proof.
  intros [Hc _ _ _ _]. unfold iter_from. by rewrite (iter_segments_spec _ _ _ _ _ _ _ _ Hc).
Qed.

(** * Appending *)

Lemma chained_last d k n segs gs next g :
  chained d k n segs gs next -> last segs = Some g ->
  exists segs0 gs0 evs, segs = segs0 ++ [g] /\ gs = gs0 ++ [evs]
    /\ chained d k n segs0 gs0 (start_seq g) /\ evs <> [] /\ seg_holds d k g evs
    /\ next = (start_seq g + Z.of_nat (length evs))%Z.
Proof.
  intros Hc (segs0 & ->)%last_Some. pose proof (chained_length _ _ _ _ _ _ Hc) as Hl.
  destruct gs as [|evs gs0 _] using rev_ind; [rewrite length_app in Hl; simpl in Hl; lia|].
  rewrite !length_app in Hl. simpl in Hl. apply chained_app in Hc as (mid & Hc1 & Hc2); [|lia].
  destruct Hc2 as (Hs & Hne & Hg & Hn). cbn in Hn. subst. eauto 10.
Qed.

(** Appending to the writable segment. *)
Lemma append_last d k n segs0 gs0 g evs e rnd nonce next :
  chained d k n segs0 gs0 (start_seq g) -> seg_holds d k g evs ->
  next = (start_seq g + Z.of_nat (length evs))%Z ->
  can_append k rnd nonce e -> (next + 1 < 2 ^ 64)%Z -> (byte_len g < 2 ^ 63)%Z ->
  exists d' g',
    Segment_append crc32 IoOk nonce d g next e = (d', g', Ok tt)
    /\ chained d' k n (segs0 ++ [g']) (gs0 ++ [evs ++ [e]]) (next + 1)
    /\ start_seq <$> (segs0 ++ [g']) = start_seq <$> (segs0 ++ [g])
    /\ dom (seg_files d') = dom (seg_files d) /\ meta_files d' = meta_files d.
Proof.
  intros Hc Hg -> Hca Hb Hlt.
  destruct (seg_holds_append _ _ _ _ _ _ _ Hg Hca Hb Hlt)
    as (d' & g' & Hap & Hst & Hg' & Hoth & Hdom & Hmeta).
  exists d', g'. split; [done|]. split; [|by rewrite !fmap_app; cbn; rewrite Hst].
  apply chained_app; [by eapply chained_length|]. exists (start_seq g). split.
  - eapply chained_frame; [exact Hc|]. intros g0 Hin.
    destruct (chained_starts _ _ _ _ _ _ Hc) as (_ & _ & HF & _).
    rewrite Forall_forall in HF. specialize (HF g0 Hin).
    rewrite Hmeta. split; [apply Hoth; lia|done].
  - cbn. rewrite Hst, length_app. cbn. split; [done|]. split; [by destruct evs|].
    split; [done|lia].
Qed.

Lemma store_append_spec st base gs e rnd nonce :
  store_holds st base gs -> can_append (kek (config st)) rnd nonce e ->
  (next_seq st + 1 < 2 ^ 64)%Z -> (effective_segment_bytes (config st) < 2 ^ 63)%Z ->
  exists st' gs',
    Store_append crc32 create_ok IoOk rnd nonce st e = (st', Ok (next_seq st))
    /\ store_holds st' base gs' /\ concat gs' = concat gs ++ [e]
    /\ next_seq st' = (next_seq st + 1)%Z /\ config st' = config st.
Proof.
  intros Hst Hca Hb Hth. pose proof (store_fresh _ _ _ Hst) as Hfresh.
  destruct Hst as [Hc Hf Hm [Hb0 Hnx] He].
  destruct (chained_starts _ _ _ _ _ _ Hc) as (Hle & _).
  unfold Store_append.
  destruct (match last (segments st) with Some _ => _ | None => _ end) eqn:Hnew.
  - destruct (seg_holds_create (dir st) (kek (config st)) (next_seq st) rnd nonce e Hca Hfresh)
      as (d1 & g & Hcr & Hsg & Hg & Hbl & Hoth & Hom & Hdom); [apply Hm; lia|lia|].
    rewrite Hcr. rewrite last_snoc, removelast_last.
    assert (Hc1 : chained d1 (kek (config st)) base (segments st) gs (start_seq g)).
    { rewrite Hsg. eapply chained_frame; [exact Hc|]. intros g0 Hin.
      destruct (chained_starts _ _ _ _ _ _ Hc) as (_ & _ & HF & _).
      rewrite Forall_forall in HF. specialize (HF g0 Hin). split; [apply Hoth|apply Hom]; lia. }
    destruct (append_last d1 _ base _ gs g [] e rnd nonce (next_seq st) Hc1 Hg)
      as (d2 & g' & Hap & Hc2 & Hss & Hdom2 & Hmeta2); [cbn; lia|done|lia|lia|].
    rewrite Hap. eexists _, (gs ++ [[e]]). split; [done|]. cbn [next_seq config].
    rewrite wrap_small by lia. split; [|by rewrite concat_app].
    constructor; cbn [dir config segments next_seq]; [done| |..].
    + intros s. rewrite <-elem_of_dom, Hdom2, Hdom, Hss, fmap_app. cbn.
      rewrite elem_of_union, elem_of_singleton, elem_of_dom, Hf, elem_of_app, list_elem_of_singleton.
      rewrite Hsg. tauto.
    + intros s Hs. rewrite Hmeta2, Hom by lia. apply Hm. lia.
    + lia.
    + by destruct (segments st).
  - destruct (last (segments st)) as [g|] eqn:Hlast; [|done].
    apply bool_decide_eq_false in Hnew.
    destruct (chained_last _ _ _ _ _ _ _ Hc Hlast)
      as (segs0 & gs0 & evs & Hsegs & -> & Hc0 & Hne & Hg & Hn).
    destruct (append_last (dir st) _ base segs0 gs0 g evs e rnd nonce (next_seq st) Hc0 Hg Hn Hca)
      as (d2 & g' & Hap & Hc2 & Hss & Hdom2 & Hmeta2); [lia|lia|].
    cbn beta iota zeta. rewrite Hap, Hsegs, removelast_last.
    eexists _, (gs0 ++ [evs ++ [e]]). split; [done|]. cbn [next_seq config].
    rewrite wrap_small by lia. split; [|rewrite !concat_app; cbn; by rewrite !app_nil_r, app_assoc].
    constructor; cbn [dir config segments next_seq]; [done| |..].
    + intros s. rewrite <-elem_of_dom, Hdom2, Hss, <-Hsegs, elem_of_dom. apply Hf.
    + intros s Hs. rewrite Hmeta2. apply Hm. lia.
    + lia.
    + by destruct segs0.
Qed.

(** * Garbage collection *)

(** What a sweep leaves: a suffix of the segments, the removed files gone, and only records
    below [m] dropped. *)
Definition swept (d d' : Dir) (k : option KekHandle) (n : Z) (segs segs' : list L2BodySegment)
    (gs : list (list Event)) (next m : Z) (j : nat) : Prop :=
  segs' = drop j segs /\ (j = 0 \/ j < length segs)
  /\ chained d' k (n + Z.of_nat (length (concat (take j gs)))) (drop j segs) (drop j gs) next
  /\ ((n + Z.of_nat (length (concat (take j gs))) <= m)%Z \/ j = 0)
  /\ (forall s, is_Some (seg_files d' !! s) <->
       is_Some (seg_files d !! s) /\ s ∉ start_seq <$> take j segs)
  /\ meta_files d' = meta_files d.

Lemma swept_0 d k n segs gs next m :
  chained d k n segs gs next -> swept d d k n segs segs gs next m 0.
Proof.
  intros Hc. split; [done|]. split; [by left|]. cbn. rewrite Z.add_0_r, !drop_0.
  split; [done|]. split; [by right|]. split; [|done]. intros s. set_solver.
Qed.

Lemma chained_remove_head d k n g segs evs gs next :
  chained d k n (g :: segs) (evs :: gs) next ->
  chained (remove_seg (start_seq g) d) k (n + Z.of_nat (length evs)) segs gs next.
Proof.
  intros Hc. pose proof (chained_starts _ _ _ _ _ _ Hc) as (_ & _ & _ & _ & HN).
  destruct Hc as (_ & _ & _ & Hc). eapply chained_frame; [exact Hc|].
  intros g' Hin. cbn. split; [|done]. apply lookup_delete_ne.
  cbn in HN. apply NoDup_cons in HN as [HN _]. intros He. apply HN.
  apply list_elem_of_fmap. by exists g'.
Qed.

Lemma gc_loop_spec hold now m k next segs : forall o d elig r n gs d' segs' elig' res,
  chained d k n segs gs next ->
  gc_loop o hold now m d segs elig r = (d', segs', elig', res) ->
  exists j, swept d d' k n segs segs' gs next m j /\ (forall c, res = Ok c -> c = r + j).
Proof.
  induction segs as [|g segs IH]; intros o d elig r n gs d' segs' elig' res Hc Hgc;
    (destruct gs as [|evs gs]; [try done|try done]).
  { simplify_eq/=. exists 0. split; [by apply swept_0|]. intros c [= ->]. lia. }
  assert (Hstop : forall el rr, (d, g :: segs, el, Ok rr) = (d', segs', elig', res) -> rr = r ->
    exists j, swept d d' k n (g :: segs) segs' (evs :: gs) next m j
      /\ (forall c, res = Ok c -> c = r + j)).
  { intros el rr [= <- <- <- <-] ->. exists 0. split; [by apply swept_0|].
    intros c [= ->]. lia. }
  assert (Hrec : forall o' el, (n + Z.of_nat (length evs) <= m)%Z -> segs <> [] ->
    gc_loop o' hold now m (remove_seg (start_seq g) d) segs el (S r) = (d', segs', elig', res) ->
    exists j, swept d d' k n (g :: segs) segs' (evs :: gs) next m j
      /\ (forall c, res = Ok c -> c = r + j)).
  { intros o' el Hm Hne Hg'.
    destruct (IH _ _ _ _ _ _ _ _ _ _ (chained_remove_head _ _ _ _ _ _ _ _ Hc) Hg')
      as (j & (Hs & Hj & Hch & Hb & Hfs & Hmt) & Hr).
    exists (S j). split; [|intros c Hcc; specialize (Hr c Hcc); lia].
    unfold swept. cbn [take concat drop fmap list_fmap]. split; [done|].
    assert (0 < length segs) by (destruct segs; cbn; [done|lia]).
    split; [right; cbn [length]; lia|].
    rewrite length_app, Nat2Z.inj_add, Z.add_assoc. split; [done|].
    split; [left; destruct Hb as [Hb| ->]; [done|rewrite take_0; cbn [concat length]; lia]|]. split; [|done].
    intros s. rewrite Hfs. cbn [remove_seg seg_files]. rewrite lookup_delete_is_Some.
    cbn [take fmap list_fmap]. rewrite not_elem_of_cons. naive_solver. }
  pose proof Hc as (Hs & Hne & (_ & _ & _ & _ & Hm & _) & _).
  destruct evs as [|e evs]; [done|]. set (evs' := e :: evs) in *.
  cbn [gc_loop] in Hgc. destruct segs as [|g2 segs2]; [by eapply Hstop|].
  rewrite Hm, Hs in Hgc. case_decide as Hlt; [|by eapply Hstop].
  assert (Hlim : (n + Z.of_nat (length evs') <= m)%Z) by lia.
  repeat case_decide; [| |by eapply Hstop].
  all: destruct o as [|[|q]|]; [by eapply Hrec; rewrite ?Hs| |by eapply Hrec; rewrite ?Hs|].
  all: simplify_eq/=; exists 0; split; [by apply swept_0|done].
Qed.

Lemma store_gc_spec st base gs o m now st' res :
  store_holds st base gs -> gc_up_to_at o st m now = (st', res) ->
  exists j, store_holds st' (base + Z.of_nat (length (concat (take j gs)))) (drop j gs)
    /\ ((base + Z.of_nat (length (concat (take j gs))) <= m)%Z \/ j = 0)
    /\ (forall c, res = Ok c -> c = j) /\ next_seq st' = next_seq st.
Proof.
  intros [Hc Hf Hm [Hb0 Hnx] He] Hgc. unfold gc_up_to_at in Hgc.
  destruct (gc_loop _ _ _ _ _ _ _ _) as [[[d' segs'] elig'] r] eqn:E. simplify_eq/=.
  destruct (gc_loop_spec _ _ _ _ _ _ _ _ _ _ _ _ _ _ _ _ Hc E)
    as (j & (-> & Hj & Hch & Hb & Hfs & Hmt) & Hr).
  exists j. split; [|split; [done|split; [exact Hr|done]]].
  constructor; cbn [dir config segments next_seq]; [done| |..].
  - intros s. rewrite Hfs, Hf. destruct (chained_starts _ _ _ _ _ _ Hc) as (_ & _ & _ & _ & HN).
    rewrite <-(take_drop j (segments st)) in HN |- * at 1. rewrite fmap_app in *.
    apply NoDup_app in HN as (_ & Hdis & _). rewrite elem_of_app. naive_solver.
  - intros s Hs. rewrite Hmt. by apply Hm.
  - lia.
  - intros Hd. apply He. destruct Hj as [->|Hj]; [by rewrite drop_0 in Hd|].
    apply (f_equal length) in Hd. rewrite length_drop in Hd. cbn in Hd. lia.
Qed.

(** * Reopening *)

Lemma open_segments_spec d k segs : forall n gs next acc nx,
  chained d k n segs gs next -> (nx <= n)%Z -> (0 <= n)%Z -> (next < 2 ^ 64)%Z ->
  open_segments crc32 d k (start_seq <$> segs) acc nx =
    Ok (acc ++ segs, match segs with [] => nx | _ => next end).
Proof.
  induction segs as [|g segs IH]; intros n gs next acc nx Hc Hnx Hn Hb;
    destruct gs as [|evs gs]; try done.
  { cbn. by rewrite app_nil_r. }
  pose proof (chained_starts _ _ _ _ _ _ Hc) as (_ & Hnext & _).
  destruct Hc as (Hs & Hne & Hg & Hc). cbn [fmap list_fmap open_segments].
  rewrite (seg_holds_open _ _ _ _ Hg). pose proof Hg as (_ & _ & _ & _ & Hm & _).
  rewrite Hm. destruct evs as [|e evs]; [done|]. cbn [concat] in Hnext.
  rewrite length_app in Hnext. set (evs' := e :: evs) in *.
  rewrite wrap_small by lia. rewrite Z.max_l by lia.
  erewrite IH; [|exact Hc|lia..]. rewrite <-app_assoc. cbn [app]. do 2 f_equal.
  destruct segs; [|done]. destruct gs; [|done]. cbn [chained] in Hc. lia.
Qed.

Lemma store_starts_sorted st base gs :
  store_holds st base gs ->
  merge_sort Z.le (elements (dom (seg_files (dir st)))) = start_seq <$> segments st.
Proof.
  intros [Hc Hf _ _ _]. destruct (chained_starts _ _ _ _ _ _ Hc) as (_ & _ & _ & HS & HN).
  apply (StronglySorted_unique Z.le); [apply (StronglySorted_merge_sort Z.le)|done|].
  etrans; [apply merge_sort_Permutation|]. apply NoDup_Permutation; [apply NoDup_elements|done|].
  intros s. rewrite elem_of_elements, elem_of_dom. apply Hf.
Qed.

Lemma store_open_spec st base gs :
  store_holds st base gs ->
  Store_open crc32 (dir st) (config st) =
    Ok {| dir := dir st; config := config st; segments := segments st;
          next_seq := next_seq st; eligible_since := ∅ |}.
Proof.
  intros Hh. pose proof Hh as [Hc Hf Hm [Hb0 Hnx] He]. unfold Store_open.
  rewrite (store_starts_sorted _ _ _ Hh). erewrite open_segments_spec; [|exact Hc|lia..]. cbn [app].
  destruct (segments st) eqn:E; [|done]. by rewrite He.
Qed.

Lemma store_open_holds st base gs :
  store_holds st base gs ->
  store_holds {| dir := dir st; config := config st; segments := segments st;
                 next_seq := next_seq st; eligible_since := ∅ |} base gs.
Proof. intros []. by constructor. Qed.

(** * Any interleaving of appends, sweeps and restarts *)

(** A store, the log of every event ever accepted, and the highest cursor any sweep used. *)
Inductive l2_step : L2BodyStore * list (Z * Event) * Z -> L2BodyStore * list (Z * Event) * Z -> Prop :=
| step_append st log fl rnd nonce e st' seq :
    can_append (kek (config st)) rnd nonce e ->
    (next_seq st + 1 < 2 ^ 64)%Z -> (effective_segment_bytes (config st) < 2 ^ 63)%Z ->
    Store_append crc32 create_ok IoOk rnd nonce st e = (st', Ok seq) ->
    l2_step (st, log, fl) (st', log ++ [(seq, e)], fl)
| step_gc st log fl o m now st' res :
    gc_up_to_at o st m now = (st', res) ->
    l2_step (st, log, fl) (st', log, Z.max fl m)
| step_restart st log fl st' :
    Store_open crc32 (dir st) (config st) = Ok st' ->
    l2_step (st, log, fl) (st', log, fl).

Definition l2_inv (x : L2BodyStore * list (Z * Event) * Z) : Prop :=
  let '(st, log, fl) := x in
  exists base gs dropped, store_holds st base gs
    /\ log = numbered 0 (dropped ++ concat gs)
    /\ base = Z.of_nat (length dropped) /\ (base <= Z.max 0 fl)%Z.

Lemma l2_inv_step x y : l2_inv x -> l2_step x y -> l2_inv y.
Proof.
  intros Hi Hstep. destruct Hstep as [st log fl rnd nonce e st' seq Hca Hb Hth Hap
    |st log fl o m now st' res Hgc|st log fl st' Hop];
    destruct Hi as (base & gs & dropped & Hh & -> & -> & Hfl).
  - destruct (store_append_spec _ _ _ _ _ _ Hh Hca Hb Hth) as (st2 & gs' & Hap' & Hh' & Hcc & _ & _).
    rewrite Hap in Hap'. simplify_eq. exists (Z.of_nat (length dropped)), gs', dropped.
    split; [done|]. split; [|done]. rewrite Hcc, !app_assoc, (numbered_app 0 (dropped ++ concat gs)).
    destruct Hh as [Hc _ _ _ _]. destruct (chained_starts _ _ _ _ _ _ Hc) as (_ & -> & _).
    rewrite length_app. cbn. do 3 f_equal. lia.
  - destruct (store_gc_spec _ _ _ _ _ _ _ _ Hh Hgc) as (j & Hh' & Hj & _ & _).
    exists (Z.of_nat (length dropped) + Z.of_nat (length (concat (take j gs))))%Z, (drop j gs),
      (dropped ++ concat (take j gs)).
    split; [done|]. split; [by rewrite <-app_assoc, <-concat_app, take_drop|].
    rewrite length_app. split; [lia|]. destruct Hj as [Hj| ->]; [lia|]. rewrite take_0. cbn. lia.
  - rewrite (store_open_spec _ _ _ Hh) in Hop. simplify_eq. eexists _, gs, dropped.
    split; [by apply store_open_holds|]. done.
Qed.

Lemma l2_inv_reachable x y : l2_inv x -> rtc l2_step x y -> l2_inv y.
Proof. intros Hi Hr. revert Hi. induction Hr; eauto using l2_inv_step. Qed.

Definition empty_dir : Dir := {| seg_files := ∅; meta_files := ∅ |}.
Definition fresh_store (c : L2BodyConfig) : L2BodyStore :=
  {| dir := empty_dir; config := c; segments := []; next_seq := 0; eligible_since := ∅ |}.

Lemma fresh_store_holds c : store_holds (fresh_store c) 0 [].
Proof.
  constructor; cbn; try done.
  intros s. rewrite lookup_empty. split; [by intros [? ?]|by intros ?%not_elem_of_nil].
Qed.

Lemma l2_inv_fresh c fl : l2_inv (fresh_store c, [], fl).
Proof.
  exists 0%Z, [], []. split; [apply fresh_store_holds|]. cbn. repeat split. lia.
Qed.

(** * Appending behind a torn frame *)

Lemma iter_segments_app d k from segs1 segs2 : forall out,
  iter_segments crc32 d k from (segs1 ++ segs2) out =
    (let? o := iter_segments crc32 d k from segs1 out in
     iter_segments crc32 d k from segs2 o : Result (list (Z * Event))).
Proof.
  induction segs1 as [|g segs1 IH]; intros out; cbn [app iter_segments]; [done|].
  repeat (case_match; try done).
Qed.

Lemma open_segments_app d k s1 s2 : forall acc nx,
  open_segments crc32 d k (s1 ++ s2) acc nx =
    let? (segs, n) := open_segments crc32 d k s1 acc nx in open_segments crc32 d k s2 segs n.
Proof.
  induction s1 as [|s s1 IH]; intros acc nx; cbn [app open_segments]; [done|].
  by destruct (Segment_open crc32 d s k).
Qed.

(** Whether the iterator accepts a record at the start of [tail]. *)
Definition seg_starts_valid (tail : bytes) : bool :=
  let len := un_le (slice 12 4 tail) in
  bool_decide (16 <= length tail)
  && bool_decide (16 + len <= Z.of_nat (length tail))%Z
  && bool_decide (crc32 (le 4 len ++ slice 16 (Z.to_nat len) tail) = un_le (slice 8 4 tail)).

Lemma iter_at_invalid pre tail off data enc :
  data = pre ++ tail -> off = length pre -> seg_starts_valid tail = false -> iter_at data off enc = ([], None).
Proof.
  intros -> -> Hv. unfold iter_at.
  assert (Hs : forall i n, slice (length pre + i) n (pre ++ tail) = slice i n tail).
  { intros i n. unfold slice. rewrite drop_app_ge by lia. do 2 f_equal. lia. }
  destruct (length (pre ++ tail)) as [|n] eqn:E; [done|]. cbn [iter_loop]. unfold SEG_RECORD_HEADER_SIZE.
  rewrite E, length_app, !Hs in *.
  case_decide as H16; [done|]. case_decide as Hl; [done|]. case_decide as Hc; [done|]. exfalso.
  unfold seg_starts_valid in Hv. rewrite (bool_decide_eq_true_2 (16 <= _)) in Hv by lia.
  rewrite (bool_decide_eq_true_2 (_ <= _)%Z) in Hv by lia. by rewrite bool_decide_eq_true_2 in Hv.
Qed.

(** A segment whose healthy contents are followed by bytes the iterator does not accept. *)
Lemma torn_iter s evs ds tail enc :
  Forall2 (rec_payload enc) evs ds -> (0 <= s)%Z -> (s + Z.of_nat (length evs) < 2 ^ 64)%Z ->
  seg_starts_valid tail = false ->
  iter_at (seg_contents s ds ++ tail) 12 enc = (numbered s evs, None).
Proof.
  intros HF Hs0 Hb Hv. unfold seg_contents. rewrite <-app_assoc.
  erewrite (iter_at_frames evs ds s segment_header); [|done|done|done|lia|done].
  rewrite (iter_at_invalid (segment_header ++ seg_frames s ds) tail);
    [by rewrite app_nil_r|by rewrite <-app_assoc|by rewrite length_app|done].
Qed.

Lemma torn_file_read d k enc s evs ds tail :
  seg_files d !! s = Some (seg_contents s ds ++ tail) -> load_cipher_for d s k = Ok enc ->
  Forall2 (rec_payload enc) evs ds -> (0 <= s)%Z -> (s + Z.of_nat (length evs) < 2 ^ 64)%Z ->
  seg_starts_valid tail = false ->
  iter_records crc32 d s k = Ok (numbered s evs, None)
  /\ exists bl, Segment_open crc32 d s k =
       Ok {| start_seq := s; max_seq := fst <$> last (numbered s evs); byte_len := bl; encryptor := enc |}.
Proof.
  intros Hf Hc HF Hs0 Hb Hv.
  assert (Hit : iter_records crc32 d s k = Ok (numbered s evs, None)).
  { unfold iter_records. rewrite Hc, Hf. rewrite decide_False.
    2:{ unfold seg_contents. rewrite <-app_assoc.
        intros [Hl|Hm]; [by apply not_short in Hl|by apply good_magic in Hm]. }
    f_equal. by eapply torn_iter. }
  split; [done|]. unfold Segment_open. rewrite Hc, Hf, Hit.
  rewrite decide_False by (unfold seg_contents; rewrite <-app_assoc; apply not_short).
  rewrite decide_False by (unfold seg_contents; rewrite <-app_assoc; apply good_magic).
  rewrite decide_False by (intros Hn; apply Hn; reflexivity).
  by eexists.
Qed.

(** One append that stays in the last segment [g]. *)
Lemma store_append_same oc o rnd nonce st segs0 g e pt d :
  segments st = segs0 ++ [g] -> (byte_len g < effective_segment_bytes (config st))%Z ->
  match max_seq g with Some m => (m < next_seq st)%Z | None => True end ->
  serialize e = Some pt ->
  match encryptor g with Some c => seal c nonce pt | None => Ok pt end = Ok d ->
  in_u32 (Z.of_nat (length d)) ->
  Store_append crc32 oc o rnd nonce st e =
    (let d' := write_seg (start_seq g) (default [] (seg_files (dir st) !! start_seq g)
                 ++ io_written o (seg_frame crc32 (next_seq st) d)) (dir st) in
     let g' := {| start_seq := start_seq g; max_seq := Some (next_seq st);
                  byte_len := u64 (byte_len g + 16 + Z.of_nat (length d));
                  encryptor := encryptor g |} in
     match o with
     | IoErr _ | IoDenied => ({| dir := d'; config := config st; segments := segs0 ++ [g];
                      next_seq := next_seq st; eligible_since := eligible_since st |},
                   Err (State "l2-body: write record"))
     | IoOk => ({| dir := d'; config := config st; segments := segs0 ++ [g'];
                   next_seq := u64 (next_seq st + 1); eligible_since := eligible_since st |},
                Ok (next_seq st))
     end).
Proof.
  intros Hsegs Hth Hm Hs Hd Hl. unfold Store_append. rewrite Hsegs, last_snoc.
  rewrite bool_decide_eq_false_2 by lia. cbn beta iota zeta. rewrite last_snoc.
  unfold Segment_append.
  replace (match max_seq g with Some m => _ | None => _ end) with false;
    [|destruct (max_seq g); [|done]; symmetry; apply bool_decide_eq_false; lia].
  unfold in_u32 in Hl. rewrite Hs, Hd, decide_False by lia. rewrite removelast_last. by destruct o.
Qed.

(** [d] is what an append of [e] with this nonce would write as its payload. *)
Definition sealed_as (enc : option AtRestCipher) (ne : bytes * Event) (d : bytes) : Prop :=
  exists pt, serialize (snd ne) = Some pt
    /\ match enc with Some c => seal c (fst ne) pt | None => Ok pt end = Ok d
    /\ in_u32 (Z.of_nat (length d)).

(** A run of appends; it stops at the first failure. *)
Fixpoint append_run (oc : CreateIo) (rnd : bytes) (st : L2BodyStore) (es : list (bytes * Event))
    : L2BodyStore * Result (list Z) :=
  match es with
  | [] => (st, Ok [])
  | ne :: rest =>
    match Store_append crc32 oc IoOk rnd (fst ne) st (snd ne) with
    | (st', Err er) => (st', Err er)
    | (st', Ok seq) => let '(st2, r) := append_run oc rnd st' rest in (st2, let? seqs := r in Ok (seq :: seqs))
    end
  end.

(** While the last segment has room, a run of appends adds one frame each to its file, whatever
    is in it. *)
Lemma append_run_same oc rnd es : forall st segs0 g ds c,
  segments st = segs0 ++ [g] -> Forall2 (sealed_as (encryptor g)) es ds ->
  (byte_len g + Z.of_nat (length (seg_frames (next_seq st) ds)) <= effective_segment_bytes (config st) < 2 ^ 63)%Z ->
  (0 <= byte_len g)%Z -> match max_seq g with Some m => (m < next_seq st)%Z | None => True end ->
  (0 <= next_seq st)%Z -> (next_seq st + Z.of_nat (length es) < 2 ^ 64)%Z ->
  seg_files (dir st) !! start_seq g = Some c ->
  exists st' g', append_run oc rnd st es = (st', Ok (seqZ (next_seq st) (Z.of_nat (length es))))
    /\ dir st' = write_seg (start_seq g) (c ++ seg_frames (next_seq st) ds) (dir st)
    /\ config st' = config st /\ segments st' = segs0 ++ [g'] /\ start_seq g' = start_seq g
    /\ match max_seq g, max_seq g' with
       | Some m, Some m' => (m <= m')%Z | None, _ => True | Some _, None => False end.
Proof.
  induction es as [|ne es IH]; intros st segs0 g ds c Hsegs HF Hth Hb0 Hm Hn0 Hn Hf.
  { apply Forall2_nil_inv_l in HF as ->. exists st, g. cbn [append_run seg_frames length]. split; [done|].
    rewrite app_nil_r. unfold write_seg. rewrite insert_id by done. split; [by destruct (dir st)|].
    split; [done|]. split; [done|]. split; [done|]. destruct (max_seq g); lia. }
  apply Forall2_cons_inv_l in HF as (d & ds' & (pt & Hs & Hd & Hl) & HF & ->).
  cbn [seg_frames length] in *. rewrite length_app, length_seg_frame in Hth.
  pose proof (store_append_same oc IoOk rnd (fst ne) st segs0 g (snd ne) pt d Hsegs ltac:(lia) Hm Hs Hd Hl) as Ha.
  cbn zeta in Ha. rewrite Hf in Ha. cbn [default from_option id io_written] in Ha.
  rewrite (wrap_small _ (next_seq st + 1)), (wrap_small _ (byte_len g + _ + _)) in Ha by lia.
  cbn [append_run]. rewrite Ha. clear Ha. set (st1 := {| dir := _ |}).
  set (g1 := {| start_seq := start_seq g; max_seq := Some (next_seq st);
                byte_len := byte_len g + 16 + Z.of_nat (length d); encryptor := encryptor g |}).
  destruct (IH st1 segs0 g1 ds' (c ++ seg_frame crc32 (next_seq st) d)) as (st' & g' & Hr & Hdir & Hcf & Hsg & Hst & Hmx).
  - done.
  - exact HF.
  - subst st1 g1. cbn [byte_len next_seq config]. lia.
  - subst g1. cbn [byte_len]. lia.
  - subst g1 st1. cbn [max_seq next_seq]. lia.
  - subst st1. cbn [next_seq]. lia.
  - subst st1. cbn [next_seq]. lia.
  - subst st1 g1. cbn [dir write_seg seg_files start_seq]. apply lookup_insert_eq.
  - exists st', g'. rewrite Hr. split.
    { do 2 f_equal. subst st1. cbn [next_seq]. rewrite (seqZ_cons (next_seq st)) by lia. do 2 f_equal; lia. }
    split; [|split; [exact Hcf|split; [exact Hsg|split; [exact Hst|]]]].
    + rewrite Hdir. subst st1 g1. cbn [dir start_seq next_seq]. unfold write_seg.
      cbn [seg_files meta_files]. by rewrite insert_insert_eq, <-app_assoc.
    + subst g1. cbn [max_seq] in Hmx. destruct (max_seq g) as [m|], (max_seq g') as [m'|]; done || lia.
Qed.

(** Reads of a store whose last segment reads as [evs] whatever its [max_seq] claims. *)
Lemma iter_last_torn d k n segs0 gs0 g evs from :
  chained d k n segs0 gs0 (start_seq g) ->
  iter_records crc32 d (start_seq g) k = Ok (numbered (start_seq g) evs, None) ->
  match max_seq g with
  | Some m => (start_seq g + Z.of_nat (length evs) - 1 <= m)%Z
  | None => evs = []
  end ->
  iter_segments crc32 d k from (segs0 ++ [g]) [] =
    Ok (filter (fun p => from <= fst p)%Z (stored n (gs0 ++ [evs]))).
Proof.
  intros Hc Hit Hm. rewrite iter_segments_app, (iter_segments_spec _ _ _ _ _ _ _ _ Hc).
  unfold stored. rewrite concat_app, numbered_app, filter_app. cbn [concat]. rewrite app_nil_r.
  destruct (chained_starts _ _ _ _ _ _ Hc) as (_ & <- & _).
  cbn [app iter_segments]. rewrite Hit. cbn [collect snd fst].
  destruct (max_seq g) as [m|]; [|subst; by rewrite app_nil_r].
  case_decide; [|done]. rewrite (filter_none _ (numbered (start_seq g) evs)); [by rewrite app_nil_r|].
  eapply Forall_impl; [apply numbered_bound|]. cbn beta. intros; lia.
Qed.

Lemma open_last_torn d k segs0 gs0 base s (evs : list Event) g' :
  chained d k base segs0 gs0 s -> (0 <= base)%Z ->
  (s + Z.of_nat (length evs) < 2 ^ 64)%Z -> evs <> [] ->
  Segment_open crc32 d s k = Ok g' -> max_seq g' = fst <$> last (numbered s evs) ->
  open_segments crc32 d k ((start_seq <$> segs0) ++ [s]) [] 0 =
    Ok (segs0 ++ [g'], (s + Z.of_nat (length evs))%Z).
Proof.
  intros Hc Hb0 Hb Hne Hop Hm. destruct (chained_starts _ _ _ _ _ _ Hc) as (Hle & _).
  rewrite open_segments_app. erewrite open_segments_spec; [|exact Hc|lia..].
  cbn [app open_segments]. rewrite Hop, Hm, numbered_last. destruct evs; [done|].
  rewrite wrap_small by lia. do 2 f_equal. destruct segs0; lia.
Qed.

(** A store that differs from a healthy one only in bytes the iterator does not accept, behind
    the last segment, reads and reopens as the healthy one. *)
Lemma torn_store_read st st2 base segs0 gs0 g g2 evs ds0 tail :
  store_holds st base (gs0 ++ [evs]) -> segments st = segs0 ++ [g] ->
  chained (dir st) (kek (config st)) base segs0 gs0 (start_seq g) -> evs <> [] ->
  seg_holds (dir st) (kek (config st)) g evs ->
  seg_files (dir st2) !! start_seq g = Some (seg_contents (start_seq g) ds0 ++ tail) ->
  (forall s, s <> start_seq g -> seg_files (dir st2) !! s = seg_files (dir st) !! s) ->
  meta_files (dir st2) = meta_files (dir st) -> config st2 = config st ->
  segments st2 = segs0 ++ [g2] -> start_seq g2 = start_seq g ->
  Forall2 (rec_payload (encryptor g)) evs ds0 ->
  match max_seq g, max_seq g2 with
  | Some m, Some m' => (m <= m')%Z | None, _ => True | Some _, None => False end ->
  seg_starts_valid tail = false -> next_seq st = (start_seq g + Z.of_nat (length evs))%Z ->
  (forall from, iter_from (Event := Event) crc32 st2 from = iter_from crc32 st from)
  /\ exists st3, Store_open (Event := Event) crc32 (dir st2) (config st) = Ok st3 /\ next_seq st3 = next_seq st.
Proof.
  intros Hh Hsegs Hc0 Hne Hg Hfile Hother Hmeta Hcf Hsg Hst HF Hmx Hv Hn.
  pose proof Hh as [_ _ _ [Hb0 _] _]. destruct Hg as (ds & Hfile0 & _ & Hci & Hm & _ & Hg0 & Hgb).
  assert (Hc0' : chained (dir st2) (kek (config st)) base segs0 gs0 (start_seq g)).
  { eapply chained_frame; [exact Hc0|]. intros g0 Hin.
    destruct (chained_starts _ _ _ _ _ _ Hc0) as (_ & _ & HFs & _).
    rewrite Forall_forall in HFs. specialize (HFs g0 Hin). rewrite Hmeta, Hother by lia. done. }
  destruct (torn_file_read (dir st2) (kek (config st)) (encryptor g) (start_seq g) evs ds0 tail) as [Hit [bl Hop]];
    [done|unfold load_cipher_for in *; by rewrite Hmeta|done|lia|lia|done|].
  split.
  - intros from. rewrite (iter_from_spec _ _ _ _ Hh). unfold iter_from. rewrite Hcf, Hsg.
    apply (iter_last_torn _ _ base segs0 gs0 g2 evs); rewrite ?Hst; [done|done|].
    rewrite Hm in Hmx. destruct evs as [|e evs']; [done|]. destruct (max_seq g2); [done|tauto].
  - unfold Store_open.
    replace (dom (seg_files (dir st2))) with (dom (seg_files (dir st))).
    2:{ apply set_eq. intros s. rewrite !elem_of_dom. destruct (decide (s = start_seq g)) as [->|Hs'].
        - by rewrite Hfile, Hfile0.
        - by rewrite Hother. }
    rewrite (store_starts_sorted _ _ _ Hh), Hsegs, fmap_app. cbn [fmap list_fmap].
    rewrite (open_last_torn _ _ segs0 gs0 base _ evs _ Hc0' Hb0 Hgb Hne Hop eq_refl).
    eexists. split; [reflexivity|]. cbn. lia.
Qed.

End L2Proofs.

(** * Theorems *)

(** C4. Durability of the event-body store, over every interleaving: start from an empty
    partition directory and perform any sequence of successful appends, garbage-collection
    sweeps (successful or failing half-way) and process restarts. Then the recovery read
    from the highest cursor any sweep used returns, in order, exactly the accepted events
    at or above that cursor; and the sequence numbers handed out are 0, 1, 2, ... *)
Theorem l2_durability `{CryptoLaws} `{CodecLaws WrappedDek} {Event : Type} `{CodecLaws Event} (crc32 : bytes -> Z)
    (crc32_u32 : forall bs, in_u32 (crc32 bs)) (c : L2BodyConfig) (st : L2BodyStore)
    (log : list (Z * Event)) (fl : Z) :
  rtc (l2_step crc32) (fresh_store c, [], 0%Z) (st, log, fl) ->
  iter_from crc32 st fl = Ok (filter (fun p => fl <= fst p)%Z log)
  /\ log = numbered 0 (snd <$> log).
Proof.
  intros Hr. pose proof (l2_inv_reachable _ crc32_u32 _ _ (l2_inv_fresh crc32 c 0) Hr)
    as (base & gs & dropped & Hh & -> & -> & Hfl).
  split.
  - rewrite (iter_from_spec crc32 crc32_u32 _ _ _ _ Hh). f_equal.
    rewrite numbered_app, filter_app. rewrite Z.add_0_l.
    rewrite (filter_none _ (numbered 0 dropped)); [done|].
    eapply Forall_impl; [apply numbered_bound|]. cbn beta. intros [q v]. cbn. intros. lia.
  - generalize 0%Z as z. generalize (dropped ++ concat gs) as l.
    induction l as [|v l IH]; intros z; [done|]. cbn. by rewrite <-IH.
Qed.

(** C5. What the event-body store does not do: it never removes a torn record. When an append
    fails after [k] bytes of its record reached the last segment, every later append into that
    segment (any number, while it has room) succeeds and is given the next sequence number; but
    unless the bytes now following the torn header pass its checksum by accident
    ([seg_starts_valid]), the recovery read returns, from every cursor, what it returned before
    the failure: none of those events. A restart hands out their sequence numbers again. *)
Theorem l2_torn_append_lost `{CryptoLaws} `{CodecLaws WrappedDek} {Event : Type} `{CodecLaws Event}
    (crc32 : bytes -> Z) (crc32_u32 : forall bs, in_u32 (crc32 bs)) (st : L2BodyStore) (base : Z)
    (gs : list (list Event)) (g : L2BodySegment) (oc : CreateIo) (rnd : bytes)
    (torn : bytes * Event) (d1 : bytes) (k : nat) (later : list (bytes * Event)) (ds : list bytes) :
  store_holds crc32 st base gs -> last (segments st) = Some g ->
  (byte_len g < effective_segment_bytes (config st))%Z ->
  (byte_len g + Z.of_nat (length (seg_frames crc32 (next_seq st) ds))
    <= effective_segment_bytes (config st) < 2 ^ 63)%Z ->
  (next_seq st + Z.of_nat (length later) < 2 ^ 64)%Z ->
  sealed_as (encryptor g) torn d1 -> Forall2 (sealed_as (encryptor g)) later ds ->
  seg_starts_valid crc32 (take k (seg_frame crc32 (next_seq st) d1) ++ seg_frames crc32 (next_seq st) ds) = false ->
  exists st1 st2 err,
    Store_append crc32 oc (IoErr k) rnd (fst torn) st (snd torn) = (st1, Err err)
    /\ append_run crc32 oc rnd st1 later = (st2, Ok (seqZ (next_seq st) (Z.of_nat (length later))))
    /\ (forall from, iter_from (Event := Event) crc32 st2 from = iter_from crc32 st from)
    /\ exists st3, Store_open (Event := Event) crc32 (dir st2) (config st) = Ok st3
         /\ next_seq st3 = next_seq st.
Proof.
  intros Hh Hlast Hroom Hth Hnb (pt & Hs & Hd & Hl) HFd Hv.
  pose proof Hh as [Hc Hf _ [Hb0 Hnx] _].
  destruct (chained_last _ _ _ _ _ _ _ _ Hc Hlast)
    as (segs0 & gs0 & evs & Hsegs & -> & Hc0 & Hne & Hg & Hn).
  pose proof Hg as (ds0 & Hfile & HF & Hci & Hm & Hbl & Hg0 & Hgb).
  assert (Hmx : match max_seq g with Some m => (m < next_seq st)%Z | None => True end)
    by (rewrite Hm; destruct evs; [done|]; lia).
  pose proof (store_append_same crc32 oc (IoErr k) rnd (fst torn) st segs0 g (snd torn) pt d1
                Hsegs Hroom Hmx Hs Hd Hl) as Ha.
  cbn zeta in Ha. rewrite Hfile in Ha. cbn [default from_option id io_written] in Ha.
  eexists. rewrite Ha. clear Ha. set (st1 := {| dir := _ |}).
  destruct (append_run_same crc32 oc rnd later st1 segs0 g ds
    (seg_contents crc32 (start_seq g) ds0 ++ take k (seg_frame crc32 (next_seq st) d1)) eq_refl HFd) as (st2 & g2 & Hr & Hdir & Hcf & Hsg & Hst & Hmx2);
    [done|lia|exact Hmx|cbn; lia|done|cbn; apply lookup_insert_eq|].
  exists st2. eexists. split; [done|]. split; [exact Hr|].
  assert (Hfile2 : seg_files (dir st2) !! start_seq g = Some (seg_contents crc32 (start_seq g) ds0
      ++ take k (seg_frame crc32 (next_seq st) d1) ++ seg_frames crc32 (next_seq st) ds)).
  { rewrite Hdir. cbn. by rewrite lookup_insert_eq, <-app_assoc. }
  assert (Hother : forall s, s <> start_seq g -> seg_files (dir st2) !! s = seg_files (dir st) !! s).
  { intros s Hsg'. rewrite Hdir. cbn. by rewrite !lookup_insert_ne. }
  assert (Hmeta : meta_files (dir st2) = meta_files (dir st)) by (by rewrite Hdir).
  apply (torn_store_read crc32 crc32_u32 st st2 base segs0 gs0 g g2 evs ds0 _ Hh Hsegs Hc0 Hne Hg Hfile2 Hother Hmeta Hcf);
    done || lia.
Qed.

(** * Witnesses: integer events, the toy cipher, two-event segments *)

Definition z_codec : Codec Z := {| serialize z := Some (bits_of z); deserialize bs := of_bits bs |}.

Lemma z_codec_laws : @CodecLaws Z z_codec.
Proof. constructor. intros x bs Hs%(inj Some). subst bs. apply of_bits_of. Qed.

#[local] Existing Instances toy_crypto toy_crypto_laws toy_dek_codec toy_dek_laws z_codec z_codec_laws.

Definition w_config : L2BodyConfig := {| segment_bytes := 40; kek := Some 7%Z; gc_min_hold := 0 |}.
Definition w_nonce : bytes := replicate 12 9%Z.

Lemma w_can_append k e :
  length (bits_of e) <= 200 -> can_append (Event := Z) k [5]%Z w_nonce e.
Proof.
  intros Hl. split; [done|]. split; [intros kk _; by eexists _, _|].
  exists (bits_of e). split; [done|]. split; [unfold in_u32; lia|].
  intros c. eexists. split; [reflexivity|]. unfold in_u32, w_nonce.
  rewrite !length_app, length_fmap, !length_replicate. lia.
Qed.

Definition w_app (st : L2BodyStore) (e : Z) : L2BodyStore :=
  fst (Store_append sum32 create_ok IoOk [5]%Z w_nonce st e).
Definition w_st1 := w_app (fresh_store w_config) 11.
Definition w_st2 := w_app w_st1 22.
Definition w_st3 := fst (gc_up_to_at IoOk w_st2 1 0).
Definition w_st4 := w_app w_st3 33.

Lemma l2_durability_witness :
  iter_from sum32 w_st4 1 = Ok [(1, 22); (2, 33)]%Z
  /\ [(0, 11); (1, 22); (2, 33)]%Z = numbered 0 [11; 22; 33]%Z.
Proof.
  apply (l2_durability sum32 sum32_u32 w_config w_st4 [(0, 11); (1, 22); (2, 33)]%Z 1%Z).
  eapply rtc_l.
  { apply (step_append sum32 (fresh_store w_config) [] 0%Z [5]%Z w_nonce 11%Z w_st1 0%Z);
      [apply w_can_append; vm_compute; lia|vm_compute; reflexivity..]. }
  eapply rtc_l.
  { apply (step_append sum32 w_st1 [(0, 11)]%Z 0%Z [5]%Z w_nonce 22%Z w_st2 1%Z);
      [apply w_can_append; vm_compute; lia|vm_compute; reflexivity..]. }
  eapply rtc_l.
  { apply (step_gc sum32 w_st2 [(0, 11); (1, 22)]%Z 0%Z IoOk 1%Z 0%Z w_st3 (Ok 1)).
    vm_compute. reflexivity. }
  eapply rtc_l.
  { apply (step_append sum32 w_st3 [(0, 11); (1, 22)]%Z 1%Z [5]%Z w_nonce 33%Z w_st4 2%Z);
      [apply w_can_append; vm_compute; lia|vm_compute; reflexivity..]. }
  apply rtc_refl.
Defined.

Definition t_config : L2BodyConfig := {| segment_bytes := 0; kek := None; gc_min_hold := 0 |}.
Definition t_st : L2BodyStore := w_app (fresh_store t_config) 11.
Definition t_seg : L2BodySegment :=
  {| start_seq := 0; max_seq := Some 0%Z;
     byte_len := Z.of_nat (28 + length (bits_of 11%Z)); encryptor := None |}.

(** The second event is torn in its body; the next two, of the same size, are lost. *)
Lemma l2_torn_append_lost_witness :
  exists st1 st2 err,
    Store_append sum32 create_ok (IoErr 18) [] [] t_st 22%Z = (st1, Err err)
    /\ append_run sum32 create_ok [] st1 [([], 22); ([], 33)]%Z = (st2, Ok [1; 2]%Z)
    /\ (forall from, iter_from (Event := Z) sum32 st2 from = iter_from sum32 t_st from)
    /\ exists st3, Store_open (Event := Z) sum32 (dir st2) t_config = Ok st3
         /\ next_seq st3 = 1%Z.
Proof.
  assert (Hsealed : forall z : Z, length (bits_of z) <= 200 ->
    sealed_as (Event := Z) (encryptor t_seg) ([], z) (bits_of z)).
  { intros z Hl. exists (bits_of z). split; [done|]. split; [done|]. unfold in_u32. lia. }
  apply (l2_torn_append_lost sum32 sum32_u32 t_st 0 [[11%Z]] t_seg create_ok [] ([], 22%Z)
           (bits_of 22%Z) 18 [([], 22); ([], 33)]%Z [bits_of 22%Z; bits_of 33%Z]).
  - destruct (store_append_spec sum32 sum32_u32 (fresh_store t_config) 0 [] 11%Z [5]%Z w_nonce)
      as (st' & gs' & Hap & Hh & Hcc & _).
    + apply fresh_store_holds.
    + apply w_can_append. vm_compute. lia.
    + done.
    + done.
    + unfold t_st, w_app. rewrite Hap. cbn [fst]. destruct gs' as [|l1 [|l2 gs']].
      * done.
      * cbn [concat] in Hcc. rewrite app_nil_r in Hcc. cbn in Hcc. by subst.
      * exfalso. destruct Hh as [Hc _ _ _ _].
        pose proof (chained_length _ _ _ _ _ _ _ Hc) as Hl.
        assert (Hs : length (segments t_st) = 1) by (vm_compute; reflexivity).
        unfold t_st, w_app in Hs. rewrite Hap in Hs. cbn [fst] in Hs.
        rewrite Hs in Hl. done.
  - vm_compute. reflexivity.
  - vm_compute. reflexivity.
  - vm_compute. split; [discriminate|reflexivity].
  - vm_compute. reflexivity.
  - apply Hsealed. vm_compute. lia.
  - repeat constructor; apply Hsealed; vm_compute; lia.
  - vm_compute. reflexivity.
Defined.
