(* ===== verification/Partition.v ===== *)
(** Partition ownership and its planners: [PartitionTable] (crates/aeon-cluster/src/types.rs),
    [partition_manager.rs], the drain and rebalance planners of [rebalance.rs] and the
    per-partition transfer tracker of [transfer.rs].

    The table is a [HashMap]: its iteration order is unspecified, differs between replicas
    and is therefore a parameter [iter], constrained only to list each entry once. *)
From stdpp Require Import base gmap list strings sorting.
From S2P Require Import Prelude Types.

Abbreviation NodeId := Z (only parsing).

(** * [PartitionOwnership] and [PartitionTable] *)

Inductive PartitionOwnership :=
| Owned (n : NodeId)
| Transferring (source target : NodeId).

#[export] Instance PartitionOwnership_eq_dec : EqDecision PartitionOwnership.
Proof. solve_decision. Defined.

Definition active_node (o : PartitionOwnership) : NodeId :=
  match o with
  | Owned n => n
  | Transferring source _ => source
  end.

Definition is_transferring (o : PartitionOwnership) : bool :=
  match o with Transferring _ _ => true | Owned _ => false end.

Abbreviation PartitionTable := (gmap Z PartitionOwnership) (only parsing).

(** [single_node]: partitions [0 .. num_partitions) all owned by one node. *)
Definition single_node (num_partitions : Z) (node_id : NodeId) : PartitionTable :=
  foldl (fun t i => <[i := Owned node_id]> t) ∅ (seqZ 0 num_partitions).

Definition get (t : PartitionTable) (p : PartitionId) : option PartitionOwnership := t !! p.

Definition assign (t : PartitionTable) (p : PartitionId) (node : NodeId) : PartitionTable :=
  <[p := Owned node]> t.

Definition begin_transfer (t : PartitionTable) (p : PartitionId) (source target : NodeId)
    : PartitionTable := <[p := Transferring source target]> t.

Definition complete_transfer (t : PartitionTable) (p : PartitionId) (new_owner : NodeId)
    : PartitionTable := <[p := Owned new_owner]> t.

Definition num_partitions (t : PartitionTable) : nat := size t.

(** [Vec::dedup] on a sorted vector. *)
Fixpoint dedup (l : list Z) : list Z :=
  match l with
  | x :: ((y :: _) as l') => if decide (x = y) then dedup l' else x :: dedup l'
  | _ => l
  end.

Section Iter.
Variable iter : PartitionTable -> list (Z * PartitionOwnership).

Definition partitions_for_node (t : PartitionTable) (node_id : NodeId) : list PartitionId :=
  (filter (fun e => active_node (snd e) = node_id) (iter t)).*1.

Definition active_nodes (t : PartitionTable) : list NodeId :=
  dedup (merge_sort Z.le ((fun e => active_node (snd e)) <$> iter t)).

Definition partition_counts (t : PartitionTable) : gmap Z nat :=
  foldl (fun counts e =>
           let n := active_node (snd e) in <[n := S (default 0 (counts !! n))]> counts)
    ∅ (iter t).

(** * partition_manager.rs *)

(** [None] is the panic of [assert!(!nodes.is_empty())]. *)
Definition initial_assignment (num_partitions : Z) (nodes : list NodeId)
    : option (list (PartitionId * NodeId)) :=
  if decide (nodes = []) then None
  else Some ((fun i => (i, nodes !!! (Z.to_nat i mod length nodes))) <$> seqZ 0 num_partitions).

(** [underloaded.iter().position(|(_, deficit)| *deficit > 0)], then the slot is used. *)
Fixpoint take_slot (slots : list (NodeId * nat)) : option (NodeId * list (NodeId * nat)) :=
  match slots with
  | [] => None
  | (n, S d) :: rest => Some (n, (n, d) :: rest)
  | (n, O) :: rest =>
    match take_slot rest with
    | Some (to, rest') => Some (to, (n, O) :: rest')
    | None => None
    end
  end.

Abbreviation Moves := (list (PartitionId * NodeId * NodeId)) (only parsing).

(** First loop: orphaned partitions go to underloaded nodes. *)
Fixpoint place_orphans (orphans : list (PartitionId * NodeId)) (under : list (NodeId * nat))
    (moves : Moves) : list (NodeId * nat) * Moves :=
  match orphans with
  | [] => (under, moves)
  | (p, from) :: rest =>
    match take_slot under with
    | Some (to, under') => place_orphans rest under' (moves ++ [(p, from, to)])
    | None => place_orphans rest under moves
    end
  end.

(** Inner part of the second loop: peel partitions off one overloaded node. *)
Fixpoint shed (ps : list PartitionId) (over_node : NodeId) (excess : nat)
    (under : list (NodeId * nat)) (moves : Moves) : list (NodeId * nat) * Moves :=
  match ps with
  | [] => (under, moves)
  | p :: rest =>
    match excess with
    | O => (under, moves)
    | S excess' =>
      match take_slot under with
      | Some (to, under') => shed rest over_node excess' under' (moves ++ [(p, over_node, to)])
      | None => shed rest over_node excess under moves
      end
    end
  end.

Fixpoint shed_all (t : PartitionTable) (over : list (NodeId * nat)) (under : list (NodeId * nat))
    (moves : Moves) : list (NodeId * nat) * Moves :=
  match over with
  | [] => (under, moves)
  | (n, excess) :: rest =>
    if decide (excess = 0) then shed_all t rest under moves
    else let '(under', moves') := shed (partitions_for_node t n) n excess under moves in
         shed_all t rest under' moves'
  end.

(** The per-node targets: the first [extra] nodes get one more. *)
Definition rebalance_targets (total : nat) (nodes : list NodeId) : gmap Z nat :=
  let base := total / length nodes in
  let extra := total mod length nodes in
  foldl (fun targets '(i, node) => <[node := if decide (i < extra) then base + 1 else base]> targets)
    ∅ (imap pair nodes).

Definition compute_rebalance (t : PartitionTable) (nodes : list NodeId) : Moves :=
  if decide (nodes = [] \/ num_partitions t = 0) then []
  else
    let targets := rebalance_targets (num_partitions t) nodes in
    let current_counts := partition_counts t in
    let current n := default 0 (current_counts !! n) in
    let target n := targets !!! n in
    let overloaded := omap (fun n => if decide (target n < current n)
                                     then Some (n, current n - target n) else None) nodes in
    let underloaded := omap (fun n => if decide (current n < target n)
                                      then Some (n, target n - current n) else None) nodes in
    let orphaned := omap (fun e => let a := active_node (snd e) in
                                   match targets !! a with
                                   | Some _ => None
                                   | None => Some (fst e, a)
                                   end) (iter t) in
    let '(under', moves) := place_orphans orphaned underloaded [] in
    snd (shed_all t overloaded under' moves).

(** * rebalance.rs *)

Definition plan_drain (t : PartitionTable) (target_node : NodeId) (live_members : list NodeId)
    : list (PartitionId * NodeId) :=
  let targets := merge_sort Z.le (filter (fun n => n <> target_node) live_members) in
  if decide (targets = []) then []
  else
    let owned := (filter (fun e => snd e = Owned target_node) (iter t)).*1 in
    let owned := merge_sort Z.le owned in
    imap (fun i p => (p, targets !!! (i mod length targets))) owned.

(** Least-loaded target: most free slots first, lower node id on ties ([Iterator::min_by]
    keeps the first of equal elements). [None] when no other member has a slot. *)
Definition better (a b : NodeId * nat) : bool :=
  bool_decide (snd b < snd a) || (bool_decide (snd a = snd b) && bool_decide (fst a <= fst b)%Z).

Definition pick_target (owner : NodeId) (deficit : list (NodeId * nat)) : option (NodeId * nat) :=
  match filter (fun e => fst e <> owner /\ 0 < snd e) deficit with
  | [] => None
  | x :: rest => Some (foldl (fun best e => if better best e then best else e) x rest)
  end.

(** [*slots -= 1] on the picked entry; members are distinct. *)
Definition use_slot (n : NodeId) (deficit : list (NodeId * nat)) : list (NodeId * nat) :=
  (fun e => if decide (fst e = n) then (fst e, snd e - 1) else e) <$> deficit.

Fixpoint peel (owner : NodeId) (pids : list PartitionId) (deficit : list (NodeId * nat))
    (plan : list (PartitionId * NodeId)) : list (NodeId * nat) * list (PartitionId * NodeId) :=
  match pids with
  | [] => (deficit, plan)
  | pid :: rest =>
    match pick_target owner deficit with
    | None => (deficit, plan)
    | Some (target, _) => peel owner rest (use_slot target deficit) (plan ++ [(pid, target)])
    end
  end.

(** The partitions a live member owns outright, in ascending order. *)
Definition bucket (t : PartitionTable) (n : NodeId) : list PartitionId :=
  merge_sort Z.le ((filter (fun e => snd e = Owned n) (iter t)).*1).

Fixpoint peel_all (t : PartitionTable) (ceiling : nat) (owners : list NodeId)
    (deficit : list (NodeId * nat)) (plan : list (PartitionId * NodeId))
    : list (NodeId * nat) * list (PartitionId * NodeId) :=
  match owners with
  | [] => (deficit, plan)
  | owner :: rest =>
    let b := bucket t owner in
    let surplus := length b - ceiling in
    let '(deficit', plan') := peel owner (take surplus b) deficit plan in
    peel_all t ceiling rest deficit' plan'
  end.

Definition div_ceil (a b : nat) : nat := (a + b - 1) / b.

Definition by_pid (a b : PartitionId * NodeId) : Prop := (fst a <= fst b)%Z.
#[export] Instance by_pid_dec a b : Decision (by_pid a b).
Proof. unfold by_pid. apply _. Defined.

Definition plan_rebalance (t : PartitionTable) (live_members : list NodeId)
    : list (PartitionId * NodeId) :=
  let members := dedup (merge_sort Z.le live_members) in
  if decide (members = []) then []
  else
    let total := sum_list_with (fun n => length (bucket t n)) members in
    let ceiling := div_ceil total (length members) in
    let deficit := (fun n => (n, ceiling - length (bucket t n))) <$> members in
    merge_sort by_pid (snd (peel_all t ceiling members deficit [])).
End Iter.

(** * transfer.rs: the two-phase transfer of one partition *)

Inductive TransferState :=
| Idle
| BulkSync (source target : NodeId) (progress total : Z)
| Cutover (source target : NodeId)
| Complete (new_owner : NodeId)
| Aborted (reverted_to : NodeId) (reason : string).

Definition is_active (s : TransferState) : bool :=
  match s with BulkSync _ _ _ _ | Cutover _ _ => true | _ => false end.

Definition tt_begin (s : TransferState) (source target : NodeId) : TransferState * result string unit :=
  match s with
  | Idle => (BulkSync source target 0 0, Ok tt)
  | _ => (s, Err "cannot begin transfer")
  end.

Definition tt_begin_cutover (s : TransferState) : TransferState * result string unit :=
  match s with
  | BulkSync source target _ _ => (Cutover source target, Ok tt)
  | _ => (s, Err "cannot cutover")
  end.

Definition tt_complete (s : TransferState) : TransferState * result string NodeId :=
  match s with
  | Cutover _ target => (Complete target, Ok target)
  | _ => (s, Err "cannot complete")
  end.

Definition tt_abort (s : TransferState) (reason : string) : TransferState * result string NodeId :=
  match s with
  | BulkSync source _ _ _ | Cutover source _ => (Aborted source reason, Ok source)
  | _ => (s, Err "cannot abort")
  end.

Definition tt_update_progress (s : TransferState) (bytes total : Z) : TransferState :=
  match s with
  | BulkSync source target _ _ => BulkSync source target bytes total
  | _ => s
  end.

Definition tt_reset (s : TransferState) : TransferState := Idle.
