(* ===== verification/PartitionProofs.v ===== *)
(** Correctness of the partition planners of [Partition], for every iteration order of the
    partition table. *)
From stdpp Require Import base gmap list strings sorting.
From S2P Require Import Prelude Types Partition.

Definition b2n (P : Prop) `{Decision P} : nat := if decide P then 1 else 0.

(** * Counting owners *)

Definition cnt {A K} `{EqDecision K} (f : A -> K) (v : K) (l : list A) : nat := length (filter (fun x => f x = v) l).

Lemma cnt_nil {A K} `{EqDecision K} (f : A -> K) v : cnt f v [] = 0.
Proof. done. Qed.

Lemma cnt_cons {A K} `{EqDecision K} (f : A -> K) v x l : cnt f v (x :: l) = b2n (f x = v) + cnt f v l.
Proof. unfold cnt, b2n. rewrite filter_cons. by case_decide. Qed.

Lemma cnt_app {A K} `{EqDecision K} (f : A -> K) v l1 l2 : cnt f v (l1 ++ l2) = cnt f v l1 + cnt f v l2.
Proof. unfold cnt. by rewrite filter_app, length_app. Qed.

Lemma cnt_perm {A K} `{EqDecision K} (f : A -> K) v l1 l2 : l1 ≡ₚ l2 -> cnt f v l1 = cnt f v l2.
Proof. intros Hp. unfold cnt. by rewrite Hp. Qed.

Lemma cnt_fmap {A B K} `{EqDecision K} (g : B -> A) (f : A -> K) v l : cnt f v (g <$> l) = cnt (fun x => f (g x)) v l.
Proof. induction l; [done|]. cbn [fmap list_fmap]. rewrite !cnt_cons. auto. Qed.

Lemma cnt_const {A K} `{EqDecision K} (f : A -> K) v w l :
  Forall (fun x => f x = w) l -> cnt f v l = if decide (w = v) then length l else 0.
Proof.
  induction 1 as [|x l Hx _ IH]; [by case_decide|]. rewrite cnt_cons, IH, Hx. unfold b2n.
  by repeat case_decide.
Qed.

Definition owner_of (e : Z * PartitionOwnership) : Z := active_node (snd e).

(** How many partitions of the table have ownership of class [v]. *)
Definition tally {K} `{EqDecision K} (f : PartitionOwnership -> K) (t : gmap Z PartitionOwnership) (v : K)
    : nat := cnt (fun e => f (snd e)) v (map_to_list t).

(** Partitions actively served by [v]. *)
Definition load (t : gmap Z PartitionOwnership) (v : Z) : nat := tally active_node t v.

Lemma tally_insert {K} `{EqDecision K} (f : PartitionOwnership -> K) t p o o' v :
  t !! p = Some o ->
  tally f (<[p := o']> t) v + b2n (f o = v) = tally f t v + b2n (f o' = v).
Proof.
  intros Hp. unfold tally.
  assert (E1 : map_to_list t ≡ₚ (p, o) :: map_to_list (delete p t)).
  { rewrite <-(insert_id t p o Hp) at 1. rewrite <-insert_delete_eq.
    apply map_to_list_insert, lookup_delete_eq. }
  assert (E2 : map_to_list (<[p := o']> t) ≡ₚ (p, o') :: map_to_list (delete p t)).
  { rewrite <-insert_delete_eq. apply map_to_list_insert, lookup_delete_eq. }
  rewrite (cnt_perm _ _ _ _ E1), (cnt_perm _ _ _ _ E2), !cnt_cons. cbn [snd]. lia.
Qed.

(** * Executing a plan *)

Definition mv_part (m : Z * Z * Z) : Z := fst (fst m).
Definition mv_from (m : Z * Z * Z) : Z := snd (fst m).
Definition mv_to (m : Z * Z * Z) : Z := snd m.

Definition apply_moves (t : gmap Z PartitionOwnership) (ms : list (Z * Z * Z))
    : gmap Z PartitionOwnership :=
  foldl (fun t m => assign t (mv_part m) (mv_to m)) t ms.

(** Each move names a partition of the table together with the node now serving it. *)
Definition valid_move (t : gmap Z PartitionOwnership) (m : Z * Z) : Prop :=
  exists o, t !! fst m = Some o /\ active_node o = snd m.

(** Moving distinct partitions shifts the tallies by what leaves and what arrives. *)
Lemma apply_moves_tally {K} `{EqDecision K} (f : PartitionOwnership -> K) ms : forall t v,
  NoDup (mv_part <$> ms) ->
  Forall (fun m => exists o, t !! mv_part m = Some o /\ f o = f (Owned (mv_from m))) ms ->
  tally f (apply_moves t ms) v + cnt (fun m => f (Owned (mv_from m))) v ms
    = tally f t v + cnt (fun m => f (Owned (mv_to m))) v ms.
Proof.
  induction ms as [|[[p from] to] ms IH]; intros t v HN HF; [done|].
  inversion HN as [|? ? Hnin HN' E]; subst. inversion HF as [|? ? Hv HF' E1]; subst.
  destruct Hv as (o & Ho & Ha). cbn in Ho, Ha.
  rewrite !cnt_cons. change (mv_from (p, from, to)) with from.
  change (mv_to (p, from, to)) with to.
  change (apply_moves t ((p, from, to) :: ms)) with (apply_moves (assign t p to) ms).
  assert (HF2 : Forall (fun m => exists o, assign t p to !! mv_part m = Some o
                                  /\ f o = f (Owned (mv_from m))) ms).
  { rewrite Forall_forall in HF' |- *. intros m Hm. destruct (HF' m Hm) as (o' & Ho' & Ha').
    exists o'. split; [|done]. unfold assign. rewrite lookup_insert_ne; [done|].
    intros ->. apply Hnin. apply list_elem_of_fmap. by exists m. }
  specialize (IH (assign t p to) v HN' HF2).
  pose proof (tally_insert f t p o (Owned to) v Ho) as Hl. unfold assign in *.
  rewrite Ha in Hl. lia.
Qed.

Lemma apply_moves_load ms t v :
  NoDup (mv_part <$> ms) -> Forall (fun m => valid_move t (fst m)) ms ->
  load (apply_moves t ms) v + cnt mv_from v ms = load t v + cnt mv_to v ms.
Proof. apply (apply_moves_tally active_node). Qed.

Lemma apply_moves_lookup_ne ms : forall t p,
  p ∉ mv_part <$> ms -> apply_moves t ms !! p = t !! p.
Proof.
  induction ms as [|m ms IH]; intros t p Hp; [done|]. cbn in Hp.
  apply not_elem_of_cons in Hp as [Hne Hp]. unfold apply_moves. cbn [foldl].
  fold (apply_moves (assign t (mv_part m) (mv_to m)) ms). rewrite IH by done.
  by apply lookup_insert_ne.
Qed.

(** * Slots *)

Definition slots_of (v : Z) (s : list (Z * nat)) : nat :=
  sum_list_with (fun e => if decide (fst e = v) then snd e else 0) s.
Definition slots_total (s : list (Z * nat)) : nat := sum_list_with snd s.

Lemma take_slot_Some s to s' :
  take_slot s = Some (to, s') ->
  slots_total s = S (slots_total s') /\ forall v, slots_of v s = slots_of v s' + b2n (to = v).
Proof.
  unfold slots_total, slots_of, b2n. revert s'.
  induction s as [|[n [|d]] s IH]; intros s' Hs; [done| |].
  - cbn in Hs. destruct (take_slot s) as [[to' r]|] eqn:E; [|done]. simplify_eq.
    destruct (IH _ eq_refl) as [H1 H2]. cbn. split; [lia|]. intros v. rewrite H2.
    repeat case_decide; lia.
  - cbn in Hs. simplify_eq. cbn. split; [lia|]. intros v. repeat case_decide; simplify_eq; lia.
Qed.

Lemma take_slot_None s : take_slot s = None -> slots_total s = 0.
Proof.
  unfold slots_total. induction s as [|[n [|d]] s IH]; intros Hs; [done| |done].
  cbn in *. destruct (take_slot s) as [[]|]; [done|]. auto.
Qed.

Lemma place_stuck l s ms : take_slot s = None -> place_orphans l s ms = (s, ms).
Proof. intros Hs. induction l as [|[p f] l IH]; [done|]. cbn. by rewrite Hs. Qed.

Lemma place_app l1 l2 s ms :
  place_orphans (l1 ++ l2) s ms =
    let '(s', ms') := place_orphans l1 s ms in place_orphans l2 s' ms'.
Proof.
  revert s ms. induction l1 as [|[p f] l1 IH]; intros s ms; [done|]. cbn.
  destruct (take_slot s) as [[to s']|]; apply IH.
Qed.

(** With enough free slots every partition of the list is placed. *)
Lemma place_spec l : forall s ms,
  length l <= slots_total s ->
  exists s' new, place_orphans l s ms = (s', ms ++ new)
    /\ new.*1 = l /\ slots_total s = slots_total s' + length l
    /\ forall v, slots_of v s = slots_of v s' + cnt mv_to v new.
Proof.
  induction l as [|[p f] l IH]; intros s ms Hl.
  { exists s, []. rewrite app_nil_r. cbn. unfold cnt. cbn. split; [done|]. split; [done|].
    split; [lia|]. intros; lia. }
  cbn in Hl |- *. destruct (take_slot s) as [[to s1]|] eqn:E.
  - destruct (take_slot_Some _ _ _ E) as [Ht Hs].
    destruct (IH s1 (ms ++ [(p, f, to)])) as (s' & new & Hp & Hn & Htt & Hv); [lia|].
    exists s', ((p, f, to) :: new). rewrite Hp, <-app_assoc. split; [done|].
    cbn [fmap list_fmap length fst]. rewrite Hn. split; [done|]. split; [lia|]. intros v. rewrite Hs, Hv, cnt_cons.
    change (mv_to (p, f, to)) with to. lia.
  - rewrite (take_slot_None _ E) in Hl. lia.
Qed.

Lemma shed_place ps : forall n ex s ms,
  shed ps n ex s ms = place_orphans ((fun p => (p, n)) <$> take ex ps) s ms.
Proof.
  induction ps as [|p ps IH]; intros n ex s ms.
  { by rewrite take_nil. }
  destruct ex as [|ex]; [done|]. cbn. destruct (take_slot s) as [[to s']|] eqn:E; [apply IH|].
  rewrite IH. by rewrite !place_stuck.
Qed.

(** * Targets *)

Lemma sum_list_with_app' {A} (f : A -> nat) l1 l2 :
  sum_list_with f (l1 ++ l2) = sum_list_with f l1 + sum_list_with f l2.
Proof. induction l1; cbn; lia. Qed.

Lemma sum_list_with_ext {A} (f g : A -> nat) l :
  (forall x, x ∈ l -> f x = g x) -> sum_list_with f l = sum_list_with g l.
Proof.
  induction l as [|x l IH]; intros Hx; [done|]. cbn. rewrite (Hx x) by set_solver.
  rewrite IH; [done|]. intros y Hy. apply Hx. set_solver.
Qed.

Lemma sum_list_with_plus {A} (f g : A -> nat) l :
  sum_list_with (fun x => f x + g x) l = sum_list_with f l + sum_list_with g l.
Proof. induction l; cbn; lia. Qed.

Lemma sum_omap {A B} (f : A -> option B) (g : B -> nat) l :
  sum_list_with g (omap f l) = sum_list_with (fun x => match f x with Some y => g y | None => 0 end) l.
Proof. induction l as [|x l IH]; [done|]. cbn. destruct (f x); cbn; lia. Qed.

Lemma targets_snoc (nodes : list Z) (f : nat -> nat) n :
  foldl (fun (m : gmap Z nat) '(i, node) => <[node := f i]> m) ∅
              (imap pair (nodes ++ [n]))
  = <[n := f (length nodes)]> (foldl (fun (m : gmap Z nat) '(i, node) => <[node := f i]> m) ∅
                                 (imap pair nodes)).
Proof. rewrite imap_app, foldl_app. cbn. by rewrite Nat.add_0_r. Qed.

Section Targets.
Variables (f : nat -> nat).
Let tmap (nodes : list Z) : gmap Z nat :=
  foldl (fun (m : gmap Z nat) '(i, node) => <[node := f i]> m) ∅ (imap pair nodes).

Lemma targets_lookup_notin nodes n : n ∉ nodes -> tmap nodes !! n = None.
Proof.
  subst tmap. cbn. induction nodes as [|x nodes IH] using rev_ind; intros Hn; [done|].
  rewrite targets_snoc. rewrite lookup_insert_ne by set_solver. apply IH. set_solver.
Qed.

Lemma targets_sum nodes :
  NoDup nodes -> sum_list_with (fun n => tmap nodes !!! n) nodes = sum_list_with f (seq 0 (length nodes)).
Proof.
  subst tmap. cbn. induction nodes as [|x nodes IH] using rev_ind; intros HN; [done|].
  apply NoDup_app in HN as (HN & Hd & _). rewrite !sum_list_with_app', length_app, Nat.add_comm.
  rewrite Nat.add_comm. cbn [length]. rewrite seq_app, sum_list_with_app'. cbn [seq sum_list_with].
  rewrite <-IH by done. rewrite targets_snoc.
  rewrite lookup_total_insert_eq. f_equal. apply sum_list_with_ext. intros n Hn.
  rewrite lookup_total_insert_ne; [done|]. intros ->. apply (Hd n Hn). set_solver.
Qed.

Lemma targets_lookup_in nodes n : n ∈ nodes -> is_Some (tmap nodes !! n).
Proof.
  subst tmap. cbn. induction nodes as [|x nodes IH] using rev_ind; intros Hn; [by apply not_elem_of_nil in Hn|].
  rewrite targets_snoc. destruct (decide (n = x)) as [->|Hne].
  - rewrite lookup_insert_eq. eauto.
  - rewrite lookup_insert_ne by done. apply IH. set_solver.
Qed.
End Targets.

Lemma sum_quota base extra n :
  extra <= n ->
  sum_list_with (fun i => if decide (i < extra) then base + 1 else base) (seq 0 n) = n * base + extra.
Proof.
  assert (Hg : forall k m, sum_list_with (fun i => if decide (i < extra) then base + 1 else base) (seq k m)
                = m * base + (Nat.min (k + m) extra - Nat.min k extra)).
  { intros k m. revert k. induction m as [|m IH]; intros k; cbn [seq sum_list_with]; [lia|].
    rewrite IH. case_decide; lia. }
  intros He. rewrite Hg. lia.
Qed.

Lemma targets_total total nodes :
  nodes <> [] -> NoDup nodes ->
  sum_list_with (fun n => rebalance_targets total nodes !!! n) nodes = total.
Proof.
  intros Hne HN. assert (length nodes <> 0) by (destruct nodes; done).
  unfold rebalance_targets. rewrite (targets_sum _ nodes HN).
  pose proof (Nat.mod_upper_bound total (length nodes)).
  rewrite sum_quota by lia. pose proof (Nat.div_mod_eq total (length nodes)). lia.
Qed.

Lemma quota_range total nodes n :
  n ∈ nodes ->
  total / length nodes <= rebalance_targets total nodes !!! n <= total / length nodes + 1.
Proof.
  unfold rebalance_targets. generalize (total / length nodes) as base.
  generalize (total mod length nodes) as extra. intros extra base Hn.
  induction nodes as [|x nodes IH] using rev_ind; [by apply not_elem_of_nil in Hn|].
  rewrite (targets_snoc nodes (fun i => if decide (i < extra) then base + 1 else base) x).
  destruct (decide (n = x)) as [->|Hne].
  - rewrite lookup_total_insert_eq. case_decide; lia.
  - rewrite lookup_total_insert_ne by done. apply IH. set_solver.
Qed.

Lemma quota_zero nodes n :
  nodes <> [] -> NoDup nodes -> n ∈ nodes -> rebalance_targets 0 nodes !!! n = 0.
Proof.
  intros Hne HN Hn. pose proof (targets_total 0 nodes Hne HN) as Hs. revert Hs Hn.
  generalize (rebalance_targets 0 nodes) as f. intros f. clear. induction nodes as [|x l IH]; cbn; intros Hs Hn.
  - by apply not_elem_of_nil in Hn.
  - apply elem_of_cons in Hn as [->|Hn]; [lia|]. apply IH; [lia|done].
Qed.

(** Every entry is either served by exactly one of the nodes or orphaned. *)
Lemma loads_split nodes l :
  NoDup nodes ->
  sum_list_with (fun n => cnt owner_of n l) nodes
    + length (filter (fun e => owner_of e ∉ nodes) l) = length l.
Proof.
  intros HN. induction l as [|e l IH].
  { cbn. induction nodes as [|n nodes IHn]; [done|]. cbn. inversion HN; subst. auto. }
  rewrite filter_cons. rewrite (sum_list_with_ext _ (fun n => b2n (owner_of e = n) + cnt owner_of n l))
    by (intros; apply cnt_cons). rewrite sum_list_with_plus.
  assert (Hone : sum_list_with (fun n => b2n (owner_of e = n)) nodes
                 = if decide (owner_of e ∈ nodes) then 1 else 0).
  { clear IH. generalize (owner_of e) as a. intros a. unfold b2n.
    induction nodes as [|n nodes IHn]; [by case_decide as Hin; [apply not_elem_of_nil in Hin|]|].
    inversion HN as [|? ? Hnin HN' E]; subst. cbn. rewrite IHn by done.
    repeat case_decide; try set_solver. all: lia || (exfalso; set_solver). }
  rewrite Hone. cbn [length]. repeat case_decide; cbn [length]; try done; lia.
Qed.

(** * [compute_rebalance] *)

Section Rebalance.
Variable iter : gmap Z PartitionOwnership -> list (Z * PartitionOwnership).
Hypothesis iter_perm : forall t, iter t ≡ₚ map_to_list t.

Lemma counts_fold v (l : list (Z * PartitionOwnership)) : forall m : gmap Z nat,
  default 0 (foldl (fun counts e => <[owner_of e := S (default 0 (counts !! owner_of e))]> counts) m l
             !! v) = default 0 (m !! v) + cnt owner_of v l.
Proof.
  induction l as [|e l IH]; intros m; [cbn; lia|]. cbn [foldl]. rewrite IH, cnt_cons. unfold b2n.
  case_decide as He.
  - rewrite He, lookup_insert_eq. cbn. lia.
  - rewrite lookup_insert_ne by done. lia.
Qed.

Lemma partition_counts_load t v : default 0 (partition_counts iter t !! v) = load t v.
Proof.
  unfold partition_counts, load, tally. rewrite <-(cnt_perm _ _ _ _ (iter_perm t)).
  pose proof (counts_fold v (iter t) ∅) as Hc. rewrite lookup_empty in Hc. exact Hc.
Qed.

Lemma pfn_length t v : length (partitions_for_node iter t v) = load t v.
Proof.
  unfold partitions_for_node, load, tally. rewrite length_fmap.
  by rewrite <-(cnt_perm owner_of v _ _ (iter_perm t)).
Qed.

Lemma pfn_elem t v p :
  p ∈ partitions_for_node iter t v <-> valid_move t (p, v).
Proof.
  unfold partitions_for_node, valid_move. rewrite list_elem_of_fmap. cbn. split.
  - intros ([p' o] & -> & He). apply list_elem_of_filter in He as [Ha Hin].
    rewrite iter_perm, elem_of_map_to_list in Hin. eauto.
  - intros (o & Ho & Ha). exists (p, o). split; [done|]. apply list_elem_of_filter. split; [done|].
    by rewrite iter_perm, elem_of_map_to_list.
Qed.

Lemma iter_NoDup t : NoDup (iter t).*1.
Proof. rewrite iter_perm. apply NoDup_fst_map_to_list. Qed.

Lemma pfn_NoDup t v : NoDup (partitions_for_node iter t v).
Proof.
  unfold partitions_for_node. eapply sublist_NoDup; [apply (iter_NoDup t)|].
  apply fmap_sublist, sublist_filter.
Qed.

(** The partitions the second loop takes off overloaded nodes. *)
Definition peeled (t : gmap Z PartitionOwnership) (over : list (Z * nat)) : list (Z * Z) :=
  concat ((fun e => (fun p => (p, fst e)) <$> take (snd e) (partitions_for_node iter t (fst e))) <$> over).

Lemma shed_all_place t over : forall s ms,
  shed_all iter t over s ms = place_orphans (peeled t over) s ms.
Proof.
  induction over as [|[n ex] over IH]; intros s ms; [done|].
  unfold peeled. cbn [fmap list_fmap concat shed_all]. rewrite place_app.
  case_decide as He.
  - cbn in He. subst. cbn. apply IH.
  - cbn [fst snd]. rewrite <-shed_place.
    destruct (shed _ _ _ _ _). apply IH.
Qed.

Lemma peeled_valid t over m : m ∈ peeled t over -> valid_move t m /\ snd m ∈ over.*1.
Proof.
  unfold peeled. intros Hm. apply elem_of_concat in Hm as (l & Hl & Hm).
  apply list_elem_of_fmap in Hl as ([n ex] & -> & Hin). apply list_elem_of_fmap in Hm as (p & -> & Hp).
  cbn in *. split.
  - apply pfn_elem. by eapply elem_of_take_elem.
  - apply list_elem_of_fmap. by exists (n, ex).
Qed.

Lemma valid_move_inj t p v w : valid_move t (p, v) -> valid_move t (p, w) -> v = w.
Proof. intros (o & Ho & Ha) (o' & Ho' & Ha'). cbn in *. congruence. Qed.

Lemma peeled_NoDup t over : NoDup over.*1 -> NoDup (peeled t over).*1.
Proof.
  induction over as [|[n ex] over IH]; intros HN; [constructor|]. cbn in HN.
  apply NoDup_cons in HN as [Hn HN]. unfold peeled. cbn [fmap list_fmap concat].
  rewrite fmap_app. apply NoDup_app. split; [|split].
  - rewrite <-list_fmap_compose. cbn.
    rewrite (list_fmap_ext (fst ∘ _) id) by done. rewrite list_fmap_id.
    eapply sublist_NoDup; [apply (pfn_NoDup t n)|]. apply sublist_take.
  - intros p Hp Hq. apply list_elem_of_fmap in Hq as ([p' w] & -> & Hq). cbn in *.
    destruct (peeled_valid t over _ Hq) as [Hv Hin]. cbn in Hin.
    rewrite <-list_fmap_compose in Hp. apply list_elem_of_fmap in Hp as (q & -> & Hp). cbn in *.
    assert (Hvn : valid_move t (q, n)).
    { apply pfn_elem. by eapply elem_of_take_elem. }
    rewrite (valid_move_inj _ _ _ _ Hv Hvn) in Hin. done.
  - by apply IH.
Qed.

Lemma peeled_cnt t over v :
  Forall (fun e => snd e <= load t (fst e)) over ->
  cnt snd v (peeled t over) = slots_of v over.
Proof.
  induction 1 as [|[n ex] over Hle _ IH]; [done|]. unfold peeled. cbn [fmap list_fmap concat].
  rewrite cnt_app. fold (peeled t over). rewrite IH. unfold slots_of. cbn [sum_list_with fst snd].
  f_equal. rewrite (cnt_const _ _ n).
  - rewrite length_fmap, length_take, pfn_length. cbn in Hle. case_decide; lia.
  - apply Forall_fmap, Forall_true. done.
Qed.

Lemma peeled_length t over :
  Forall (fun e => snd e <= load t (fst e)) over -> length (peeled t over) = slots_total over.
Proof.
  induction 1 as [|[n ex] over Hle _ IH]; [done|]. unfold peeled. cbn [fmap list_fmap concat].
  rewrite length_app, length_fmap, length_take, pfn_length. cbn in Hle |- *.
  fold (peeled t over). rewrite IH. unfold slots_total. lia.
Qed.

Lemma omap_ext' {A B} (f g : A -> option B) (l : list A) :
  (forall x, f x = g x) -> omap f l = omap g l.
Proof. intros Hfg. induction l as [|x l IH]; [done|]. cbn. by rewrite Hfg, IH. Qed.

Lemma apply_moves_dom ms : forall t,
  Forall (fun m => mv_part m ∈ dom t) ms -> dom (apply_moves t ms) = dom t.
Proof.
  induction ms as [|m ms IH]; intros t HF; [done|]. inversion HF as [|? ? Hm HF' E]; subst.
  change (apply_moves t (m :: ms)) with (apply_moves (assign t (mv_part m) (mv_to m)) ms).
  assert (Hd : dom (assign t (mv_part m) (mv_to m)) = dom t).
  { unfold assign. rewrite dom_insert_L. by apply subseteq_union_1_L, singleton_subseteq_l. }
  rewrite IH; [done|]. by rewrite Hd.
Qed.

Lemma slots_of_omap (P : Z -> Prop) `{forall n, Decision (P n)} (g : Z -> nat) nodes v :
  NoDup nodes -> v ∈ nodes ->
  slots_of v (omap (fun n => if decide (P n) then Some (n, g n) else None) nodes)
    = if decide (P v) then g v else 0.
Proof.
  intros HN Hin. unfold slots_of. rewrite sum_omap.
  assert (Hz : forall l, v ∉ l -> sum_list_with (fun n => match (if decide (P n) then Some (n, g n) else None)
      with Some e => if decide (fst e = v) then snd e else 0 | None => 0 end) l = 0).
  { induction l as [|n l IH]; intros Hnin; [done|]. cbn. rewrite IH by set_solver.
    repeat case_decide; cbn in *; [set_solver|done..]. }
  induction nodes as [|n nodes IH]; [by apply not_elem_of_nil in Hin|].
  apply NoDup_cons in HN as [Hn HN]. cbn [sum_list_with]. destruct (decide (n = v)) as [->|Hne].
  - rewrite Hz by done. destruct (decide (P v)); cbn [fst snd]; [|done].
    rewrite decide_True by done. lia.
  - rewrite IH by set_solver. destruct (decide (P n)); cbn [fst snd]; [|done].
    by rewrite decide_False.
Qed.

Lemma slots_of_le v s : slots_of v s <= slots_total s.
Proof. unfold slots_of, slots_total. induction s as [|e s IH]; cbn; [lia|]. case_decide; lia. Qed.

(** What the planner computes, in terms of loads. *)
Definition over_list (t : gmap Z PartitionOwnership) (tgt : Z -> nat) (nodes : list Z) :=
  omap (fun n => if decide (tgt n < load t n) then Some (n, load t n - tgt n) else None) nodes.
Definition under_list (t : gmap Z PartitionOwnership) (tgt : Z -> nat) (nodes : list Z) :=
  omap (fun n => if decide (load t n < tgt n) then Some (n, tgt n - load t n) else None) nodes.
Definition orphan_list (t : gmap Z PartitionOwnership) (nodes : list Z) : list (Z * Z) :=
  (fun e => (fst e, owner_of e)) <$> filter (fun e => owner_of e ∉ nodes) (iter t).
Definition movers t tgt nodes := orphan_list t nodes ++ peeled t (over_list t tgt nodes).

Lemma compute_rebalance_place t nodes :
  nodes <> [] -> size t <> 0 ->
  let tgt n := rebalance_targets (size t) nodes !!! n in
  compute_rebalance iter t nodes = snd (place_orphans (movers t tgt nodes) (under_list t tgt nodes) []).
Proof.
  intros Hne Hsz tgt. unfold compute_rebalance, num_partitions. rewrite decide_False by tauto.
  cbn zeta.
  assert (Hc : forall n, default 0 (partition_counts iter t !! n) = load t n)
    by (intros; apply partition_counts_load).
  erewrite (omap_ext' (fun n => if decide (_ < default 0 _) then _ else _)
              (fun n => if decide (tgt n < load t n) then Some (n, load t n - tgt n) else None));
    [|intros n; cbn beta; by rewrite Hc].
  fold (over_list t tgt nodes).
  erewrite (omap_ext' (fun n => if decide (default 0 _ < _) then _ else _)
              (fun n => if decide (load t n < tgt n) then Some (n, tgt n - load t n) else None));
    [|intros n; cbn beta; by rewrite Hc].
  replace (omap _ (iter t)) with (orphan_list t nodes).
  - unfold movers. rewrite place_app. unfold under_list.
    destruct (place_orphans (orphan_list t nodes) _ []) as [u ms]. by rewrite shed_all_place.
  - unfold orphan_list. induction (iter t) as [|e l IH]; [done|]. rewrite filter_cons. cbn.
    fold (owner_of e). case_decide as Hd.
    + unfold rebalance_targets. rewrite targets_lookup_notin by done. cbn. by rewrite IH.
    + destruct (targets_lookup_in (fun i => if decide (i < size t mod length nodes)
                  then size t / length nodes + 1 else size t / length nodes) nodes (owner_of e))
        as [x Hx]; [by destruct (decide (owner_of e ∈ nodes))|].
      unfold rebalance_targets. rewrite Hx. apply IH.
Qed.

Lemma load_sum t nodes :
  NoDup nodes -> sum_list_with (load t) nodes + length (orphan_list t nodes) = size t.
Proof.
  intros HN. unfold orphan_list. rewrite length_fmap.
  rewrite (filter_Permutation _ _ _ (iter_perm t)).
  pose proof (loads_split nodes (map_to_list t) HN) as Hs. rewrite length_map_to_list in Hs. exact Hs.
Qed.

Lemma slots_total_omap (P : Z -> Prop) `{forall n, Decision (P n)} (g : Z -> nat) nodes :
  slots_total (omap (fun n => if decide (P n) then Some (n, g n) else None) nodes)
    = sum_list_with (fun n => if decide (P n) then g n else 0) nodes.
Proof.
  unfold slots_total. rewrite sum_omap. apply sum_list_with_ext. intros n _. by case_decide.
Qed.

Lemma over_le t tgt nodes : Forall (fun e => snd e <= load t (fst e)) (over_list t tgt nodes).
Proof.
  apply Forall_forall. intros [n x] Hin. apply list_elem_of_omap in Hin as (n' & _ & Hx).
  case_decide; simplify_eq. cbn. lia.
Qed.

Lemma over_keys t tgt nodes : sublist (over_list t tgt nodes).*1 nodes.
Proof.
  unfold over_list. induction nodes as [|n nodes IH]; [constructor|]. cbn.
  case_decide; cbn; by constructor.
Qed.

Lemma movers_fit t (tgt : Z -> nat) nodes :
  NoDup nodes -> sum_list_with tgt nodes = size t ->
  length (movers t tgt nodes) = slots_total (under_list t tgt nodes).
Proof.
  intros HN Ht. unfold movers. rewrite length_app, peeled_length by apply over_le.
  unfold over_list, under_list. rewrite !slots_total_omap. pose proof (load_sum t nodes HN) as Hl.
  assert (Hb : sum_list_with tgt nodes
      + sum_list_with (fun n => if decide (tgt n < load t n) then load t n - tgt n else 0) nodes
    = sum_list_with (load t) nodes
      + sum_list_with (fun n => if decide (load t n < tgt n) then tgt n - load t n else 0) nodes).
  { rewrite <-!sum_list_with_plus. apply sum_list_with_ext. intros n _. repeat case_decide; lia. }
  lia.
Qed.

Lemma movers_valid t tgt nodes : Forall (valid_move t) (movers t tgt nodes).
Proof.
  unfold movers. apply Forall_app. split; apply Forall_forall; intros m Hm.
  - apply list_elem_of_fmap in Hm as ([p o] & -> & He). apply list_elem_of_filter in He as [_ He].
    rewrite iter_perm, elem_of_map_to_list in He. by exists o.
  - by apply peeled_valid in Hm as [? _].
Qed.

Lemma movers_NoDup t tgt nodes : NoDup nodes -> NoDup (movers t tgt nodes).*1.
Proof.
  intros HN. unfold movers. rewrite fmap_app. apply NoDup_app. split; [|split].
  - unfold orphan_list. rewrite <-list_fmap_compose.
    eapply sublist_NoDup; [apply (iter_NoDup t)|]. apply fmap_sublist, sublist_filter.
  - intros p Hp Hq. apply list_elem_of_fmap in Hp as ([p1 w1] & -> & Hp).
    apply list_elem_of_fmap in Hq as ([p2 w2] & Hq1 & Hq). cbn in *. subst p2.
    pose proof (proj1 (Forall_forall _ _) (movers_valid t tgt nodes) (p1, w1)) as Hv1.
    destruct (peeled_valid _ _ _ Hq) as [Hv2 Hin].
    assert (w1 = w2) as ->.
    { eapply valid_move_inj; [apply Hv1|apply Hv2]. unfold movers. set_solver. }
    assert (w2 ∈ nodes) by (eapply elem_of_sublist; [exact Hin|apply over_keys]).
    apply list_elem_of_fmap in Hp as (e & He & Hf). apply list_elem_of_filter in Hf as [Hf _].
    simplify_eq. done.
  - apply peeled_NoDup. eapply sublist_NoDup; [exact HN|apply over_keys].
Qed.

Lemma movers_from t tgt nodes v :
  NoDup nodes -> v ∈ nodes ->
  cnt snd v (movers t tgt nodes) = if decide (tgt v < load t v) then load t v - tgt v else 0.
Proof.
  intros HN Hv. unfold movers. rewrite cnt_app, peeled_cnt by apply over_le.
  unfold over_list. rewrite slots_of_omap by done. unfold orphan_list.
  rewrite cnt_fmap. cbn. unfold cnt.
  replace (filter _ (filter _ (iter t))) with (@nil (Z * PartitionOwnership)); [done|].
  induction (iter t) as [|e l IH]; [done|]. rewrite filter_cons. case_decide; [|done].
  rewrite filter_cons, decide_False; [done|]. intros <-. done.
Qed.

(** Everything about the plan that the balance theorem needs. *)
Lemma compute_rebalance_moves t nodes :
  nodes <> [] -> NoDup nodes -> size t <> 0 ->
  let tgt n := rebalance_targets (size t) nodes !!! n in
  let ms := compute_rebalance iter t nodes in
  ms.*1 = movers t tgt nodes
  /\ forall v, cnt mv_to v ms = slots_of v (under_list t tgt nodes).
Proof.
  intros Hne HN Hsz tgt ms. subst ms. rewrite compute_rebalance_place by done.
  fold tgt. pose proof (movers_fit t tgt nodes HN (targets_total _ _ Hne HN)) as Hf.
  destruct (place_spec (movers t tgt nodes) (under_list t tgt nodes) []) as (s' & new & Hp & Hm & Ht & Hs).
  { lia. }
  rewrite Hp. cbn [snd app]. split; [done|]. intros v. rewrite Hs. pose proof (slots_of_le v s'). lia.
Qed.

Lemma all_served t nodes :
  NoDup nodes -> sum_list_with (load t) nodes = size t ->
  map_Forall (fun _ o => active_node o ∈ nodes) t.
Proof.
  intros HN Hs p o Ho. pose proof (load_sum t nodes HN) as Hl.
  assert (Hz : orphan_list t nodes = []) by (apply length_zero_iff_nil; lia).
  destruct (decide (active_node o ∈ nodes)) as [|Hno]; [done|]. exfalso.
  assert (Hin : (p, active_node o) ∈ orphan_list t nodes).
  { apply list_elem_of_fmap. exists (p, o). split; [done|]. apply list_elem_of_filter.
    split; [done|]. by rewrite iter_perm, elem_of_map_to_list. }
  rewrite Hz in Hin. by apply not_elem_of_nil in Hin.
Qed.

Lemma compute_rebalance_load t nodes n :
  nodes <> [] -> NoDup nodes -> size t <> 0 -> n ∈ nodes ->
  load (apply_moves t (compute_rebalance iter t nodes)) n = rebalance_targets (size t) nodes !!! n.
Proof.
  intros Hne HN Hsz Hn. destruct (compute_rebalance_moves t nodes Hne HN Hsz) as [Hm Hto].
  pose proof (apply_moves_load (compute_rebalance iter t nodes) t n) as Hl.
  set (tgt := fun n => rebalance_targets (size t) nodes !!! n) in *. cbn zeta in Hm, Hto.
  rewrite Hto in Hl. unfold under_list in Hl. rewrite slots_of_omap in Hl by done.
  replace (cnt mv_from n _) with (cnt snd n (movers t tgt nodes)) in Hl
    by (rewrite <-Hm, cnt_fmap; done).
  rewrite movers_from in Hl by done. change (rebalance_targets (size t) nodes !!! n) with (tgt n).
  assert (HN' : NoDup (mv_part <$> compute_rebalance iter t nodes)).
  { replace (mv_part <$> _) with ((compute_rebalance iter t nodes).*1).*1
      by (by rewrite <-list_fmap_compose). rewrite Hm. by apply movers_NoDup. }
  assert (HF : Forall (fun m => valid_move t (fst m)) (compute_rebalance iter t nodes)).
  { apply (Forall_fmap fst (valid_move t)). rewrite Hm. apply movers_valid. }
  specialize (Hl HN' HF). unfold tgt in *. cbn beta in *. repeat case_decide; lia.
Qed.

Lemma compute_rebalance_valid t nodes :
  nodes <> [] -> NoDup nodes ->
  Forall (fun m => valid_move t (fst m)) (compute_rebalance iter t nodes).
Proof.
  intros Hne HN. destruct (decide (size t = 0)) as [Hz|Hsz].
  - unfold compute_rebalance. rewrite decide_True by (right; done). constructor.
  - apply (Forall_fmap fst (valid_move t)).
    destruct (compute_rebalance_moves t nodes Hne HN Hsz) as [Hm _]. rewrite Hm. apply movers_valid.
Qed.

Lemma valid_moves_dom t ms :
  Forall (fun m => valid_move t (fst m)) ms -> dom (apply_moves t ms) = dom t.
Proof.
  intros HF. apply apply_moves_dom. eapply Forall_impl; [exact HF|].
  intros [[p f] to] (o & Ho & _). apply elem_of_dom. by exists o.
Qed.

(** C6. Executing the plan of [compute_rebalance], whatever order the table was iterated in,
    moves partitions only away from the node that serves them, keeps the set of partitions,
    leaves each listed node with exactly its quota (the quotas add up to the number of
    partitions and differ by at most one) and no partition with a node outside the list. *)
Theorem compute_rebalance_balanced t nodes :
  nodes <> [] -> NoDup nodes ->
  let ms := compute_rebalance iter t nodes in
  let t' := apply_moves t ms in
  Forall (fun m => valid_move t (fst m)) ms
  /\ dom t' = dom t
  /\ (forall n, n ∈ nodes -> load t' n = rebalance_targets (size t) nodes !!! n
        /\ size t / length nodes <= load t' n <= size t / length nodes + 1)
  /\ map_Forall (fun _ o => active_node o ∈ nodes) t'.
Proof.
  intros Hne HN ms t'. pose proof (compute_rebalance_valid t nodes Hne HN) as HV.
  pose proof (valid_moves_dom t ms HV) as Hdom.
  assert (Hsize : size t' = size t) by (rewrite <-!size_dom; unfold t'; by rewrite Hdom).
  assert (Hload : forall n, n ∈ nodes -> load t' n = rebalance_targets (size t) nodes !!! n).
  { intros n Hn. subst t' ms. destruct (decide (size t = 0)) as [Hz|Hsz]; [|by apply compute_rebalance_load].
    apply map_size_empty_inv in Hz as Ht. rewrite Hz.
    assert (Hm0 : compute_rebalance iter t nodes = []).
    { unfold compute_rebalance. rewrite decide_True; [done|]. right. unfold num_partitions. done. }
    rewrite Hm0. subst t. symmetry. apply quota_zero; done. }
  split; [done|]. split; [done|]. split.
  - intros n Hn. rewrite (Hload n Hn). split; [done|]. by apply quota_range.
  - apply all_served; [done|]. rewrite Hsize, <-(targets_total (size t) nodes Hne HN) at 1.
    by apply sum_list_with_ext.
Qed.
End Rebalance.

(** Six partitions, two of them with node 9, which has left. *)
Definition table_a : gmap Z PartitionOwnership :=
  list_to_map [(0, Owned 1); (1, Owned 1); (2, Owned 1); (3, Transferring 2 1); (4, Owned 9); (5, Owned 9)]%Z.

Lemma compute_rebalance_balanced_witness :
  compute_rebalance map_to_list table_a [1; 2; 3]%Z <> []
  /\ load (apply_moves table_a (compute_rebalance map_to_list table_a [1; 2; 3]%Z)) 3%Z = 2.
Proof.
  split; [by vm_compute|].
  destruct (compute_rebalance_balanced map_to_list (fun _ => Permutation_refl _) table_a [1; 2; 3]%Z)
    as (_ & _ & Hl & _).
  - done.
  - by apply (bool_decide_unpack _).
  - destruct (Hl 3%Z) as [-> _]; [set_solver|]. by vm_compute.
Defined.
