(* ===== verification/PlanProofs.v ===== *)
(** Correctness of the round-robin assignments ([initial_assignment], [plan_drain]), of the
    scale-up planner [plan_rebalance], and of the transfer tracker. *)
From stdpp Require Import base gmap list strings sorting.
From S2P Require Import Prelude Types Partition PartitionProofs.

(** * Round robin *)

Lemma div_mod_succ m k :
  0 < k ->
  (m mod k = k - 1 /\ S m mod k = 0 /\ S m / k = m / k + 1)
  \/ (m mod k < k - 1 /\ S m mod k = S (m mod k) /\ S m / k = m / k).
Proof.
  intros Hk. pose proof (Nat.div_mod_eq m k) as Hm. pose proof (Nat.mod_upper_bound m k) as Hu.
  pose proof (Nat.div_mod_eq (S m) k) as Hs. pose proof (Nat.mod_upper_bound (S m) k) as Hv.
  destruct (decide (m mod k = k - 1)) as [He|He]; [left|right].
  - destruct (Nat.div_mod_unique k (S m / k) (m / k + 1) (S m mod k) 0) as [-> ->]; lia.
  - destruct (Nat.div_mod_unique k (S m / k) (m / k) (S m mod k) (S (m mod k))) as [-> ->]; lia.
Qed.

(** Dealing [m] items round-robin over [k] distinct nodes gives each of them [m / k] items or
    one more. *)
Lemma rr_count (nodes : list Z) m j v :
  NoDup nodes -> nodes !! j = Some v ->
  cnt (fun i => nodes !!! (i mod length nodes)) v (seq 0 m)
    = m / length nodes + (if decide (j < m mod length nodes) then 1 else 0).
Proof.
  intros HN Hj. assert (Hk : j < length nodes) by (by apply lookup_lt_Some in Hj).
  induction m as [|m IH].
  { rewrite Nat.Div0.div_0_l, Nat.Div0.mod_0_l, decide_False by lia. done. }
  rewrite seq_S, cnt_app, IH, cnt_cons, cnt_nil. cbn [Nat.add].
  assert (Hb : b2n (nodes !!! (m mod length nodes) = v) = b2n (m mod length nodes = j)).
  { pose proof (Nat.mod_upper_bound m (length nodes)) as Hu.
    destruct (lookup_lt_is_Some_2 nodes (m mod length nodes)) as [w Hw]; [lia|].
    rewrite (list_lookup_total_correct _ _ _ Hw). unfold b2n.
    destruct (decide (w = v)) as [->|Hwv].
    - rewrite decide_True; [done|]. exact (NoDup_lookup _ _ _ _ HN Hw Hj).
    - rewrite decide_False; [done|]. intros Hjj. rewrite Hjj in Hw. congruence. }
  rewrite Hb. unfold b2n.
  destruct (div_mod_succ m (length nodes)) as [(H1 & H2 & H3)|(H1 & H2 & H3)]; [lia|..];
    rewrite H2, H3; repeat case_decide; lia.
Qed.

Lemma rr_fair (nodes : list Z) m v :
  NoDup nodes -> v ∈ nodes ->
  m / length nodes <= cnt (fun i => nodes !!! (i mod length nodes)) v (seq 0 m) <= m / length nodes + 1.
Proof.
  intros HN Hv. apply list_elem_of_lookup in Hv as [j Hj]. rewrite (rr_count _ _ j) by done.
  case_decide; lia.
Qed.

Lemma cnt_ext {A K} `{EqDecision K} (f g : A -> K) v l :
  (forall x, x ∈ l -> f x = g x) -> cnt f v l = cnt g v l.
Proof.
  induction l as [|x l IH]; intros Hx; [done|]. rewrite !cnt_cons, (Hx x), IH; set_solver.
Qed.

Lemma cnt_imap {A} (g : nat -> A -> Z) (f : nat -> Z) v (l : list A) :
  (forall i x, g i x = f i) -> cnt id v (imap g l) = cnt f v (seq 0 (length l)).
Proof.
  intros Hg. induction l as [|x l IH] using rev_ind; [done|].
  rewrite imap_app, length_app, Nat.add_comm, cnt_app, IH. cbn [imap length Nat.add].
  rewrite seq_S, cnt_app, !cnt_cons. unfold id. rewrite Hg, (Nat.add_comm (length l) 0). reflexivity.
Qed.

(** C7. [initial_assignment] over distinct nodes names the partitions [0 .. n) in order, only
    listed nodes, and gives each node [n / k] partitions or one more; with no nodes it panics. *)
Theorem initial_assignment_fair (n : Z) (nodes : list Z) :
  (0 <= n)%Z -> NoDup nodes ->
  match initial_assignment n nodes with
  | None => nodes = []
  | Some a => a.*1 = seqZ 0 n /\ Forall (fun e => snd e ∈ nodes) a
      /\ forall v, v ∈ nodes ->
           Z.to_nat n / length nodes <= cnt snd v a <= Z.to_nat n / length nodes + 1
  end.
Proof.
  intros Hn HN. unfold initial_assignment. case_decide as Hne; [done|].
  assert (Hk : length nodes <> 0) by (by destruct nodes).
  split; [|split].
  - rewrite <-list_fmap_compose. cbn. apply list_fmap_id.
  - apply Forall_fmap, Forall_true. intros i. cbn.
    apply list_elem_of_lookup_total_2, Nat.mod_upper_bound. done.
  - intros v Hv. rewrite cnt_fmap. cbn [snd]. unfold seqZ. rewrite cnt_fmap.
    rewrite (cnt_ext _ (fun i => nodes !!! (i mod length nodes)))
      by (intros; f_equal; f_equal; lia).
    by apply rr_fair.
Qed.

Lemma initial_assignment_fair_witness :
  exists a, initial_assignment 7 [5; 6; 8]%Z = Some a /\ 2 <= cnt snd 6%Z a <= 3.
Proof.
  pose proof (initial_assignment_fair 7 [5; 6; 8]%Z ltac:(lia)
                ltac:(by apply (bool_decide_unpack _))) as Hf.
  eexists. split; [vm_compute; reflexivity|]. apply Hf. set_solver.
Defined.

(** * [plan_drain] *)

Section Drain.
Variable iter : gmap Z PartitionOwnership -> list (Z * PartitionOwnership).
Hypothesis iter_perm : forall t, iter t ≡ₚ map_to_list t.

Lemma owned_list_elem t n p :
  p ∈ (filter (fun e => snd e = Owned n) (iter t)).*1 <-> t !! p = Some (Owned n).
Proof.
  rewrite list_elem_of_fmap. split.
  - intros ([q o] & -> & He). apply list_elem_of_filter in He as [Ho He]. cbn in *. subst.
    by rewrite iter_perm, elem_of_map_to_list in He.
  - intros Ho. exists (p, Owned n). split; [done|]. apply list_elem_of_filter. split; [done|].
    by rewrite iter_perm, elem_of_map_to_list.
Qed.

Lemma bucket_elem t n p : p ∈ bucket iter t n <-> t !! p = Some (Owned n).
Proof. unfold bucket. rewrite merge_sort_Permutation. apply owned_list_elem. Qed.

Lemma bucket_NoDup t n : NoDup (bucket iter t n).
Proof.
  unfold bucket. rewrite merge_sort_Permutation. eapply sublist_NoDup; [by apply (iter_NoDup iter)|].
  apply fmap_sublist, sublist_filter.
Qed.

Lemma bucket_sorted t n : StronglySorted Z.le (bucket iter t n).
Proof. apply (StronglySorted_merge_sort _). Qed.

Lemma plan_drain_bucket t victim live :
  let targets := merge_sort Z.le (filter (fun n => n <> victim) live) in
  targets <> [] ->
  plan_drain iter t victim live
    = imap (fun i p => (p, targets !!! (i mod length targets))) (bucket iter t victim).
Proof. intros targets Hne. unfold plan_drain. by rewrite decide_False. Qed.

(** The leader runs a plan through one transfer per entry. *)
Definition run_plan (t : gmap Z PartitionOwnership) (victim : NodeId) (plan : list (PartitionId * NodeId))
    : gmap Z PartitionOwnership :=
  foldl (fun t e => complete_transfer (begin_transfer t (fst e) victim (snd e)) (fst e) (snd e)) t plan.

Lemma run_plan_lookup victim plan p : forall t,
  NoDup plan.*1 ->
  run_plan t victim plan !! p =
    match list_to_map (M := gmap Z NodeId) plan !! p with Some n => Some (Owned n) | None => t !! p end.
Proof.
  induction plan as [|[q n] plan IH]; intros t HN; [done|]. cbn in HN. apply NoDup_cons in HN as [Hq HN].
  change (run_plan t victim ((q, n) :: plan))
    with (run_plan (complete_transfer (begin_transfer t q victim n) q n) victim plan).
  rewrite IH by done. cbn [list_to_map foldr fst snd]. unfold complete_transfer, begin_transfer.
  destruct (decide (q = p)) as [->|Hne].
  - rewrite (not_elem_of_list_to_map_1 plan p) by done. by rewrite !lookup_insert_eq.
  - by rewrite !lookup_insert_ne by done.
Qed.

(** What the victim serves after a plan that lists what it owns and sends it elsewhere. *)
Lemma run_plan_active t victim plan p :
  NoDup plan.*1 -> (forall q, q ∈ plan.*1 <-> t !! q = Some (Owned victim)) ->
  Forall (fun e => snd e <> victim) plan ->
  active_node <$> run_plan t victim plan !! p = Some victim <-> exists b, t !! p = Some (Transferring victim b).
Proof.
  intros HN Hin HF. rewrite run_plan_lookup by done.
  destruct (list_to_map (M := gmap Z NodeId) plan !! p) as [n|] eqn:E.
  - apply elem_of_list_to_map_2 in E as He. rewrite Forall_forall in HF. specialize (HF _ He). cbn in *.
    apply (list_elem_of_fmap_2 fst) in He as Hp. apply Hin in Hp. cbn [fst] in Hp. rewrite Hp. split; [by intros [= ?]|by intros (b & ?)].
  - apply not_elem_of_list_to_map in E. rewrite Hin in E. destruct (t !! p) as [[n|a b]|]; cbn.
    + split; [intros [= ->]; done|by intros (b & ?)].
    + split; [intros [= ->]; eauto|by intros (b' & [= -> ->])].
    + split; [done|by intros (b & ?)].
Qed.

(** C8. [plan_drain] empties a node of what it owns outright. With some live member other than
    the victim, the plan lists exactly the partitions in state [Owned victim], each once and in
    ascending order, sends them only to live members other than the victim, and deals them out
    evenly: each of the [k] targets gets [m / k] of the [m] partitions or one more. It leaves
    every transfer in flight alone (the victim's own hand-overs included, although the comment
    on the function says those are sent too), so that once the plan has run the partitions the
    victim still serves are exactly those it was already handing over. With no other live
    member the plan is empty. *)
Theorem plan_drain_correct t victim live :
  NoDup live ->
  let plan := plan_drain iter t victim live in
  let targets := filter (fun n => n <> victim) live in
  (targets = [] -> plan = [])
  /\ (targets <> [] ->
     NoDup plan.*1 /\ StronglySorted Z.le plan.*1
     /\ (forall p, p ∈ plan.*1 <-> t !! p = Some (Owned victim))
     /\ Forall (fun e => snd e ∈ live /\ snd e <> victim) plan
     /\ (forall v, v ∈ live -> v <> victim ->
          length plan / length targets <= cnt snd v plan <= length plan / length targets + 1)
     /\ (forall p, active_node <$> run_plan t victim plan !! p = Some victim
          <-> exists b, t !! p = Some (Transferring victim b))).
Proof.
  intros HN plan. subst plan.
  set (targets := merge_sort Z.le (filter (fun n => n <> victim) live)).
  assert (Hp : targets ≡ₚ filter (fun n => n <> victim) live) by apply merge_sort_Permutation.
  cbn zeta. split.
  { intros He. rewrite He in Hp. unfold plan_drain. fold targets. rewrite decide_True; [done|].
    by apply Permutation_nil_r. }
  intros Hne'.
  assert (Hne : targets <> []) by (intros He; rewrite He in Hp; by apply Permutation_nil_l in Hp).
  assert (Ht : forall v, v ∈ targets <-> v ∈ live /\ v <> victim).
  { intros v. rewrite Hp, list_elem_of_filter. tauto. }
  rewrite plan_drain_bucket by done. fold targets.
  assert (Hk : length (filter (fun n => n <> victim) live) = length targets) by (by rewrite Hp). rewrite Hk.
  set (plan := imap _ _).
  assert (Hfst : plan.*1 = bucket iter t victim).
  { unfold plan. rewrite fmap_imap. etrans; [apply (imap_const id)|apply list_fmap_id]. }
  assert (HNp : NoDup plan.*1) by (rewrite Hfst; apply bucket_NoDup).
  assert (Hin : forall p, p ∈ plan.*1 <-> t !! p = Some (Owned victim)) by (intros; rewrite Hfst; apply bucket_elem).
  assert (Hlive : Forall (fun e => snd e ∈ live /\ snd e <> victim) plan).
  { apply Forall_forall. intros [p w] Hpw. apply elem_of_lookup_imap in Hpw as (i & q & He & _).
    simplify_eq. cbn. apply Ht, list_elem_of_lookup_total_2, Nat.mod_upper_bound. by destruct targets. }
  split; [done|]. split; [rewrite Hfst; apply bucket_sorted|]. split; [done|]. split; [done|]. split.
  - intros v Hv Hvv. unfold plan. rewrite length_imap.
    change (cnt snd v ?l) with (cnt (fun x => id (snd x)) v l).
    rewrite <-(cnt_fmap snd id), fmap_imap.
    rewrite (cnt_imap _ (fun i => targets !!! (i mod length targets))) by done.
    apply rr_fair; [|by apply Ht]. rewrite Hp. by apply NoDup_filter.
  - intros p. apply run_plan_active; [done..|]. eapply Forall_impl; [exact Hlive|]. by intros e [_ ?].
Qed.
End Drain.

Definition table_busy : gmap Z PartitionOwnership := <[3%Z := Transferring 1 2]> table_a.

Lemma plan_drain_correct_witness :
  plan_drain map_to_list table_busy 1 [1; 2; 3]%Z = [(0, 2); (1, 3); (2, 2)]%Z
  /\ (active_node <$> run_plan table_busy 1 (plan_drain map_to_list table_busy 1 [1; 2; 3]) !! 3 = Some 1)%Z.
Proof.
  split; [by vm_compute|].
  destruct (plan_drain_correct map_to_list (fun _ => Permutation_refl _) table_busy 1 [1; 2; 3]%Z) as [_ Hd].
  - by apply (bool_decide_unpack _).
  - destruct Hd as (_ & _ & _ & _ & _ & Hact); [by vm_compute|]. apply Hact. exists 2%Z. by vm_compute.
Defined.

(** * [plan_rebalance] *)

Lemma dedup_cons2 a b l :
  dedup (a :: b :: l) = if decide (a = b) then dedup (b :: l) else a :: dedup (b :: l).
Proof. done. Qed.

Lemma dedup_elem l x : x ∈ dedup l <-> x ∈ l.
Proof.
  induction l as [|a [|b l] IH]; [done|done|]. rewrite dedup_cons2. case_decide as Hab.
  - subst. rewrite IH. set_solver.
  - rewrite !elem_of_cons, IH, elem_of_cons. tauto.
Qed.

Lemma dedup_NoDup l : StronglySorted Z.le l -> NoDup (dedup l).
Proof.
  induction l as [|a [|b l] IH]; intros Hs; [constructor|apply NoDup_singleton|].
  apply StronglySorted_inv in Hs as [Hs Ha]. rewrite dedup_cons2. case_decide as Hab; [by apply IH|].
  apply NoDup_cons. split; [|by apply IH]. rewrite dedup_elem. intros Hin.
  apply StronglySorted_inv in Hs as [_ Hb].
  pose proof (proj1 (Forall_cons _ _ _) Ha) as [Hab' _]. apply elem_of_cons in Hin as [->|Hin]; [done|].
  pose proof (proj1 (Forall_forall _ _) Hb a Hin). lia.
Qed.

Definition members_of (live : list Z) : list Z := dedup (merge_sort Z.le live).

Lemma members_elem live n : n ∈ members_of live <-> n ∈ live.
Proof. unfold members_of. by rewrite dedup_elem, merge_sort_Permutation. Qed.

Lemma members_NoDup live : NoDup (members_of live).
Proof. apply dedup_NoDup, (StronglySorted_merge_sort _). Qed.

Lemma slots_of_notin v s : v ∉ s.*1 -> slots_of v s = 0.
Proof.
  induction s as [|[n d] s IH]; intros Hv; [done|]. cbn in *.
  rewrite decide_False by set_solver. apply IH. set_solver.
Qed.

Lemma slots_of_elem v d s : NoDup s.*1 -> (v, d) ∈ s -> slots_of v s = d.
Proof.
  induction s as [|[n d'] s IH]; intros HN Hin; [by apply not_elem_of_nil in Hin|].
  cbn in HN. apply NoDup_cons in HN as [Hn HN]. apply elem_of_cons in Hin as [[= <- <-]|Hin].
  - unfold slots_of. cbn. rewrite decide_True by done. fold (slots_of v s).
    rewrite slots_of_notin by done. lia.
  - unfold slots_of. cbn. fold (slots_of v s). rewrite (IH HN Hin), decide_False; [done|].
    intros ->. apply Hn, list_elem_of_fmap. by exists (v, d).
Qed.

Lemma use_slot_keys n s : (use_slot n s).*1 = s.*1.
Proof.
  unfold use_slot. rewrite <-list_fmap_compose. apply list_fmap_ext. intros i e _. cbn.
  by case_decide.
Qed.

Lemma use_slot_spec n s :
  NoDup s.*1 -> 0 < slots_of n s ->
  slots_total s = S (slots_total (use_slot n s))
  /\ forall v, slots_of v s = slots_of v (use_slot n s) + b2n (n = v).
Proof.
  unfold slots_total, b2n. induction s as [|[m d] s IH]; intros HN Hpos; [by cbn in Hpos; lia|].
  cbn in HN. apply NoDup_cons in HN as [Hm HN]. unfold slots_of in Hpos |- *.
  cbn [sum_list_with fst snd use_slot fmap list_fmap] in *. fold (slots_of n s) in Hpos.
  fold (use_slot n s). destruct (decide (m = n)) as [->|Hne].
  - assert (Hz : use_slot n s = s).
    { clear - Hm. unfold use_slot. induction s as [|[m d] s IH]; [done|]. cbn in *.
      rewrite decide_False by set_solver. f_equal. apply IH. set_solver. }
    rewrite Hz. rewrite slots_of_notin in Hpos by done. cbn [fst snd]. split; [lia|].
    intros v. repeat case_decide; lia.
  - destruct (IH HN) as [Ht Hv]; [lia|]. cbn [fst snd]. split; [lia|]. intros v.
    specialize (Hv v). unfold slots_of in Hv. rewrite Hv. lia.
Qed.

Lemma pick_target_Some owner s n d :
  pick_target owner s = Some (n, d) -> (n, d) ∈ s /\ n <> owner /\ 0 < d.
Proof.
  unfold pick_target. destruct (filter _ s) as [|x rest] eqn:E; [done|]. intros [= Hx].
  assert (Hin : forall l b, foldl (fun best e => if better best e then best else e) b l ∈ b :: l).
  { induction l as [|y l IH]; intros b; [set_solver|]. cbn. specialize (IH (if better b y then b else y)).
    destruct (better b y); set_solver. }
  specialize (Hin rest x). rewrite Hx, <-E in Hin. apply list_elem_of_filter in Hin. tauto.
Qed.

Lemma pick_target_None owner s :
  pick_target owner s = None -> slots_of owner s = 0 -> slots_total s = 0.
Proof.
  unfold pick_target. destruct (filter _ s) as [|x rest] eqn:E; [|done]. intros _.
  unfold slots_of, slots_total. induction s as [|[n d] s IH]; [done|].
  rewrite filter_cons in E. case_decide as Hd; [done|]. cbn in *. intros Hz.
  assert (d = 0); [|subst; rewrite IH; [done|done|]].
  - destruct (decide (n = owner)); [lia|]. destruct d; [done|]. exfalso. apply Hd. split; [done|lia].
  - by case_decide.
Qed.

(** The plan entries with the owner each partition is taken from. *)
Definition entry (m : Z * Z * Z) : Z * Z := (mv_part m, mv_to m).

Lemma peel_spec owner pids : forall s plan,
  NoDup s.*1 -> slots_of owner s = 0 -> length pids <= slots_total s ->
  exists s' new, peel owner pids s plan = (s', plan ++ (entry <$> new))
    /\ new.*1 = (fun p => (p, owner)) <$> pids /\ s'.*1 = s.*1
    /\ slots_total s = slots_total s' + length pids
    /\ (forall v, slots_of v s = slots_of v s' + cnt mv_to v new)
    /\ Forall (fun m => mv_to m ∈ s.*1 /\ mv_to m <> owner) new.
Proof.
  induction pids as [|p pids IH]; intros s plan HN Ho Hl.
  { exists s, []. cbn [peel fmap list_fmap length]. rewrite app_nil_r.
    repeat split; [lia| |constructor]. intros v. rewrite cnt_nil. lia. }
  cbn [peel length] in *. destruct (pick_target owner s) as [[n d]|] eqn:E.
  - apply pick_target_Some in E as (Hin & Hne & Hd).
    pose proof (slots_of_elem n d s HN Hin) as Hs.
    destruct (use_slot_spec n s HN) as [Ht Hv]; [lia|].
    destruct (IH (use_slot n s) (plan ++ [(p, n)])) as (s' & new & Hp & Hn & Hk & Htt & Hvv & Hf).
    + by rewrite use_slot_keys.
    + specialize (Hv owner). lia.
    + lia.
    + exists s', ((p, owner, n) :: new). rewrite Hp, <-app_assoc. cbn [fmap list_fmap].
      rewrite use_slot_keys in Hk, Hf. repeat split; [by rewrite Hn|done|lia| |].
      * intros v. rewrite Hv, Hvv, cnt_cons. change (mv_to (p, owner, n)) with n. lia.
      * constructor; [|done]. split; [|done]. apply list_elem_of_fmap. by exists (n, d).
  - rewrite (pick_target_None _ _ E Ho) in Hl. lia.
Qed.

Section Rebalance.
Variable iter : gmap Z PartitionOwnership -> list (Z * PartitionOwnership).
Hypothesis iter_perm : forall t, iter t ≡ₚ map_to_list t.

(** Partitions in state [Owned n], the only ones the planner counts. *)
Definition owned_key (o : PartitionOwnership) : option Z :=
  match o with Owned n => Some n | Transferring _ _ => None end.
Definition owned (t : gmap Z PartitionOwnership) (n : Z) : nat := tally owned_key t (Some n).

Lemma bucket_length t n : length (bucket iter t n) = owned t n.
Proof.
  unfold bucket, owned, tally. rewrite merge_sort_Permutation, length_fmap.
  rewrite <-(cnt_perm _ _ _ _ (iter_perm t)). unfold cnt.
  induction (iter t) as [|[p o] l IH]; [done|]. rewrite !filter_cons. cbn [snd].
  destruct o as [m|a b]; cbn [owned_key].
  - destruct (decide (m = n)) as [->|Hne].
    + rewrite !decide_True by done. cbn. by rewrite IH.
    + rewrite !decide_False by congruence. done.
  - by rewrite !decide_False.
Qed.

Definition surplus (t : gmap Z PartitionOwnership) (c : nat) (owners : list Z) : list (Z * Z) :=
  concat ((fun o => (fun p => (p, o)) <$> take (length (bucket iter t o) - c) (bucket iter t o))
            <$> owners).

Lemma surplus_elem t c owners p o :
  (p, o) ∈ surplus t c owners ->
  o ∈ owners /\ t !! p = Some (Owned o) /\ c < owned t o.
Proof.
  unfold surplus. intros Hm. apply elem_of_concat in Hm as (l & Hl & Hm).
  apply list_elem_of_fmap in Hl as (o' & -> & Ho). apply list_elem_of_fmap in Hm as (q & [= -> ->] & Hq).
  split; [done|]. split; [by eapply bucket_elem, elem_of_take_elem|]. rewrite <-bucket_length.
  destruct (decide (c < length (bucket iter t o'))); [done|].
  replace (length _ - c) with 0 in Hq by lia. by apply not_elem_of_nil in Hq.
Qed.

Lemma surplus_NoDup t c owners : NoDup owners -> NoDup (surplus t c owners).*1.
Proof.
  induction owners as [|o owners IH]; intros HN; [constructor|].
  apply NoDup_cons in HN as [Ho HN]. unfold surplus. cbn [fmap list_fmap concat].
  fold (surplus t c owners). rewrite fmap_app. apply NoDup_app. split; [|split].
  - rewrite <-list_fmap_compose.
    rewrite (list_fmap_ext (fst ∘ _) id) by done. rewrite list_fmap_id.
    eapply sublist_NoDup; [by apply (bucket_NoDup iter iter_perm t o)|]. apply sublist_take.
  - intros p Hp Hq. apply list_elem_of_fmap in Hq as ([q w] & -> & Hq). cbn in *.
    apply surplus_elem in Hq as (Hw & Hq & _).
    rewrite <-list_fmap_compose in Hp. apply list_elem_of_fmap in Hp as (q' & -> & Hp). cbn in *.
    apply elem_of_take_elem, (bucket_elem iter iter_perm) in Hp. congruence.
  - by apply IH.
Qed.

Lemma surplus_cnt t c owners v :
  NoDup owners -> v ∈ owners -> cnt snd v (surplus t c owners) = owned t v - c.
Proof.
  assert (Hone : forall o, cnt snd v ((fun p => (p, o)) <$> take (length (bucket iter t o) - c) (bucket iter t o))
                 = if decide (o = v) then owned t o - c else 0).
  { intros o. rewrite (cnt_const _ _ o) by (apply Forall_fmap, Forall_true; done).
    rewrite length_fmap, length_take, bucket_length. case_decide; lia. }
  assert (Hout : forall os, v ∉ os -> cnt snd v (surplus t c os) = 0).
  { induction os as [|o os IH]; intros Hv; [done|]. unfold surplus. cbn [fmap list_fmap concat].
    rewrite cnt_app, Hone, decide_False by set_solver. apply IH. set_solver. }
  induction owners as [|o owners IH]; intros HN Hv; [by apply not_elem_of_nil in Hv|].
  apply NoDup_cons in HN as [Ho HN]. unfold surplus. cbn [fmap list_fmap concat].
  fold (surplus t c owners). rewrite cnt_app, Hone. destruct (decide (o = v)) as [->|Hne].
  - rewrite Hout by done. lia.
  - rewrite IH by set_solver. lia.
Qed.

Lemma surplus_length t c owners :
  length (surplus t c owners) = sum_list_with (fun n => owned t n - c) owners.
Proof.
  induction owners as [|o owners IH]; [done|]. unfold surplus. cbn [fmap list_fmap concat sum_list_with].
  rewrite length_app, length_fmap, length_take, bucket_length. fold (surplus t c owners). lia.
Qed.

Lemma peel_all_spec t c owners : forall s plan,
  NoDup s.*1 -> (forall o, o ∈ owners -> c < owned t o -> slots_of o s = 0) ->
  length (surplus t c owners) <= slots_total s ->
  exists s' new, peel_all iter t c owners s plan = (s', plan ++ (entry <$> new))
    /\ new.*1 = surplus t c owners
    /\ (forall v, slots_of v s = slots_of v s' + cnt mv_to v new)
    /\ Forall (fun m => mv_to m ∈ s.*1 /\ mv_to m <> mv_from m) new.
Proof.
  induction owners as [|o owners IH]; intros s plan HN Hz Hl.
  { exists s, []. rewrite app_nil_r. repeat split; [|constructor]. intros v. rewrite cnt_nil. lia. }
  unfold surplus in Hl |- *. cbn [fmap list_fmap concat peel_all] in Hl |- *.
  fold (surplus t c owners) in Hl |- *. rewrite length_app, length_fmap in Hl.
  set (ps := take (length (bucket iter t o) - c) (bucket iter t o)) in *.
  assert (Hpeel : exists s' new, peel o ps s plan = (s', plan ++ (entry <$> new))
    /\ new.*1 = (fun p => (p, o)) <$> ps /\ s'.*1 = s.*1
    /\ slots_total s = slots_total s' + length ps
    /\ (forall v, slots_of v s = slots_of v s' + cnt mv_to v new)
    /\ Forall (fun m => mv_to m ∈ s.*1 /\ mv_to m <> o) new).
  { destruct (decide (c < owned t o)) as [Hc|Hc].
    - apply peel_spec; [done| |lia]. apply Hz; [set_solver|done].
    - assert (ps = []) as ->.
      { subst ps. rewrite bucket_length. by replace (owned t o - c) with 0 by lia. }
      exists s, []. cbn [peel fmap list_fmap length]. rewrite app_nil_r.
      repeat split; [lia| |constructor]. intros v. rewrite cnt_nil. lia. }
  destruct Hpeel as (s1 & n1 & -> & Hn1 & Hk & Ht & Hv1 & Hf1).
  destruct (IH s1 (plan ++ (entry <$> n1))) as (s2 & n2 & -> & Hn2 & Hv2 & Hf2).
  - by rewrite Hk.
  - intros o' Ho' Hc. specialize (Hv1 o'). rewrite (Hz o') in Hv1; [lia|set_solver|done].
  - lia.
  - exists s2, (n1 ++ n2). rewrite !fmap_app, app_assoc, Hn1, Hn2. repeat split.
    + intros v. rewrite cnt_app, Hv1, Hv2. lia.
    + apply Forall_app. split; [|by rewrite Hk in Hf2].
      apply Forall_forall. intros m Hm. destruct (proj1 (Forall_forall _ _) Hf1 m Hm) as [Ha Hb].
      split; [done|]. assert (Hfm : fst m ∈ n1.*1) by (apply list_elem_of_fmap; eauto).
      rewrite Hn1 in Hfm. apply list_elem_of_fmap in Hfm as (q & Hq & _).
      unfold mv_from. rewrite Hq. done.
Qed.

(** Executing a list of (partition, target) entries. *)
Definition apply_plan (t : gmap Z PartitionOwnership) (plan : list (Z * Z)) : gmap Z PartitionOwnership :=
  foldl (fun t e => assign t (fst e) (snd e)) t plan.

Lemma apply_plan_moves ms : forall t, apply_plan t (entry <$> ms) = apply_moves t ms.
Proof. induction ms as [|m ms IH]; intros t; [done|]. apply IH. Qed.

Lemma div_ceil_ge a b : b <> 0 -> a <= b * div_ceil a b.
Proof.
  intros Hb. unfold div_ceil. pose proof (Nat.div_mod_eq (a + b - 1) b).
  pose proof (Nat.mod_upper_bound (a + b - 1) b Hb). lia.
Qed.

Lemma deficit_fits t (c : nat) ms :
  sum_list_with (owned t) ms <= length ms * c ->
  sum_list_with (fun n => owned t n - c) ms
    <= slots_total ((fun n => (n, c - length (bucket iter t n))) <$> ms).
Proof.
  unfold slots_total. intros Hle.
  enough (He : sum_list_with (owned t) ms
          + sum_list_with snd ((fun n => (n, c - length (bucket iter t n))) <$> ms)
        = length ms * c + sum_list_with (fun n => owned t n - c) ms) by lia.
  clear Hle. induction ms as [|n ms IH]; [done|]. cbn [sum_list_with fmap list_fmap length snd].
  rewrite bucket_length. lia.
Qed.

Lemma deficit_of t (c : nat) ms v :
  NoDup ms -> v ∈ ms ->
  slots_of v ((fun n => (n, c - length (bucket iter t n))) <$> ms) = c - owned t v.
Proof.
  intros HN Hv. rewrite <-bucket_length. apply slots_of_elem.
  - rewrite <-list_fmap_compose. rewrite (list_fmap_ext _ id) by done. by rewrite list_fmap_id.
  - apply list_elem_of_fmap. by exists v.
Qed.

(** The plan, as moves with their sources. *)
Lemma plan_rebalance_moves t live :
  let ms := members_of live in
  let c := div_ceil (sum_list_with (owned t) ms) (length ms) in
  exists new, plan_rebalance iter t live = entry <$> new
    /\ new.*1 ≡ₚ surplus t c ms
    /\ (forall v, v ∈ ms -> cnt mv_to v new <= c - owned t v)
    /\ Forall (fun m => mv_to m ∈ ms /\ mv_to m <> mv_from m) new.
Proof.
  intros ms c. unfold plan_rebalance. fold (members_of live) ms. case_decide as Hms.
  { exists []. rewrite Hms. split; [done|]. split; [done|]. split; [|constructor].
    intros v. rewrite cnt_nil. lia. }
  rewrite (sum_list_with_ext _ (owned t)) by (intros; apply bucket_length).
  fold c. pose proof (members_NoDup live) as HN. fold ms in HN.
  set (s := (fun n => (n, c - length (bucket iter t n))) <$> ms).
  assert (Hkeys : s.*1 = ms).
  { subst s. rewrite <-list_fmap_compose. rewrite (list_fmap_ext _ id) by done. apply list_fmap_id. }
  destruct (peel_all_spec t c ms s []) as (s' & new & -> & Hn & Hv & Hf).
  - by rewrite Hkeys.
  - intros o Ho Hc. unfold s. rewrite deficit_of by done. lia.
  - rewrite surplus_length. apply deficit_fits. apply div_ceil_ge. by destruct ms.
  - cbn [snd app]. destruct (Permutation_map_inv entry new (l1 := merge_sort by_pid (entry <$> new)))
      as (new' & Hs & Hp); [apply merge_sort_Permutation|].
    exists new'. split; [exact Hs|]. split; [by rewrite <-Hp, Hn|]. split.
    + intros v Hin. rewrite <-(cnt_perm _ _ _ _ Hp). specialize (Hv v). unfold s in Hv.
      rewrite deficit_of in Hv by done. lia.
    + rewrite <-Hp. by rewrite Hkeys in Hf.
Qed.

(** C9. Executing [plan_rebalance]: each entry moves a distinct partition that a live member
    owns outright to a different live member; afterwards no live member owns more than
    [ceil (total / members)], members at or under that ceiling have lost nothing, and exactly
    the surplus above the ceiling has moved. *)
Theorem plan_rebalance_ceiling t live :
  let ms := members_of live in
  let c := div_ceil (sum_list_with (owned t) ms) (length ms) in
  let plan := plan_rebalance iter t live in
  let t' := apply_plan t plan in
  NoDup plan.*1
  /\ (forall p to, (p, to) ∈ plan -> to ∈ live /\
        exists o, t !! p = Some (Owned o) /\ o ∈ live /\ o <> to /\ c < owned t o)
  /\ (forall n, n ∈ live -> Nat.min (owned t n) c <= owned t' n <= c)
  /\ length plan = sum_list_with (fun n => owned t n - c) ms.
Proof.
  intros ms c plan t'. destruct (plan_rebalance_moves t live) as (new & Hp & Hn & Hto & Hf).
  fold ms in Hn, Hto, Hf. fold c in Hn, Hto. subst t' plan. rewrite Hp, apply_plan_moves.
  pose proof (members_NoDup live) as HNms. fold ms in HNms.
  assert (Hparts : (entry <$> new).*1 = mv_part <$> new) by (rewrite <-list_fmap_compose; done).
  assert (HN : NoDup (mv_part <$> new)).
  { replace (mv_part <$> new) with (new.*1).*1 by (by rewrite <-list_fmap_compose).
    rewrite Hn. by apply surplus_NoDup. }
  assert (Hsrc : forall m, m ∈ new -> mv_from m ∈ ms /\ t !! mv_part m = Some (Owned (mv_from m))
                   /\ c < owned t (mv_from m)).
  { intros [[p f] to] Hm. apply (surplus_elem t c ms p f). rewrite <-Hn.
    apply list_elem_of_fmap. by exists (p, f, to). }
  rewrite Hparts. split; [done|]. split; [|split].
  - intros p to Hin. apply list_elem_of_fmap in Hin as (m & [= -> ->] & Hm).
    destruct (Hsrc m Hm) as (Ho & Hl & Hc). destruct (proj1 (Forall_forall _ _) Hf m Hm) as [Hin Hne].
    split; [by apply members_elem|]. exists (mv_from m).
    repeat split; [done|by apply members_elem|congruence|done].
  - intros n Hin. apply members_elem in Hin. fold ms in Hin.
    pose proof (apply_moves_tally owned_key new t (Some n) HN) as Ht. fold (owned t n) in Ht.
    fold (owned (apply_moves t new) n) in Ht. cbn [owned_key] in Ht.
    assert (Hcnt : forall g : Z * Z * Z -> Z, cnt (fun m => Some (g m)) (Some n) new = cnt g n new).
    { intros g. clear. induction new as [|m l IH]; [done|]. rewrite !cnt_cons, IH. f_equal.
      unfold b2n. by repeat case_decide; simplify_eq. }
    rewrite !Hcnt in Ht. specialize (Hto n Hin).
    assert (Hfrom : cnt mv_from n new = owned t n - c).
    { rewrite <-(surplus_cnt t c ms n HNms Hin), <-(cnt_perm _ _ _ _ Hn), cnt_fmap. done. }
    rewrite Hfrom in Ht. specialize (Ht ltac:(apply Forall_forall; intros m Hm;
      destruct (Hsrc m Hm) as (_ & Hl & _); eexists; by split; [exact Hl|])). lia.
  - rewrite length_fmap, <-surplus_length, <-Hn. by rewrite length_fmap.
Qed.
End Rebalance.

(** Loads 3, 3 and 1: the planner leaves node 3 below [floor (7 / 3) = 2]. *)
Definition table_b : gmap Z PartitionOwnership :=
  list_to_map [(0, Owned 1); (1, Owned 1); (2, Owned 1); (3, Owned 2); (4, Owned 2); (5, Owned 2); (6, Owned 3)]%Z.

(** The stated bound "either floor or ceiling" fails: members below the floor stay there when
    nobody is above the ceiling. *)
Theorem plan_rebalance_below_floor :
  exists t live n, n ∈ live /\ plan_rebalance map_to_list t live = []
    /\ owned t n < sum_list_with (owned t) (members_of live) / length (members_of live).
Proof.
  exists table_b, [1; 2; 3]%Z, 3%Z. split; [set_solver|]. split; [by vm_compute|].
  apply Nat.ltb_lt. by vm_compute.
Qed.

Lemma plan_rebalance_ceiling_witness :
  plan_rebalance map_to_list table_a [1; 2; 3]%Z = [(0, 2); (1, 3)]%Z
  /\ owned (apply_plan table_a (plan_rebalance map_to_list table_a [1; 2; 3]%Z)) 1%Z <= 1.
Proof.
  split; [by vm_compute|].
  destruct (plan_rebalance_ceiling map_to_list (fun _ => Permutation_refl _) table_a [1; 2; 3]%Z)
    as (_ & _ & Hl & _).
  destruct (Hl 1%Z) as [_ Hle]; [left|]. etrans; [exact Hle|]. apply Nat.leb_le. by vm_compute.
Defined.

(** * The transfer tracker *)

(** Calls on a tracker, as a step relation: what was called, the state left, the result. *)
Inductive tt_step : TransferState -> TransferState -> option NodeId -> Prop :=
| tts_begin s a b : tt_step s (fst (tt_begin s a b)) None
| tts_cutover s : tt_step s (fst (tt_begin_cutover s)) None
| tts_progress s x y : tt_step s (tt_update_progress s x y) None
| tts_complete s : tt_step s (fst (tt_complete s))
    (match snd (tt_complete s) with Ok n => Some n | Err _ => None end)
| tts_abort s r : tt_step s (fst (tt_abort s r))
    (match snd (tt_abort s r) with Ok n => Some n | Err _ => None end).

(** Runs, with the owners they reported. *)
Inductive tt_steps : TransferState -> list NodeId -> TransferState -> Prop :=
| tt_refl s : tt_steps s [] s
| tt_snoc s1 s2 s3 l o : tt_steps s1 l s2 -> tt_step s2 s3 o ->
    tt_steps s1 (l ++ match o with Some n => [n] | None => [] end) s3.

(** The states a transfer from [a] to [b] goes through, with the owner reported so far. *)
Definition tt_inv (a b : NodeId) (s : TransferState) (l : list NodeId) : Prop :=
  match s with
  | BulkSync x y _ _ | Cutover x y => x = a /\ y = b /\ l = []
  | Complete n => n = b /\ l = [b]
  | Aborted n _ => n = a /\ l = [a]
  | Idle => False
  end.

Lemma tt_step_inv a b s s' l o :
  tt_inv a b s l -> tt_step s s' o -> tt_inv a b s' (l ++ match o with Some n => [n] | None => [] end).
Proof.
  intros Hi Hs. inversion Hs; subst; destruct s; cbn in *; intuition (subst; rewrite ?app_nil_r; auto).
Qed.

(** C18. A transfer started from [a] to [b] reports at most one final owner: [b] if it was
    completed, [a] if it was aborted, and nothing while it is in progress; after that every
    further call is refused until the tracker is reset. *)
Theorem transfer_tracker_outcome a b l s :
  tt_steps (fst (tt_begin Idle a b)) l s ->
  tt_inv a b s l
  /\ (l <> [] -> forall x y r, tt_begin s x y = (s, Err "cannot begin transfer")
        /\ tt_complete s = (s, Err "cannot complete") /\ tt_abort s r = (s, Err "cannot abort")
        /\ tt_begin_cutover s = (s, Err "cannot cutover")).
Proof.
  intros Hs. assert (Hi : tt_inv a b s l).
  { remember (fst (tt_begin Idle a b)) as s0 eqn:E. induction Hs as [s0|s1 s2 s3 l o Hs IH Hst].
    - by subst.
    - apply (tt_step_inv _ _ _ _ _ _ (IH E) Hst). }
  split; [done|]. intros Hl x y r. destruct s; cbn in Hi; try done; destruct Hi as (_ & _ & ?) || idtac; done.
Qed.

Lemma transfer_tracker_outcome_witness :
  tt_inv 1%Z 2%Z (Complete 2%Z) [2%Z].
Proof.
  apply (transfer_tracker_outcome 1%Z 2%Z [2%Z] (Complete 2%Z)).
  apply (tt_snoc _ (Cutover 1%Z 2%Z) _ [] (Some 2%Z)); [|apply (tts_complete (Cutover 1%Z 2%Z))].
  apply (tt_snoc _ (BulkSync 1%Z 2%Z 5 9) _ [] None); [|apply (tts_cutover (BulkSync 1%Z 2%Z 5 9))].
  apply (tt_snoc _ (BulkSync 1%Z 2%Z 0 0) _ [] None); [apply tt_refl|].
  apply (tts_progress (BulkSync 1%Z 2%Z 0 0) 5 9).
Defined.
