(* ===== verification/Kv.v ===== *)
(** The persistent key-value tier: byte-string order, the [L3Store] trait
    (crates/aeon-types/src/state.rs) as a class with the laws its clients rely on, and the
    prefix-scan bound of crates/aeon-state/src/l3.rs. *)
From stdpp Require Import base gmap list strings sorting.
From S2P Require Import Prelude Types.

(** * The order of byte strings *)

Fixpoint blt (a b : bytes) : bool :=
  match a, b with
  | _, [] => false
  | [], _ :: _ => true
  | x :: a', y :: b' => (x <? y)%Z || ((x =? y)%Z && blt a' b')
  end.
Definition ble (a b : bytes) : bool := negb (blt b a).

Lemma blt_irrefl a : blt a a = false.
Proof. induction a as [|x a IH]; [done|]. cbn. rewrite Z.ltb_irrefl, Z.eqb_refl. done. Qed.

Lemma blt_trans a b c : blt a b = true -> blt b c = true -> blt a c = true.
Proof.
  revert b c. induction a as [|x a IH]; intros [|y b] [|z c] Hab Hbc; cbn in *; try done.
  destruct (x <? y)%Z eqn:E1, (y <? z)%Z eqn:E2; cbn in *.
  - assert ((x <? z) = true)%Z as -> by lia. done.
  - apply andb_true_iff in Hbc as [E Hbc]. assert ((x <? z) = true)%Z as -> by lia. done.
  - apply andb_true_iff in Hab as [E Hab]. assert ((x <? z) = true)%Z as -> by lia. done.
  - apply andb_true_iff in Hab as [E Hab]. apply andb_true_iff in Hbc as [E' Hbc].
    assert ((x =? z) = true)%Z as -> by lia. rewrite (IH b c Hab Hbc). apply orb_true_r.
Qed.

Lemma blt_total a b : a = b \/ blt a b = true \/ blt b a = true.
Proof.
  revert b. induction a as [|x a IH]; intros [|y b]; cbn; auto.
  destruct (Z.lt_total x y) as [H|[->|H]].
  - right. left. by assert ((x <? y) = true)%Z as -> by lia.
  - rewrite Z.ltb_irrefl, Z.eqb_refl. destruct (IH b) as [->|[H|H]]; cbn; auto.
  - right. right. by assert ((y <? x) = true)%Z as -> by lia.
Qed.

(** Big-endian encodings of equal width compare like the numbers. *)
Lemma blt_app_eq p a b : blt (p ++ a) (p ++ b) = blt a b.
Proof. induction p as [|x p IH]; [done|]. cbn. by rewrite Z.ltb_irrefl, Z.eqb_refl. Qed.

Lemma blt_app_lt a b c d : length a = length b -> blt a b = true -> blt (a ++ c) (b ++ d) = true.
Proof.
  revert b. induction a as [|x a IH]; intros [|y b] Hl Hab; cbn in *; try done.
  destruct (x <? y)%Z; [done|]. cbn in *. apply andb_true_iff in Hab as [-> Hab].
  cbn. apply IH; [lia|done].
Qed.

Lemma be_snoc n z : be (S n) z = be n (z `div` 256) ++ [(z `mod` 256)%Z].
Proof. unfold be. cbn [le]. by rewrite reverse_cons. Qed.

Lemma blt_be n a b : (0 <= a < b)%Z -> (b < 256 ^ Z.of_nat n)%Z -> blt (be n a) (be n b) = true.
Proof.
  revert a b. induction n as [|n IH]; intros a b Ha Hb.
  { change (256 ^ Z.of_nat 0)%Z with 1%Z in Hb. lia. }
  rewrite Nat2Z.inj_succ, Z.pow_succ_r in Hb by lia. rewrite !be_snoc.
  pose proof (Z.div_mod a 256). pose proof (Z.div_mod b 256).
  pose proof (Z.mod_pos_bound a 256). pose proof (Z.mod_pos_bound b 256).
  destruct (decide (a `div` 256 = b `div` 256)%Z) as [He|He].
  - rewrite He, blt_app_eq. cbn. assert ((a `mod` 256 <? b `mod` 256) = true)%Z as -> by lia. done.
  - apply blt_app_lt; [by rewrite !length_be|]. apply IH.
    + split; [apply Z.div_pos; lia|]. pose proof (Z.div_le_mono a b 256). lia.
    + apply Z.div_lt_upper_bound; lia.
Qed.

Lemma be_bytes n z : Forall is_byte (be n z).
Proof. unfold be. apply Forall_reverse, le_bytes. Qed.

Definition starts_with (p k : bytes) : bool := bool_decide (take (length p) k = p).

Lemma starts_with_app p k : starts_with p (p ++ k) = true.
Proof. unfold starts_with. rewrite take_app_length. by apply bool_decide_true. Qed.

Lemma starts_with_spec p k : starts_with p k = true <-> exists r, k = p ++ r.
Proof.
  unfold starts_with. rewrite bool_decide_eq_true. split.
  - intros Ht. exists (drop (length p) k). by rewrite <-Ht at 1; rewrite take_drop.
  - intros [r ->]. apply take_app_length.
Qed.

Lemma starts_with_cons x p y k : starts_with (x :: p) (y :: k) = (y =? x)%Z && starts_with p k.
Proof.
  unfold starts_with. cbn. destruct (Z.eqb_spec y x) as [->|Hne]; cbn.
  - apply bool_decide_ext. split; [intros [= ->]; done|by intros ->].
  - apply bool_decide_false. congruence.
Qed.

(** * [prefix_upper_bound]: walk backwards, increment the last byte below 0xFF *)

Fixpoint bump (rev_prefix : bytes) : option bytes :=
  match rev_prefix with
  | [] => None
  | last :: rest => if (last <? 255)%Z then Some ((last + 1)%Z :: rest) else bump rest
  end.

Definition prefix_upper_bound (prefix : bytes) : option bytes := reverse <$> bump (reverse prefix).

Lemma bump_snoc r x :
  bump (r ++ [x]) = match bump r with
                    | Some u => Some (u ++ [x])
                    | None => if (x <? 255)%Z then Some [(x + 1)%Z] else None
                    end.
Proof. induction r as [|y r IH]; [done|]. cbn. destruct (y <? 255)%Z; [done|]. apply IH. Qed.

Lemma prefix_upper_bound_cons x p :
  prefix_upper_bound (x :: p) = match prefix_upper_bound p with
                                | Some u => Some (x :: u)
                                | None => if (x <? 255)%Z then Some [(x + 1)%Z] else None
                                end.
Proof.
  unfold prefix_upper_bound. rewrite reverse_cons, bump_snoc.
  destruct (bump (reverse p)) as [u|]; cbn; [by rewrite reverse_snoc|]. by destruct (x <? 255)%Z.
Qed.

(** A prefix of 0xFF bytes only: everything from it on starts with it. *)
Lemma upper_bound_None p k :
  prefix_upper_bound p = None -> Forall is_byte p -> Forall is_byte k ->
  starts_with p k = ble p k.
Proof.
  revert k. induction p as [|x p IH]; intros k Hp Hbp Hbk.
  { unfold ble. by destruct k. }
  rewrite prefix_upper_bound_cons in Hp. destruct (prefix_upper_bound p) as [u|]; [done|].
  destruct (Z.ltb_spec x 255); [done|]. apply Forall_cons in Hbp as [Hx Hbp]. unfold is_byte in Hx.
  destruct k as [|y k]; [done|]. apply Forall_cons in Hbk as [Hy Hbk]. unfold is_byte in Hy.
  rewrite starts_with_cons, (IH k) by done. unfold ble. cbn.
  destruct (Z.eqb_spec y x) as [->|Hne]; cbn; [by rewrite Z.ltb_irrefl|].
  assert ((y <? x) = true)%Z as -> by lia. done.
Qed.

Lemma upper_bound_Some p u k :
  prefix_upper_bound p = Some u -> Forall is_byte p -> Forall is_byte k ->
  starts_with p k = ble p k && blt k u.
Proof.
  revert u k. induction p as [|x p IH]; intros u k Hp Hbp Hbk; [done|].
  rewrite prefix_upper_bound_cons in Hp. apply Forall_cons in Hbp as [Hx Hbp]. unfold is_byte in Hx.
  destruct k as [|y k]; [done|]. apply Forall_cons in Hbk as [Hy Hbk]. unfold is_byte in Hy.
  rewrite starts_with_cons. unfold ble. cbn [blt]. rewrite negb_orb, negb_andb.
  destruct (prefix_upper_bound p) as [u'|] eqn:Ep.
  - simplify_eq. rewrite (IH u' k) by done. unfold ble. cbn [blt].
    destruct (Z.eqb_spec y x) as [->|Hne]; cbn; [by rewrite Z.ltb_irrefl|].
    destruct (Z.ltb_spec y x); cbn; done.
  - rewrite (upper_bound_None p k Ep) by done. destruct (Z.ltb_spec x 255); [|done]. simplify_eq.
    cbn [blt]. unfold ble. destruct (Z.eqb_spec y x) as [->|Hne]; cbn.
    + rewrite Z.ltb_irrefl. assert ((x <? x + 1) = true)%Z as -> by lia. cbn. by rewrite andb_true_r.
    + destruct (Z.ltb_spec y x); cbn; [done|]. assert ((y <? x + 1) = false)%Z as -> by lia. cbn.
      destruct k; by rewrite ?andb_false_r.
Qed.

(** * The [L3Store] trait *)

Inductive BatchOp := BPut | BDelete.

(** (operation, key, value) *)
Abbreviation BatchEntry := (BatchOp * bytes * option bytes)%type (only parsing).
Abbreviation KvPairs := (list (bytes * bytes)) (only parsing).

(** The environment of one call: what the storage engine does (fails after [k] table
    operations with nothing committed, or succeeds) and the draws of the system's random
    generator. *)
Record Env := { e_io : io; e_rnd : nat -> bytes }.

Class L3Store (S : Type) := {
  l3_get : Env -> S -> bytes -> Result (option bytes);
  l3_put : Env -> S -> bytes -> bytes -> S * Result unit;
  l3_delete : Env -> S -> bytes -> S * Result unit;
  l3_write_batch : Env -> S -> list BatchEntry -> S * Result unit;
  l3_scan_prefix : Env -> S -> bytes -> Result KvPairs;
  l3_flush : Env -> S -> Result unit;
  l3_len : Env -> S -> Result Z;
}.

#[export] Hint Mode L3Store ! : typeclass_instances.

(** [is_empty], the trait's default method. *)
Definition l3_is_empty {S} `{L3Store S} (e : Env) (s : S) : Result bool :=
  let? n := l3_len e s in Ok (bool_decide (n = 0%Z)).

(** The contents a batch leaves behind; a [Put] without value stores the empty string. *)
Definition batch_entry (m : gmap bytes bytes) (op : BatchEntry) : gmap bytes bytes :=
  match op with
  | (BPut, k, v) => <[k := default [] v]> m
  | (BDelete, k, _) => delete k m
  end.
Definition batch_result (m : gmap bytes bytes) (ops : list BatchEntry) : gmap bytes bytes :=
  foldl batch_entry m ops.

Definition key_lt (a b : bytes * bytes) : Prop := blt (fst a) (fst b) = true.

Definition prefixed (p : bytes) (m : gmap bytes bytes) : gmap bytes bytes :=
  filter (fun kv => starts_with p (fst kv) = true) m.

(** An environment in which nothing fails; nonces have the length AES-GCM asks for. *)
Definition env_ok (e : Env) : Prop := e_io e = IoOk /\ forall i, length (e_rnd e i) = 12.
Definition rnd_ok (e : Env) : Prop := forall i, length (e_rnd e i) = 12.

(** What the clients of a store rely on. [M] reads the contents off a store, [OK] is its
    invariant, [storable] the values it can hold. Writes are atomic: an [Err] has changed
    nothing. Scans come back in key order. *)
Class L3Laws (S : Type) `{L3Store S} (M : S -> gmap bytes bytes) (OK : S -> Prop)
    (storable : bytes -> Prop) : Prop := {
  l3_get_spec e s k r : OK s -> l3_get e s k = Ok r -> r = M s !! k;
  l3_get_live e s k : OK s -> e_io e = IoOk -> is_ok (l3_get e s k) = true;
  l3_put_spec e s k v s' r :
    OK s -> rnd_ok e -> Forall is_byte k -> l3_put e s k v = (s', r) ->
    OK s' /\ M s' = (if is_ok r then <[k := v]> (M s) else M s);
  l3_put_live e s k v : OK s -> env_ok e -> storable v -> is_ok (snd (l3_put e s k v)) = true;
  l3_delete_spec e s k s' r :
    OK s -> l3_delete e s k = (s', r) ->
    OK s' /\ M s' = (if is_ok r then delete k (M s) else M s);
  l3_delete_live e s k : OK s -> env_ok e -> is_ok (snd (l3_delete e s k)) = true;
  l3_batch_spec e s ops s' r :
    OK s -> rnd_ok e -> Forall (fun op => Forall is_byte (snd (fst op))) ops ->
    l3_write_batch e s ops = (s', r) ->
    OK s' /\ M s' = (if is_ok r then batch_result (M s) ops else M s);
  l3_batch_live e s ops :
    OK s -> env_ok e -> Forall (fun op => storable (default [] (snd op))) ops ->
    is_ok (snd (l3_write_batch e s ops)) = true;
  l3_scan_spec e s p l :
    OK s -> Forall is_byte p -> l3_scan_prefix e s p = Ok l ->
    l ≡ₚ map_to_list (prefixed p (M s)) /\ StronglySorted key_lt l;
  l3_scan_live e s p : OK s -> Forall is_byte p -> e_io e = IoOk -> is_ok (l3_scan_prefix e s p) = true;
  l3_flush_ok e s : OK s -> e_io e = IoOk -> l3_flush e s = Ok tt;
}.

(** A sorted scan is determined by the contents. *)
Lemma scan_unique l1 l2 :
  l1 ≡ₚ l2 -> StronglySorted key_lt l1 -> StronglySorted key_lt l2 -> l1 = l2.
Proof.
  revert l2. induction l1 as [|x l1 IH]; intros l2 Hp H1 H2.
  { by apply Permutation_nil_l in Hp. }
  destruct l2 as [|y l2]; [by apply Permutation_nil_r in Hp|].
  apply StronglySorted_inv in H1 as [H1 Hx]. apply StronglySorted_inv in H2 as [H2 Hy].
  assert (x = y) as ->.
  { assert (Hin : x ∈ y :: l2) by (rewrite <-Hp; set_solver).
    assert (Hin' : y ∈ x :: l1) by (rewrite Hp; set_solver).
    apply elem_of_cons in Hin as [->|Hin]; [done|]. apply elem_of_cons in Hin' as [->|Hin']; [done|].
    pose proof (proj1 (Forall_forall _ _) Hx y Hin') as Ha.
    pose proof (proj1 (Forall_forall _ _) Hy x Hin) as Hb.
    pose proof (blt_trans _ _ _ Ha Hb) as Hc. by rewrite blt_irrefl in Hc. }
  f_equal. apply IH; [by apply Permutation_cons_inv in Hp|done|done].
Qed.

Lemma l3_get_ok {S} `{L3Laws S M OK st} e s k :
  OK s -> e_io e = IoOk -> l3_get e s k = Ok (M s !! k).
Proof.
  intros Hok He. pose proof (l3_get_live e s k Hok He) as Hl.
  destruct (l3_get e s k) as [r|] eqn:E; [|done]. by rewrite <-(l3_get_spec e s k r Hok E).
Qed.

Lemma l3_scan_ok {S} `{L3Laws S M OK st} e s p :
  OK s -> e_io e = IoOk -> Forall is_byte p ->
  exists l, l3_scan_prefix e s p = Ok l
    /\ l ≡ₚ map_to_list (prefixed p (M s)) /\ StronglySorted key_lt l.
Proof.
  intros Hok He Hp. pose proof (l3_scan_live e s p Hok Hp He) as Hl.
  destruct (l3_scan_prefix e s p) as [l|] eqn:E; [|done]. exists l.
  destruct (l3_scan_spec e s p l Hok Hp E). done.
Qed.

(** In a good environment a write of storable values succeeds and is visible. *)
Lemma l3_put_ok {S} `{L3Laws S M OK st} e s k v :
  OK s -> env_ok e -> Forall is_byte k -> st v ->
  exists s', l3_put e s k v = (s', Ok tt) /\ OK s' /\ M s' = <[k := v]> (M s).
Proof.
  intros Hok He Hk Hv. pose proof (l3_put_live e s k v Hok He Hv) as Hl.
  destruct (l3_put e s k v) as [s' [[]|]] eqn:E; [|done]. exists s'. split; [done|].
  apply (l3_put_spec e s k v s' (Ok tt)); [done|exact (proj2 He)|done|done].
Qed.

Lemma l3_batch_ok {S} `{L3Laws S M OK st} e s ops :
  OK s -> env_ok e -> Forall (fun op => Forall is_byte (snd (fst op))) ops ->
  Forall (fun op => st (default [] (snd op))) ops ->
  exists s', l3_write_batch e s ops = (s', Ok tt) /\ OK s' /\ M s' = batch_result (M s) ops.
Proof.
  intros Hok He Hk Hv. pose proof (l3_batch_live e s ops Hok He Hv) as Hl.
  destruct (l3_write_batch e s ops) as [s' [[]|]] eqn:E; [|done]. exists s'. split; [done|].
  apply (l3_batch_spec e s ops s' (Ok tt)); [done|exact (proj2 He)|done|done].
Qed.

(** * The abstract store: a finite map *)

Definition key_le (a b : bytes * bytes) : Prop := ble (fst a) (fst b) = true.
#[export] Instance key_le_dec a b : Decision (key_le a b).
Proof. unfold key_le. apply _. Defined.
#[export] Instance key_le_total : Total key_le.
Proof.
  intros [a x] [b y]. unfold key_le, ble. cbn.
  destruct (blt_total a b) as [->|[Hab|Hba]].
  - left. by rewrite blt_irrefl.
  - left. destruct (blt b a) eqn:E; [|done]. pose proof (blt_trans _ _ _ Hab E) as Hc.
    by rewrite blt_irrefl in Hc.
  - right. destruct (blt a b) eqn:E; [|done]. pose proof (blt_trans _ _ _ Hba E) as Hc.
    by rewrite blt_irrefl in Hc.
Qed.
#[export] Instance key_le_trans : Transitive key_le.
Proof.
  intros [a x] [b y] [c z]. unfold key_le, ble. cbn. rewrite !negb_true_iff. intros Hab Hbc.
  destruct (blt c a) eqn:E; [|done]. destruct (blt_total b c) as [->|[H|H]]; [congruence| |congruence].
  pose proof (blt_trans _ _ _ H E). congruence.
Qed.

Definition sorted_entries (m : gmap bytes bytes) : KvPairs := merge_sort key_le (map_to_list m).

Lemma key_sorted_strict l :
  NoDup l.*1 -> StronglySorted key_le l -> StronglySorted key_lt l.
Proof.
  induction l as [|x l IH]; intros HN Hs; [constructor|]. cbn in HN.
  apply NoDup_cons in HN as [Hx HN]. apply StronglySorted_inv in Hs as [Hs Hl].
  constructor; [by apply IH|]. apply Forall_forall. intros y Hy.
  pose proof (proj1 (Forall_forall _ _) Hl y Hy) as Hle. unfold key_le, key_lt, ble in *.
  destruct (blt_total (fst x) (fst y)) as [He|[H|H]]; [|done|by rewrite H in Hle].
  exfalso. apply Hx. rewrite He. apply list_elem_of_fmap. by exists y.
Qed.

Lemma sorted_entries_sorted m : StronglySorted key_lt (sorted_entries m).
Proof.
  apply key_sorted_strict; [|apply (StronglySorted_merge_sort _)].
  unfold sorted_entries. rewrite merge_sort_Permutation. apply NoDup_fst_map_to_list.
Qed.

Lemma sorted_entries_unique m l :
  l ≡ₚ map_to_list m -> StronglySorted key_lt l -> l = sorted_entries m.
Proof.
  intros Hp Hs. apply scan_unique; [|done|apply sorted_entries_sorted].
  by rewrite Hp; unfold sorted_entries; rewrite merge_sort_Permutation.
Qed.

Inductive l3_op :=
| OGet (k : bytes) | OPut (k v : bytes) | ODelete (k : bytes)
| OBatch (ops : list BatchEntry) | OScan (p : bytes).

Inductive l3_reply := RGet (v : option bytes) | RUnit | RScan (l : KvPairs) | RErr.

Definition unit_reply (r : Result unit) : l3_reply := match r with Ok _ => RUnit | Err _ => RErr end.

(** One call on a store. *)
Definition l3_exec {S} `{L3Store S} (s : S) (e : Env) (op : l3_op) : S * l3_reply :=
  match op with
  | OGet k => (s, match l3_get e s k with Ok v => RGet v | Err _ => RErr end)
  | OPut k v => let '(s', r) := l3_put e s k v in (s', unit_reply r)
  | ODelete k => let '(s', r) := l3_delete e s k in (s', unit_reply r)
  | OBatch ops => let '(s', r) := l3_write_batch e s ops in (s', unit_reply r)
  | OScan p => (s, match l3_scan_prefix e s p with Ok l => RScan l | Err _ => RErr end)
  end.

Fixpoint l3_run {S} `{L3Store S} (s : S) (calls : list (Env * l3_op)) : S * list l3_reply :=
  match calls with
  | [] => (s, [])
  | (e, op) :: rest =>
    let '(s1, r) := l3_exec s e op in let '(s2, rs) := l3_run s1 rest in (s2, r :: rs)
  end.

(** The specification: a finite map; a call that fails changes nothing. *)
Definition map_exec (m : gmap bytes bytes) (op : l3_op) : gmap bytes bytes * l3_reply :=
  match op with
  | OGet k => (m, RGet (m !! k))
  | OPut k v => (<[k := v]> m, RUnit)
  | ODelete k => (delete k m, RUnit)
  | OBatch ops => (batch_result m ops, RUnit)
  | OScan p => (m, RScan (sorted_entries (prefixed p m)))
  end.

Fixpoint map_run (m : gmap bytes bytes) (calls : list (bool * l3_op)) : gmap bytes bytes * list l3_reply :=
  match calls with
  | [] => (m, [])
  | (ok, op) :: rest =>
    let '(m1, r) := if ok then map_exec m op else (m, RErr) in
    let '(m2, rs) := map_run m1 rest in (m2, r :: rs)
  end.

Definition replied (r : l3_reply) : bool := match r with RErr => false | _ => true end.

Definition op_keys_ok (op : l3_op) : Prop :=
  match op with
  | OGet k | OPut k _ | ODelete k | OScan k => Forall is_byte k
  | OBatch ops => Forall (fun op => Forall is_byte (snd (fst op))) ops
  end.

Definition op_storable (st : bytes -> Prop) (op : l3_op) : Prop :=
  match op with
  | OPut _ v => st v
  | OBatch ops => Forall (fun op => st (default [] (snd op))) ops
  | _ => True
  end.

Lemma l3_exec_refines {S} `{L3Laws S M OK st} s e op :
  OK s -> rnd_ok e -> op_keys_ok op ->
  let '(s', r) := l3_exec s e op in
  OK s' /\ (M s', r) = (if replied r then map_exec (M s) op else (M s, RErr))
  /\ (e_io e = IoOk -> op_storable st op -> replied r = true).
Proof.
  intros Hok He Hk. destruct op as [k|k v|k|ops|p]; cbn in Hk |- *.
  - pose proof (l3_get_spec e s k) as Hg. pose proof (l3_get_live e s k Hok) as Hl.
    destruct (l3_get e s k) as [v|]; cbn in *; [|split; [done|]; split; [done|]; intros Hio _; by apply Hl].
    by rewrite (Hg v Hok eq_refl).
  - pose proof (l3_put_spec e s k v) as Hp. pose proof (l3_put_live e s k v Hok) as Hl.
    destruct (l3_put e s k v) as [s' [[]|]]; cbn in *;
      destruct (Hp _ _ Hok He Hk eq_refl) as [Hok' Hm]; cbn in Hm; rewrite Hm; (split; [done|]; split; [done|]; intros Hio Hst; by apply (Hl (conj Hio He) Hst)).
  - pose proof (l3_delete_spec e s k) as Hp. pose proof (l3_delete_live e s k Hok) as Hl.
    destruct (l3_delete e s k) as [s' [[]|]]; cbn in *;
      destruct (Hp _ _ Hok eq_refl) as [Hok' Hm]; cbn in Hm; rewrite Hm; (split; [done|]; split; [done|]; intros Hio _; by apply (Hl (conj Hio He))).
  - pose proof (l3_batch_spec e s ops) as Hp. pose proof (l3_batch_live e s ops Hok) as Hl.
    destruct (l3_write_batch e s ops) as [s' [[]|]]; cbn in *;
      destruct (Hp _ _ Hok He Hk eq_refl) as [Hok' Hm]; cbn in Hm; rewrite Hm; (split; [done|]; split; [done|]; intros Hio Hst; by apply (Hl (conj Hio He) Hst)).
  - pose proof (l3_scan_spec e s p) as Hp. pose proof (l3_scan_live e s p Hok Hk) as Hl.
    destruct (l3_scan_prefix e s p) as [l|]; cbn in *; [|split; [done|]; split; [done|]; intros Hio _; by apply Hl].
    destruct (Hp l Hok Hk eq_refl) as [Hperm Hs]. by rewrite (sorted_entries_unique _ _ Hperm Hs).
Qed.

(** The calls a run answered, for the specification to follow. *)
Definition outcomes (calls : list (Env * l3_op)) (rs : list l3_reply) : list (bool * l3_op) :=
  zip (replied <$> rs) calls.*2.

Lemma l3_run_refines {S} `{L3Laws S M OK st} calls : forall s,
  OK s -> Forall (fun c => rnd_ok (fst c) /\ op_keys_ok (snd c)) calls ->
  let '(s', rs) := l3_run s calls in
  OK s' /\ map_run (M s) (outcomes calls rs) = (M s', rs)
  /\ (Forall (fun c => e_io (fst c) = IoOk /\ op_storable st (snd c)) calls ->
      Forall (fun r => replied r = true) rs).
Proof.
  induction calls as [|[e op] calls IH]; intros s Hok Hc; [by repeat split|].
  apply Forall_cons in Hc as [[He Hk] Hc]. cbn [l3_run fst snd] in *.
  pose proof (l3_exec_refines s e op Hok He Hk) as Hx.
  destruct (l3_exec s e op) as [s1 r]. destruct Hx as (Hok1 & Hm & Hlive).
  specialize (IH s1 Hok1 Hc). destruct (l3_run s1 calls) as [s2 rs].
  destruct IH as (Hok2 & Hrun & Hall). split; [done|]. split.
  - unfold outcomes in Hrun |- *. cbn [fmap list_fmap zip_with map_run fst snd].
    rewrite <-Hm, Hrun. done.
  - intros Hg. apply Forall_cons in Hg as [[H1 H2] Hg]. constructor; [by apply Hlive|by apply Hall].
Qed.
