(* ===== verification/L3.v ===== *)
(** The two [L3Store] implementations: [RedbStore] (crates/aeon-state/src/l3.rs) over the
    redb database, a third-party ordered table given by the class [Redb], and the
    value-encrypting wrapper [EncryptedL3Store] (crates/aeon-state/src/l3_encrypted.rs) over
    any other store. Both satisfy [L3Laws]. *)
From stdpp Require Import base gmap list strings sorting.
From S2P Require Import Prelude Types AtRest CheckpointWal Kv.

(** * redb: an ordered table of byte strings *)

Class Redb (T : Type) := {
  tab_get : T -> bytes -> option bytes;
  tab_insert : T -> bytes -> bytes -> T;
  tab_remove : T -> bytes -> T * option bytes;
  (** [range(lo..hi)], or [range(lo..)] without an upper bound. *)
  tab_range : T -> bytes -> option bytes -> KvPairs;
  tab_len : T -> Z;
}.

Definition in_range (lo : bytes) (hi : option bytes) (k : bytes) : bool :=
  ble lo k && match hi with Some h => blt k h | None => true end.

Class RedbLaws (T : Type) `{Redb T} (M : T -> gmap bytes bytes) : Prop := {
  tab_get_map t k : tab_get t k = M t !! k;
  tab_insert_map t k v : M (tab_insert t k v) = <[k := v]> (M t);
  tab_remove_map t k : M (fst (tab_remove t k)) = delete k (M t);
  tab_remove_old t k : snd (tab_remove t k) = M t !! k;
  tab_range_map t lo hi :
    tab_range t lo hi ≡ₚ map_to_list (filter (fun kv => in_range lo hi (fst kv) = true) (M t));
  tab_range_sorted t lo hi : StronglySorted key_lt (tab_range t lo hi);
  tab_len_map t : tab_len t = Z.of_nat (size (M t));
}.

(** * [RedbStore] *)

Record RedbStore (T : Type) := { db : T; redb_path : string; entry_count : Z }.
Arguments db {T} _.
Arguments redb_path {T} _.
Arguments entry_count {T} _.

Section RedbStore.
Context {T : Type} `{Redb T}.

Definition with_db (s : RedbStore T) (t : T) (n : Z) : RedbStore T :=
  {| db := t; redb_path := redb_path s; entry_count := n |}.

Definition redb_err {A} : Result A := Err (State "L3 redb").

(** [RedbStore::open] on the database found at (or created for) the path. *)
Definition RedbStore_open (e : Env) (path : string) (t : T) : Result (RedbStore T) :=
  match e_io e with
  | IoErr _ | IoDenied => redb_err
  | IoOk => Ok {| db := t; redb_path := path; entry_count := tab_len t |}
  end.

Definition redb_get (e : Env) (s : RedbStore T) (k : bytes) : Result (option bytes) :=
  match e_io e with IoErr _ | IoDenied => redb_err | IoOk => Ok (tab_get (db s) k) end.

(** One operation inside an open write transaction: the table and the atomic counter, which
    is bumped before the transaction commits. *)
Definition txn_put (t : T) (n : Z) (k v : bytes) : T * Z :=
  (tab_insert t k v, match tab_get t k with None => u64 (n + 1) | Some _ => n end).

Definition txn_delete (t : T) (n : Z) (k : bytes) : T * Z :=
  let '(t', old) := tab_remove t k in
  (t', match old with Some _ => u64 (n - 1) | None => n end).

Definition txn_op (tn : T * Z) (op : BatchEntry) : T * Z :=
  match op with
  | (BPut, k, v) => txn_put (fst tn) (snd tn) k (default [] v)
  | (BDelete, k, _) => txn_delete (fst tn) (snd tn) k
  end.

(** Run the first operations of a transaction and commit, or drop it uncommitted; the counter
    keeps what the operations did to it either way. *)
Definition transact (e : Env) (s : RedbStore T) (ops : list BatchEntry) : RedbStore T * Result unit :=
  match e_io e with
  | IoOk => let '(t, n) := foldl txn_op (db s, entry_count s) ops in (with_db s t n, Ok tt)
  | IoErr j => let '(_, n) := foldl txn_op (db s, entry_count s) (take j ops) in
               (with_db s (db s) n, redb_err)
  | IoDenied => (s, redb_err)
  end.

Definition redb_put (e : Env) (s : RedbStore T) (k v : bytes) : RedbStore T * Result unit :=
  transact e s [(BPut, k, Some v)].

Definition redb_delete (e : Env) (s : RedbStore T) (k : bytes) : RedbStore T * Result unit :=
  transact e s [(BDelete, k, None)].

Definition redb_write_batch (e : Env) (s : RedbStore T) (ops : list BatchEntry)
    : RedbStore T * Result unit :=
  match ops with
  | [] => (s, Ok tt)
  | _ => transact e s ops
  end.

(** [if !key.starts_with(prefix) { break; }] *)
Fixpoint take_prefixed (p : bytes) (l : KvPairs) : KvPairs :=
  match l with
  | [] => []
  | kv :: l' => if starts_with p (fst kv) then kv :: take_prefixed p l' else []
  end.

Definition redb_scan_prefix (e : Env) (s : RedbStore T) (prefix : bytes) : Result KvPairs :=
  match e_io e with
  | IoErr _ | IoDenied => redb_err
  | IoOk =>
    match prefix_upper_bound prefix with
    | Some upper => Ok (tab_range (db s) prefix (Some upper))
    | None => Ok (take_prefixed prefix (tab_range (db s) prefix None))
    end
  end.

Definition redb_flush (e : Env) (s : RedbStore T) : Result unit := Ok tt.
Definition redb_len (e : Env) (s : RedbStore T) : Result Z := Ok (entry_count s).

#[export] Instance redb_l3 : L3Store (RedbStore T) := {|
  l3_get := redb_get; l3_put := redb_put; l3_delete := redb_delete;
  l3_write_batch := redb_write_batch; l3_scan_prefix := redb_scan_prefix;
  l3_flush := redb_flush; l3_len := redb_len;
|}.

Context (M : T -> gmap bytes bytes) `{!RedbLaws T M}.

Definition redb_map (s : RedbStore T) : gmap bytes bytes := M (db s).
Definition redb_ok (s : RedbStore T) : Prop := map_Forall (fun k _ => Forall is_byte k) (redb_map s).

Lemma txn_op_map tn op : M (fst (txn_op tn op)) = batch_entry (M (fst tn)) op.
Proof.
  destruct tn as [t n], op as [[[|] k] v]; cbn.
  - apply tab_insert_map.
  - unfold txn_delete. destruct (tab_remove t k) as [t' old] eqn:E. cbn.
    rewrite <-tab_remove_map, E. done.
Qed.

Lemma txn_ops_map ops : forall tn, M (fst (foldl txn_op tn ops)) = batch_result (M (fst tn)) ops.
Proof.
  induction ops as [|op ops IH]; intros tn; [done|]. cbn [foldl]. rewrite IH, txn_op_map. done.
Qed.

Lemma batch_result_bytes ops : forall m,
  map_Forall (fun k (_ : bytes) => Forall is_byte k) m ->
  Forall (fun op => Forall is_byte (snd (fst op))) ops ->
  map_Forall (fun k _ => Forall is_byte k) (batch_result m ops).
Proof.
  induction ops as [|op ops IH]; intros m Hm Hops; [done|].
  apply Forall_cons in Hops as [Hop Hops]. cbn [batch_result foldl]. apply IH; [|done].
  destruct op as [[[|] k] v]; cbn in *.
  - by apply map_Forall_insert_2.
  - by apply map_Forall_delete.
Qed.

Lemma transact_spec e s ops s' r :
  redb_ok s -> Forall (fun op => Forall is_byte (snd (fst op))) ops -> transact e s ops = (s', r) ->
  redb_ok s' /\ redb_map s' = (if is_ok r then batch_result (redb_map s) ops else redb_map s).
Proof.
  unfold transact, redb_ok, redb_map. intros Hok Hops Ht. destruct (e_io e) as [|j|].
  - pose proof (txn_ops_map ops (db s, entry_count s)) as Hm.
    destruct (foldl _ _ ops) as [t n]. simplify_eq. cbn in *. rewrite Hm.
    split; [by apply batch_result_bytes|done].
  - destruct (foldl _ _ (take j ops)) as [t n]. simplify_eq. done.
  - by simplify_eq.
Qed.

Lemma transact_live e s ops : e_io e = IoOk -> is_ok (snd (transact e s ops)) = true.
Proof. unfold transact. intros ->. by destruct (foldl _ _ ops). Qed.

Lemma take_prefixed_all p l :
  Forall (fun kv => starts_with p (fst kv) = true) l -> take_prefixed p l = l.
Proof. induction 1 as [|kv l Hk _ IH]; [done|]. cbn. by rewrite Hk, IH. Qed.

Lemma scan_range s p hi :
  redb_ok s -> Forall is_byte p -> prefix_upper_bound p = hi ->
  tab_range (db s) p hi ≡ₚ map_to_list (prefixed p (redb_map s)).
Proof.
  intros Hok Hp Hhi. rewrite tab_range_map. unfold prefixed, redb_map.
  assert (E : filter (fun kv => in_range p hi (fst kv) = true) (M (db s))
              = filter (fun kv => starts_with p (fst kv) = true) (M (db s))).
  { apply map_filter_ext. intros k v Hk. cbn. specialize (Hok k v Hk). cbn in Hok.
    unfold in_range. destruct hi as [u|].
    - by rewrite (upper_bound_Some p u k).
    - by rewrite (upper_bound_None p k), andb_true_r. }
  by rewrite E.
Qed.

Lemma redb_scan_spec e s p l :
  redb_ok s -> Forall is_byte p -> redb_scan_prefix e s p = Ok l ->
  l ≡ₚ map_to_list (prefixed p (redb_map s)) /\ StronglySorted key_lt l.
Proof.
  intros Hok Hp. unfold redb_scan_prefix. destruct (e_io e); [|done..].
  destruct (prefix_upper_bound p) as [u|] eqn:E; intros [= <-].
  - split; [by apply scan_range|apply tab_range_sorted].
  - rewrite take_prefixed_all; [split; [by apply scan_range|apply tab_range_sorted]|].
    rewrite (scan_range s p None Hok Hp E). apply Forall_forall. intros [k v] Hin.
    apply elem_of_map_to_list, map_lookup_filter_Some in Hin. tauto.
Qed.

#[export] Instance redb_laws : L3Laws (RedbStore T) redb_map redb_ok (fun _ => True).
Proof.
  constructor; cbn [l3_get l3_put l3_delete l3_write_batch l3_scan_prefix l3_flush redb_l3].
  - intros e s k r _. unfold redb_get. destruct (e_io e); [|done..]. intros [= <-]. exact (tab_get_map (db s) k).
  - intros e s k _ He. unfold redb_get. by rewrite He.
  - intros e s k v s' r Hok _ Hk Hp. apply (transact_spec e s [(BPut, k, Some v)] s' r Hok); [|done].
    by apply Forall_singleton.
  - intros e s k v _ [He _] _. by apply transact_live.
  - intros e s k s' r Hok Hp. revert Hp. unfold redb_delete, transact, redb_ok, redb_map in *.
    destruct (e_io e) as [|j|].
    + cbn. unfold txn_delete. destruct (tab_remove (db s) k) as [t old] eqn:E. intros [= <- <-]. cbn.
      assert (Hm : M t = delete k (M (db s))) by (rewrite <-tab_remove_map, E; done).
      rewrite Hm. split; [by apply map_Forall_delete|done].
    + destruct (foldl _ _ _) as [t n]. by intros [= <- <-].
    + by intros [= <- <-].
  - intros e s k _ [He _]. by apply transact_live.
  - intros e s [|op ops] s' r Hok _ Hk; [by intros [= <- <-]|]. by apply transact_spec.
  - intros e s [|op ops] _ [He _] _; [done|]. by apply transact_live.
  - intros e s p l. apply redb_scan_spec.
  - intros e s p _ _ He. unfold redb_scan_prefix. rewrite He. by destruct (prefix_upper_bound p).
  - done.
Qed.

Lemma txn_op_count tn op :
  snd tn = Z.of_nat (size (M (fst tn))) -> (Z.of_nat (size (M (fst tn))) + 1 < 2 ^ 64)%Z ->
  snd (txn_op tn op) = Z.of_nat (size (M (fst (txn_op tn op)))).
Proof.
  intros Hn Hb. rewrite txn_op_map. destruct tn as [t n], op as [[[|] k] v]; cbn in *.
  - rewrite tab_get_map, map_size_insert. destruct (M t !! k); cbn; [done|].
    rewrite wrap_small by lia. lia.
  - unfold txn_delete. pose proof (tab_remove_old t k) as Ho.
    destruct (tab_remove t k) as [t' old]. cbn in *. subst old. rewrite map_size_delete.
    destruct (M t !! k) eqn:E; cbn; [|done].
    assert (size (M t) <> 0) by (intros Hz%map_size_empty_inv; rewrite Hz in E; done).
    rewrite wrap_small by lia. lia.
Qed.

Lemma txn_ops_count ops : forall tn,
  snd tn = Z.of_nat (size (M (fst tn))) ->
  (Z.of_nat (size (M (fst tn))) + Z.of_nat (length ops) < 2 ^ 64)%Z ->
  snd (foldl txn_op tn ops) = Z.of_nat (size (M (fst (foldl txn_op tn ops)))).
Proof.
  induction ops as [|op ops IH]; intros tn Hn Hb; [done|]. cbn [foldl length] in *.
  apply IH; [apply txn_op_count; [done|lia]|].
  rewrite txn_op_map. destruct op as [[[|] k] v]; cbn [batch_entry].
  - rewrite map_size_insert. destruct (M (fst tn) !! k); cbn; lia.
  - rewrite map_size_delete. destruct (M (fst tn) !! k); cbn; lia.
Qed.

(** [len()] is exact while every transaction commits. *)
Lemma redb_len_exact e s ops s' :
  e_io e = IoOk -> entry_count s = Z.of_nat (size (redb_map s)) ->
  (Z.of_nat (size (redb_map s)) + Z.of_nat (length ops) < 2 ^ 64)%Z ->
  redb_write_batch e s ops = (s', Ok tt) -> entry_count s' = Z.of_nat (size (redb_map s')).
Proof.
  intros He Hn Hb. destruct ops as [|op ops]; [by intros [= <-]|].
  unfold redb_write_batch, transact. rewrite He.
  pose proof (txn_ops_count (op :: ops) (db s, entry_count s) Hn Hb) as Hc.
  destruct (foldl txn_op _ _) as [t n]. intros [= <-]. done.
Qed.
End RedbStore.

(** * [EncryptedL3Store] *)

Record EncryptedL3Store `{CryptoOps} (S : Type) := { inner : S; enc_cipher : AtRestCipher }.
Arguments inner {_ S} _.
Arguments enc_cipher {_ S} _.

Section Encrypted.
Context `{CryptoOps} `{Codec WrappedDek} {S : Type} `{L3Store S}.

Definition with_inner (s : EncryptedL3Store S) (i : S) : EncryptedL3Store S :=
  {| inner := i; enc_cipher := enc_cipher s |}.

Definition read_sidecar (e : Env) (disk : Disk) (path : string) : Result WrappedDek :=
  match e_io e, disk !! path with
  | IoOk, Some bs => match deserialize bs with
                     | Some w => Ok w
                     | None => Err (State "encrypted-l3: parse sidecar")
                     end
  | _, _ => Err (State "encrypted-l3: read sidecar")
  end.

Definition write_sidecar (e : Env) (disk : Disk) (path : string) (w : WrappedDek) : Disk * Result unit :=
  match serialize w with
  | None => (disk, Err (State "encrypted-l3: serialize wrapped DEK"))
  | Some bs =>
    match e_io e with
    | IoOk => (<[path := bs]> disk, Ok tt)
    | IoErr k => (<[path := take k bs]> disk, Err (State "encrypted-l3: write sidecar"))
    | IoDenied => (disk, Err (State "encrypted-l3: write sidecar"))
    end
  end.

(** [wrap]: an existing sidecar must unwrap under the KEK; otherwise a key is drawn and its
    sidecar written before the store is usable. *)
Definition enc_wrap (e : Env) (disk : Disk) (i : S) (kek : KekHandle) (meta_path : string)
    : Disk * Result (EncryptedL3Store S) :=
  match disk !! meta_path with
  | Some _ => (disk, let? w := read_sidecar e disk meta_path in
                     let? c := from_wrapped kek w in Ok {| inner := i; enc_cipher := c |})
  | None =>
    match generate kek (e_rnd e 0) with
    | Err er => (disk, Err er)
    | Ok c => let '(disk', r) := write_sidecar e disk meta_path (wrapped c) in
              (disk', let? _ := r in Ok {| inner := i; enc_cipher := c |})
    end
  end.

Definition enc_get (e : Env) (s : EncryptedL3Store S) (k : bytes) : Result (option bytes) :=
  let? o := l3_get e (inner s) k in
  match o with
  | Some sealed => let? pt := open (enc_cipher s) sealed in Ok (Some pt)
  | None => Ok None
  end.

Definition enc_put (e : Env) (s : EncryptedL3Store S) (k v : bytes) : EncryptedL3Store S * Result unit :=
  match seal (enc_cipher s) (e_rnd e 0) v with
  | Err er => (s, Err er)
  | Ok sealed => let '(i, r) := l3_put e (inner s) k sealed in (with_inner s i, r)
  end.

Definition enc_delete (e : Env) (s : EncryptedL3Store S) (k : bytes) : EncryptedL3Store S * Result unit :=
  let '(i, r) := l3_delete e (inner s) k in (with_inner s i, r).

(** Seal the [Put] values one by one; [n] counts the nonces drawn so far. *)
Fixpoint seal_ops (e : Env) (c : AtRestCipher) (n : nat) (ops : list BatchEntry) : Result (list BatchEntry) :=
  match ops with
  | [] => Ok []
  | (BPut, k, v) :: rest =>
    let? ct := seal c (e_rnd e n) (default [] v) in
    let? rest' := seal_ops e c (n + 1) rest in
    Ok ((BPut, k, Some ct) :: rest')
  | (BDelete, k, _) :: rest =>
    let? rest' := seal_ops e c n rest in Ok ((BDelete, k, None) :: rest')
  end.

Definition enc_write_batch (e : Env) (s : EncryptedL3Store S) (ops : list BatchEntry)
    : EncryptedL3Store S * Result unit :=
  match ops with
  | [] => (s, Ok tt)
  | _ =>
    match seal_ops e (enc_cipher s) 0 ops with
    | Err er => (s, Err er)
    | Ok sealed_ops => let '(i, r) := l3_write_batch e (inner s) sealed_ops in (with_inner s i, r)
    end
  end.

Fixpoint open_pairs (c : AtRestCipher) (l : KvPairs) : Result KvPairs :=
  match l with
  | [] => Ok []
  | (k, v) :: rest =>
    let? pt := open c v in let? rest' := open_pairs c rest in Ok ((k, pt) :: rest')
  end.

Definition enc_scan_prefix (e : Env) (s : EncryptedL3Store S) (p : bytes) : Result KvPairs :=
  let? sealed := l3_scan_prefix e (inner s) p in open_pairs (enc_cipher s) sealed.

Definition enc_flush (e : Env) (s : EncryptedL3Store S) : Result unit := l3_flush e (inner s).
Definition enc_len (e : Env) (s : EncryptedL3Store S) : Result Z := l3_len e (inner s).

#[export] Instance enc_l3 : L3Store (EncryptedL3Store S) := {|
  l3_get := enc_get; l3_put := enc_put; l3_delete := enc_delete;
  l3_write_batch := enc_write_batch; l3_scan_prefix := enc_scan_prefix;
  l3_flush := enc_flush; l3_len := enc_len;
|}.

Context `{!CryptoLaws} (M : S -> gmap bytes bytes) (OK : S -> Prop) (st : bytes -> Prop)
        `{!L3Laws S M OK st}.

(** The plaintext contents: every stored value opens. *)
Definition opened (c : AtRestCipher) (v : bytes) : bytes :=
  match open c v with Ok pt => pt | Err _ => [] end.
Definition enc_map (s : EncryptedL3Store S) : gmap bytes bytes := opened (enc_cipher s) <$> M (inner s).
Definition opens (c : AtRestCipher) (m : gmap bytes bytes) : Prop :=
  map_Forall (fun _ v => is_ok (open c v) = true) m.
Definition enc_ok (s : EncryptedL3Store S) : Prop := OK (inner s) /\ opens (enc_cipher s) (M (inner s)).
Definition enc_storable (v : bytes) : Prop :=
  forall c nonce, length nonce = 12 -> exists sealed, seal c nonce v = Ok sealed /\ st sealed.

Lemma open_opened c v : is_ok (open c v) = true -> open c v = Ok (opened c v).
Proof. unfold opened. by destruct (open c v). Qed.

Lemma seal_opens c nonce v sealed :
  length nonce = 12 -> seal c nonce v = Ok sealed ->
  is_ok (open c sealed) = true /\ opened c sealed = v.
Proof. intros Hn Hs. unfold opened. by rewrite (open_seal c nonce v sealed Hn Hs). Qed.

Lemma seal_ops_spec e c ops : forall n sops m,
  rnd_ok e -> seal_ops e c n ops = Ok sops -> opens c m ->
  opens c (batch_result m sops)
  /\ opened c <$> batch_result m sops = batch_result (opened c <$> m) ops
  /\ (snd ∘ fst) <$> sops = (snd ∘ fst) <$> ops.
Proof.
  induction ops as [|[[[|] k] v] ops IH]; intros n sops m He Hs Hm; cbn [seal_ops] in Hs.
  - by simplify_eq.
  - destruct (seal c (e_rnd e n) (default [] v)) as [ct|] eqn:E; [|done].
    destruct (seal_ops e c (n + 1) ops) as [rest|] eqn:Er; [|done]. simplify_eq.
    destruct (seal_opens _ _ _ _ (He n) E) as [Ho Hv].
    destruct (IH (n + 1) rest (<[k := ct]> m) He Er) as (G1 & G2 & G3).
    { by apply map_Forall_insert_2. }
    cbn [batch_result foldl batch_entry default] in *. split; [done|].
    rewrite fmap_insert, Hv in G2. split; [exact G2|]. cbn. by rewrite G3.
  - destruct (seal_ops e c n ops) as [rest|] eqn:Er; [|done]. simplify_eq.
    destruct (IH n rest (delete k m) He Er) as (G1 & G2 & G3).
    { by apply map_Forall_delete. }
    cbn [batch_result foldl batch_entry] in *. split; [done|].
    rewrite fmap_delete in G2. split; [exact G2|]. cbn. by rewrite G3.
Qed.

Lemma seal_ops_live e c ops : forall n,
  rnd_ok e -> Forall (fun op => enc_storable (default [] (snd op))) ops -> st [] ->
  exists sops, seal_ops e c n ops = Ok sops /\ Forall (fun op => st (default [] (snd op))) sops.
Proof.
  induction ops as [|[[[|] k] v] ops IH]; intros n He Ho Hst; cbn [seal_ops].
  - by exists [].
  - apply Forall_cons in Ho as [Hv Ho]. cbn [snd] in Hv. destruct (Hv c (e_rnd e n) (He n)) as (ct & -> & Hct).
    destruct (IH (n + 1) He Ho Hst) as (rest & -> & Hr). eexists. split; [done|]. by constructor.
  - apply Forall_cons in Ho as [_ Ho]. destruct (IH n He Ho Hst) as (rest & -> & Hr).
    eexists. split; [done|]. by constructor.
Qed.

Lemma open_pairs_spec c l :
  Forall (fun kv => is_ok (open c (snd kv)) = true) l ->
  open_pairs c l = Ok (prod_map id (opened c) <$> l).
Proof.
  induction 1 as [|[k v] l Hv _ IH]; [done|]. cbn in *. by rewrite (open_opened _ _ Hv), IH.
Qed.

Lemma key_lt_fmap (g : bytes -> bytes) l :
  StronglySorted key_lt l -> StronglySorted key_lt (prod_map id g <$> l).
Proof.
  induction 1 as [|[k v] l _ IH Hf]; [constructor|]. cbn. constructor; [done|].
  apply Forall_fmap. eapply Forall_impl; [exact Hf|]. by intros [].
Qed.

Lemma prefixed_fmap p (g : bytes -> bytes) m : prefixed p (g <$> m) = g <$> prefixed p m.
Proof. unfold prefixed. by rewrite map_filter_fmap. Qed.

Lemma prefixed_opens c p m : opens c m -> opens c (prefixed p m).
Proof. intros Hm k v Hk. apply map_lookup_filter_Some in Hk as [Hk _]. exact (Hm k v Hk). Qed.

Lemma opens_list c p m l :
  l ≡ₚ map_to_list (prefixed p m) -> opens c m -> Forall (fun kv => is_ok (open c (snd kv)) = true) l.
Proof.
  intros -> Hm. apply Forall_forall. intros [k v] Hin. apply elem_of_map_to_list in Hin.
  exact (prefixed_opens c p m Hm k v Hin).
Qed.

Lemma enc_scan_spec e s p l :
  enc_ok s -> Forall is_byte p -> enc_scan_prefix e s p = Ok l ->
  l ≡ₚ map_to_list (prefixed p (enc_map s)) /\ StronglySorted key_lt l.
Proof.
  intros [Hok Ho] Hp. unfold enc_scan_prefix.
  destruct (l3_scan_prefix e (inner s) p) as [sl|] eqn:E; [|done].
  destruct (l3_scan_spec e (inner s) p sl Hok Hp E) as [Hperm Hs].
  rewrite open_pairs_spec.
  - intros [= <-]. split; [|by apply key_lt_fmap]. unfold enc_map. rewrite prefixed_fmap, map_to_list_fmap.
    by rewrite Hperm.
  - by eapply opens_list.
Qed.

Lemma enc_scan_live e s p : enc_ok s -> Forall is_byte p -> e_io e = IoOk -> is_ok (enc_scan_prefix e s p) = true.
Proof.
  intros [Hok Ho] Hp He. unfold enc_scan_prefix. destruct (l3_scan_ok e (inner s) p Hok He Hp) as (l & -> & Hl & _).
  rewrite open_pairs_spec; [done|]. by eapply opens_list.
Qed.

(** Encryption is transparent: the wrapper satisfies the laws of the store it wraps. *)
#[export] Instance enc_laws : st [] -> L3Laws (EncryptedL3Store S) enc_map enc_ok enc_storable.
Proof.
  intros Hst.
  constructor; cbn [l3_get l3_put l3_delete l3_write_batch l3_scan_prefix l3_flush enc_l3].
  - intros e s k r [Hok Ho]. unfold enc_get, enc_map. rewrite lookup_fmap.
    destruct (l3_get e (inner s) k) as [o|] eqn:E; [|done].
    pose proof (l3_get_spec e (inner s) k o Hok E) as Hm. rewrite <-Hm.
    destruct o as [v|]; [|by intros [= <-]]. rewrite (open_opened _ _ (Ho k v (eq_sym Hm))).
    by intros [= <-].
  - intros e s k [Hok Ho] He. unfold enc_get. rewrite (l3_get_ok e (inner s) k Hok He).
    destruct (M (inner s) !! k) as [v|] eqn:E; [|done]. by rewrite (open_opened _ _ (Ho k v E)).
  - intros e s k v s' r [Hok Ho] He Hk. unfold enc_put, enc_map, enc_ok.
    destruct (seal _ _ v) as [sealed|] eqn:E; [|by intros [= <- <-]].
    destruct (seal_opens _ _ _ _ (He 0) E) as [Hop Hv].
    destruct (l3_put e (inner s) k sealed) as [i r'] eqn:Ep. intros [= <- <-]. cbn.
    destruct (l3_put_spec e (inner s) k sealed i r' Hok He Hk Ep) as [Hok' ->].
    destruct r' as [[]|]; cbn; [|done]. rewrite fmap_insert, Hv. split; [|done].
    split; [done|]. by apply map_Forall_insert_2.
  - intros e s k v [Hok Ho] He Hv. unfold enc_put.
    destruct (Hv (enc_cipher s) (e_rnd e 0) (proj2 He 0)) as (sealed & -> & Hs).
    pose proof (l3_put_live e (inner s) k sealed Hok He Hs) as Hl.
    by destruct (l3_put e (inner s) k sealed).
  - intros e s k s' r [Hok Ho]. unfold enc_delete, enc_map, enc_ok.
    destruct (l3_delete e (inner s) k) as [i r'] eqn:Ep. intros [= <- <-]. cbn.
    destruct (l3_delete_spec e (inner s) k i r' Hok Ep) as [Hok' ->].
    destruct r' as [[]|]; cbn; [|done]. rewrite fmap_delete. split; [|done].
    split; [done|]. by apply map_Forall_delete.
  - intros e s k [Hok Ho] He. unfold enc_delete. pose proof (l3_delete_live e (inner s) k Hok He).
    by destruct (l3_delete e (inner s) k).
  - intros e s ops s' r [Hok Ho] He Hk. unfold enc_write_batch, enc_map, enc_ok.
    destruct ops as [|op ops]; [by intros [= <- <-]|].
    destruct (seal_ops e (enc_cipher s) 0 (op :: ops)) as [sops|] eqn:E; [|by intros [= <- <-]].
    destruct (seal_ops_spec _ _ _ _ _ _ He E Ho) as (G1 & G2 & G3).
    destruct (l3_write_batch e (inner s) sops) as [i r'] eqn:Ep. intros [= <- <-]. cbn [inner with_inner enc_cipher].
    destruct (l3_batch_spec e (inner s) sops i r' Hok He) as [Hok' ->]; [|done|].
    + apply (Forall_fmap (snd ∘ fst) (Forall is_byte)). rewrite G3. by apply Forall_fmap.
    + destruct r' as [[]|]; cbn [is_ok]; done.
  - intros e s ops [Hok Ho] He Hv. unfold enc_write_batch. destruct ops as [|op ops]; [done|].
    destruct (seal_ops_live e (enc_cipher s) (op :: ops) 0 (proj2 He) Hv Hst) as (sops & -> & Hs).
    pose proof (l3_batch_live e (inner s) sops Hok He Hs). by destruct (l3_write_batch e (inner s) sops).
  - intros e s p l. apply enc_scan_spec.
  - intros e s p. apply enc_scan_live.
  - intros e s [Hok _] He. by apply l3_flush_ok.
Qed.
End Encrypted.

(** * Refinement *)

Section Refinement.
Context {T : Type} `{Redb T} (M : T -> gmap bytes bytes) `{!RedbLaws T M}.

(** C10. [RedbStore] refines a finite map: over any sequence of calls and any pattern of
    storage failures, its contents and its replies are those of the map that performs exactly
    the calls that did not fail, scans included (precisely the entries with the prefix, in key
    order); when the storage never fails every call succeeds. *)
Theorem redb_refines_map s calls :
  redb_ok M s -> Forall (fun c => rnd_ok (fst c) /\ op_keys_ok (snd c)) calls ->
  let '(s', rs) := l3_run s calls in
  map_run (redb_map M s) (outcomes calls rs) = (redb_map M s', rs)
  /\ (Forall (fun c => e_io (fst c) = IoOk) calls -> Forall (fun r => replied r = true) rs).
Proof.
  intros Hok Hc. pose proof (l3_run_refines (M := redb_map M) calls s Hok Hc) as Hr.
  destruct (l3_run s calls) as [s' rs]. destruct Hr as (_ & Hr & Hl). split; [exact Hr|].
  intros He. apply Hl. eapply Forall_impl; [exact He|]. intros [e op] Hio. split; [done|].
  destruct op; cbn; try done. by apply Forall_true.
Qed.

Context `{CryptoOps} `{!CryptoLaws} `{Codec WrappedDek} `{!CodecLaws WrappedDek}.

(** C11. Encryption at rest is transparent: an [EncryptedL3Store] over redb behaves, call by
    call, as a finite map of plaintexts although the inner table only ever holds sealed
    values; and a store wrapped a second time, over the sidecar the first wrap wrote and with
    the same KEK, reads back the same plaintext contents. *)
Theorem encrypted_refines_map (s : EncryptedL3Store (RedbStore T)) calls :
  enc_ok (redb_map M) (redb_ok M) s ->
  Forall (fun c => rnd_ok (fst c) /\ op_keys_ok (snd c)) calls ->
  (let '(s', rs) := l3_run s calls in
   map_run (enc_map (redb_map M) s) (outcomes calls rs) = (enc_map (redb_map M) s', rs)
   /\ opens (enc_cipher s') (redb_map M (inner s')))
  /\ forall e e' disk disk' (i : RedbStore T) kek path s0, e_io e' = IoOk ->
     disk !! path = None -> enc_wrap e disk i kek path = (disk', Ok s0) ->
     forall i', enc_wrap e' disk' i' kek path = (disk', Ok (with_inner s0 i')).
Proof.
  intros Hok Hc. split.
  - pose proof (enc_laws (redb_map M) (redb_ok M) (fun _ => True) I) as HL.
    pose proof (l3_run_refines (M := enc_map (redb_map M)) calls s Hok Hc) as Hr.
    destruct (l3_run s calls) as [s' rs]. destruct Hr as ([_ Ho] & Hr & _). done.
  - intros e e' disk disk' i kek path s0 He' Hp. unfold enc_wrap at 1. rewrite Hp.
    destruct (generate kek (e_rnd e 0)) as [c|] eqn:Eg; [|done]. unfold write_sidecar.
    destruct (serialize (wrapped c)) as [bs|] eqn:Es; [|done].
    destruct (e_io e) eqn:Eio; [|done..]. intros [= <- <-] i'. unfold enc_wrap.
    rewrite lookup_insert_eq. unfold read_sidecar. rewrite He', lookup_insert_eq.
    rewrite (deserialize_serialize _ _ Es), (from_wrapped_generate _ _ _ Eg). done.
Qed.
End Refinement.

(** * Instances for examples *)

(** A reference table. *)
#[export] Instance map_redb : Redb (gmap bytes bytes) := {|
  tab_get t k := t !! k;
  tab_insert t k v := <[k := v]> t;
  tab_remove t k := (delete k t, t !! k);
  tab_range t lo hi := sorted_entries (filter (fun kv => in_range lo hi (fst kv) = true) t);
  tab_len t := Z.of_nat (size t);
|}.

#[export] Instance map_redb_laws : RedbLaws (gmap bytes bytes) id.
Proof.
  constructor; try done.
  - intros t lo hi. apply merge_sort_Permutation.
  - intros. apply sorted_entries_sorted.
Qed.

Definition good_env : Env := {| e_io := IoOk; e_rnd := fun _ => replicate 12 7%Z |}.
Definition bad_env (k : nat) : Env := {| e_io := IoErr k; e_rnd := fun _ => replicate 12 7%Z |}.

Definition redb_a : RedbStore (gmap bytes bytes) := {| db := ∅; redb_path := "l3"; entry_count := 0 |}.

Definition calls_a : list (Env * l3_op) :=
  [(good_env, OPut [255; 2] [1]); (good_env, OPut [255; 1] [2]); (bad_env 1, OPut [7] [3]);
   (good_env, OScan [255]); (good_env, OGet [7])]%Z.

Lemma calls_a_ok : Forall (fun c => rnd_ok (fst c) /\ op_keys_ok (snd c)) calls_a.
Proof. repeat constructor; cbn; lia. Qed.

Lemma redb_refines_map_witness :
  (let '(s', rs) := l3_run redb_a calls_a in
   rs = [RUnit; RUnit; RErr; RScan [([255; 1], [2]); ([255; 2], [1])]; RGet None]%Z
   /\ map_run ∅ (outcomes calls_a rs) = (redb_map id s', rs)).
Proof.
  pose proof (redb_refines_map id redb_a calls_a (fun k v H => ltac:(done)) calls_a_ok) as Hr.
  destruct (l3_run redb_a calls_a) as [s' rs] eqn:E. split; [|exact (proj1 Hr)].
  vm_compute in E. by simplify_eq.
Defined.

(** A failed commit leaves the counter behind [len()] off by one, for good. *)
Theorem redb_len_drifts :
  exists e s k v s', entry_count s = Z.of_nat (size (redb_map id s))
    /\ redb_put e s k v = (s', redb_err) /\ redb_map id s' = redb_map id s
    /\ redb_len good_env s' <> Ok (Z.of_nat (size (redb_map id s'))).
Proof.
  exists (bad_env 1), redb_a, [1%Z], [2%Z], (with_db redb_a ∅ 1). by repeat split.
Qed.

Definition enc_a : @EncryptedL3Store toy_crypto (RedbStore (gmap bytes bytes)) :=
  @Build_EncryptedL3Store toy_crypto _ redb_a {| dek := (5%Z : @DekBytes toy_crypto); wrapped := ((9, 5)%Z : @WrappedDek toy_crypto) |}.

Lemma encrypted_refines_map_witness :
  (let '(s', rs) := @l3_run _ (@enc_l3 toy_crypto _ _) enc_a calls_a in
   map_run ∅ (outcomes calls_a rs) = (@enc_map toy_crypto _ (redb_map id) s', rs)
   /\ rs = [RUnit; RUnit; RErr; RScan [([255; 1], [2]); ([255; 2], [1])]; RGet None]%Z).
Proof.
  destruct (@encrypted_refines_map _ _ id _ toy_crypto toy_crypto_laws toy_dek_codec toy_dek_laws
              enc_a calls_a) as [Hr _].
  - split; intros k v Hk; done.
  - apply calls_a_ok.
  - destruct (l3_run enc_a calls_a) as [s' rs] eqn:E. split; [exact (proj1 Hr)|].
    vm_compute in E. by simplify_eq.
Defined.
