(* ===== verification/Indexed.v ===== *)
(** Records keyed by [prefix ++ big-endian u64 index] in a key-value store, the layout shared
    by the L3 checkpoint store and the Raft log store: what the store's contents say about
    the records, and what a prefix scan of them returns. *)
From stdpp Require Import base gmap list strings sorting.
From S2P Require Import Prelude Types Kv.

(** Deleting a list of indices. *)
Definition without {V} (ids : list Z) (recs : gmap Z V) : gmap Z V :=
  foldl (fun r i => delete i r) recs ids.

Lemma without_lookup {V} ids : forall (recs : gmap Z V) i,
  without ids recs !! i = if decide (i ∈ ids) then None else recs !! i.
Proof.
  induction ids as [|j ids IH]; intros recs i.
  { rewrite decide_False; [done|]. apply not_elem_of_nil. }
  cbn [without foldl]. unfold without in IH. rewrite IH.
  destruct (decide (i ∈ ids)) as [Hin|Hin].
  - rewrite decide_True by set_solver. done.
  - destruct (decide (i = j)) as [->|Hne].
    + rewrite lookup_delete_eq, decide_True by set_solver. done.
    + rewrite lookup_delete_ne by done. rewrite decide_False by set_solver. done.
Qed.

Section Indexed.
Variable P : bytes.
Hypothesis P_bytes : Forall is_byte P.

Definition idx_key (i : Z) : bytes := P ++ be 8 i.

Definition parse_idx (k : bytes) : option Z :=
  if starts_with P k && bool_decide (length k = length P + 8)
  then Some (un_be (drop (length P) k)) else None.

Lemma idx_key_bytes i : Forall is_byte (idx_key i).
Proof. apply Forall_app. split; [done|apply be_bytes]. Qed.

Lemma parse_idx_key i : in_u64 i -> parse_idx (idx_key i) = Some i.
Proof.
  intros Hi. unfold parse_idx, idx_key. rewrite starts_with_app, bool_decide_true by len.
  cbn [andb]. by rewrite drop_app_length, un_be_be_u64.
Qed.

Lemma idx_key_inj i j : in_u64 i -> in_u64 j -> idx_key i = idx_key j -> i = j.
Proof.
  intros Hi Hj He. pose proof (parse_idx_key i Hi) as E. rewrite He, (parse_idx_key j Hj) in E.
  congruence.
Qed.

Lemma idx_key_lt i j : in_u64 i -> in_u64 j -> (i < j)%Z -> blt (idx_key i) (idx_key j) = true.
Proof.
  unfold in_u64. intros Hi Hj Hlt. unfold idx_key. rewrite blt_app_eq. apply blt_be; [lia|].
  change (256 ^ Z.of_nat 8)%Z with (2 ^ 64)%Z. lia.
Qed.

(** [m] holds exactly the records [recs] under the prefix. *)
Definition holds (m : gmap bytes bytes) (recs : gmap Z bytes) : Prop :=
  (forall i, in_u64 i -> m !! idx_key i = recs !! i)
  /\ (forall k v, m !! k = Some v -> starts_with P k = true -> exists i, in_u64 i /\ k = idx_key i)
  /\ (forall i, is_Some (recs !! i) -> in_u64 i).

Lemma holds_empty : holds ∅ ∅.
Proof. split; [done|]. split; [done|]. intros i [v Hv]. done. Qed.

Lemma holds_insert m recs i v :
  in_u64 i -> holds m recs -> holds (<[idx_key i := v]> m) (<[i := v]> recs).
Proof.
  intros Hi (H1 & H2 & H3). split; [|split].
  - intros j Hj. destruct (decide (j = i)) as [->|Hne].
    + by rewrite !lookup_insert_eq.
    + rewrite !lookup_insert_ne; [by apply H1|done|]. intros He. by apply idx_key_inj in He.
  - intros k w Hk Hs. apply lookup_insert_Some in Hk as [[<- _]|[_ Hk]]; eauto.
  - intros j [w Hw]. apply lookup_insert_Some in Hw as [[<- _]|[_ Hw]]; eauto.
Qed.

Lemma holds_delete m recs i :
  in_u64 i -> holds m recs -> holds (delete (idx_key i) m) (delete i recs).
Proof.
  intros Hi (H1 & H2 & H3). split; [|split].
  - intros j Hj. destruct (decide (j = i)) as [->|Hne].
    + by rewrite !lookup_delete_eq.
    + rewrite !lookup_delete_ne; [by apply H1|done|]. intros He. by apply idx_key_inj in He.
  - intros k w Hk Hs. apply lookup_delete_Some in Hk as [_ Hk]. eauto.
  - intros j [w Hw]. apply lookup_delete_Some in Hw as [_ Hw]. eauto.
Qed.

(** Keys outside the prefix do not matter. *)
Lemma holds_insert_other m recs k v :
  starts_with P k = false -> holds m recs -> holds (<[k := v]> m) recs.
Proof.
  intros Hk (H1 & H2 & H3). split; [|split; [|done]].
  - intros i Hi. rewrite lookup_insert_ne; [by apply H1|]. intros ->.
    unfold idx_key in Hk. by rewrite starts_with_app in Hk.
  - intros k' w Hk' Hs. apply lookup_insert_Some in Hk' as [[<- _]|[_ Hk']]; [congruence|eauto].
Qed.

Lemma holds_delete_other m recs k :
  starts_with P k = false -> holds m recs -> holds (delete k m) recs.
Proof.
  intros Hk (H1 & H2 & H3). split; [|split; [|done]].
  - intros i Hi. rewrite lookup_delete_ne; [by apply H1|]. intros ->.
    unfold idx_key in Hk. by rewrite starts_with_app in Hk.
  - intros k' w Hk' Hs. apply lookup_delete_Some in Hk' as [_ Hk']. eauto.
Qed.

Lemma holds_delete_batch ids : forall m recs,
  Forall in_u64 ids -> holds m recs ->
  holds (batch_result m ((fun i => (BDelete, idx_key i, None)) <$> ids)) (without ids recs).
Proof.
  induction ids as [|i ids IH]; intros m recs Hi Hh; [done|].
  apply Forall_cons in Hi as [Hi His]. apply (IH (delete (idx_key i) m) (delete i recs) His).
  by apply holds_delete.
Qed.

(** A scan lists the records in index order. *)
Lemma holds_scan m recs l :
  holds m recs -> l ≡ₚ map_to_list (prefixed P m) -> StronglySorted key_lt l ->
  exists ids, l = (fun i => (idx_key i, recs !!! i)) <$> ids
    /\ StronglySorted Z.lt ids /\ Forall in_u64 ids
    /\ forall i, i ∈ ids <-> is_Some (recs !! i).
Proof.
  intros (H1 & H2 & H3) Hp Hs.
  assert (Hl : forall k v, (k, v) ∈ l <-> exists i, k = idx_key i /\ recs !! i = Some v).
  { intros k v. rewrite Hp, elem_of_map_to_list. unfold prefixed. rewrite map_lookup_filter_Some. cbn.
    split.
    - intros [Hm Hk]. destruct (H2 k v Hm Hk) as (i & Hi & ->). exists i. split; [done|].
      by rewrite <-H1.
    - intros (i & -> & Hr). split; [rewrite H1; [done|apply H3; eauto]|apply starts_with_app]. }
  exists ((fun kv => un_be (drop (length P) (fst kv))) <$> l).
  assert (Hid : forall k v, (k, v) ∈ l -> let i := un_be (drop (length P) k) in
            in_u64 i /\ k = idx_key i /\ recs !! i = Some v).
  { intros k v Hin i. apply Hl in Hin as (j & -> & Hr). subst i. unfold idx_key.
    rewrite drop_app_length. assert (Hj : in_u64 j) by (apply H3; eauto).
    rewrite un_be_be_u64 by done. done. }
  split; [|split; [|split]].
  - rewrite <-list_fmap_compose. rewrite <-(list_fmap_id l) at 1. apply list_fmap_ext.
    intros n [k v] Hn. cbn. apply list_elem_of_lookup_2 in Hn. destruct (Hid k v Hn) as (_ & Hk & Hr).
    cbn in Hk. rewrite <-Hk, lookup_total_alt, Hr. done.
  - clear Hp H1 H2 Hl. induction Hs as [|[k v] l Hs IH Hf]; [constructor|]. cbn. constructor.
    + apply IH. intros k' v' Hin. apply Hid. by right.
    + apply Forall_fmap, Forall_forall. intros [k' v'] Hin. cbn.
      pose proof (proj1 (Forall_forall _ _) Hf (k', v') Hin) as Hlt. unfold key_lt in Hlt. cbn in Hlt.
      destruct (Hid k v ltac:(by left)) as (Hi & Hk & _).
      destruct (Hid k' v' ltac:(by right)) as (Hj & Hk' & _). cbn zeta in *.
      set (i := un_be (drop (length P) k)) in *. set (j := un_be (drop (length P) k')) in *.
      rewrite Hk, Hk' in Hlt. destruct (Z.lt_total i j) as [|[He|Hgt]]; [done| |].
      * rewrite He, blt_irrefl in Hlt. done.
      * pose proof (blt_trans _ _ _ Hlt (idx_key_lt j i Hj Hi Hgt)) as Hc. by rewrite blt_irrefl in Hc.
  - apply Forall_fmap, Forall_forall. intros [k v] Hin. by destruct (Hid k v Hin).
  - intros i. rewrite list_elem_of_fmap. split.
    + intros ([k v] & -> & Hin). destruct (Hid k v Hin) as (_ & _ & Hr). eauto.
    + intros [v Hr]. exists (idx_key i, v). split; [|apply Hl; eauto]. cbn. unfold idx_key.
      rewrite drop_app_length, un_be_be_u64; [done|]. apply H3; eauto.
Qed.
End Indexed.
