(* ===== verification/L3Checkpoint.v ===== *)
(** The checkpoint store over an [L3Store] ([L3CheckpointStore],
    crates/aeon-engine/src/checkpoint.rs): one record per key, retention of the newest
    [max_records], recovery of the id sequence on open. *)
From stdpp Require Import base gmap list strings sorting.
From S2P Require Import Prelude Types Kv Indexed CheckpointWal.

(** b"checkpoint/" *)
Definition L3_CHECKPOINT_PREFIX : bytes := [99; 104; 101; 99; 107; 112; 111; 105; 110; 116; 47]%Z.

Definition record_key (id : Z) : bytes := L3_CHECKPOINT_PREFIX ++ be 8 id.

(** [k.strip_prefix(PREFIX)], then exactly eight bytes. *)
Definition parse_checkpoint_key (k : bytes) : option Z :=
  if starts_with L3_CHECKPOINT_PREFIX k then
    let suffix := drop (length L3_CHECKPOINT_PREFIX) k in
    if decide (length suffix = 8) then Some (un_be suffix) else None
  else None.

Record L3CheckpointStore (S : Type) :=
  { cl3 : S; l3_next_id : Z; max_records : option Z }.
Arguments cl3 {S} _.
Arguments l3_next_id {S} _.
Arguments max_records {S} _.

(** Maximum of the parsed ids. *)
Definition max_id (ids : list Z) : option Z :=
  match ids with [] => None | i :: rest => Some (foldl Z.max i rest) end.

Section L3Checkpoint.
Context {S : Type} `{L3Store S} `{Codec CheckpointRecord}.

Definition with_cl3 (s : L3CheckpointStore S) (l : S) : L3CheckpointStore S :=
  {| cl3 := l; l3_next_id := l3_next_id s; max_records := max_records s |}.

(** [L3CheckpointStore::open]; [max + 1] wraps in a release build. *)
Definition L3CheckpointStore_open (e : Env) (l : S) : Result (L3CheckpointStore S) :=
  let? existing := l3_scan_prefix e l L3_CHECKPOINT_PREFIX in
  let next := match max_id (omap (fun kv => parse_checkpoint_key (fst kv)) existing) with
              | Some m => u64 (m + 1)
              | None => 0%Z
              end in
  Ok {| cl3 := l; l3_next_id := next; max_records := None |}.

Definition with_max_records (m : option Z) (s : L3CheckpointStore S) : L3CheckpointStore S :=
  {| cl3 := cl3 s; l3_next_id := l3_next_id s; max_records := m |}.

(** The scan loop of [purge_below]: it stops at the first id at or above the watermark. *)
Fixpoint purge_ops (low : Z) (entries : KvPairs) : list BatchEntry :=
  match entries with
  | [] => []
  | (k, _) :: rest =>
    match parse_checkpoint_key k with
    | Some id => if (id <? low)%Z then (BDelete, k, None) :: purge_ops low rest else []
    | None => purge_ops low rest
    end
  end.

(** The environments of successive calls on the store. *)
Definition purge_below (env : nat -> Env) (l : S) (low : Z) : S * Result unit :=
  match l3_scan_prefix (env 0) l L3_CHECKPOINT_PREFIX with
  | Err er => (l, Err er)
  | Ok entries =>
    match purge_ops low entries with
    | [] => (l, Ok tt)
    | ops => let '(l', r) := l3_write_batch (env 1) l ops in
             (l', let? _ := r in l3_flush (env 2) l')
    end
  end.

Definition L3CheckpointStore_append (env : nat -> Env) (s : L3CheckpointStore S) (r : CheckpointRecord)
    : L3CheckpointStore S * CheckpointRecord * Result unit :=
  let r := set_checkpoint_id (l3_next_id s) r in
  match serialize r with
  | None => (s, r, Err (State "checkpoint bincode serialize"))
  | Some value =>
    let '(l1, res) := l3_write_batch (env 0) (cl3 s) [(BPut, record_key (checkpoint_id r), Some value)] in
    match (let? _ := res in l3_flush (env 1) l1) with
    | Err er => (with_cl3 s l1, r, Err er)
    | Ok _ =>
      let next := u64 (l3_next_id s + 1) in
      let low := match max_records s with Some m => u64_sat_sub next m | None => 0%Z end in
      let '(l2, res2) := if (0 <? low)%Z then purge_below (fun i => env (2 + i)) l1 low else (l1, Ok tt) in
      ({| cl3 := l2; l3_next_id := next; max_records := max_records s |}, r, res2)
    end
  end.

Definition L3CheckpointStore_read_last (e : Env) (s : L3CheckpointStore S)
    : Result (option CheckpointRecord) :=
  let? entries := l3_scan_prefix e (cl3 s) L3_CHECKPOINT_PREFIX in
  match last entries with
  | None => Ok None
  | Some (_, bs) => match deserialize bs with
                    | Some r => Ok (Some r)
                    | None => Err (State "checkpoint bincode deserialize")
                    end
  end.

#[export] Instance l3_checkpoint_persist : CheckpointPersist (nat -> Env) (L3CheckpointStore S) := {|
  cp_append := L3CheckpointStore_append;
  cp_read_last env s := L3CheckpointStore_read_last (env 0) s;
  cp_next_checkpoint_id s := l3_next_id s;
  cp_try_recover_primary := default_try_recover;
|}.
End L3Checkpoint.
