(* ===== verification/L3CheckpointProofs.v ===== *)
(** [L3CheckpointStore] over any store that satisfies [L3Laws]: ids, retention, recovery. *)
From stdpp Require Import base gmap list strings sorting.
From S2P Require Import Prelude Types Kv Indexed CheckpointWal AtRest L3 L3Checkpoint.

Lemma prefix_bytes : Forall is_byte L3_CHECKPOINT_PREFIX.
Proof. repeat constructor; lia. Qed.

Abbreviation rholds := (holds L3_CHECKPOINT_PREFIX).
Abbreviation rkey := (idx_key L3_CHECKPOINT_PREFIX).

Lemma record_key_idx i : record_key i = rkey i.
Proof. done. Qed.

Lemma parse_record_key i : in_u64 i -> parse_checkpoint_key (rkey i) = Some i.
Proof.
  intros Hi. unfold parse_checkpoint_key, idx_key. rewrite starts_with_app, drop_app_length.
  rewrite decide_True by apply length_be. by rewrite un_be_be_u64.
Qed.

Lemma sorted_last_max ids x :
  StronglySorted Z.lt ids -> x ∈ ids -> (forall i, i ∈ ids -> (i <= x)%Z) -> last ids = Some x.
Proof.
  induction ids as [|i ids IH]; intros Hs Hx Hle; [by apply not_elem_of_nil in Hx|].
  apply StronglySorted_inv in Hs as [Hs Hf]. destruct ids as [|j ids].
  - apply list_elem_of_singleton in Hx as ->. done.
  - change (last (j :: ids) = Some x). apply IH; [done| |set_solver].
    apply elem_of_cons in Hx as [->|Hx]; [|done]. exfalso.
    pose proof (proj1 (Forall_forall _ _) Hf j ltac:(left)). specialize (Hle j ltac:(set_solver)). lia.
Qed.

Lemma max_id_sorted ids : StronglySorted Z.lt ids -> max_id ids = last ids.
Proof.
  destruct ids as [|i ids]; [done|]. revert i. induction ids as [|j ids IH]; intros i Hs; [done|].
  change (last (i :: j :: ids)) with (last (j :: ids)). apply StronglySorted_inv in Hs as [Hs Hf].
  apply Forall_cons in Hf as [Hij _]. rewrite <-IH by done. cbn. by rewrite Z.max_r by lia.
Qed.

Lemma omap_parse ids (g : Z -> bytes) :
  Forall in_u64 ids ->
  omap (fun kv => parse_checkpoint_key (fst kv)) ((fun i => (rkey i, g i)) <$> ids) = ids.
Proof.
  induction 1 as [|i ids Hi _ IH]; [done|]. cbn [fmap list_fmap omap list_omap fst].
  rewrite parse_record_key by done. by rewrite IH.
Qed.

Lemma filter_lt_none ids low :
  Forall (fun i => low <= i)%Z ids -> filter (fun i => (i < low)%Z) ids = [].
Proof. induction 1 as [|i ids Hi _ IH]; [done|]. rewrite filter_cons_False by lia. done. Qed.

Lemma purge_ops_ids low ids (g : Z -> bytes) :
  StronglySorted Z.lt ids -> Forall in_u64 ids ->
  purge_ops low ((fun i => (rkey i, g i)) <$> ids)
    = (fun i => (BDelete, rkey i, None)) <$> filter (fun i => (i < low)%Z) ids.
Proof.
  induction 1 as [|i ids Hs IH Hf]; intros Hu; [done|]. apply Forall_cons in Hu as [Hi Hu].
  cbn [fmap list_fmap purge_ops]. rewrite parse_record_key by done. rewrite filter_cons.
  destruct (Z.ltb_spec i low).
  - rewrite decide_True by lia. cbn [fmap list_fmap]. by rewrite IH.
  - rewrite decide_False by lia. rewrite filter_lt_none; [done|].
    eapply Forall_impl; [exact Hf|]. intros j Hj. cbn in Hj. lia.
Qed.

Section Proofs.
Context {S : Type} `{L3Store S} (M : S -> gmap bytes bytes) (OK : S -> Prop) (st : bytes -> Prop)
        `{!L3Laws S M OK st} `{Codec CheckpointRecord} `{!CodecLaws CheckpointRecord}.
Hypothesis st_nil : st [].

(** The records at or above a watermark. *)
Definition above (low : Z) (recs : gmap Z bytes) : gmap Z bytes :=
  filter (fun kv => (low <= fst kv)%Z) recs.

Lemma above_lookup low recs i :
  above low recs !! i = if decide (low <= i)%Z then recs !! i else None.
Proof.
  unfold above. destruct (recs !! i) as [v|] eqn:E.
  - case_decide as Hd.
    + by apply map_lookup_filter_Some_2.
    + apply map_lookup_filter_None_2. right. intros w Hw. cbn. lia.
  - rewrite map_lookup_filter_None_2 by (by left). by case_decide.
Qed.

(** The store's invariant. *)
Definition cp_inv (s : L3CheckpointStore S) (recs : gmap Z bytes) : Prop :=
  OK (cl3 s) /\ rholds (M (cl3 s)) recs /\ in_u64 (l3_next_id s)
  /\ forall i v, recs !! i = Some v -> (i < l3_next_id s)%Z.

Lemma scan_ids e l recs :
  OK l -> rholds (M l) recs -> e_io e = IoOk ->
  exists ids, l3_scan_prefix e l L3_CHECKPOINT_PREFIX = Ok ((fun i => (rkey i, recs !!! i)) <$> ids)
    /\ StronglySorted Z.lt ids /\ Forall in_u64 ids /\ forall i, i ∈ ids <-> is_Some (recs !! i).
Proof.
  intros Hok Hh He. destruct (l3_scan_ok e l L3_CHECKPOINT_PREFIX Hok He prefix_bytes) as (kvs & Hs & Hp & Hst).
  destruct (holds_scan _ _ _ _ Hh Hp Hst) as (ids & -> & Hids). by exists ids.
Qed.

Lemma purge_below_spec env l recs low :
  OK l -> rholds (M l) recs -> (forall i, env_ok (env i)) ->
  exists l', purge_below env l low = (l', Ok tt) /\ OK l' /\ rholds (M l') (above low recs).
Proof.
  intros Hok Hh He. destruct (scan_ids (env 0) l recs Hok Hh (proj1 (He 0))) as (ids & Hscan & Hs & Hu & Hin).
  unfold purge_below. rewrite Hscan, purge_ops_ids by done.
  set (dead := filter (fun i => (i < low)%Z) ids).
  assert (Hw : without dead recs = above low recs).
  { apply map_eq. intros i. rewrite without_lookup, above_lookup. subst dead.
    destruct (recs !! i) as [v|] eqn:E; [|by repeat case_decide].
    assert (i ∈ ids) by (apply Hin; eauto).
    destruct (decide (low <= i)%Z) as [Hd|Hd].
    - rewrite decide_False; [done|]. intros Hf. apply list_elem_of_filter in Hf as [Hf _]. lia.
    - rewrite decide_True; [done|]. apply list_elem_of_filter. split; [lia|done]. }
  assert (Hdead : Forall in_u64 dead).
  { apply Forall_forall. intros i Hi. apply list_elem_of_filter in Hi as [_ Hi].
    by apply (proj1 (Forall_forall _ _) Hu). }
  pose proof (holds_delete_batch _ dead _ _ Hdead Hh) as Hh'. rewrite Hw in Hh'.
  destruct (l3_batch_ok (env 1) l ((fun i => (BDelete, rkey i, None)) <$> dead) Hok (He 1)) as (l' & Hb & Hok' & HM).
  { apply Forall_fmap, Forall_true. intros i. apply idx_key_bytes, prefix_bytes. }
  { apply Forall_fmap, Forall_true. done. }
  destruct ((fun i => (BDelete, rkey i, None)) <$> dead) as [|op ops] eqn:E.
  - exists l. split; [done|]. split; [done|]. done.
  - exists l'. rewrite Hb. rewrite (l3_flush_ok (env 2) l' Hok' (proj1 (He 2))).
    split; [done|]. split; [done|]. by rewrite HM.
Qed.

(** The watermark an append purges below. *)
Definition watermark (s : L3CheckpointStore S) : Z :=
  match max_records s with Some m => u64_sat_sub (l3_next_id s + 1) m | None => 0%Z end.

Lemma append_spec env s recs r v :
  cp_inv s recs -> (forall i, env_ok (env i)) -> in_u64 (l3_next_id s + 1) ->
  serialize (set_checkpoint_id (l3_next_id s) r) = Some v -> st v ->
  exists s', L3CheckpointStore_append env s r = (s', set_checkpoint_id (l3_next_id s) r, Ok tt)
    /\ l3_next_id s' = (l3_next_id s + 1)%Z /\ max_records s' = max_records s
    /\ cp_inv s' (above (watermark s) (<[l3_next_id s := v]> recs)).
Proof.
  intros (Hok & Hh & Hu & Hlt) He Hu' Hser Hst. unfold L3CheckpointStore_append. rewrite Hser.
  cbn [set_checkpoint_id checkpoint_id].
  destruct (l3_batch_ok (env 0) (cl3 s) [(BPut, record_key (l3_next_id s), Some v)] Hok (He 0))
    as (l1 & Hb & Hok1 & HM1).
  { apply Forall_singleton. apply idx_key_bytes, prefix_bytes. }
  { by apply Forall_singleton. }
  rewrite Hb, (l3_flush_ok (env 1) l1 Hok1 (proj1 (He 1))). rewrite (wrap_small 64) by exact Hu'.
  fold (watermark s).
  assert (Hh1 : rholds (M l1) (<[l3_next_id s := v]> recs)).
  { rewrite HM1. cbn [batch_result foldl batch_entry default]. by apply holds_insert. }
  assert (Hlt1 : forall low i w, above low (<[l3_next_id s := v]> recs) !! i = Some w -> (i < l3_next_id s + 1)%Z).
  { intros low i w. rewrite above_lookup. case_decide; [|done]. intros Hw.
    apply lookup_insert_Some in Hw as [[<- _]|[_ Hw]]; [lia|]. specialize (Hlt i w Hw). lia. }
  destruct (Z.ltb_spec 0 (watermark s)) as [Hw|Hw].
  - destruct (purge_below_spec (fun i => env (2 + i)) l1 _ (watermark s) Hok1 Hh1 (fun i => He _))
      as (l2 & -> & Hok2 & Hh2).
    eexists. split; [done|]. split; [done|]. split; [done|]. split; [done|]. split; [done|].
    split; [done|]. apply Hlt1.
  - eexists. split; [done|]. split; [done|]. split; [done|].
    assert (Ha : above (watermark s) (<[l3_next_id s := v]> recs) = <[l3_next_id s := v]> recs).
    { apply map_eq. intros i. rewrite above_lookup. case_decide as Hd; [done|].
      destruct (<[l3_next_id s := v]> recs !! i) eqn:E; [|done]. exfalso.
      assert (Hi : in_u64 i) by (destruct Hh1 as (_ & _ & H3); apply H3; rewrite E; eauto).
      unfold in_u64 in Hi. lia. }
    rewrite Ha. split; [done|]. split; [done|]. split; [done|]. cbn. intros i w Hi.
    apply (Hlt1 0%Z i w). rewrite above_lookup, decide_True; [done|].
    destruct Hh1 as (_ & _ & H3). pose proof (H3 i ltac:(rewrite Hi; eauto)) as Hb'. unfold in_u64 in Hb'. lia.
Qed.

Lemma read_last_spec e s recs i v r :
  cp_inv s recs -> e_io e = IoOk -> recs !! i = Some v -> (forall j w, recs !! j = Some w -> (j <= i)%Z) ->
  deserialize v = Some r -> L3CheckpointStore_read_last e s = Ok (Some r).
Proof.
  intros (Hok & Hh & _ & _) He Hi Hmax Hd. destruct (scan_ids e _ _ Hok Hh He) as (ids & Hscan & Hs & Hu & Hin).
  unfold L3CheckpointStore_read_last. rewrite Hscan, fmap_last.
  rewrite (sorted_last_max ids i Hs).
  - cbn. by rewrite (lookup_total_correct _ _ _ Hi), Hd.
  - apply Hin. eauto.
  - intros j [w Hw]%Hin. eauto.
Qed.

Lemma read_last_empty e s recs :
  cp_inv s recs -> e_io e = IoOk -> recs = ∅ -> L3CheckpointStore_read_last e s = Ok None.
Proof.
  intros (Hok & Hh & _ & _) He ->. destruct (scan_ids e _ _ Hok Hh He) as (ids & Hscan & _ & _ & Hin).
  assert (ids = []) as ->.
  { destruct ids as [|i ids]; [done|]. destruct (proj1 (Hin i) ltac:(left)) as [w Hw]. done. }
  unfold L3CheckpointStore_read_last. by rewrite Hscan.
Qed.

Lemma open_spec e l recs i v :
  OK l -> rholds (M l) recs -> e_io e = IoOk -> recs !! i = Some v ->
  (forall j w, recs !! j = Some w -> (j <= i)%Z) ->
  L3CheckpointStore_open e l = Ok {| cl3 := l; l3_next_id := u64 (i + 1); max_records := None |}.
Proof.
  intros Hok Hh He Hi Hmax. destruct (scan_ids e _ _ Hok Hh He) as (ids & Hscan & Hs & Hu & Hin).
  unfold L3CheckpointStore_open. rewrite Hscan, omap_parse, max_id_sorted, (sorted_last_max ids i) by (done ||
    (apply Hin; eauto) || (intros j [w Hw]%Hin; eauto)). done.
Qed.

(** Appending a run of records, each call in its own environment. *)
Fixpoint l3cp_run (s : L3CheckpointStore S) (rs : list ((nat -> Env) * CheckpointRecord))
    : L3CheckpointStore S * Result unit :=
  match rs with
  | [] => (s, Ok tt)
  | (env, r) :: rest =>
    let '(s', _, res) := L3CheckpointStore_append env s r in
    match res with Err er => (s', Err er) | Ok _ => l3cp_run s' rest end
  end.

(** Every id the run may assign gives a serialization the store can hold. *)
Definition l3_storable (r : CheckpointRecord) : Prop :=
  forall i, in_u64 i -> exists v, serialize (set_checkpoint_id i r) = Some v /\ st v.

(** The oldest id kept after [n] appends. *)
Definition oldest (cap : option Z) (n : nat) : Z :=
  match cap with Some m => u64_sat_sub (Z.of_nat n) m | None => 0%Z end.

(** After the records [done], exactly those from [oldest] on are stored. *)
Definition run_inv (s : L3CheckpointStore S) (done : list CheckpointRecord) : Prop :=
  exists recs, cp_inv s recs /\ l3_next_id s = Z.of_nat (length done)
    /\ forall i : nat, recs !! Z.of_nat i =
         if decide (oldest (max_records s) (length done) <= Z.of_nat i)%Z
         then r ← done !! i; serialize (set_checkpoint_id (Z.of_nat i) r) else None.

Lemma oldest_mono cap n : (oldest cap n <= oldest cap (Datatypes.S n))%Z.
Proof. unfold oldest, u64_sat_sub. destruct cap; lia. Qed.

Lemma run_inv_step env s done r :
  run_inv s done -> (forall i, env_ok (env i)) -> l3_storable r ->
  (Z.of_nat (length done) + 1 < 2 ^ 64)%Z ->
  exists s', L3CheckpointStore_append env s r = (s', set_checkpoint_id (Z.of_nat (length done)) r, Ok tt)
    /\ max_records s' = max_records s /\ run_inv s' (done ++ [r]).
Proof.
  intros (recs & Hinv & Hn & Hr) He Hst Hb. unfold in_u64.
  destruct (Hst (l3_next_id s)) as (v & Hv & Hsv); [unfold in_u64; lia|].
  destruct (append_spec env s recs r v Hinv He) as (s' & Ha & Hn' & Hm & Hinv'); [unfold in_u64; lia|done|done|].
  rewrite Hn in Ha. exists s'. split; [done|]. split; [done|]. eexists. split; [exact Hinv'|].
  rewrite length_app. cbn [length]. split; [rewrite Hn', Hn; lia|]. intros i.
  replace (watermark s) with (oldest (max_records s) (length done + 1)).
  2:{ unfold watermark, oldest. rewrite Hn. destruct (max_records s); [|done].
      f_equal. lia. }
  rewrite above_lookup, Hm. case_decide as Hd; [|done]. rewrite Hn.
  destruct (decide (i = length done)) as [->|Hne].
  - rewrite lookup_insert_eq, list_lookup_middle by done. rewrite Hn in Hv. cbn. by rewrite Hv.
  - rewrite lookup_insert_ne by lia. rewrite Hr. pose proof (oldest_mono (max_records s) (length done)) as Ho.
    replace (Datatypes.S (length done)) with (length done + 1) in Ho by lia.
    rewrite decide_True by lia. destruct (decide (i < length done)).
    + by rewrite lookup_app_l.
    + rewrite lookup_ge_None_2 by lia. by rewrite lookup_ge_None_2 by (rewrite length_app; cbn; lia).
Qed.

Lemma l3cp_run_spec rs : forall s done,
  run_inv s done -> Forall (fun c => (forall i, env_ok (fst c i)) /\ l3_storable (snd c)) rs ->
  (Z.of_nat (length done + length rs) < 2 ^ 64)%Z ->
  exists s', l3cp_run s rs = (s', Ok tt) /\ max_records s' = max_records s /\ run_inv s' (done ++ rs.*2).
Proof.
  induction rs as [|[env r] rs IH]; intros s done Hi Hrs Hb.
  { exists s. by rewrite app_nil_r. }
  apply Forall_cons in Hrs as [[He Hst] Hrs]. cbn [fst snd length] in *.
  destruct (run_inv_step env s done r Hi He Hst) as (s1 & Ha & Hm & Hi1); [lia|].
  cbn [l3cp_run]. rewrite Ha. destruct (IH s1 (done ++ [r]) Hi1 Hrs) as (s2 & Hr & Hm2 & Hi2).
  { rewrite length_app. cbn. lia. }
  exists s2. split; [done|]. split; [congruence|]. by rewrite <-app_assoc in Hi2.
Qed.

(** C12. Starting from a store without checkpoint records, with no cap or a cap of at least
    one, a run of appends keeps exactly the newest [max_records] records, each under its id;
    crash recovery reads the last one, and reopening the store resumes the id sequence. *)
Theorem l3_checkpoint_retention s rs :
  OK (cl3 s) -> rholds (M (cl3 s)) ∅ -> l3_next_id s = 0%Z ->
  (forall m, max_records s = Some m -> (1 <= m)%Z) ->
  Forall (fun c => (forall i, env_ok (fst c i)) /\ l3_storable (snd c)) rs ->
  (Z.of_nat (length rs) < 2 ^ 64)%Z ->
  exists s', l3cp_run s rs = (s', Ok tt)
    /\ (forall i : nat, (Z.of_nat i < 2 ^ 64)%Z -> M (cl3 s') !! record_key (Z.of_nat i) =
          if decide (oldest (max_records s) (length rs) <= Z.of_nat i)%Z
          then r ← rs.*2 !! i; serialize (set_checkpoint_id (Z.of_nat i) r) else None)
    /\ (forall e r, e_io e = IoOk -> last rs.*2 = Some r ->
          L3CheckpointStore_read_last e s'
            = Ok (Some (set_checkpoint_id (Z.of_nat (length rs) - 1) r))
          /\ L3CheckpointStore_open e (cl3 s')
            = Ok {| cl3 := cl3 s'; l3_next_id := Z.of_nat (length rs); max_records := None |}).
Proof.
  intros Hok Hh Hn Hcap Hrs Hb.
  destruct (l3cp_run_spec rs s []) as (s' & Hrun & Hm & (recs & Hinv & Hn' & Hr)); [|done|done|].
  { exists ∅. split; [|split; [done|]].
    - split; [done|]. split; [done|]. rewrite Hn. split; [by unfold in_u64|]. by intros i v Hv.
    - intros i. rewrite lookup_empty. by case_decide. }
  cbn [app length] in *. rewrite length_fmap in *. exists s'. split; [done|].
  destruct Hinv as (Hok' & Hh' & Hu' & Hlt). split.
  - intros i Hi. rewrite record_key_idx, (proj1 Hh') by (unfold in_u64; lia). by rewrite Hr, Hm.
  - intros e r He Hl. assert (Hlen : length rs <> 0) by (by destruct rs).
    rewrite last_lookup in Hl. rewrite length_fmap in Hl.
    assert (Hi : in_u64 (Z.of_nat (pred (length rs)))) by (unfold in_u64; lia).
    pose proof (proj1 (Forall_forall _ _) Hrs) as Hall. apply list_lookup_fmap_Some in Hl as ([env r'] & -> & Hl).
    destruct (Hall (env, r') (list_elem_of_lookup_2 _ _ _ Hl)) as [_ Hst].
    destruct (Hst _ Hi) as (v & Hv & _). cbn [snd] in *.
    assert (Hlast : recs !! Z.of_nat (pred (length rs)) = Some v).
    { rewrite Hr, Hm, decide_True.
      - rewrite list_lookup_fmap, Hl. exact Hv.
      - unfold oldest, u64_sat_sub. destruct (max_records s) as [m|]; [|lia]. specialize (Hcap m eq_refl). lia. }
    assert (Hmax : forall j w, recs !! j = Some w -> (j <= Z.of_nat (pred (length rs)))%Z).
    { intros j w Hw. specialize (Hlt j w Hw). lia. }
    replace (Z.of_nat (length rs) - 1)%Z with (Z.of_nat (pred (length rs))) by lia. split.
    + eapply read_last_spec; [exact (conj Hok' (conj Hh' (conj Hu' Hlt)))|done|exact Hlast|exact Hmax|]. by apply deserialize_serialize.
    + rewrite (open_spec e _ recs _ v Hok' Hh' He Hlast Hmax). repeat f_equal.
      rewrite wrap_small by lia. lia.
Qed.

(** With [max_records = Some 0] every append deletes the record it has just written: the call
    reports success and recovery finds nothing. *)
Lemma zero_cap_empty env s recs r v :
  cp_inv s recs -> (forall i, env_ok (env i)) -> in_u64 (l3_next_id s + 1) -> max_records s = Some 0%Z ->
  serialize (set_checkpoint_id (l3_next_id s) r) = Some v -> st v ->
  exists s', L3CheckpointStore_append env s r = (s', set_checkpoint_id (l3_next_id s) r, Ok tt)
    /\ forall e, e_io e = IoOk -> L3CheckpointStore_read_last e s' = Ok None.
Proof.
  intros Hinv He Hu Hm Hv Hst. destruct (append_spec env s recs r v Hinv He Hu Hv Hst) as (s' & Ha & Hn & _ & Hi).
  exists s'. split; [done|]. intros e Hio. eapply read_last_empty; [exact Hi|done|].
  apply map_eq. intros i. rewrite lookup_empty, above_lookup. case_decide as Hd; [|done].
  unfold watermark in Hd. rewrite Hm in Hd. unfold in_u64, u64_sat_sub in *. destruct Hinv as (_ & _ & Hu0 & Hlt).
  rewrite lookup_insert_ne by lia. destruct (recs !! i) as [w|] eqn:E; [|done]. specialize (Hlt i w E). lia.
Qed.

(** The store keeps the promise of the trait when its cap is not zero. *)
#[export] Instance l3_checkpoint_laws : CheckpointPersistLaws (nat -> Env) (L3CheckpointStore S).
Proof.
  refine {|
    cp_good env := forall i, env_ok (env i);
    cp_healthy s := (exists recs, cp_inv s recs) /\ forall m, max_records s = Some m -> (1 <= m)%Z;
    cp_appendable s r := in_u64 (l3_next_id s + 1)
      /\ exists v, serialize (set_checkpoint_id (l3_next_id s) r) = Some v /\ st v |}.
  - intros env s r He [[recs Hinv] Hcap] (Hu & v & Hv & Hst).
    destruct (append_spec env s recs r v Hinv He Hu Hv Hst) as (s' & Ha & Hn & Hm & Hinv').
    exists s'. split; [exact Ha|]. split; [split; [by eexists|by rewrite Hm]|]. split; [exact Hn|].
    intros env' He'. eapply (read_last_spec (env' 0) s' _ (l3_next_id s) v); [exact Hinv'|apply He'| | |by apply deserialize_serialize].
    + rewrite above_lookup, lookup_insert_eq, decide_True; [done|]. unfold watermark, u64_sat_sub.
      destruct Hinv as (_ & _ & Hu0 & _). unfold in_u64 in *.
      destruct (max_records s) as [m|]; [specialize (Hcap m eq_refl)|]; lia.
    + intros j w Hj. destruct Hinv' as (_ & _ & _ & Hlt). specialize (Hlt j w Hj). lia.
  - intros env s r. exists (l3_next_id s). cbn. unfold L3CheckpointStore_append.
    destruct (serialize _); [|done]. destruct (l3_write_batch _ _ _) as [l1 res]. cbn zeta.
    destruct (match res with Ok _ => _ | Err _ => _ end); [|done].
    by destruct (if (0 <? _)%Z then _ else _).
Defined.
End Proofs.

(** * Examples *)

Definition cp_store_a : L3CheckpointStore (RedbStore (gmap bytes bytes)) :=
  {| cl3 := redb_a; l3_next_id := 0; max_records := Some 1%Z |}.

Lemma ref_l3_storable r : @l3_storable (fun _ => True) ref_codec r.
Proof.
  intros i Hi. eexists. split; [|done]. cbn [serialize ref_codec set_checkpoint_id checkpoint_id].
  by rewrite decide_True.
Qed.

Lemma good_env_ok : env_ok good_env.
Proof. split; [done|]. done. Qed.

Lemma l3_checkpoint_retention_witness :
  exists s', @l3cp_run _ redb_l3 ref_codec cp_store_a [(fun _ => good_env, rec_a); (fun _ => good_env, rec_b)]
               = (s', Ok tt)
    /\ redb_map id (cl3 s') !! record_key 0 = None
    /\ @L3CheckpointStore_read_last _ redb_l3 ref_codec good_env s' = Ok (Some (set_checkpoint_id 1 rec_b)).
Proof.
  destruct (@l3_checkpoint_retention _ redb_l3 (redb_map id) (redb_ok id) (fun _ => True) (redb_laws id)
              ref_codec ref_codec_laws I cp_store_a
              [(fun _ => good_env, rec_a); (fun _ => good_env, rec_b)]) as (s' & Hr & Hk & Hl).
  - intros k v Hk. done.
  - apply holds_empty.
  - done.
  - by intros m [= <-].
  - repeat constructor; apply good_env_ok || apply ref_l3_storable.
  - done.
  - exists s'. split; [exact Hr|]. split; [by apply (Hk 0)|]. by apply (Hl good_env rec_b).
Defined.

(** The zero cap, on the example store: the appended checkpoint is gone. *)
Theorem l3_checkpoint_zero_cap :
  exists s s', max_records s = Some 0%Z
    /\ @L3CheckpointStore_append _ redb_l3 ref_codec (fun _ => good_env) s rec_a
        = (s', set_checkpoint_id 0 rec_a, Ok tt)
    /\ @L3CheckpointStore_read_last _ redb_l3 ref_codec good_env s' = Ok None.
Proof.
  set (s0 := with_max_records (Some 0%Z) cp_store_a). exists s0.
  destruct (ref_l3_storable rec_a 0%Z) as (v & Hv & _); [done|].
  destruct (@zero_cap_empty _ redb_l3 (redb_map id) (redb_ok id) (fun _ => True) (redb_laws id)
              ref_codec I (fun _ => good_env) s0 ∅ rec_a v) as (s' & Ha & Hl).
  - split; [by intros k w Hk|]. split; [apply holds_empty|]. split; [done|]. by intros i w Hw.
  - intros _. apply good_env_ok.
  - done.
  - done.
  - exact Hv.
  - done.
  - exists s'. split; [done|]. split; [exact Ha|]. by apply Hl.
Qed.
