(* ===== verification/RaftLog.v ===== *)
(** The Raft log stores of crates/aeon-cluster: the in-memory [MemLogStore] (src/store.rs) and
    the persistent [L3RaftLogStore] (src/log_store.rs).

    openraft's [Vote] and the payload of an entry are opaque here (type parameters); of a
    [LogId] the code uses the leader's term and the index. *)
From stdpp Require Import base gmap list strings sorting.
From S2P Require Import Prelude Types Kv CheckpointWal.

Record LogId := { term : Z; leader : Z; index : Z }.

#[export] Instance LogId_eq_dec : EqDecision LogId.
Proof. solve_decision. Defined.

Record Entry (A : Type) := { log_id : LogId; payload : A }.
Arguments log_id {A} _.
Arguments payload {A} _.

Record LogState := { last_purged_log_id : option LogId; last_log_id : option LogId }.

(** [std::ops::Bound] and [RangeBounds::contains]. *)
Inductive Bound := Included (b : Z) | Excluded (b : Z) | Unbounded.

Definition lower_ok (lo : Bound) (idx : Z) : bool :=
  match lo with Included s => (s <=? idx)%Z | Excluded s => (s <? idx)%Z | Unbounded => true end.
Definition upper_ok (hi : Bound) (idx : Z) : bool :=
  match hi with Included e => (idx <=? e)%Z | Excluded e => (idx <? e)%Z | Unbounded => true end.

(** [BTreeMap::range] panics on these. *)
Definition range_panics (lo hi : Bound) : bool :=
  match lo, hi with
  | Included a, Included b | Included a, Excluded b | Excluded a, Included b => (b <? a)%Z
  | Excluded a, Excluded b => (b <=? a)%Z
  | _, _ => false
  end.

(** A [BTreeMap<u64, V>] in key order. *)
Definition idx_le {V} (a b : Z * V) : Prop := (fst a <= fst b)%Z.
#[export] Instance idx_le_dec {V} (a b : Z * V) : Decision (idx_le a b).
Proof. unfold idx_le. apply _. Defined.
Definition btree_list {V} (m : gmap Z V) : list (Z * V) := merge_sort idx_le (map_to_list m).

Section RaftLog.
Context {A Vote : Type}.

(** * [MemLogStore] *)

Record MemLogStore := {
  m_vote : option Vote;
  m_log : gmap Z (Entry A);
  m_committed : option LogId;
  m_last_purged : option LogId;
}.

Definition MemLogStore_new : MemLogStore :=
  {| m_vote := None; m_log := ∅; m_committed := None; m_last_purged := None |}.

(** [None] is the panic of an inverted range. *)
Definition mem_try_get_log_entries (s : MemLogStore) (lo hi : Bound) : option (list (Entry A)) :=
  if range_panics lo hi then None
  else Some (filter (fun e => lower_ok lo (fst e) && upper_ok hi (fst e)) (btree_list (m_log s))).*2.

Definition opt_or {B} (a b : option B) : option B := match a with Some _ => a | None => b end.

Definition mem_get_log_state (s : MemLogStore) : LogState :=
  let last_log_id := (fun e => log_id (snd e)) <$> last (btree_list (m_log s)) in
  {| last_purged_log_id := m_last_purged s; last_log_id := opt_or last_log_id (m_last_purged s) |}.

Definition mem_save_vote (s : MemLogStore) (v : Vote) : MemLogStore :=
  {| m_vote := Some v; m_log := m_log s; m_committed := m_committed s; m_last_purged := m_last_purged s |}.
Definition mem_read_vote (s : MemLogStore) : option Vote := m_vote s.

Definition mem_save_committed (s : MemLogStore) (c : option LogId) : MemLogStore :=
  {| m_vote := m_vote s; m_log := m_log s; m_committed := c; m_last_purged := m_last_purged s |}.
Definition mem_read_committed (s : MemLogStore) : option LogId := m_committed s.

Definition with_log (s : MemLogStore) (log : gmap Z (Entry A)) : MemLogStore :=
  {| m_vote := m_vote s; m_log := log; m_committed := m_committed s; m_last_purged := m_last_purged s |}.

Definition mem_append (s : MemLogStore) (entries : list (Entry A)) : MemLogStore :=
  with_log s (foldl (fun log e => <[index (log_id e) := e]> log) (m_log s) entries).

(** [log.range(index..)] keys, removed one by one. *)
Definition mem_truncate (s : MemLogStore) (i : LogId) : MemLogStore :=
  with_log s (foldl (fun log k => delete k log) (m_log s)
    (filter (fun k => (index i <= k)%Z) (btree_list (m_log s)).*1)).

Definition mem_purge (s : MemLogStore) (i : LogId) : MemLogStore :=
  let log := foldl (fun log k => delete k log) (m_log s)
               (filter (fun k => (k <= index i)%Z) (btree_list (m_log s)).*1) in
  {| m_vote := m_vote s; m_log := log; m_committed := m_committed s; m_last_purged := Some i |}.

(** * [L3RaftLogStore] *)

(** b"raft/vote", b"raft/committed", b"raft/last_purged", b"raft/log/" *)
Definition VOTE_KEY : bytes := [114; 97; 102; 116; 47; 118; 111; 116; 101]%Z.
Definition COMMITTED_KEY : bytes :=
  [114; 97; 102; 116; 47; 99; 111; 109; 109; 105; 116; 116; 101; 100]%Z.
Definition LAST_PURGED_KEY : bytes :=
  [114; 97; 102; 116; 47; 108; 97; 115; 116; 95; 112; 117; 114; 103; 101; 100]%Z.
Definition LOG_PREFIX : bytes := [114; 97; 102; 116; 47; 108; 111; 103; 47]%Z.

Definition log_key (i : Z) : bytes := LOG_PREFIX ++ be 8 i.

Definition log_index_from_key (k : bytes) : option Z :=
  if bool_decide (length k <> length LOG_PREFIX + 8) || negb (starts_with LOG_PREFIX k) then None
  else Some (un_be (drop (length LOG_PREFIX) k)).

Context {S : Type} `{L3Store S} `{Codec (Entry A)} `{Codec Vote} `{Codec LogId}.

(** The shared cache of hot metadata. *)
Record Cache := {
  c_vote : option Vote;
  c_committed : option LogId;
  c_last_purged : option LogId;
  c_last_log_id : option LogId;
}.

Record L3RaftLogStore := { rl3 : S; cache : Cache }.

Definition storage_err_read {B} : Result B := Err (State "read").
Definition storage_err_write {B} : Result B := Err (State "write").

Definition decode {B} `{Codec B} (bs : bytes) : Result B :=
  match deserialize bs with Some x => Ok x | None => storage_err_read end.

(** One optional marker: absent, or decoded. *)
Definition hydrate {B} `{Codec B} (e : Env) (l : S) (k : bytes) : Result (option B) :=
  let? o := l3_get e l k in
  match o with Some bs => let? x := decode bs in Ok (Some x) | None => Ok None end.

(** The last entry of a scan carries the highest index. *)
Definition tail_log_id (entries : KvPairs) : Result (option LogId) :=
  match last entries with
  | Some (_, bs) => let? e := decode (B := Entry A) bs in Ok (Some (log_id e))
  | None => Ok None
  end.

Definition L3RaftLogStore_open (env : nat -> Env) (l : S) : Result L3RaftLogStore :=
  let? v := hydrate (env 0) l VOTE_KEY in
  let? c := hydrate (env 1) l COMMITTED_KEY in
  let? p := hydrate (env 2) l LAST_PURGED_KEY in
  let? entries := l3_scan_prefix (env 3) l LOG_PREFIX in
  let? t := tail_log_id entries in
  Ok {| rl3 := l;
        cache := {| c_vote := v; c_committed := c; c_last_purged := p; c_last_log_id := t |} |}.

Fixpoint collect_entries (lo hi : Bound) (raw : KvPairs) : Result (list (Entry A)) :=
  match raw with
  | [] => Ok []
  | (k, v) :: rest =>
    match log_index_from_key k with
    | None => collect_entries lo hi rest
    | Some idx =>
      if negb (lower_ok lo idx && upper_ok hi idx) then collect_entries lo hi rest
      else let? e := decode (B := Entry A) v in
           let? out := collect_entries lo hi rest in Ok (e :: out)
    end
  end.

Definition l3_try_get_log_entries (e : Env) (s : L3RaftLogStore) (lo hi : Bound) : Result (list (Entry A)) :=
  let? raw := l3_scan_prefix e (rl3 s) LOG_PREFIX in collect_entries lo hi raw.

Definition l3_get_log_state (s : L3RaftLogStore) : LogState :=
  {| last_purged_log_id := c_last_purged (cache s);
     last_log_id := opt_or (c_last_log_id (cache s)) (c_last_purged (cache s)) |}.

Definition l3_save_vote (e : Env) (s : L3RaftLogStore) (v : Vote) : L3RaftLogStore * Result unit :=
  match serialize v with
  | None => (s, storage_err_write)
  | Some bs =>
    let '(l, r) := l3_put e (rl3 s) VOTE_KEY bs in
    match r with
    | Err _ => ({| rl3 := l; cache := cache s |}, storage_err_write)
    | Ok _ => ({| rl3 := l; cache := {| c_vote := Some v; c_committed := c_committed (cache s);
                   c_last_purged := c_last_purged (cache s); c_last_log_id := c_last_log_id (cache s) |} |}, Ok tt)
    end
  end.
Definition l3_read_vote (s : L3RaftLogStore) : option Vote := c_vote (cache s).

Definition l3_save_committed (e : Env) (s : L3RaftLogStore) (c : option LogId) : L3RaftLogStore * Result unit :=
  let done l r :=
    match r with
    | Err _ => ({| rl3 := l; cache := cache s |}, storage_err_write)
    | Ok _ => ({| rl3 := l; cache := {| c_vote := c_vote (cache s); c_committed := c;
                   c_last_purged := c_last_purged (cache s); c_last_log_id := c_last_log_id (cache s) |} |}, Ok tt)
    end in
  match c with
  | Some i => match serialize i with
              | None => (s, storage_err_write)
              | Some bs => let '(l, r) := l3_put e (rl3 s) COMMITTED_KEY bs in done l (r : Result unit)
              end
  | None => let '(l, r) := l3_delete e (rl3 s) COMMITTED_KEY in done l r
  end.
Definition l3_read_committed (s : L3RaftLogStore) : option LogId := c_committed (cache s).

(** The batch of an append and the new cached tail; the tail keeps the previous id when its
    index is at or above the entry's. *)
Fixpoint append_ops (entries : list (Entry A)) (new_last : option LogId)
    : option (list BatchEntry * option LogId) :=
  match entries with
  | [] => Some ([], new_last)
  | e :: rest =>
    match serialize e with
    | None => None
    | Some value =>
      let new_last := match new_last with
                      | Some prev => if (index (log_id e) <=? index prev)%Z then Some prev else Some (log_id e)
                      | None => Some (log_id e)
                      end in
      match append_ops rest new_last with
      | None => None
      | Some (ops, t) => Some ((BPut, log_key (index (log_id e)), Some value) :: ops, t)
      end
    end
  end.

Definition with_tail (s : L3RaftLogStore) (l : S) (t : option LogId) : L3RaftLogStore :=
  {| rl3 := l; cache := {| c_vote := c_vote (cache s); c_committed := c_committed (cache s);
       c_last_purged := c_last_purged (cache s); c_last_log_id := t |} |}.

Definition l3_append (e : Env) (s : L3RaftLogStore) (entries : list (Entry A)) : L3RaftLogStore * Result unit :=
  match append_ops entries (c_last_log_id (cache s)) with
  | None => (s, storage_err_write)
  | Some ([], _) => (s, Ok tt)
  | Some (ops, new_last) =>
    let '(l, r) := l3_write_batch e (rl3 s) ops in
    match r with
    | Err _ => (with_tail s l (c_last_log_id (cache s)), storage_err_write)
    | Ok _ => (with_tail s l new_last, Ok tt)
    end
  end.

(** Deletions of the scanned keys whose index satisfies [p]. *)
Definition delete_ops (p : Z -> bool) (raw : KvPairs) : list BatchEntry :=
  omap (fun kv => match log_index_from_key (fst kv) with
                  | Some idx => if p idx then Some (BDelete, fst kv, None) else None
                  | None => None
                  end) raw.

Definition l3_truncate (env : nat -> Env) (s : L3RaftLogStore) (i : LogId) : L3RaftLogStore * Result unit :=
  let keep := c_last_log_id (cache s) in
  match l3_scan_prefix (env 0) (rl3 s) LOG_PREFIX with
  | Err _ => (s, storage_err_write)
  | Ok raw =>
    let ops := delete_ops (fun idx => (index i <=? idx)%Z) raw in
    let '(l, r) := match ops with [] => (rl3 s, Ok tt) | _ => l3_write_batch (env 1) (rl3 s) ops end in
    match r with
    | Err _ => (with_tail s l keep, storage_err_write)
    | Ok _ =>
      match (let? remaining := l3_scan_prefix (env 2) l LOG_PREFIX in tail_log_id remaining) with
      | Err _ => (with_tail s l keep, storage_err_write)
      | Ok t => (with_tail s l t, Ok tt)
      end
    end
  end.

Definition l3_purge (env : nat -> Env) (s : L3RaftLogStore) (i : LogId) : L3RaftLogStore * Result unit :=
  match l3_scan_prefix (env 0) (rl3 s) LOG_PREFIX with
  | Err _ => (s, storage_err_write)
  | Ok raw =>
    match serialize i with
    | None => (s, storage_err_write)
    | Some marker =>
      let ops := delete_ops (fun idx => (idx <=? index i)%Z) raw ++ [(BPut, LAST_PURGED_KEY, Some marker)] in
      let '(l, r) := l3_write_batch (env 1) (rl3 s) ops in
      match r with
      | Err _ => (with_tail s l (c_last_log_id (cache s)), storage_err_write)
      | Ok _ =>
        let tail := match c_last_log_id (cache s) with
                    | Some current => if (index current <=? index i)%Z then None else Some current
                    | None => None
                    end in
        ({| rl3 := l; cache := {| c_vote := c_vote (cache s); c_committed := c_committed (cache s);
             c_last_purged := Some i; c_last_log_id := tail |} |}, Ok tt)
      end
    end
  end.
End RaftLog.
Arguments MemLogStore : clear implicits.
Arguments Cache : clear implicits.
Arguments L3RaftLogStore : clear implicits.
