(* ===== verification/RaftLogProofs.v ===== *)
(** The persistent Raft log store refines the in-memory one, restarts included. *)
From stdpp Require Import base gmap list strings sorting.
From S2P Require Import Prelude Types Kv Indexed CheckpointWal AtRest L3 RaftLog.

(** * Ordered maps as lists *)

Lemma sorted_ids_eq (l1 l2 : list Z) :
  StronglySorted Z.lt l1 -> StronglySorted Z.lt l2 -> (forall x, x ∈ l1 <-> x ∈ l2) -> l1 = l2.
Proof.
  intros H1. revert l2. induction H1 as [|x l1 H1 IH Hx]; intros l2 H2 He.
  { destruct l2 as [|y l2]; [done|]. destruct (not_elem_of_nil y). apply He. left. }
  destruct H2 as [|y l2 H2 Hy]; [destruct (not_elem_of_nil x); apply He; left|].
  rewrite Forall_forall in Hx, Hy.
  assert (x = y) as ->.
  { assert (Ha : x ∈ y :: l2) by (apply He; left). assert (Hb : y ∈ x :: l1) by (apply He; left).
    apply elem_of_cons in Ha as [->|Ha]; [done|]. apply elem_of_cons in Hb as [->|Hb]; [done|].
    specialize (Hx y Hb). specialize (Hy x Ha). lia. }
  f_equal. apply IH; [done|]. intros z. specialize (He z). rewrite !elem_of_cons in He. split.
  - intros Hz. destruct (proj1 He (or_intror Hz)) as [->|?]; [|done]. specialize (Hx y Hz). lia.
  - intros Hz. destruct (proj2 He (or_intror Hz)) as [->|?]; [|done]. specialize (Hy y Hz). lia.
Qed.

#[local] Instance idx_le_total {V} : Total (@idx_le V).
Proof. intros a b. unfold idx_le. lia. Qed.
#[local] Instance idx_le_trans {V} : Transitive (@idx_le V).
Proof. intros a b c. unfold idx_le. lia. Qed.

Section Btree.
Context {V : Type}.
Implicit Types m : gmap Z V.

Lemma btree_elem m i v : (i, v) ∈ btree_list m <-> m !! i = Some v.
Proof. unfold btree_list. by rewrite merge_sort_Permutation, elem_of_map_to_list. Qed.

Lemma btree_keys m i : i ∈ (btree_list m).*1 <-> is_Some (m !! i).
Proof.
  rewrite list_elem_of_fmap. split.
  - intros ([j v] & -> & Hin). apply btree_elem in Hin. eauto.
  - intros [v Hv]. exists (i, v). split; [done|]. by apply btree_elem.
Qed.

Lemma btree_sorted m : StronglySorted Z.lt (btree_list m).*1.
Proof.
  pose proof (StronglySorted_merge_sort idx_le (map_to_list m)) as Hs. fold (btree_list m) in Hs.
  assert (HN : NoDup (btree_list m).*1).
  { unfold btree_list. rewrite merge_sort_Permutation. apply NoDup_fst_map_to_list. }
  induction Hs as [|[i v] l Hs IH Hf]; [constructor|]. cbn in HN |- *.
  apply NoDup_cons in HN as [Hi HN]. constructor; [by apply IH|].
  apply Forall_fmap, Forall_forall. intros [j w] Hj. cbn.
  pose proof (proj1 (Forall_forall _ _) Hf _ Hj) as Hle. unfold idx_le in Hle. cbn in Hle.
  assert (i <> j); [|lia]. intros ->. apply Hi, list_elem_of_fmap. by exists (j, w).
Qed.

Lemma btree_last m i v :
  m !! i = Some v -> (forall j w, m !! j = Some w -> (j <= i)%Z) -> last (btree_list m) = Some (i, v).
Proof.
  intros Hi Hmax. pose proof (btree_sorted m) as Hs. pose proof (btree_elem m) as He.
  assert (Hin : (i, v) ∈ btree_list m) by (by apply He).
  assert (Hle : forall j w, (j, w) ∈ btree_list m -> (j <= i)%Z) by (intros j w Hj; by eapply Hmax, He).
  clear He Hi Hmax. induction (btree_list m) as [|[j w] l IH]; [by apply not_elem_of_nil in Hin|].
  cbn in Hs. apply StronglySorted_inv in Hs as [Hs Hf]. destruct l as [|[k u] l].
  - apply list_elem_of_singleton in Hin. by rewrite Hin.
  - change (last ((k, u) :: l) = Some (i, v)). apply IH; [done| |].
    + apply elem_of_cons in Hin as [[= -> ->]|Hin]; [|done]. exfalso. cbn in Hf.
      apply Forall_cons in Hf as [Hjk _]. specialize (Hle k u ltac:(right; left)). lia.
    + intros j' w' Hj'. apply (Hle j' w'). by right.
Qed.

Lemma btree_last_inv m i v :
  last (btree_list m) = Some (i, v) -> m !! i = Some v /\ forall j w, m !! j = Some w -> (j <= i)%Z.
Proof.
  intros Hl. pose proof (btree_sorted m) as Hs. pose proof (btree_elem m) as He.
  assert (Hin : (i, v) ∈ btree_list m) by (apply last_Some_elem_of in Hl; done).
  split; [by apply He|]. intros j w Hj. apply He in Hj. clear He Hin.
  induction (btree_list m) as [|[a x] l IH]; [done|]. cbn in Hs.
  apply StronglySorted_inv in Hs as [Hs Hf]. destruct l as [|[k u] l].
  - apply list_elem_of_singleton in Hj. cbn in Hl. simplify_eq. lia.
  - change (last ((k, u) :: l) = Some (i, v)) in Hl. apply elem_of_cons in Hj as [[= -> ->]|Hj]; [|by apply IH].
    assert (Hin : (i, v) ∈ (k, u) :: l) by (by apply last_Some_elem_of).
    rewrite Forall_forall in Hf. specialize (Hf i). apply Z.lt_le_incl, Hf.
    apply list_elem_of_fmap. by exists (i, v).
Qed.

Lemma btree_last_None m : last (btree_list m) = None <-> m = ∅.
Proof.
  rewrite last_None. split.
  - intros Hl. apply map_eq. intros i. rewrite lookup_empty. destruct (m !! i) as [v|] eqn:E; [|done].
    apply btree_elem in E. rewrite Hl in E. by apply not_elem_of_nil in E.
  - intros ->. done.
Qed.
End Btree.

(** * The simulation relation *)

Lemma log_prefix_bytes : Forall is_byte LOG_PREFIX.
Proof. repeat constructor; lia. Qed.

Abbreviation lkey := (idx_key LOG_PREFIX).

Lemma log_index_key i : in_u64 i -> log_index_from_key (lkey i) = Some i.
Proof.
  intros Hi. unfold log_index_from_key, idx_key. rewrite starts_with_app, drop_app_length.
  rewrite bool_decide_false by (rewrite length_app, length_be; lia). cbn [orb negb].
  by rewrite un_be_be_u64.
Qed.

Section Refinement.
Context {A Vote S : Type} `{L3Store S} (M : S -> gmap bytes bytes) (OK : S -> Prop) (st : bytes -> Prop)
        `{!L3Laws S M OK st}
        `{Codec (Entry A)} `{!CodecLaws (Entry A)} `{Codec Vote} `{!CodecLaws Vote}
        `{Codec LogId} `{!CodecLaws LogId}.
Hypothesis st_nil : st [].

Abbreviation L3Log := (L3RaftLogStore Vote S).
Abbreviation Mem := (MemLogStore A Vote).

(** A value the store can hold. *)
Definition ser_ok {B} `{Codec B} (x : B) : Prop := exists v, serialize x = Some v /\ st v.

(** The key holds the serialized marker, or nothing. *)
Definition marker {B} `{Codec B} (m : gmap bytes bytes) (k : bytes) (o : option B) : Prop :=
  match o with
  | Some x => exists bs, serialize x = Some bs /\ m !! k = Some bs
  | None => m !! k = None
  end.

Definition stored (recs : gmap Z bytes) (log : gmap Z (Entry A)) : Prop :=
  forall i, match log !! i with
            | Some e => index (log_id e) = i /\ exists v, serialize e = Some v /\ recs !! i = Some v
            | None => recs !! i = None
            end.

Definition mem_tail (m : Mem) : option LogId := (fun e => log_id (snd e)) <$> last (btree_list (m_log m)).

Record refines (s : L3Log) (m : Mem) : Prop := {
  rf_ok : OK (rl3 s);
  rf_vote : c_vote (cache s) = m_vote m;
  rf_committed : c_committed (cache s) = m_committed m;
  rf_purged : c_last_purged (cache s) = m_last_purged m;
  rf_tail : c_last_log_id (cache s) = mem_tail m;
  rf_mvote : marker (M (rl3 s)) VOTE_KEY (m_vote m);
  rf_mcommitted : marker (M (rl3 s)) COMMITTED_KEY (m_committed m);
  rf_mpurged : marker (M (rl3 s)) LAST_PURGED_KEY (m_last_purged m);
  rf_log : exists recs, holds LOG_PREFIX (M (rl3 s)) recs /\ stored recs (m_log m);
}.

(** A scan returns the encoded entries in index order. *)
Definition scanned (kvs : KvPairs) (log : list (Z * Entry A)) : Prop :=
  Forall2 (fun kv ie => fst kv = lkey (fst ie) /\ deserialize (snd kv) = Some (snd ie) /\ in_u64 (fst ie))
    kvs log.

Lemma scan_log e l recs log :
  OK l -> e_io e = IoOk -> holds LOG_PREFIX (M l) recs -> stored recs log ->
  exists kvs, l3_scan_prefix e l LOG_PREFIX = Ok kvs /\ scanned kvs (btree_list log).
Proof.
  intros Hok He Hh Hst. destruct (l3_scan_ok e l LOG_PREFIX Hok He log_prefix_bytes) as (kvs & Hs & Hp & Hsrt).
  exists kvs. split; [done|]. destruct (holds_scan _ _ _ _ Hh Hp Hsrt) as (ids & -> & Hids & Hu & Hin).
  assert (E : ids = (btree_list log).*1).
  { apply sorted_ids_eq; [done|apply btree_sorted|]. intros i. rewrite Hin, btree_keys.
    specialize (Hst i). destruct (log !! i) as [en|].
    - destruct Hst as (_ & v & _ & ->). split; eauto.
    - rewrite Hst. split; intros [? ?]; done. }
  unfold scanned. rewrite E. rewrite E in Hu. clear E Hids Hin.
  assert (Hall : forall i en, (i, en) ∈ btree_list log -> exists v, recs !! i = Some v /\ deserialize v = Some en).
  { intros i en Hin. apply btree_elem in Hin. specialize (Hst i). rewrite Hin in Hst.
    destruct Hst as (_ & v & Hv & Hr). exists v. split; [done|]. by apply deserialize_serialize. }
  induction (btree_list log) as [|[i en] t IH]; [constructor|]. cbn [fmap list_fmap] in *.
  apply Forall_cons in Hu as [Hi Hu]. constructor.
  - destruct (Hall i en ltac:(left)) as (v & Hv & Hd). cbn. rewrite (lookup_total_correct _ _ _ Hv). done.
  - apply IH; [done|]. intros j e' Hj. apply Hall. by right.
Qed.

Lemma scan_refines e s m :
  refines s m -> e_io e = IoOk ->
  exists kvs, l3_scan_prefix e (rl3 s) LOG_PREFIX = Ok kvs /\ scanned kvs (btree_list (m_log m)).
Proof. intros Hr He. destruct (rf_log _ _ Hr) as (recs & Hh & Hst). eapply scan_log; eauto. apply Hr. Qed.

Lemma tail_scanned kvs l :
  scanned kvs l -> tail_log_id (A := A) kvs = Ok ((fun e => log_id (snd e)) <$> last l).
Proof.
  intros Hs. unfold tail_log_id. induction Hs as [|kv ie kvs l (Hk & Hd & _) Hs IH]; [done|].
  destruct Hs as [|kv' ie' kvs l Hh Hs].
  - cbn. destruct kv as [k v]. unfold decode. cbn in *. by rewrite Hd.
  - exact IH.
Qed.

Lemma collect_scanned lo hi kvs l :
  scanned kvs l ->
  collect_entries lo hi kvs = Ok (filter (fun e => lower_ok lo (fst e) && upper_ok hi (fst e)) l).*2.
Proof.
  induction 1 as [|[k v] [i e] kvs l (Hk & Hd & Hi) _ IH]; [done|]. cbn [fst snd] in Hk, Hd, Hi. subst k.
  cbn [collect_entries]. rewrite log_index_key by done. rewrite filter_cons. cbn [fst].
  destruct (lower_ok lo i && upper_ok hi i); cbn [negb].
  - unfold decode. rewrite Hd, IH, decide_True by done. done.
  - rewrite IH, decide_False by (intros ?; done). done.
Qed.

Lemma delete_ops_scanned p kvs l :
  scanned kvs l ->
  delete_ops p kvs = (fun i => (BDelete, lkey i, None)) <$> filter (fun i => p i = true) l.*1.
Proof.
  unfold delete_ops. induction 1 as [|[k v] [i e] kvs l (Hk & _ & Hi) _ IH]; [done|]. cbn [fst snd] in Hk, Hi. subst k.
  cbn [omap list_omap fst fmap list_fmap]. rewrite log_index_key by done. rewrite filter_cons.
  rewrite IH. destruct (p i) eqn:E; [by rewrite decide_True|by rewrite decide_False].
Qed.

Lemma marker_insert_ne {B} `{Codec B} m k k' v (o : option B) :
  k <> k' -> marker m k o -> marker (<[k' := v]> m) k o.
Proof. intros Hne. unfold marker. destruct o; by rewrite lookup_insert_ne. Qed.

Lemma marker_delete_ne {B} `{Codec B} m k k' (o : option B) :
  k <> k' -> marker m k o -> marker (delete k' m) k o.
Proof. intros Hne. unfold marker. destruct o; by rewrite lookup_delete_ne. Qed.

Lemma not_lkey k i : starts_with LOG_PREFIX k = false -> k <> lkey i.
Proof. intros Hk ->. unfold idx_key in Hk. by rewrite starts_with_app in Hk. Qed.

(** Batches over log keys leave the markers alone. *)
Lemma marker_batch {B} `{Codec B} ops : forall m k (o : option B),
  starts_with LOG_PREFIX k = false ->
  Forall (fun op => exists i, snd (fst op) = lkey i) ops ->
  marker m k o -> marker (batch_result m ops) k o.
Proof.
  induction ops as [|[[[|] k'] v] ops IH]; intros m k o Hk Hops Hm; [done|..];
    apply Forall_cons in Hops as [[i Hi] Hops]; cbn [fst snd] in Hi; subst k'; cbn [batch_result foldl batch_entry];
    apply IH; try done.
  - apply marker_insert_ne; [by apply not_lkey|done].
  - apply marker_delete_ne; [by apply not_lkey|done].
Qed.

Lemma hydrate_marker {B} `{Codec B} `{!CodecLaws B} e l k (o : option B) :
  OK l -> e_io e = IoOk -> marker (M l) k o -> hydrate e l k = Ok o.
Proof.
  intros Hok He Hm. unfold hydrate. rewrite (l3_get_ok e l k Hok He). destruct o as [x|]; cbn in Hm.
  - destruct Hm as (bs & Hs & ->). unfold decode. by rewrite (deserialize_serialize _ _ Hs).
  - by rewrite Hm.
Qed.

(** * Each operation *)

Lemma open_refines env s m :
  refines s m -> (forall i, env_ok (env i)) -> L3RaftLogStore_open (A := A) env (rl3 s) = Ok s.
Proof.
  intros Hr He. unfold L3RaftLogStore_open.
  rewrite (hydrate_marker (env 0) _ _ (m_vote m)) by (apply Hr || apply He).
  rewrite (hydrate_marker (env 1) _ _ (m_committed m)) by (apply Hr || apply He).
  rewrite (hydrate_marker (env 2) _ _ (m_last_purged m)) by (apply Hr || apply He).
  destruct (scan_refines (env 3) s m Hr (proj1 (He 3))) as (kvs & -> & Hs).
  rewrite (tail_scanned _ _ Hs). fold (mem_tail m).
  rewrite <-(rf_tail _ _ Hr), <-(rf_vote _ _ Hr), <-(rf_committed _ _ Hr), <-(rf_purged _ _ Hr).
  destruct s as [l [? ? ? ?]]. done.
Qed.

Lemma save_vote_refines e s m v :
  refines s m -> env_ok e -> ser_ok v ->
  exists s', l3_save_vote e s v = (s', Ok tt) /\ refines s' (mem_save_vote m v).
Proof.
  intros Hr He (bs & Hbs & Hst). unfold l3_save_vote. rewrite Hbs.
  destruct (l3_put_ok e (rl3 s) VOTE_KEY bs) as (l & Hp & Hok & HM);
    [apply Hr|done|repeat constructor; lia|done|].
  rewrite Hp. eexists. split; [done|]. destruct Hr as [? ? ? ? ? ? ? ? (recs & Hh & Hstd)].
  split; cbn; rewrite ?HM; try done.
  - exists bs. split; [done|]. apply lookup_insert_eq.
  - by apply marker_insert_ne.
  - by apply marker_insert_ne.
  - exists recs. split; [|done]. by apply holds_insert_other.
Qed.

Lemma save_committed_refines e s m c :
  refines s m -> env_ok e -> (forall i, c = Some i -> ser_ok i) ->
  exists s', l3_save_committed e s c = (s', Ok tt) /\ refines s' (mem_save_committed m c).
Proof.
  intros Hr He Hc. unfold l3_save_committed. destruct c as [i|].
  - destruct (Hc i eq_refl) as (bs & Hbs & Hst). rewrite Hbs.
    destruct (l3_put_ok e (rl3 s) COMMITTED_KEY bs) as (l & Hp & Hok & HM);
      [apply Hr|done|repeat constructor; lia|done|].
    rewrite Hp. eexists. split; [done|]. destruct Hr as [? ? ? ? ? ? ? ? (recs & Hh & Hstd)].
    split; cbn; rewrite ?HM; try done.
    + by apply marker_insert_ne.
    + exists bs. split; [done|apply lookup_insert_eq].
    + by apply marker_insert_ne.
    + exists recs. split; [|done]. by apply holds_insert_other.
  - pose proof (l3_delete_live e (rl3 s) COMMITTED_KEY (rf_ok _ _ Hr) He) as Hl.
    destruct (l3_delete e (rl3 s) COMMITTED_KEY) as [l [[]|]] eqn:E; [|done].
    destruct (l3_delete_spec e (rl3 s) COMMITTED_KEY l (Ok tt) (rf_ok _ _ Hr) E) as [Hok HM]. cbn in HM.
    eexists. split; [done|]. destruct Hr as [? ? ? ? ? ? ? ? (recs & Hh & Hstd)].
    split; cbn; rewrite ?HM; try done.
    + by apply marker_delete_ne.
    + apply lookup_delete_eq.
    + by apply marker_delete_ne.
    + exists recs. split; [|done]. by apply holds_delete_other.
Qed.

(** Entries arrive in increasing index order above the current tail. *)
Fixpoint chain (t : option LogId) (es : list (Entry A)) : Prop :=
  match es with
  | [] => True
  | e :: rest =>
    in_u64 (index (log_id e)) /\ ser_ok e
    /\ match t with Some p => (index p < index (log_id e))%Z | None => True end
    /\ chain (Some (log_id e)) rest
  end.

Definition tail_of (log : gmap Z (Entry A)) : option LogId := (fun e => log_id (snd e)) <$> last (btree_list log).

Lemma tail_max recs log i e :
  stored recs log -> log !! i = Some e -> exists p, tail_of log = Some p /\ (i <= index p)%Z.
Proof.
  intros Hst Hi. unfold tail_of. destruct (last (btree_list log)) as [[j e']|] eqn:E.
  - destruct (btree_last_inv _ _ _ E) as [Hj Hmax]. eexists. split; [done|]. cbn.
    specialize (Hst j). rewrite Hj in Hst. destruct Hst as [-> _]. eauto.
  - apply btree_last_None in E. by subst.
Qed.

Lemma stored_insert recs log e v :
  stored recs log -> serialize e = Some v ->
  stored (<[index (log_id e) := v]> recs) (<[index (log_id e) := e]> log).
Proof.
  intros Hst Hv i. destruct (decide (index (log_id e) = i)) as [<-|Hne].
  - rewrite !lookup_insert_eq. eauto.
  - rewrite !lookup_insert_ne by done. apply Hst.
Qed.

Lemma tail_insert recs log e :
  stored recs log -> match tail_of log with Some p => (index p < index (log_id e))%Z | None => True end ->
  tail_of (<[index (log_id e) := e]> log) = Some (log_id e).
Proof.
  intros Hst Ht. unfold tail_of. rewrite (btree_last _ (index (log_id e)) e); [done|apply lookup_insert_eq|].
  intros j w Hj. apply lookup_insert_Some in Hj as [[<- _]|[_ Hj]]; [lia|].
  destruct (tail_max recs log j w Hst Hj) as (p & Hp & Hle). rewrite Hp in Ht. lia.
Qed.

Lemma append_ops_spec es : forall mp recs log,
  chain (tail_of log) es -> holds LOG_PREFIX mp recs -> stored recs log ->
  exists ops recs', append_ops es (tail_of log)
      = Some (ops, tail_of (foldl (fun log e => <[index (log_id e) := e]> log) log es))
    /\ (ops = [] -> es = [])
    /\ Forall (fun op => exists i, snd (fst op) = lkey i) ops
    /\ Forall (fun op => st (default [] (snd op))) ops
    /\ holds LOG_PREFIX (batch_result mp ops) recs'
    /\ stored recs' (foldl (fun log e => <[index (log_id e) := e]> log) log es).
Proof.
  induction es as [|e es IH]; intros mp recs log Hc Hh Hst.
  { exists [], recs. split; [done|]. split; [done|]. split; [constructor|]. split; [constructor|]. done. }
  destruct Hc as (Hu & (v & Hv & Hsv) & Hlt & Hc). cbn [append_ops foldl]. rewrite Hv.
  assert (Hnew : match tail_of log with
                 | Some prev => if (index (log_id e) <=? index prev)%Z then Some prev else Some (log_id e)
                 | None => Some (log_id e) end = Some (log_id e)).
  { destruct (tail_of log) as [p|]; [|done]. by destruct (Z.leb_spec (index (log_id e)) (index p)); [lia|]. }
  rewrite Hnew. pose proof (tail_insert recs log e Hst Hlt) as Ht. rewrite <-Ht in Hc |- *.
  destruct (IH (<[lkey (index (log_id e)) := v]> mp) (<[index (log_id e) := v]> recs) _ Hc)
    as (ops & recs' & -> & _ & Hk & Hs & Hh' & Hst').
  { by apply holds_insert. }
  { by apply stored_insert. }
  exists ((BPut, lkey (index (log_id e)), Some v) :: ops), recs'. split; [done|]. split; [done|].
  split; [constructor; [by eexists|done]|]. split; [by constructor|]. done.
Qed.

Lemma lkeys_bytes ops :
  Forall (fun op : BatchOp * bytes * option bytes => exists i, snd (fst op) = lkey i) ops ->
  Forall (fun op => Forall is_byte (snd (fst op))) ops.
Proof.
  intros Hf. eapply Forall_impl; [exact Hf|]. intros op [i ->]. apply idx_key_bytes, log_prefix_bytes.
Qed.

Lemma append_refines e s m es :
  refines s m -> env_ok e -> chain (mem_tail m) es ->
  exists s', l3_append e s es = (s', Ok tt) /\ refines s' (mem_append m es).
Proof.
  intros Hr He Hc. destruct (rf_log _ _ Hr) as (recs & Hh & Hst).
  destruct (append_ops_spec es _ _ _ Hc Hh Hst) as (ops & recs' & Hops & Hnil & Hk & Hs & Hh' & Hst').
  unfold l3_append. rewrite (rf_tail _ _ Hr). fold (tail_of (m_log m)) in Hops.
  change (mem_tail m) with (tail_of (m_log m)). rewrite Hops. destruct ops as [|op ops].
  - rewrite (Hnil eq_refl). exists s. split; [done|]. by destruct m.
  - destruct (l3_batch_ok e (rl3 s) (op :: ops) (rf_ok _ _ Hr) He (lkeys_bytes _ Hk) Hs) as (l & -> & Hok & HM).
    eexists. split; [done|]. destruct Hr. split; cbn [rl3 with_tail cache c_vote c_committed c_last_purged c_last_log_id
      mem_append with_log m_vote m_committed m_last_purged m_log]; rewrite ?HM; try done.
    + by apply marker_batch.
    + by apply marker_batch.
    + by apply marker_batch.
    + eauto.
Qed.

Lemma stored_without ids recs log : stored recs log -> stored (without ids recs) (without ids log).
Proof.
  intros Hst i. rewrite !without_lookup. specialize (Hst i). by case_decide.
Qed.

Lemma scanned_keys_u64 kvs l : scanned kvs l -> Forall in_u64 l.*1.
Proof. induction 1 as [|kv ie kvs l (_ & _ & Hu) _ IH]; [constructor|]. by constructor. Qed.

(** The deletion both [truncate] and [purge] perform, on the keys satisfying [p]. *)
Lemma delete_ops_spec p s m kvs :
  refines s m -> scanned kvs (btree_list (m_log m)) ->
  let ids := filter (fun i => p i = true) (btree_list (m_log m)).*1 in
  let mp := batch_result (M (rl3 s)) (delete_ops p kvs) in
  Forall (fun op => exists i, snd (fst op) = lkey i) (delete_ops p kvs)
  /\ Forall (fun op => st (default [] (snd op))) (delete_ops p kvs)
  /\ marker mp VOTE_KEY (m_vote m) /\ marker mp COMMITTED_KEY (m_committed m)
  /\ marker mp LAST_PURGED_KEY (m_last_purged m)
  /\ exists recs, holds LOG_PREFIX mp recs /\ stored recs (without ids (m_log m)).
Proof.
  intros Hr Hs ids mp. pose proof (delete_ops_scanned p _ _ Hs) as E. fold ids in E.
  assert (Hk : Forall (fun op => exists i, snd (fst op) = lkey i) (delete_ops p kvs)).
  { rewrite E. apply Forall_fmap, Forall_true. intros i. by exists i. }
  assert (Hv : Forall (fun op => st (default [] (snd op))) (delete_ops p kvs)).
  { rewrite E. apply Forall_fmap, Forall_true. done. }
  split; [done|]. split; [done|]. subst mp. destruct Hr as [? ? ? ? ? ? ? ? (recs & Hh & Hst)].
  split; [by apply marker_batch|]. split; [by apply marker_batch|]. split; [by apply marker_batch|].
  exists (without ids recs). split; [|by apply stored_without]. rewrite E. apply holds_delete_batch; [|done].
  apply Forall_forall. intros i Hi. apply list_elem_of_filter in Hi as [_ Hi].
  by apply (proj1 (Forall_forall _ _) (scanned_keys_u64 _ _ Hs)).
Qed.

Lemma filter_leb_ext (f : Z -> bool) (P : Z -> Prop) `{forall x, Decision (P x)} (l : list Z) :
  (forall x, f x = true <-> P x) -> filter (fun i => f i = true) l = filter P l.
Proof. intros Hf. apply list_filter_iff. exact Hf. Qed.

Lemma truncate_refines env s m i :
  refines s m -> (forall n, env_ok (env n)) ->
  exists s', l3_truncate (A := A) env s i = (s', Ok tt) /\ refines s' (mem_truncate m i).
Proof.
  intros Hr He. destruct (scan_refines (env 0) s m Hr (proj1 (He 0))) as (kvs & Hscan & Hs).
  unfold l3_truncate. rewrite Hscan. set (p := fun idx => (index i <=? idx)%Z).
  destruct (delete_ops_spec p s m kvs Hr Hs) as (Hk & Hv & Mv & Mc & Mp & recs & Hh & Hst).
  rewrite (filter_leb_ext p (fun k => (index i <= k)%Z)) in Hst by (intros; apply Z.leb_le).
  fold (without (filter (fun k => (index i <= k)%Z) (btree_list (m_log m)).*1) (m_log m)) in Hst.
  assert (Hl : exists l, (match delete_ops p kvs with [] => (rl3 s, Ok tt)
                     | _ => l3_write_batch (env 1) (rl3 s) (delete_ops p kvs) end) = (l, Ok tt)
                 /\ OK l /\ M l = batch_result (M (rl3 s)) (delete_ops p kvs)).
  { destruct (l3_batch_ok (env 1) (rl3 s) (delete_ops p kvs) (rf_ok _ _ Hr) (He 1) (lkeys_bytes _ Hk) Hv) as (l & Hb & Hok & HM).
    destruct (delete_ops p kvs); [exists (rl3 s); split; [done|]; split; [apply Hr|done]|eauto]. }
  destruct Hl as (l & -> & Hok & HM). rewrite <-HM in Mv, Mc, Mp, Hh.
  destruct (scan_log (env 2) l _ _ Hok (proj1 (He 2)) Hh Hst) as (kvs2 & -> & Hs2).
  rewrite (tail_scanned _ _ Hs2). eexists. split; [done|]. destruct Hr. split; cbn; try done. eauto.
Qed.

Lemma purge_tail recs m i :
  stored recs (m_log m) ->
  tail_of (without (filter (fun k => (k <= index i)%Z) (btree_list (m_log m)).*1) (m_log m))
    = match mem_tail m with
      | Some current => if (index current <=? index i)%Z then None else Some current
      | None => None
      end.
Proof.
  intros Hst. set (ids := filter _ _).
  assert (Hw : forall k, without ids (m_log m) !! k = if decide (k <= index i)%Z then None else m_log m !! k).
  { intros k. rewrite without_lookup. destruct (m_log m !! k) as [e|] eqn:E; [|by repeat case_decide].
    assert (k ∈ (btree_list (m_log m)).*1) by (apply btree_keys; eauto).
    destruct (decide (k <= index i)%Z).
    - rewrite decide_True; [done|]. by apply list_elem_of_filter.
    - rewrite decide_False; [done|]. intros Hf. apply list_elem_of_filter in Hf as [? _]. done. }
  unfold tail_of, mem_tail. destruct (last (btree_list (m_log m))) as [[j e]|] eqn:E.
  - destruct (btree_last_inv _ _ _ E) as [Hj Hmax]. cbn.
    pose proof (Hst j) as Hj'. rewrite Hj in Hj'. destruct Hj' as [Hji _]. rewrite Hji.
    destruct (Z.leb_spec j (index i)).
    + assert (without ids (m_log m) = ∅) as ->.
      { apply map_eq. intros k. rewrite Hw, lookup_empty. case_decide; [done|].
        destruct (m_log m !! k) as [e'|] eqn:Ek; [|done]. specialize (Hmax k e' Ek). lia. }
      done.
    + rewrite (btree_last _ j e); [done|rewrite Hw, decide_False by lia; done|].
      intros k w. rewrite Hw. case_decide; [done|]. apply Hmax.
  - apply btree_last_None in E. assert (without ids (m_log m) = ∅) as ->.
    { apply map_eq. intros k. rewrite Hw, E, !lookup_empty. by case_decide. }
    done.
Qed.

Lemma purge_refines env s m i :
  refines s m -> (forall n, env_ok (env n)) -> ser_ok i ->
  exists s', l3_purge env s i = (s', Ok tt) /\ refines s' (mem_purge m i).
Proof.
  intros Hr He (bs & Hbs & Hsb). destruct (scan_refines (env 0) s m Hr (proj1 (He 0))) as (kvs & Hscan & Hs).
  unfold l3_purge. rewrite Hscan, Hbs. set (p := fun idx => (idx <=? index i)%Z).
  destruct (delete_ops_spec p s m kvs Hr Hs) as (Hk & Hv & Mv & Mc & _ & recs & Hh & Hst).
  rewrite (filter_leb_ext p (fun k => (k <= index i)%Z)) in Hst by (intros; apply Z.leb_le).
  destruct (l3_batch_ok (env 1) (rl3 s) (delete_ops p kvs ++ [(BPut, LAST_PURGED_KEY, Some bs)])
              (rf_ok _ _ Hr) (He 1)) as (l & -> & Hok & HM).
  { apply Forall_app. split; [by apply lkeys_bytes|]. apply Forall_singleton. repeat constructor; lia. }
  { apply Forall_app. split; [done|]. by apply Forall_singleton. }
  unfold batch_result in HM. rewrite foldl_app in HM. cbn [foldl batch_entry default] in HM.
  fold (batch_result (M (rl3 s)) (delete_ops p kvs)) in HM.
  eexists. split; [done|]. destruct Hr as [Rok Rv Rc Rp Rt Rmv Rmc Rmp (recs0 & Rh & Rst)].
  split; cbn [rl3 cache c_vote c_committed c_last_purged c_last_log_id mem_purge m_vote m_committed m_last_purged m_log];
    rewrite ?HM; try done.
  - rewrite Rt. symmetry. exact (purge_tail recs0 m i Rst).
  - by apply marker_insert_ne.
  - by apply marker_insert_ne.
  - exists bs. split; [done|]. apply lookup_insert_eq.
  - exists recs. split; [|done]. by apply holds_insert_other.
Qed.

(** * Whole runs *)

Inductive raft_op :=
| RAppend (es : list (Entry A)) | RTruncate (i : LogId) | RPurge (i : LogId)
| RSaveVote (v : Vote) | RSaveCommitted (c : option LogId) | RRestart.

(** A restart drops the cache and reopens the store over the same L3 contents. *)
Definition l3_step (env : nat -> Env) (s : L3Log) (op : raft_op) : L3Log * Result unit :=
  match op with
  | RAppend es => l3_append (env 0) s es
  | RTruncate i => l3_truncate (A := A) env s i
  | RPurge i => l3_purge env s i
  | RSaveVote v => l3_save_vote (env 0) s v
  | RSaveCommitted c => l3_save_committed (env 0) s c
  | RRestart => match L3RaftLogStore_open (A := A) env (rl3 s) with
                | Ok s' => (s', Ok tt)
                | Err er => (s, Err er)
                end
  end.

Definition mem_step (m : Mem) (op : raft_op) : Mem :=
  match op with
  | RAppend es => mem_append m es
  | RTruncate i => mem_truncate m i
  | RPurge i => mem_purge m i
  | RSaveVote v => mem_save_vote m v
  | RSaveCommitted c => mem_save_committed m c
  | RRestart => m
  end.

Fixpoint l3_steps (s : L3Log) (ops : list ((nat -> Env) * raft_op)) : L3Log * Result unit :=
  match ops with
  | [] => (s, Ok tt)
  | (env, op) :: rest =>
    let '(s', r) := l3_step env s op in
    match r with Err er => (s', Err er) | Ok _ => l3_steps s' rest end
  end.

(** What Raft guarantees of the calls: appends continue above the tail, and the values
    serialize to something the store can hold. *)
Definition op_ok (m : Mem) (op : raft_op) : Prop :=
  match op with
  | RAppend es => chain (mem_tail m) es
  | RPurge i => ser_ok i
  | RSaveVote v => ser_ok v
  | RSaveCommitted c => forall i, c = Some i -> ser_ok i
  | RTruncate _ | RRestart => True
  end.

Fixpoint ops_ok (m : Mem) (ops : list ((nat -> Env) * raft_op)) : Prop :=
  match ops with
  | [] => True
  | (env, op) :: rest => (forall i, env_ok (env i)) /\ op_ok m op /\ ops_ok (mem_step m op) rest
  end.

Lemma step_refines env s m op :
  refines s m -> (forall i, env_ok (env i)) -> op_ok m op ->
  exists s', l3_step env s op = (s', Ok tt) /\ refines s' (mem_step m op).
Proof.
  intros Hr He Ho. destruct op as [es|i|i|v|c|]; cbn [l3_step mem_step op_ok] in *.
  - by apply append_refines.
  - by apply truncate_refines.
  - by apply purge_refines.
  - by apply save_vote_refines.
  - by apply save_committed_refines.
  - exists s. by rewrite (open_refines env s m).
Qed.

Lemma steps_refine ops : forall s m,
  refines s m -> ops_ok m ops ->
  exists s', l3_steps s ops = (s', Ok tt) /\ refines s' (foldl mem_step m ops.*2).
Proof.
  induction ops as [|[env op] ops IH]; intros s m Hr Ho; [by exists s|].
  destruct Ho as (He & Hop & Ho). cbn [l3_steps].
  destruct (step_refines env s m op Hr He Hop) as (s1 & -> & Hr1). by apply IH.
Qed.

Lemma fresh_refines env l :
  OK l -> (forall i, env_ok (env i)) -> holds LOG_PREFIX (M l) ∅ ->
  M l !! VOTE_KEY = None -> M l !! COMMITTED_KEY = None -> M l !! LAST_PURGED_KEY = None ->
  exists s, L3RaftLogStore_open (A := A) env l = Ok s /\ refines s MemLogStore_new.
Proof.
  intros Hok He Hh Hv Hc Hp.
  set (s := {| rl3 := l; cache := {| c_vote := None; c_committed := None; c_last_purged := None;
                                     c_last_log_id := None |} |} : L3Log).
  assert (Hr : refines s MemLogStore_new).
  { split; try done. exists ∅. split; [done|]. intros i. cbn. by rewrite !lookup_empty. }
  exists s. split; [|done]. exact (open_refines env s MemLogStore_new Hr He).
Qed.

(** C13. Over any sequence of log operations Raft may issue, with restarts anywhere in it, the
    L3-backed log opened on a store without Raft data answers every read exactly as the
    in-memory log would: log state, vote, committed marker and any (well-formed) range of
    entries. Nothing acknowledged is lost or altered by a restart. *)
Theorem raft_log_refines env l ops :
  OK l -> (forall i, env_ok (env i)) -> holds LOG_PREFIX (M l) ∅ ->
  M l !! VOTE_KEY = None -> M l !! COMMITTED_KEY = None -> M l !! LAST_PURGED_KEY = None ->
  ops_ok MemLogStore_new ops ->
  exists s s', L3RaftLogStore_open (A := A) env l = Ok s /\ l3_steps s ops = (s', Ok tt)
    /\ let m := foldl mem_step MemLogStore_new ops.*2 in
       l3_get_log_state s' = mem_get_log_state m
       /\ l3_read_vote s' = mem_read_vote m
       /\ l3_read_committed s' = mem_read_committed m
       /\ forall e lo hi es, env_ok e -> mem_try_get_log_entries m lo hi = Some es ->
            l3_try_get_log_entries (A := A) e s' lo hi = Ok es.
Proof.
  intros Hok He Hh Hv Hc Hp Hops. destruct (fresh_refines env l Hok He Hh Hv Hc Hp) as (s & Hopen & Hr).
  destruct (steps_refine ops s MemLogStore_new Hr Hops) as (s' & Hrun & Hr').
  exists s, s'. split; [done|]. split; [done|]. intros m.
  split; [unfold l3_get_log_state, mem_get_log_state; by rewrite (rf_purged _ _ Hr'), (rf_tail _ _ Hr')|].
  split; [apply (rf_vote _ _ Hr')|]. split; [apply (rf_committed _ _ Hr')|].
  intros e lo hi es Hen. unfold mem_try_get_log_entries. destruct (range_panics lo hi); [done|].
  intros [= <-]. unfold l3_try_get_log_entries.
  destruct (scan_refines e s' _ Hr' (proj1 Hen)) as (kvs & -> & Hs). by apply collect_scanned.
Qed.
End Refinement.

(** * Example: append, restart, truncate, append in a later term, purge, restart *)

Definition id_codec : Codec LogId :=
  tuple_codec (fun i => (term i, leader i, index i)) (fun '(t, l, i) => {| term := t; leader := l; index := i |}).
Definition entry_codec : Codec (Entry Z) :=
  tuple_codec (fun e => (term (log_id e), leader (log_id e), index (log_id e), payload e))
    (fun '(t, l, i, p) => {| log_id := {| term := t; leader := l; index := i |}; payload := p |}).
Definition vote_codec : Codec Z := tuple_codec id id.

Definition mk_id (t i : Z) : LogId := {| term := t; leader := 1; index := i |}.
Definition mk_entry (t i p : Z) : Entry Z := {| log_id := mk_id t i; payload := p |}.

Definition raft_ops_a : list ((nat -> Env) * @raft_op Z Z) :=
  (fun op => (fun _ => good_env, op)) <$>
  [RAppend [mk_entry 1 1 10; mk_entry 1 2 20; mk_entry 1 3 30]; RSaveVote 7; RRestart;
   RTruncate (mk_id 1 3); RAppend [mk_entry 2 3 31]; RPurge (mk_id 1 1); RSaveCommitted (Some (mk_id 1 2));
   RRestart]%Z.

Lemma raft_log_refines_witness :
  exists s s', @L3RaftLogStore_open Z Z _ redb_l3 entry_codec vote_codec id_codec (fun _ => good_env) redb_a = Ok s
    /\ @l3_steps Z Z _ redb_l3 entry_codec vote_codec id_codec s raft_ops_a = (s', Ok tt)
    /\ l3_get_log_state s' = {| last_purged_log_id := Some (mk_id 1 1); last_log_id := Some (mk_id 2 3) |}
    /\ @l3_try_get_log_entries Z Z _ redb_l3 entry_codec good_env s' (Included 1) Unbounded
       = Ok [mk_entry 1 2 20; mk_entry 2 3 31].
Proof.
  destruct (@raft_log_refines Z Z _ redb_l3 (redb_map id) (redb_ok id) (fun _ => True) (redb_laws id)
    entry_codec ltac:(apply tuple_codec_laws; by intros [[]]) vote_codec ltac:(by apply tuple_codec_laws)
    id_codec ltac:(apply tuple_codec_laws; by intros []) I (fun _ => good_env) redb_a raft_ops_a)
    as (s & s' & Ho & Hs & Hst & _ & _ & Hg).
  - by intros k v Hk.
  - intros _. by split.
  - apply holds_empty.
  - done.
  - done.
  - done.
  - repeat (split || by eexists); try done; try (intros ? [= <-]; by eexists).
  - exists s, s'. split; [exact Ho|]. split; [exact Hs|]. split; [rewrite Hst; by vm_compute|].
    apply Hg; [by split|]. by vm_compute.
Defined.
