(* ===== verification/ClusterStore.v ===== *)
(** The replicated cluster state machine ([StateMachineStore], crates/aeon-cluster/src/store.rs)
    over [ClusterSnapshot] (src/snapshot.rs) and the requests of src/types.rs: applying
    committed entries, the owned-partitions watch, building, installing and recovering
    snapshots.

    Parameters: the iteration order [iter] of a node's partition table, the registry behind the
    [RegistryApplier] trait, the snapshot cipher, openraft's membership type and the
    serializers. *)
From stdpp Require Import base gmap list strings sorting pretty.
From S2P Require Import Prelude Types Kv CheckpointWal RaftLog Partition.

(** * Requests, responses and the snapshot *)

Inductive ClusterRequest :=
| AssignPartition (partition : PartitionId) (node : NodeId)
| BeginTransfer (partition : PartitionId) (source target : NodeId)
| CompleteTransfer (partition : PartitionId) (new_owner : NodeId)
| AbortTransfer (partition : PartitionId) (revert_to : NodeId)
| UpdateConfig (key value : string)
| SubmitCheckpoint (source_offsets : gmap Z Z)
| RebalancePartitions (nodes : list NodeId)
| InitialAssignment (num_partitions : Z) (nodes : list NodeId)
| Registry (payload : bytes).

Inductive ClusterResponse :=
| RespOk
| RespError (reason : string)
| RespRegistry (resp : bytes).

Record ClusterSnapshot := {
  partition_table : gmap Z PartitionOwnership;
  last_applied_log_index : Z;
  last_applied_log_term : Z;
  source_anchor_offsets : gmap Z Z;
  poh_checkpoint : option bytes;
  config_overrides : gmap string string;
}.

Definition ClusterSnapshot_default : ClusterSnapshot :=
  {| partition_table := ∅; last_applied_log_index := 0; last_applied_log_term := 0;
     source_anchor_offsets := ∅; poh_checkpoint := None; config_overrides := ∅ |}.

Definition new_single_node (num_partitions : Z) (node_id : NodeId) : ClusterSnapshot :=
  {| partition_table := single_node num_partitions node_id;
     last_applied_log_index := 0; last_applied_log_term := 0;
     source_anchor_offsets := ∅; poh_checkpoint := None; config_overrides := ∅ |}.

Definition set_table (t : gmap Z PartitionOwnership) (s : ClusterSnapshot) : ClusterSnapshot :=
  {| partition_table := t; last_applied_log_index := last_applied_log_index s;
     last_applied_log_term := last_applied_log_term s;
     source_anchor_offsets := source_anchor_offsets s; poh_checkpoint := poh_checkpoint s;
     config_overrides := config_overrides s |}.
Definition set_offsets (o : gmap Z Z) (s : ClusterSnapshot) : ClusterSnapshot :=
  {| partition_table := partition_table s; last_applied_log_index := last_applied_log_index s;
     last_applied_log_term := last_applied_log_term s; source_anchor_offsets := o;
     poh_checkpoint := poh_checkpoint s; config_overrides := config_overrides s |}.
Definition set_config (c : gmap string string) (s : ClusterSnapshot) : ClusterSnapshot :=
  {| partition_table := partition_table s; last_applied_log_index := last_applied_log_index s;
     last_applied_log_term := last_applied_log_term s;
     source_anchor_offsets := source_anchor_offsets s; poh_checkpoint := poh_checkpoint s;
     config_overrides := c |}.
Definition set_applied (i : LogId) (s : ClusterSnapshot) : ClusterSnapshot :=
  {| partition_table := partition_table s; last_applied_log_index := index i;
     last_applied_log_term := term i; source_anchor_offsets := source_anchor_offsets s;
     poh_checkpoint := poh_checkpoint s; config_overrides := config_overrides s |}.

(** One offset of a submitted checkpoint: [entry(pid).or_insert(0)], then
    [if offset > *entry as i64 { *entry = offset as u64 }]. *)
Definition merge_offset (offsets : gmap Z Z) (kv : Z * Z) : gmap Z Z :=
  let entry := default 0%Z (offsets !! fst kv) in
  <[fst kv := if (as_i64 entry <? snd kv)%Z then u64 (snd kv) else entry]> offsets.

(** * The registry behind the [RegistryApplier] trait *)

Class RegistryApplier (R : Type) := {
  RegistryCommand : Type;
  RegistryResponse : Type;
  reg_apply : R -> RegistryCommand -> R * RegistryResponse;
  (** serde_json *)
  json_command : bytes -> option RegistryCommand;
  json_response : RegistryResponse -> option bytes;
}.

(** The snapshot cipher ([EtmKey]), the random draw being an argument. *)
Class SnapshotCipher := {
  EtmKey : Type;
  etm_encrypt : EtmKey -> bytes -> bytes -> option bytes;
  etm_decrypt : EtmKey -> bytes -> option bytes;
}.

Section ClusterStore.
Variable iter : gmap Z PartitionOwnership -> list (Z * PartitionOwnership).
Variable iter_offsets : gmap Z Z -> list (Z * Z).

(** * [apply_request]; [None] is a panic *)

Definition apply_moves_table (t : gmap Z PartitionOwnership) (moves : list (Z * Z * Z))
    : gmap Z PartitionOwnership :=
  foldl (fun t m => assign t (fst (fst m)) (snd m)) t moves.

Definition apply_request (state : ClusterSnapshot) (req : ClusterRequest)
    : option (ClusterSnapshot * ClusterResponse) :=
  let t := partition_table state in
  match req with
  | AssignPartition p node => Some (set_table (assign t p node) state, RespOk)
  | BeginTransfer p source target =>
    match get t p with
    | Some (Owned owner) =>
      if decide (owner = source) then Some (set_table (begin_transfer t p source target) state, RespOk)
      else Some (state, RespError "partition not owned by node")
    | Some (Transferring _ _) => Some (state, RespError "partition already in transfer")
    | None => Some (state, RespError "partition not owned by node")
    end
  | CompleteTransfer p new_owner =>
    match get t p with
    | Some (Transferring _ target) =>
      if decide (target = new_owner) then Some (set_table (complete_transfer t p new_owner) state, RespOk)
      else Some (state, RespError "no active transfer for partition")
    | Some (Owned owner) =>
      if decide (owner = new_owner) then Some (state, RespOk)
      else Some (state, RespError "no active transfer for partition")
    | None => Some (state, RespError "no active transfer for partition")
    end
  | AbortTransfer p revert_to => Some (set_table (assign t p revert_to) state, RespOk)
  | UpdateConfig key value => Some (set_config (<[key := value]> (config_overrides state)) state, RespOk)
  | SubmitCheckpoint offs =>
    Some (set_offsets (foldl merge_offset (source_anchor_offsets state) (iter_offsets offs)) state, RespOk)
  | RebalancePartitions nodes =>
    Some (set_table (apply_moves_table t (compute_rebalance iter t nodes)) state, RespOk)
  | Registry _ => Some (state, RespError "ClusterRequest::Registry must be dispatched via async apply")
  | InitialAssignment n nodes =>
    if decide (iter t = []) then
      match initial_assignment n nodes with
      | Some a => Some (set_table (foldl (fun t e => assign t (fst e) (snd e)) t a) state, RespOk)
      | None => None
      end
    else Some (state, RespOk)
  end.

(** * The state machine *)

Context {Membership R S : Type} `{RegistryApplier R} `{SnapshotCipher} `{L3Store S}.

Inductive EntryPayload := Blank | Normal (req : ClusterRequest) | MembershipEntry (m : Membership).

(** [StoredMembership]: where it was logged, and the membership. *)
Definition StoredMembership : Type := option LogId * Membership.

Record SnapshotMeta := {
  meta_last_log_id : option LogId;
  meta_last_membership : StoredMembership;
  snapshot_id : string;
}.

(** The owned-partitions watch: whose node, the value the receivers see, how often they were
    woken. *)
Record OwnedPartitionsWatch := { watch_node : NodeId; watch_current : list PartitionId; watch_wakeups : nat }.

Record StateMachineStore := {
  state : ClusterSnapshot;
  last_applied_log : option LogId;
  last_membership : StoredMembership;
  snapshot_idx : Z;
  encryption_key : option EtmKey;
  shared_state : ClusterSnapshot;
  snapshot_store : option S;
  registry_applier : option R;
  owned_partitions_watch : option OwnedPartitionsWatch;
}.

(** [StateMachineStore::new], or [with_encryption_key]; [no_members] is the empty membership. *)
Definition StateMachineStore_new (no_members : Membership) (key : option EtmKey) : StateMachineStore :=
  {| state := ClusterSnapshot_default; last_applied_log := None; last_membership := (None, no_members);
     snapshot_idx := 0; encryption_key := key; shared_state := ClusterSnapshot_default;
     snapshot_store := None; registry_applier := None; owned_partitions_watch := None |}.

Definition sm_set (sm : StateMachineStore) (st : ClusterSnapshot) (applied : option LogId)
    (mem : StoredMembership) (r : option R) : StateMachineStore :=
  {| state := st; last_applied_log := applied; last_membership := mem;
     snapshot_idx := snapshot_idx sm; encryption_key := encryption_key sm;
     shared_state := shared_state sm; snapshot_store := snapshot_store sm;
     registry_applier := r; owned_partitions_watch := owned_partitions_watch sm |}.

Definition sm_shared (sm : StateMachineStore) (shared : ClusterSnapshot) (w : option OwnedPartitionsWatch)
    : StateMachineStore :=
  {| state := state sm; last_applied_log := last_applied_log sm; last_membership := last_membership sm;
     snapshot_idx := snapshot_idx sm; encryption_key := encryption_key sm; shared_state := shared;
     snapshot_store := snapshot_store sm; registry_applier := registry_applier sm;
     owned_partitions_watch := w |}.

Definition sm_store (sm : StateMachineStore) (l : option S) : StateMachineStore :=
  {| state := state sm; last_applied_log := last_applied_log sm; last_membership := last_membership sm;
     snapshot_idx := snapshot_idx sm; encryption_key := encryption_key sm;
     shared_state := shared_state sm; snapshot_store := l; registry_applier := registry_applier sm;
     owned_partitions_watch := owned_partitions_watch sm |}.

(** [send_if_modified]: identical lists skip the push. *)
Definition broadcast_owned_partitions (sm : StateMachineStore) : option OwnedPartitionsWatch :=
  match owned_partitions_watch sm with
  | None => None
  | Some w =>
    let owned := merge_sort Z.le (partitions_for_node iter (partition_table (state sm)) (watch_node w)) in
    if decide (watch_current w = owned) then Some w
    else Some {| watch_node := watch_node w; watch_current := owned; watch_wakeups := watch_wakeups w + 1 |}
  end.

(** The [Registry] arm of [apply]. *)
Definition apply_registry (r : option R) (payload : bytes) : option R * ClusterResponse :=
  match json_command payload with
  | None => (r, RespError "malformed Registry payload")
  | Some cmd =>
    match r with
    | None => (None, RespOk)
    | Some reg =>
      let '(reg', rresp) := reg_apply reg cmd in
      (Some reg', match json_response rresp with
                  | Some bs => RespRegistry bs
                  | None => RespError "RegistryResponse serialize failed"
                  end)
    end
  end.

Definition apply_entry (sm : StateMachineStore) (e : Entry EntryPayload)
    : option (StateMachineStore * ClusterResponse) :=
  let st := set_applied (log_id e) (state sm) in
  let applied := Some (log_id e) in
  match payload e with
  | Blank => Some (sm_set sm st applied (last_membership sm) (registry_applier sm), RespOk)
  | Normal (Registry p) =>
    let '(r, resp) := apply_registry (registry_applier sm) p in
    Some (sm_set sm st applied (last_membership sm) r, resp)
  | Normal req =>
    match apply_request st req with
    | Some (st', resp) => Some (sm_set sm st' applied (last_membership sm) (registry_applier sm), resp)
    | None => None
    end
  | MembershipEntry m =>
    Some (sm_set sm st applied (Some (log_id e), m) (registry_applier sm), RespOk)
  end.

Fixpoint apply_entries (sm : StateMachineStore) (es : list (Entry EntryPayload))
    : option (StateMachineStore * list ClusterResponse) :=
  match es with
  | [] => Some (sm, [])
  | e :: rest =>
    match apply_entry sm e with
    | None => None
    | Some (sm1, resp) =>
      match apply_entries sm1 rest with
      | None => None
      | Some (sm2, resps) => Some (sm2, resp :: resps)
      end
    end
  end.

(** [apply]: the batch, then the shared read handle and the watch. *)
Definition apply (sm : StateMachineStore) (es : list (Entry EntryPayload))
    : option (StateMachineStore * list ClusterResponse) :=
  match apply_entries sm es with
  | None => None
  | Some (sm1, resps) => Some (sm_shared sm1 (state sm1) (broadcast_owned_partitions sm1), resps)
  end.

(** * Snapshots *)

(** b"raft/snapshot/meta", b"raft/snapshot/data" *)
Definition SNAPSHOT_META_KEY : bytes :=
  [114; 97; 102; 116; 47; 115; 110; 97; 112; 115; 104; 111; 116; 47; 109; 101; 116; 97]%Z.
Definition SNAPSHOT_DATA_KEY : bytes :=
  [114; 97; 102; 116; 47; 115; 110; 97; 112; 115; 104; 111; 116; 47; 100; 97; 116; 97]%Z.

Context `{Codec ClusterSnapshot} `{Codec SnapshotMeta}.

Definition persist_snapshot_bytes (env : nat -> Env) (l : S) (meta : SnapshotMeta) (data : bytes)
    : S * Result unit :=
  match serialize meta with
  | None => (l, Err (Cluster "snapshot meta serialization failed"))
  | Some mb =>
    let '(l', r) := l3_write_batch (env 0) l
      [(BPut, SNAPSHOT_META_KEY, Some mb); (BPut, SNAPSHOT_DATA_KEY, Some data)] in
    (l', let? _ := r in l3_flush (env 1) l')
  end.

(** Encrypt or decrypt when a key is configured. *)
Definition maybe_encrypt (key : option EtmKey) (rnd : bytes) (data : bytes) : Result bytes :=
  match key with
  | None => Ok data
  | Some k => match etm_encrypt k rnd data with Some ct => Ok ct | None => Err (Crypto "snapshot encryption failed") end
  end.
Definition maybe_decrypt (key : option EtmKey) (data : bytes) : Result bytes :=
  match key with
  | None => Ok data
  | Some k => match etm_decrypt k data with Some pt => Ok pt | None => Err (Crypto "snapshot decryption failed") end
  end.

Definition encode_state (st : ClusterSnapshot) : Result bytes :=
  match serialize st with Some bs => Ok bs | None => Err (State "snapshot to_bytes") end.
Definition decode_state (bs : bytes) : Result ClusterSnapshot :=
  match deserialize bs with Some st => Ok st | None => Err (Cluster "corrupt raft snapshot data") end.

Definition applied_index (sm : StateMachineStore) : Z :=
  match last_applied_log sm with Some i => index i | None => 0 end.

(** [build_snapshot] on the builder's copy of the state; the L3 handle is shared. *)
Definition build_snapshot (env : nat -> Env) (sm : StateMachineStore)
    : option S * Result (SnapshotMeta * bytes) :=
  match (let? data := encode_state (state sm) in maybe_encrypt (encryption_key sm) (e_rnd (env 2) 0) data) with
  | Err er => (snapshot_store sm, Err er)
  | Ok data =>
    let meta := {| meta_last_log_id := last_applied_log sm; meta_last_membership := last_membership sm;
                   snapshot_id := "snap-" +:+ pretty (applied_index sm) +:+ "-" +:+ pretty (snapshot_idx sm) |} in
    match snapshot_store sm with
    | None => (None, Ok (meta, data))
    | Some l => let '(l', r) := persist_snapshot_bytes env l meta data in
                (Some l', let? _ := r in Ok (meta, data))
    end
  end.

(** [get_snapshot_builder]: a point-in-time copy. *)
Definition get_snapshot_builder (sm : StateMachineStore) : StateMachineStore * StateMachineStore :=
  let sm' := {| state := state sm; last_applied_log := last_applied_log sm;
                last_membership := last_membership sm; snapshot_idx := u64 (snapshot_idx sm + 1);
                encryption_key := encryption_key sm; shared_state := shared_state sm;
                snapshot_store := snapshot_store sm; registry_applier := registry_applier sm;
                owned_partitions_watch := owned_partitions_watch sm |} in
  (sm', sm').

Definition get_current_snapshot (env : nat -> Env) (sm : StateMachineStore)
    : Result (option (SnapshotMeta * bytes)) :=
  match last_applied_log sm with
  | None => Ok None
  | Some i =>
    let? data := encode_state (state sm) in
    let? data := maybe_encrypt (encryption_key sm) (e_rnd (env 2) 0) data in
    Ok (Some ({| meta_last_log_id := last_applied_log sm; meta_last_membership := last_membership sm;
                 snapshot_id := "snap-" +:+ pretty (index i) +:+ "-current" |}, data))
  end.

(** [install_snapshot]: decrypt, persist the received bytes, decode, replace the state. *)
Definition install_snapshot (env : nat -> Env) (sm : StateMachineStore) (meta : SnapshotMeta) (raw : bytes)
    : StateMachineStore * Result unit :=
  match maybe_decrypt (encryption_key sm) raw with
  | Err er => (sm, Err er)
  | Ok data =>
    let '(store, r) := match snapshot_store sm with
                       | None => (None, Ok tt)
                       | Some l => let '(l', r) := persist_snapshot_bytes env l meta raw in (Some l', r)
                       end in
    let sm := sm_store sm store in
    match r with
    | Err er => (sm, Err er)
    | Ok _ =>
      match decode_state data with
      | Err er => (sm, Err er)
      | Ok st =>
        let sm1 := sm_set sm st (meta_last_log_id meta) (meta_last_membership meta) (registry_applier sm) in
        (sm_shared sm1 (state sm1) (broadcast_owned_partitions sm1), Ok tt)
      end
    end
  end.

Definition hydrate_from_l3 (env : nat -> Env) (sm : StateMachineStore) (l : S) : Result StateMachineStore :=
  let? mb := l3_get (env 0) l SNAPSHOT_META_KEY in
  let? db := l3_get (env 1) l SNAPSHOT_DATA_KEY in
  match mb, db with
  | Some mb, Some db =>
    match deserialize (A := SnapshotMeta) mb with
    | None => Err (Cluster "corrupt raft snapshot meta")
    | Some meta =>
      let? data := maybe_decrypt (encryption_key sm) db in
      let? st := decode_state data in
      Ok (sm_shared (sm_set sm st (meta_last_log_id meta) (meta_last_membership meta) (registry_applier sm))
            st (owned_partitions_watch sm))
    end
  | _, _ => Ok sm
  end.

(** [new_persistent] and [new_persistent_encrypted]. *)
Definition new_persistent (env : nat -> Env) (no_members : Membership) (key : option EtmKey) (l : S)
    : Result StateMachineStore :=
  let? sm := hydrate_from_l3 env (StateMachineStore_new no_members key) l in
  Ok (sm_store sm (Some l)).
End ClusterStore.
