(* ===== verification/ClusterProofs.v ===== *)
(** Properties of the replicated state machine of [ClusterStore]. *)
From stdpp Require Import base gmap list strings sorting pretty.
From S2P Require Import Prelude Types Kv CheckpointWal AtRest L3 RaftLog Partition PartitionProofs ClusterStore.

(** * Checkpoint offsets *)

Definition i64_nonneg (x : Z) : Prop := (0 <= x < 2 ^ 63)%Z.
Definition is_i64 (x : Z) : Prop := (- 2 ^ 63 <= x < 2 ^ 63)%Z.

(** An offset that fits in [i64] is merged by taking the larger. *)
Lemma merge_offset_max offs kv :
  map_Forall (fun _ v => i64_nonneg v) offs -> is_i64 (snd kv) ->
  merge_offset offs kv = <[fst kv := Z.max (default 0%Z (offs !! fst kv)) (snd kv)]> offs.
Proof.
  intros Hf Hk. unfold merge_offset. f_equal.
  assert (He : i64_nonneg (default 0%Z (offs !! fst kv))).
  { destruct (offs !! fst kv) as [v|] eqn:E; [exact (Hf _ _ E)|]. cbn. unfold i64_nonneg. lia. }
  unfold i64_nonneg, is_i64 in *. unfold as_i64. rewrite decide_True by lia.
  destruct (Z.ltb_spec (default 0%Z (offs !! fst kv)) (snd kv)); [|lia].
  rewrite wrap_small by lia. lia.
Qed.

Lemma merge_offset_inv offs kv :
  map_Forall (fun _ v => i64_nonneg v) offs -> is_i64 (snd kv) ->
  map_Forall (fun _ v => i64_nonneg v) (merge_offset offs kv).
Proof.
  intros Hf Hk. rewrite merge_offset_max by done. apply map_Forall_insert_2; [|done].
  unfold i64_nonneg, is_i64 in *. destruct (offs !! fst kv) as [v|] eqn:E; [specialize (Hf _ _ E)|]; cbn in *; lia.
Qed.

Lemma merge_offsets_lookup l : forall offs,
  map_Forall (fun _ v => i64_nonneg v) offs -> Forall (fun kv => is_i64 (snd kv)) l -> NoDup l.*1 ->
  map_Forall (fun _ v => i64_nonneg v) (foldl merge_offset offs l)
  /\ forall p, foldl merge_offset offs l !! p =
       match list_to_map (M := gmap Z Z) l !! p with
       | Some o => Some (Z.max (default 0%Z (offs !! p)) o)
       | None => offs !! p
       end.
Proof.
  induction l as [|kv l IH]; intros offs Hf Hl HN; [done|]. cbn in HN.
  apply NoDup_cons in HN as [Hn HN]. apply Forall_cons in Hl as [Hk Hl]. cbn [foldl].
  destruct (IH _ (merge_offset_inv _ _ Hf Hk) Hl HN) as [Hinv Hlk]. split; [done|].
  intros p. rewrite Hlk, merge_offset_max by done. destruct kv as [k o]. cbn [list_to_map foldr fst snd] in *.
  destruct (decide (k = p)) as [->|Hne].
  - rewrite (not_elem_of_list_to_map_1 l p) by done. cbn. by rewrite !lookup_insert_eq.
  - cbn. by rewrite !lookup_insert_ne by done.
Qed.

(** C14. [SubmitCheckpoint] merges by maximum: whatever order the submitted map is iterated
    in, each partition's anchor becomes the larger of the old anchor (0 when absent) and the
    submitted offset, other partitions keep theirs, nothing else of the state changes and
    anchors never move backwards or leave the range an [i64] can represent. *)
Theorem submit_checkpoint_monotone iter iter_offsets st offs st' resp :
  (forall m, iter_offsets m ≡ₚ map_to_list m) ->
  map_Forall (fun _ v => i64_nonneg v) (source_anchor_offsets st) ->
  map_Forall (fun _ v => is_i64 v) offs ->
  apply_request iter iter_offsets st (SubmitCheckpoint offs) = Some (st', resp) ->
  resp = RespOk /\ st' = set_offsets (source_anchor_offsets st') st
  /\ map_Forall (fun _ v => i64_nonneg v) (source_anchor_offsets st')
  /\ forall p, source_anchor_offsets st' !! p =
       match offs !! p with
       | Some o => Some (Z.max (default 0%Z (source_anchor_offsets st !! p)) o)
       | None => source_anchor_offsets st !! p
       end.
Proof.
  intros Hit Hinv Hoffs [= <- <-]. split; [done|]. split; [done|]. cbn.
  assert (HN : NoDup (iter_offsets offs).*1) by (rewrite Hit; apply NoDup_fst_map_to_list).
  destruct (merge_offsets_lookup (iter_offsets offs) (source_anchor_offsets st)) as [H1 H2]; [done| |done|].
  { rewrite Hit. apply map_Forall_to_list in Hoffs. eapply Forall_impl; [exact Hoffs|]. by intros []. }
  split; [done|]. intros p. rewrite H2. f_equal.
  rewrite (list_to_map_proper (iter_offsets offs) (map_to_list offs) HN (Hit offs)).
  by rewrite list_to_map_to_list.
Qed.

(** * Two-phase handover *)

(** Runs of requests, stopping at a panic. *)
Fixpoint apply_requests iter iter_offsets (st : ClusterSnapshot) (reqs : list ClusterRequest)
    : option ClusterSnapshot :=
  match reqs with
  | [] => Some st
  | r :: rest =>
    match apply_request iter iter_offsets st r with
    | Some (st', _) => apply_requests iter iter_offsets st' rest
    | None => None
    end
  end.

(** Requests that set the owner of [p] outright. *)
Definition overrides (p : Z) (r : ClusterRequest) : bool :=
  match r with
  | AssignPartition q _ | AbortTransfer q _ => bool_decide (p = q)
  | RebalancePartitions _ => true
  | _ => false
  end.

Definition owner_in (st : ClusterSnapshot) (p : Z) : option PartitionOwnership := partition_table st !! p.

(** How one request that does not override [p] moves an assigned partition. *)
Lemma request_ownership iter iter_offsets st r st' resp p o :
  (forall t, iter t ≡ₚ map_to_list t) -> overrides p r = false -> owner_in st p = Some o ->
  apply_request iter iter_offsets st r = Some (st', resp) ->
  owner_in st' p = Some o
  \/ (exists a b, r = BeginTransfer p a b /\ o = Owned a /\ owner_in st' p = Some (Transferring a b))
  \/ (exists a b, r = CompleteTransfer p b /\ o = Transferring a b /\ owner_in st' p = Some (Owned b)).
Proof.
  intros Hit Hov Ho Hr. unfold owner_in in *. destruct r; cbn in Hov, Hr; unfold get in Hr.
  - simplify_eq. left. cbn. apply bool_decide_eq_false in Hov. unfold assign. by rewrite lookup_insert_ne.
  - destruct (decide (partition = p)) as [->|Hne].
    + rewrite Ho in Hr. destruct o as [n|a b]; [|simplify_eq; by left].
      destruct (decide (n = source)) as [->|]; simplify_eq; [|by left]. right. left.
      exists source, target. cbn. unfold begin_transfer. by rewrite lookup_insert_eq.
    + left. destruct (partition_table st !! partition) as [[n|a b]|]; repeat case_decide; simplify_eq; cbn;
        unfold begin_transfer; by rewrite ?lookup_insert_ne.
  - destruct (decide (partition = p)) as [->|Hne].
    + rewrite Ho in Hr. destruct o as [n|a b].
      * case_decide; simplify_eq; by left.
      * destruct (decide (b = new_owner)) as [->|]; simplify_eq; [|by left]. right. right.
        exists a, new_owner. cbn. unfold complete_transfer. by rewrite lookup_insert_eq.
    + left. destruct (partition_table st !! partition) as [[n|a b]|]; repeat case_decide; simplify_eq; cbn;
        unfold complete_transfer; by rewrite ?lookup_insert_ne.
  - simplify_eq. left. cbn. apply bool_decide_eq_false in Hov. unfold assign. by rewrite lookup_insert_ne.
  - simplify_eq. by left.
  - simplify_eq. by left.
  - done.
  - case_decide as He; [|simplify_eq; by left]. exfalso.
    assert (Hin : (p, o) ∈ iter (partition_table st)) by (by rewrite Hit, elem_of_map_to_list).
    rewrite He in Hin. by apply not_elem_of_nil in Hin.
  - simplify_eq. by left.
Qed.

Section Handover.
Variables (iter : gmap Z PartitionOwnership -> list (Z * PartitionOwnership))
          (iter_offsets : gmap Z Z -> list (Z * Z)).
Hypothesis iter_perm : forall t, iter t ≡ₚ map_to_list t.

Lemma handover_transferring reqs : forall st st' p a b o',
  forallb (fun r => negb (overrides p r)) reqs = true ->
  owner_in st p = Some (Transferring a b) -> apply_requests iter iter_offsets st reqs = Some st' ->
  owner_in st' p = Some o' -> o' <> Transferring a b ->
  exists mid post, reqs = mid ++ CompleteTransfer p b :: post.
Proof.
  induction reqs as [|r reqs IH]; intros st st' p a b o' Hov Ho Hrun Ho' Hne.
  { cbn in Hrun. by simplify_eq. }
  cbn in Hov, Hrun. apply andb_true_iff in Hov as [Hr Hov].
  destruct (apply_request _ _ st r) as [[st1 resp]|] eqn:E; [|done].
  destruct (request_ownership iter iter_offsets st r st1 resp p _ iter_perm ltac:(by destruct (overrides p r)) Ho E)
    as [H1|[(x & y & _ & ? & _)|(x & y & -> & [= -> ->] & _)]]; [|done|].
  - destruct (IH st1 st' p a b o' Hov H1 Hrun Ho' Hne) as (mid & post & ->). by exists (r :: mid), post.
  - by exists [], reqs.
Qed.

(** C15. A handover takes both phases: over any run of requests without an outright
    reassignment of the partition (assign, abort, rebalance), the partition's active node can
    only have changed from [a] if the run contains [BeginTransfer p a b] applied while [a]
    owned it and later [CompleteTransfer p b]; every other run leaves [a] serving it. *)
Theorem handover_two_phase st st' p a o' reqs :
  owner_in st p = Some (Owned a) ->
  forallb (fun r => negb (overrides p r)) reqs = true ->
  apply_requests iter iter_offsets st reqs = Some st' ->
  owner_in st' p = Some o' -> active_node o' <> a ->
  exists b pre mid post,
    reqs = pre ++ BeginTransfer p a b :: mid ++ CompleteTransfer p b :: post
    /\ exists st1, apply_requests iter iter_offsets st pre = Some st1 /\ owner_in st1 p = Some (Owned a).
Proof.
  revert st. induction reqs as [|r reqs IH]; intros st Ho Hov Hrun Ho' Hne.
  { cbn in Hrun. by simplify_eq. }
  cbn in Hov, Hrun. apply andb_true_iff in Hov as [Hr Hov].
  destruct (apply_request _ _ st r) as [[st1 resp]|] eqn:E; [|done].
  destruct (request_ownership iter iter_offsets st r st1 resp p _ iter_perm ltac:(by destruct (overrides p r)) Ho E)
    as [H1|[(x & b & -> & [= ->] & H1)|(x & y & _ & ? & _)]]; [| |done].
  - destruct (IH st1 H1 Hov Hrun Ho' Hne) as (b & pre & mid & post & -> & st2 & Hpre & Hst2).
    exists b, (r :: pre), mid, post. split; [done|]. exists st2. split; [|done]. cbn. by rewrite E.
  - destruct (handover_transferring reqs st1 st' p x b o' Hov H1 Hrun Ho') as (mid & post & ->).
    { intros ->. done. }
    exists b, [], mid, post. split; [done|]. by exists st.
Qed.
End Handover.

(** * Replicas *)

(** Two nodes iterate their tables in their own orders. *)
Section Replicas.
Variables (iter1 iter2 : gmap Z PartitionOwnership -> list (Z * PartitionOwnership))
          (io1 io2 : gmap Z Z -> list (Z * Z)).
Hypothesis iter1_perm : forall t, iter1 t ≡ₚ map_to_list t.
Hypothesis iter2_perm : forall t, iter2 t ≡ₚ map_to_list t.
Hypothesis io1_perm : forall t, io1 t ≡ₚ map_to_list t.
Hypothesis io2_perm : forall t, io2 t ≡ₚ map_to_list t.

Definition is_rebalance (r : ClusterRequest) : bool :=
  match r with RebalancePartitions _ => true | _ => false end.

Lemma merge_offset_comm offs k1 v1 k2 v2 :
  k1 <> k2 ->
  merge_offset (merge_offset offs (k1, v1)) (k2, v2) = merge_offset (merge_offset offs (k2, v2)) (k1, v1).
Proof.
  intros Hne. unfold merge_offset. cbn [fst snd]. rewrite !lookup_insert_ne by done.
  by rewrite insert_insert_ne.
Qed.

Lemma merge_offsets_perm l1 l2 : l1 ≡ₚ l2 -> forall offs,
  NoDup l1.*1 -> foldl merge_offset offs l1 = foldl merge_offset offs l2.
Proof.
  induction 1 as [|x l1 l2 _ IH|[k1 v1] [k2 v2] l|l1 l2 l3 Hp IH1 _ IH2]; intros offs HN; [done|..].
  - cbn in HN. apply NoDup_cons in HN as [_ HN]. cbn. by apply IH.
  - cbn in HN. apply NoDup_cons in HN as [Hn _]. cbn [foldl]. rewrite merge_offset_comm; [done|]. set_solver.
  - rewrite IH1 by done. apply IH2. by rewrite <-Hp.
Qed.

Lemma iter_nil_iff it : (forall t, it t ≡ₚ map_to_list t) -> forall t : gmap Z PartitionOwnership, it t = [] <-> t = ∅.
Proof.
  intros Hit t. split.
  - intros He. apply map_to_list_empty_iff. specialize (Hit t). rewrite He in Hit.
    symmetry. by apply Permutation_nil_l.
  - intros ->. apply Permutation_nil_r. rewrite Hit. by rewrite map_to_list_empty.
Qed.

Lemma replicas_request st r :
  is_rebalance r = false -> apply_request iter1 io1 st r = apply_request iter2 io2 st r.
Proof.
  intros Hr. destruct r; try done; cbn.
  - do 3 f_equal. apply merge_offsets_perm; [by rewrite io1_perm, io2_perm|].
    rewrite io1_perm. apply NoDup_fst_map_to_list.
  - destruct (decide (partition_table st = ∅)) as [He|He].
    + rewrite (decide_True (P := iter1 _ = [])) by (by apply (iter_nil_iff iter1)).
      by rewrite (decide_True (P := iter2 _ = [])) by (by apply (iter_nil_iff iter2)).
    + rewrite (decide_False (P := iter1 _ = [])) by (by rewrite (iter_nil_iff iter1)).
      by rewrite (decide_False (P := iter2 _ = [])) by (by rewrite (iter_nil_iff iter2)).
Qed.

Context {Membership R S : Type} `{RegistryApplier R} `{SnapshotCipher} `{L3Store S}.

Definition entry_rebalances (e : Entry (@EntryPayload Membership)) : bool :=
  match payload e with Normal r => is_rebalance r | _ => false end.

Lemma replicas_entry (sm : @StateMachineStore Membership R S _) e :
  entry_rebalances e = false -> apply_entry iter1 io1 sm e = apply_entry iter2 io2 sm e.
Proof.
  unfold entry_rebalances, apply_entry. destruct (payload e) as [|r|m]; [done| |done]. intros Hr.
  pose proof (replicas_request (set_applied (log_id e) (state sm)) r Hr) as E.
  destruct r; done || by rewrite E.
Qed.

Lemma sorted_owned t n :
  merge_sort Z.le (partitions_for_node iter1 t n) = merge_sort Z.le (partitions_for_node iter2 t n).
Proof.
  apply (StronglySorted_unique Z.le); [apply (StronglySorted_merge_sort _)..|].
  rewrite !merge_sort_Permutation. unfold partitions_for_node. by rewrite iter1_perm, iter2_perm.
Qed.

Lemma replicas_entries (sm : @StateMachineStore Membership R S _) es :
  forallb (fun e => negb (entry_rebalances e)) es = true ->
  apply_entries iter1 io1 sm es = apply_entries iter2 io2 sm es.
Proof.
  revert sm. induction es as [|e es IH]; intros sm Hes; [done|]. cbn in Hes |- *.
  apply andb_true_iff in Hes as [He Hes]. rewrite replicas_entry by (by destruct (entry_rebalances e)).
  destruct (apply_entry iter2 io2 sm e) as [[sm1 resp]|]; [|done]. by rewrite IH.
Qed.

(** C16. Replicas agree: two nodes whose tables are iterated in different orders, applying the
    same committed entries to the same state machine, end with the same state, responses,
    shared read handle and owned-partitions watch, for every log without a rebalance entry. *)
Theorem replicas_agree (sm : @StateMachineStore Membership R S _) es :
  forallb (fun e => negb (entry_rebalances e)) es = true ->
  apply iter1 io1 sm es = apply iter2 io2 sm es.
Proof.
  intros Hes. pose proof (replicas_entries sm es Hes) as Hrun.
  unfold apply. rewrite Hrun. destruct (apply_entries iter2 io2 sm es) as [[sm1 resps]|]; [|done].
  do 3 f_equal. unfold broadcast_owned_partitions. destruct (owned_partitions_watch sm1); [|done].
  by rewrite sorted_owned.
Qed.
End Replicas.

(** * Snapshots *)

Section Snapshots.
Context {Membership R S : Type} `{RegistryApplier R} `{SnapshotCipher} `{L3Store S}.
Context (M : S -> gmap bytes bytes) (OK : S -> Prop) (st : bytes -> Prop) `{!L3Laws S M OK st}.
Context `{Codec ClusterSnapshot} `{!CodecLaws ClusterSnapshot}.
Context `{Codec (@SnapshotMeta Membership)} `{!CodecLaws (@SnapshotMeta Membership)}.
Hypothesis etm_decrypt_encrypt : forall k rnd pt ct,
  etm_encrypt k rnd pt = Some ct -> etm_decrypt k ct = Some pt.
(** The node that builds the snapshot and the node that installs it iterate their tables in
    their own orders. *)
Variables (iter iter' : gmap Z PartitionOwnership -> list (Z * PartitionOwnership))
          (iter_offsets iter_offsets' : gmap Z Z -> list (Z * Z)).
Hypothesis iter_perm : forall t, iter t ≡ₚ map_to_list t.
Hypothesis iter_perm' : forall t, iter' t ≡ₚ map_to_list t.
Hypothesis iter_offsets_perm : forall t, iter_offsets t ≡ₚ map_to_list t.
Hypothesis iter_offsets_perm' : forall t, iter_offsets' t ≡ₚ map_to_list t.

Abbreviation SM := (@StateMachineStore Membership R S _).
Implicit Types sm : SM.

(** Two nodes with the same replicated state (their registries may differ). *)
Definition same_cluster (a b : SM) : Prop :=
  state a = state b /\ last_applied_log a = last_applied_log b /\ last_membership a = last_membership b.

Lemma maybe_decrypt_encrypt k rnd data ct :
  maybe_encrypt k rnd data = Ok ct -> maybe_decrypt k ct = Ok data.
Proof.
  unfold maybe_encrypt, maybe_decrypt. destruct k as [k|]; [|congruence].
  destruct (etm_encrypt k rnd data) eqn:E; [|done]. intros [= <-]. by rewrite (etm_decrypt_encrypt _ _ _ _ E).
Qed.

Lemma persist_ok env l meta mb data :
  OK l -> (forall i, env_ok (env i)) -> serialize meta = Some mb -> st mb -> st data ->
  exists l', persist_snapshot_bytes env l meta data = (l', Ok tt) /\ OK l'
    /\ M l' !! SNAPSHOT_META_KEY = Some mb /\ M l' !! SNAPSHOT_DATA_KEY = Some data.
Proof.
  intros Hok He Hm Hmb Hd. unfold persist_snapshot_bytes. rewrite Hm.
  destruct (l3_batch_ok (env 0) l [(BPut, SNAPSHOT_META_KEY, Some mb); (BPut, SNAPSHOT_DATA_KEY, Some data)]
              Hok (He 0)) as (l' & -> & Hok' & HM).
  { repeat constructor; lia. }
  { repeat constructor; done. }
  rewrite (l3_flush_ok (env 1) l' Hok' (proj1 (He 1))). exists l'. split; [done|]. split; [done|].
  rewrite HM. cbn [batch_result foldl batch_entry default]. split; [|by rewrite lookup_insert_eq].
  rewrite lookup_insert_ne by done. by rewrite lookup_insert_eq.
Qed.

(** The meta record [build_snapshot] writes. *)
Definition built_meta (sm : SM) : @SnapshotMeta Membership :=
  {| meta_last_log_id := last_applied_log sm; meta_last_membership := last_membership sm;
     snapshot_id := "snap-" +:+ pretty (applied_index sm) +:+ "-" +:+ pretty (snapshot_idx sm) |}.

(** The state and its meta record serialize, the cipher accepts them and the store holds them. *)
Definition snapshottable (rnd : bytes) (sm : SM) : Prop :=
  exists bs data mb, serialize (state sm) = Some bs /\ maybe_encrypt (encryption_key sm) rnd bs = Ok data
    /\ serialize (built_meta sm) = Some mb /\ st mb /\ st data.

Lemma same_cluster_entry (a b : SM) e :
  same_cluster a b ->
  match apply_entry iter' iter_offsets' a e, apply_entry iter' iter_offsets' b e with
  | Some (a', _), Some (b', _) => same_cluster a' b'
  | None, None => True
  | _, _ => False
  end.
Proof.
  intros (Hs & _ & Hm). unfold apply_entry. rewrite <-Hs, <-Hm.
  destruct (payload e) as [|r|m]; [done| |done].
  destruct r; try (by destruct (apply_request _ _ _ _) as [[st' resp]|]).
  by destruct (apply_registry (registry_applier a) payload) , (apply_registry (registry_applier b) payload).
Qed.

Lemma same_cluster_entries es : forall a b,
  same_cluster a b ->
  match apply_entries iter' iter_offsets' a es, apply_entries iter' iter_offsets' b es with
  | Some (a', _), Some (b', _) => same_cluster a' b'
  | None, None => True
  | _, _ => False
  end.
Proof.
  induction es as [|e es IH]; intros a b Hab; [done|]. cbn.
  pose proof (same_cluster_entry a b e Hab) as He.
  destruct (apply_entry _ _ a e) as [[a1 ra]|], (apply_entry _ _ b e) as [[b1 rb]|]; try done.
  specialize (IH a1 b1 He).
  by destruct (apply_entries _ _ a1 es) as [[a2 ?]|], (apply_entries _ _ b1 es) as [[b2 ?]|].
Qed.

(** Two nodes in the same replicated state stay in it, each in its own iteration order. *)
Lemma same_cluster_apply a b es :
  same_cluster a b -> forallb (fun e => negb (entry_rebalances e)) es = true ->
  match apply iter iter_offsets a es, apply iter' iter_offsets' b es with
  | Some (a', _), Some (b', _) => same_cluster a' b'
  | None, None => True
  | _, _ => False
  end.
Proof.
  intros Hab Hes. unfold apply.
  rewrite (replicas_entries iter iter' iter_offsets iter_offsets' iter_perm iter_perm'
             iter_offsets_perm iter_offsets_perm' a es Hes).
  pose proof (same_cluster_entries es a b Hab) as Hr.
  by destruct (apply_entries _ _ a es) as [[a2 ?]|], (apply_entries _ _ b es) as [[b2 ?]|].
Qed.

Lemma build_ok env sm l :
  (forall i, env_ok (env i)) -> snapshot_store sm = Some l -> OK l -> snapshottable (e_rnd (env 2) 0) sm ->
  exists l' bs data mb, build_snapshot env sm = (Some l', Ok (built_meta sm, data)) /\ OK l'
    /\ serialize (state sm) = Some bs /\ maybe_encrypt (encryption_key sm) (e_rnd (env 2) 0) bs = Ok data
    /\ serialize (built_meta sm) = Some mb /\ st mb /\ st data
    /\ M l' !! SNAPSHOT_META_KEY = Some mb /\ M l' !! SNAPSHOT_DATA_KEY = Some data.
Proof.
  intros He Hl Hok (bs & data & mb & Hbs & Hdata & Hmb & Hsm & Hsd).
  destruct (persist_ok env l (built_meta sm) mb data Hok He Hmb Hsm Hsd) as (l' & Hp & Hok' & Hm & Hd).
  exists l', bs, data, mb. split; [|done]. unfold build_snapshot, encode_state.
  rewrite Hbs, Hdata, Hl. fold (built_meta sm). by rewrite Hp.
Qed.

(** C17. Snapshots carry the replicated state: a snapshot built by one node is durable before
    it is returned, and restores the same state, applied position and membership on a restart of
    that node and on any other node that installs it; from there every suffix of the log without
    a rebalance entry leaves the two nodes in the same replicated state, although each iterates
    its own hash maps in its own order. *)
Theorem snapshot_restores env env' sm l :
  (forall i, env_ok (env i)) -> (forall i, env_ok (env' i)) ->
  snapshot_store sm = Some l -> OK l -> snapshottable (e_rnd (env 2) 0) sm ->
  exists l' meta data, build_snapshot env sm = (Some l', Ok (meta, data))
    /\ (forall no_members, exists sm_r, new_persistent env' no_members (encryption_key sm) l' = Ok sm_r
          /\ same_cluster sm sm_r /\ shared_state sm_r = state sm)
    /\ (forall sm2 l2, encryption_key sm2 = encryption_key sm -> snapshot_store sm2 = Some l2 -> OK l2 ->
          exists sm2', install_snapshot iter' env' sm2 meta data = (sm2', Ok tt)
            /\ same_cluster sm sm2' /\ shared_state sm2' = state sm
            /\ forall es, forallb (fun e => negb (entry_rebalances e)) es = true ->
                          match apply iter iter_offsets sm es, apply iter' iter_offsets' sm2' es with
                          | Some (a, _), Some (b, _) => same_cluster a b
                          | None, None => True
                          | _, _ => False
                          end).
Proof.
  intros He He' Hl Hok Hsn. destruct (build_ok env sm l He Hl Hok Hsn)
    as (l' & bs & data & mb & Hb & Hok' & Hbs & Hdata & Hmb & Hsm & Hsd & Hm & Hd).
  pose proof (maybe_decrypt_encrypt _ _ _ _ Hdata) as Hdec.
  exists l', (built_meta sm), data. split; [done|]. split.
  - intros nm. unfold new_persistent, hydrate_from_l3.
    rewrite (l3_get_ok (env' 0) l' _ Hok' (proj1 (He' 0))), Hm.
    rewrite (l3_get_ok (env' 1) l' _ Hok' (proj1 (He' 1))), Hd.
    rewrite (deserialize_serialize _ _ Hmb). cbn [encryption_key StateMachineStore_new]. rewrite Hdec.
    unfold decode_state. rewrite (deserialize_serialize _ _ Hbs). eexists. split; [done|]. done.
  - intros sm2 l2 Hk Hl2 Hok2. unfold install_snapshot. rewrite Hk, Hdec, Hl2.
    destruct (persist_ok env' l2 (built_meta sm) mb data Hok2 He' Hmb Hsm Hsd) as (l3 & -> & _ & _ & _).
    unfold decode_state. rewrite (deserialize_serialize _ _ Hbs). eexists. split; [done|].
    split; [done|]. split; [done|]. intros es Hes. by apply same_cluster_apply.
Qed.

(** [install_snapshot] persists the received bytes before it has decoded them: a payload that
    does not decode is rejected, and the node can no longer start. *)
Theorem install_persists_undecodable env env' sm l meta mb raw no_members :
  (forall i, env_ok (env i)) -> (forall i, env_ok (env' i)) ->
  snapshot_store sm = Some l -> OK l -> encryption_key sm = None ->
  serialize meta = Some mb -> st mb -> st raw -> deserialize (A := ClusterSnapshot) raw = None ->
  exists sm' l' er, install_snapshot iter env sm meta raw = (sm', Err er)
    /\ snapshot_store sm' = Some l'
    /\ new_persistent (R := R) env' no_members None l' = Err (Cluster "corrupt raft snapshot data").
Proof.
  intros He He' Hl Hok Hk Hmb Hsm Hsd Hraw. unfold install_snapshot. rewrite Hk, Hl. cbn [maybe_decrypt].
  destruct (persist_ok env l meta mb raw Hok He Hmb Hsm Hsd) as (l' & -> & Hok' & Hm & Hd).
  unfold decode_state at 1. rewrite Hraw. eexists _, l', _. split; [done|]. split; [done|].
  unfold new_persistent, hydrate_from_l3.
  rewrite (l3_get_ok (env' 0) l' _ Hok' (proj1 (He' 0))), Hm.
  rewrite (l3_get_ok (env' 1) l' _ Hok' (proj1 (He' 1))), Hd.
  rewrite (deserialize_serialize _ _ Hmb). cbn [encryption_key StateMachineStore_new maybe_decrypt].
  unfold decode_state. by rewrite Hraw.
Qed.
End Snapshots.

(** * Examples *)

Definition swap_iter {V} (m : gmap Z V) : list (Z * V) := reverse (map_to_list m).
Lemma swap_iter_perm {V} (m : gmap Z V) : swap_iter m ≡ₚ map_to_list m.
Proof. unfold swap_iter. by rewrite reverse_Permutation. Qed.

Definition state_a : ClusterSnapshot :=
  {| partition_table := list_to_map [(0, Owned 1); (1, Owned 1)]%Z; last_applied_log_index := 4;
     last_applied_log_term := 2; source_anchor_offsets := {[ 0 := 10 ]}%Z; poh_checkpoint := None;
     config_overrides := ∅ |}.

(** Rebalancing breaks that agreement: the partition that moves is the first one the node's own
    hash map happens to yield. *)
Theorem rebalance_diverges :
  exists iter1 iter2 st nodes st1 st2,
    (forall t, iter1 t ≡ₚ map_to_list t) /\ (forall t, iter2 t ≡ₚ map_to_list t)
    /\ apply_request iter1 map_to_list st (RebalancePartitions nodes) = Some (st1, RespOk)
    /\ apply_request iter2 map_to_list st (RebalancePartitions nodes) = Some (st2, RespOk)
    /\ owner_in st1 0 = Some (Owned 1) /\ owner_in st2 0 = Some (Owned 2).
Proof.
  destruct (decide (owner_in (default state_a (fst <$> apply_request map_to_list map_to_list state_a
    (RebalancePartitions [1; 2]%Z))) 0 = Some (Owned 1))) as [E|E];
    [exists map_to_list, swap_iter|exists swap_iter, map_to_list];
    exists state_a, [1; 2]%Z; eexists; eexists;
    (split; [done || apply swap_iter_perm|]); (split; [done || apply swap_iter_perm|]);
    (split; [reflexivity|]); (split; [reflexivity|]); vm_compute in E |- *; done.
Qed.

(** A late [AbortTransfer] is not checked against the table: it takes a completed transfer
    back. *)
Theorem stale_abort_reverts :
  exists st', apply_requests map_to_list map_to_list state_a
      [BeginTransfer 0 1 2; CompleteTransfer 0 2; AbortTransfer 0 1]%Z = Some st'
    /\ owner_in st' 0 = Some (Owned 1).
Proof. eexists. split; [reflexivity|]. by vm_compute. Qed.

Lemma submit_checkpoint_monotone_witness :
  exists st', apply_request map_to_list map_to_list state_a (SubmitCheckpoint {[ 0 := 7; 1 := 9 ]}%Z)
      = Some (st', RespOk)
    /\ source_anchor_offsets st' !! 0%Z = Some 10%Z /\ source_anchor_offsets st' !! 1%Z = Some 9%Z.
Proof.
  destruct (apply_request map_to_list map_to_list state_a (SubmitCheckpoint {[ 0 := 7; 1 := 9 ]}%Z))
    as [[st' resp]|] eqn:E; [|done].
  destruct (submit_checkpoint_monotone map_to_list map_to_list state_a {[ 0 := 7; 1 := 9 ]}%Z st' resp
              (fun _ => Permutation_refl _)) as (-> & _ & _ & Hp).
  - apply map_Forall_singleton. unfold i64_nonneg. lia.
  - apply map_Forall_insert_2; [|apply map_Forall_singleton]; unfold is_i64; lia.
  - exact E.
  - exists st'. split; [done|]. split; [exact (Hp 0%Z)|exact (Hp 1%Z)].
Defined.

Lemma handover_two_phase_witness :
  exists b pre mid post,
    [BeginTransfer 0 1 2; UpdateConfig "k" "v"; CompleteTransfer 0 2]%Z
      = pre ++ BeginTransfer 0 1 b :: mid ++ CompleteTransfer 0 b :: post
    /\ exists st1, apply_requests map_to_list map_to_list state_a pre = Some st1
        /\ owner_in st1 0 = Some (Owned 1).
Proof.
  eapply (handover_two_phase map_to_list map_to_list (fun _ => Permutation_refl _) state_a _ 0%Z 1%Z (Owned 2)).
  - by vm_compute.
  - reflexivity.
  - reflexivity.
  - by vm_compute.
  - done.
Defined.

#[local] Instance no_registry : RegistryApplier unit := {|
  RegistryCommand := unit; RegistryResponse := unit; reg_apply r _ := (r, tt);
  json_command _ := None; json_response _ := None; |}.
#[local] Instance xor_cipher : SnapshotCipher := {|
  EtmKey := Z; etm_encrypt k _ pt := Some (Z.add k <$> pt);
  etm_decrypt k ct := Some ((fun x => x - k)%Z <$> ct); |}.

Lemma xor_law (k : EtmKey) rnd pt ct : etm_encrypt k rnd pt = Some ct -> etm_decrypt k ct = Some pt.
Proof.
  intros Hs%(inj Some). subst ct. cbn. f_equal. rewrite <-list_fmap_compose.
  rewrite <-(list_fmap_id pt) at 2. apply list_fmap_ext. intros i x _. cbn. lia.
Qed.

Definition own_tuple (o : PartitionOwnership) : Z + Z * Z :=
  match o with Owned n => inl n | Transferring a b => inr (a, b) end.
Definition own_of (x : Z + Z * Z) : PartitionOwnership :=
  match x with inl n => Owned n | inr (a, b) => Transferring a b end.

#[local] Instance snap_codec : Codec ClusterSnapshot :=
  tuple_codec (fun s => (own_tuple <$> partition_table s, last_applied_log_index s, last_applied_log_term s,
                 source_anchor_offsets s, poh_checkpoint s, config_overrides s))
    (fun '(t, i, tm, o, p, c) =>
       {| partition_table := own_of <$> t; last_applied_log_index := i; last_applied_log_term := tm;
          source_anchor_offsets := o; poh_checkpoint := p; config_overrides := c |}).
#[local] Instance snap_codec_laws : CodecLaws ClusterSnapshot.
Proof.
  apply tuple_codec_laws. intros [t ? ? ? ? ?]. cbn. f_equal. rewrite <-map_fmap_compose.
  rewrite <-(map_fmap_id t) at 2. apply map_fmap_ext. by intros _ [] _.
Qed.

Definition id_tuple (i : option LogId) : option (Z * Z * Z) := (fun i => (term i, leader i, index i)) <$> i.
Definition id_of (x : option (Z * Z * Z)) : option LogId :=
  (fun '(t, l, i) => {| term := t; leader := l; index := i |}) <$> x.
#[local] Instance meta_codec : Codec (@SnapshotMeta Z) :=
  tuple_codec (fun m => (id_tuple (meta_last_log_id m), id_tuple (fst (meta_last_membership m)),
                         snd (meta_last_membership m), snapshot_id m))
    (fun '(a, b, c, d) => {| meta_last_log_id := id_of a; meta_last_membership := (id_of b, c); snapshot_id := d |}).
#[local] Instance meta_codec_laws : CodecLaws (@SnapshotMeta Z).
Proof. apply tuple_codec_laws. intros [[[]|] [[[]|] ?] ?]; done. Qed.

Definition sm_a : @StateMachineStore Z unit (RedbStore (gmap bytes bytes)) _ :=
  {| state := state_a; last_applied_log := Some {| term := 2; leader := 1; index := 4 |};
     last_membership := (None, 3%Z); snapshot_idx := 1; encryption_key := Some (5%Z : EtmKey);
     shared_state := state_a; snapshot_store := Some redb_a; registry_applier := None;
     owned_partitions_watch := None |}.

Lemma sm_a_snapshottable rnd : snapshottable (fun _ => True) rnd sm_a.
Proof.
  unfold snapshottable. eexists _, _, _. split; [unfold serialize at 1, snap_codec, tuple_codec; reflexivity|].
  split; [reflexivity|]. split; [unfold serialize, meta_codec, tuple_codec; reflexivity|]. done.
Qed.

Definition entries_a : list (Entry (@EntryPayload Z)) :=
  [{| log_id := {| term := 1; leader := 1; index := 1 |};
      payload := Normal (SubmitCheckpoint {[ 0 := 7; 1 := 9 ]}%Z) |};
   {| log_id := {| term := 1; leader := 1; index := 2 |}; payload := Normal (InitialAssignment 4 [1; 2]%Z) |}].

Definition sm_b : @StateMachineStore Z unit (RedbStore (gmap bytes bytes)) _ :=
  {| state := ClusterSnapshot_default; last_applied_log := None; last_membership := (None, 0%Z);
     snapshot_idx := 0; encryption_key := Some (5%Z : EtmKey); shared_state := ClusterSnapshot_default;
     snapshot_store := Some redb_a; registry_applier := None; owned_partitions_watch := None |}.

Lemma snapshot_restores_witness :
  exists (l' : RedbStore (gmap bytes bytes)) meta data sm_r sm_b',
    build_snapshot (fun _ => good_env) sm_a = (Some l', Ok (meta, data))
    /\ new_persistent (R := unit) (fun _ => good_env) 0%Z (Some (5%Z : EtmKey)) l' = Ok sm_r
    /\ same_cluster sm_a sm_r
    /\ install_snapshot swap_iter (fun _ => good_env) sm_b meta data = (sm_b', Ok tt)
    /\ match apply map_to_list map_to_list sm_a entries_a, apply swap_iter swap_iter sm_b' entries_a with
       | Some (a, _), Some (b, _) => same_cluster a b
       | None, None => True
       | _, _ => False
       end.
Proof.
  destruct (snapshot_restores (redb_map id) (redb_ok id) (fun _ => True)
    xor_law map_to_list swap_iter map_to_list swap_iter (fun _ => Permutation_refl _) swap_iter_perm
    (fun _ => Permutation_refl _) swap_iter_perm (fun _ => good_env) (fun _ => good_env) sm_a redb_a)
    as (l' & meta & data & Hb & Hr & Hi).
  - intros _. by split.
  - intros _. by split.
  - done.
  - by intros k v Hk.
  - apply sm_a_snapshottable.
  - destruct (Hr 0%Z) as (sm_r & Hn & Hs & _).
    destruct (Hi sm_b redb_a eq_refl eq_refl) as (sm_b' & Hins & _ & _ & Hes); [by intros k v Hk|].
    exists l', meta, data, sm_r, sm_b'. split; [exact Hb|]. split; [exact Hn|]. split; [exact Hs|].
    split; [exact Hins|]. apply Hes. reflexivity.
Defined.

Lemma replicas_agree_witness :
  apply map_to_list map_to_list sm_a entries_a = apply swap_iter swap_iter sm_a entries_a.
Proof.
  apply (replicas_agree map_to_list swap_iter map_to_list swap_iter (fun _ => Permutation_refl _)
           swap_iter_perm (fun _ => Permutation_refl _) swap_iter_perm sm_a entries_a). reflexivity.
Defined.
