(* ===== verification/Recovery.v ===== *)
(** Crash recovery and checkpoint fallback (crates/aeon-engine/src/eo2_recovery.rs).

    [FallbackCheckpointStore] wraps any store that implements the [CheckpointPersist] trait; its
    theorems use only that interface's laws and those of the write-ahead log. *)
From stdpp Require Import base gmap list strings.
From S2P Require Import Prelude Types CheckpointWal.

(** * [FallbackCheckpointStore] *)

(** The environments of the calls one operation may make: on the primary, opening the log
    (and creating its directory), and on the log. *)
Record FbEnv (E : Type) := { fe_primary : E; fe_primary2 : E; fe_open : io; fe_wal : io }.
Arguments fe_primary {E} _.
Arguments fe_primary2 {E} _.
Arguments fe_open {E} _.
Arguments fe_wal {E} _.

(** [fb_disk] holds the log file while the log is closed. *)
Record FallbackCheckpointStore (P : Type) := {
  primary : P;
  fb_wal_path : string;
  fb_disk : Disk;
  wal : option WalCheckpointStore;
  in_fallback : bool;
  fallback_transitions : Z;
}.
Arguments primary {P} _.
Arguments fb_wal_path {P} _.
Arguments fb_disk {P} _.
Arguments wal {P} _.
Arguments in_fallback {P} _.
Arguments fallback_transitions {P} _.

Section Fallback.
Context {E P : Type} `{CheckpointPersist E P} `{Codec CheckpointRecord}.
Variable crc32 : bytes -> Z.
#[local] Instance fb_wal_persist : CheckpointPersist io WalCheckpointStore := wal_checkpoint_persist crc32.

Abbreviation Store := (FallbackCheckpointStore P).

Definition FallbackCheckpointStore_new (p : P) (disk : Disk) (path : string) : Store :=
  {| primary := p; fb_wal_path := path; fb_disk := disk; wal := None; in_fallback := false;
     fallback_transitions := 0 |}.

Definition fb_set (s : Store) (p : P) (disk : Disk) (w : option WalCheckpointStore) (f : bool) (n : Z) : Store :=
  {| primary := p; fb_wal_path := fb_wal_path s; fb_disk := disk; wal := w; in_fallback := f;
     fallback_transitions := n |}.

(** [engage_fallback]: open the log unless it is open, then count the transition. *)
Definition engage_fallback (e : FbEnv E) (s : Store) : Store * Result unit :=
  let opened := match wal s with
                | Some w => (fb_disk s, Ok w)
                | None => WalCheckpointStore_open crc32 (fe_open e) (fb_disk s) (fb_wal_path s)
                end in
  match opened with
  | (disk, Err er) => (fb_set s (primary s) disk (wal s) (in_fallback s) (fallback_transitions s), Err er)
  | (disk, Ok w) =>
    (fb_set s (primary s) disk (Some w) true
       (if in_fallback s then fallback_transitions s else u64 (fallback_transitions s + 1)), Ok tt)
  end.

(** The log append at the end of [append]. *)
Definition wal_append (e : FbEnv E) (s : Store) (r : CheckpointRecord) : Store * CheckpointRecord * Result unit :=
  match wal s with
  | None => (s, r, Err (State "fallback: WAL not open"))
  | Some w =>
    let '(w', r', res) := cp_append (fe_wal e) w r in
    (fb_set s (primary s) (fb_disk s) (Some w') (in_fallback s) (fallback_transitions s), r', res)
  end.

Definition fb_append (e : FbEnv E) (s : Store) (r : CheckpointRecord) : Store * CheckpointRecord * Result unit :=
  if in_fallback s then wal_append e s r
  else
    let '(p', r', res) := cp_append (fe_primary e) (primary s) r in
    let s := fb_set s p' (fb_disk s) (wal s) (in_fallback s) (fallback_transitions s) in
    match res with
    | Ok _ => (s, r', Ok tt)
    | Err _ =>
      match engage_fallback e s with
      | (s', Err er) => (s', r', Err er)
      | (s', Ok _) => wal_append e s' r'
      end
    end.

Definition wal_read_last (e : FbEnv E) (s : Store) : Result (option CheckpointRecord) :=
  match wal s with Some w => cp_read_last (fe_wal e) w | None => Ok None end.

Definition fb_read_last (e : FbEnv E) (s : Store) : Result (option CheckpointRecord) :=
  match cp_read_last (fe_primary e) (primary s) with
  | Ok (Some r) =>
    match wal s with
    | Some w => match cp_read_last (fe_wal e) w with
                | Ok (Some wr) => if (checkpoint_id r <? checkpoint_id wr)%Z then Ok (Some wr) else Ok (Some r)
                | _ => Ok (Some r)
                end
    | None => Ok (Some r)
    end
  | Ok None | Err _ => wal_read_last e s
  end.

Definition fb_next_checkpoint_id (s : Store) : Z :=
  match in_fallback s, wal s with
  | true, Some w => cp_next_checkpoint_id w
  | _, _ => cp_next_checkpoint_id (primary s)
  end.

(** Leaving fallback: the flag is cleared and the log closed (its file stays). *)
Definition leave_fallback (s : Store) (p : P) : Store :=
  fb_set s p (match wal s with Some w => wal_disk w | None => fb_disk s end) None false (fallback_transitions s).

Definition try_recover_primary (e : FbEnv E) (s : Store) : Store * Result bool :=
  if negb (in_fallback s) then (s, Ok true)
  else
    match wal s with
    | None => (leave_fallback s (primary s), Ok true)
    | Some w =>
      match cp_read_last (fe_primary e) (primary s) with
      | Err _ => (s, Ok false)
      | Ok primary_last =>
        match cp_read_last (fe_wal e) w with
        | Err er => (s, Err er)
        | Ok None => (leave_fallback s (primary s), Ok true)
        | Ok (Some wr) =>
          if match primary_last with Some pr => (checkpoint_id wr <=? checkpoint_id pr)%Z | None => false end
          then (leave_fallback s (primary s), Ok true)
          else
            let '(p', _, res) := cp_append (fe_primary2 e) (primary s) wr in
            match res with
            | Err _ => (fb_set s p' (fb_disk s) (wal s) (in_fallback s) (fallback_transitions s), Ok false)
            | Ok _ => (leave_fallback s p', Ok true)
            end
        end
      end
    end.

#[export] Instance fallback_persist : CheckpointPersist (FbEnv E) Store := {|
  cp_append := fb_append; cp_read_last := fb_read_last; cp_next_checkpoint_id := fb_next_checkpoint_id;
  cp_try_recover_primary := try_recover_primary;
|}.
End Fallback.

(** * [RecoveryPlan] *)

Record RecoveryPlan := {
  pull_seek_offsets : gmap Z Z;
  l2_replay_start_seq : Z;
  source_checkpoint_id : Z;
}.

(** Minimum of a map's values. *)
Definition values_min {K} `{Countable K} (m : gmap K Z) : option Z :=
  match (map_to_list m).*2 with [] => None | v :: rest => Some (foldl Z.min v rest) end.

Definition RecoveryPlan_from_last (record : option CheckpointRecord) : RecoveryPlan :=
  match record with
  | None => {| pull_seek_offsets := ∅; l2_replay_start_seq := 0; source_checkpoint_id := 0 |}
  | Some r =>
    {| pull_seek_offsets := source_offsets r;
       l2_replay_start_seq := default 0%Z (values_min (per_sink_ack_seq r));
       source_checkpoint_id := checkpoint_id r |}
  end.

Inductive RecoveryAction :=
| SeekPartitions (offsets : gmap Z Z)
| ReplayL2From (seq : Z).

Definition action_for (p : RecoveryPlan) (kind : SourceKind) : RecoveryAction :=
  match kind with
  | Pull => SeekPartitions (pull_seek_offsets p)
  | Push | Poll => ReplayL2From (l2_replay_start_seq p)
  end.
