(* ===== verification/RecoveryProofs.v ===== *)
(** Checkpoint fallback: availability during an outage of the primary store, what reads and
    recovery return afterwards, and when the records of the outage are shadowed. *)
From stdpp Require Import base gmap list strings.
From S2P Require Import Prelude Types Kv CheckpointWal AtRest L3 Indexed L3Checkpoint L3CheckpointProofs Recovery.

Section Fallback.
Context {E P : Type} `{CheckpointPersistLaws E P}.
Context `{!Codec CheckpointRecord} `{!CodecLaws CheckpointRecord}.
Variable crc32 : bytes -> Z.
Hypothesis crc32_u32 : forall bs, in_u32 (crc32 bs).

Abbreviation Store := (FallbackCheckpointStore P).
Abbreviation append := (fb_append crc32).
Abbreviation read_last := (fb_read_last crc32).
Abbreviation recover := (try_recover_primary crc32).

(** Appending a run of records to the wrapped store. *)
Fixpoint fb_run (s : Store) (rs : list (FbEnv E * CheckpointRecord)) : Store * Result unit :=
  match rs with
  | [] => (s, Ok tt)
  | (e, r) :: rest =>
    let '(s', _, res) := append e s r in
    match res with Err er => (s', Err er) | Ok _ => fb_run s' rest end
  end.













End Fallback.

(** * Example: an L3 primary that fails for two checkpoints and comes back *)

Definition fb_primary : L3CheckpointStore (RedbStore (gmap bytes bytes)) := with_max_records None cp_store_a.
Definition fb_down : FbEnv (nat -> Env) :=
  {| fe_primary := fun _ => bad_env 0; fe_primary2 := fun _ => bad_env 0; fe_open := IoOk; fe_wal := IoOk |}.
Definition fb_up : FbEnv (nat -> Env) :=
  {| fe_primary := fun _ => good_env; fe_primary2 := fun _ => good_env; fe_open := IoOk; fe_wal := IoOk |}.

#[local] Instance ex_persist : CheckpointPersist (nat -> Env) (L3CheckpointStore (RedbStore (gmap bytes bytes))) :=
  @l3_checkpoint_persist _ redb_l3 ref_codec.


(** The shadowed case: after three checkpoints in the primary an outage of two leaves reads with
    the third one, and recovery keeps it. *)
Definition fb_put (p : L3CheckpointStore (RedbStore (gmap bytes bytes))) : L3CheckpointStore (RedbStore (gmap bytes bytes)) :=
  fst (fst (@L3CheckpointStore_append _ redb_l3 ref_codec (fun _ => good_env) p rec_a)).
Definition fb_store3 := FallbackCheckpointStore_new (fb_put (fb_put (fb_put fb_primary))) ∅ "wal".

Example fallback_shadows :
  let run := @fb_run _ _ ex_persist ref_codec sum32 fb_store3 [(fb_down, rec_b); (fb_down, rec_b)] in
  let recovered := @try_recover_primary _ _ ex_persist ref_codec sum32 fb_up (fst run) in
  snd run = Ok tt
  /\ @fb_read_last _ _ ex_persist ref_codec sum32 fb_up (fst run) = Ok (Some (set_checkpoint_id 2 rec_a))
  /\ snd recovered = Ok true
  /\ @fb_read_last _ _ ex_persist ref_codec sum32 fb_up (fst recovered) = Ok (Some (set_checkpoint_id 2 rec_a)).
Proof. by vm_compute. Qed.
