(* ===== verification/Backpressure.v ===== *)
(** The L2 capacity hierarchy (crates/aeon-engine/src/eo2_backpressure.rs): byte accounting per
    partition, mirrored into a node counter that all pipelines share, and the escalation
    decision.

    A node with its pipelines is one record: the shared [NodeCapacity] handle is the field
    every pipeline's [adjust] updates. *)
From stdpp Require Import base gmap list strings sorting.
From S2P Require Import Prelude Types.

Record CapacityLimits := {
  node_max_bytes : option Z;
  pipeline_max_bytes : option Z;
  partition_soft_target : option Z;
}.

Definition from_config (node pipeline : option Z) (partitions : Z) : CapacityLimits :=
  {| node_max_bytes := node; pipeline_max_bytes := pipeline;
     partition_soft_target :=
       match pipeline with
       | Some cap => if (0 <? partitions)%Z then Some (cap `div` partitions)%Z else None
       | None => None
       end |}.

Definition unlimited : CapacityLimits :=
  {| node_max_bytes := None; pipeline_max_bytes := None; partition_soft_target := None |}.

Inductive PressureLevel := LPartition | LPipeline | LNode.

Inductive BackpressureDecision :=
| BNone
| PushReject (level : PressureLevel)
| PullPause (level : PressureLevel)
| PollSkip (level : PressureLevel).

Definition for_kind (kind : SourceKind) (level : PressureLevel) : BackpressureDecision :=
  match kind with Push => PushReject level | Pull => PullPause level | Poll => PollSkip level end.

Definition level (d : BackpressureDecision) : option PressureLevel :=
  match d with BNone => None | PushReject l | PullPause l | PollSkip l => Some l end.

Definition is_engaged (d : BackpressureDecision) : bool :=
  match d with BNone => false | _ => true end.

(** * Accounting *)

(** Saturating addition of a signed delta ([i64]) to a [u64]; [(-delta) as u64]. *)
Definition apply_delta (bytes delta : Z) : Z :=
  if (0 <=? delta)%Z then u64_sat_add bytes (u64 delta) else u64_sat_sub bytes (u64 (- delta)).

Record NodeCapacity := { node_bytes : Z; node_cap : option Z }.

Definition NodeCapacity_new (cap : option Z) : NodeCapacity := {| node_bytes := 0; node_cap := cap |}.

Definition node_adjust (n : NodeCapacity) (delta : Z) : NodeCapacity :=
  {| node_bytes := apply_delta (node_bytes n) delta; node_cap := node_cap n |}.

(** [bytes * 20 >= cap * 19] on [u64], wrapping. *)
Definition at_95 (used cap : Z) : bool := (u64 (cap * 19) <=? u64 (used * 20))%Z.

Definition is_pressured (n : NodeCapacity) : bool :=
  match node_cap n with
  | Some cap => if (0 <? cap)%Z then at_95 (node_bytes n) cap else false
  | None => false
  end.

(** The per-partition counters and limits of one pipeline. *)
Record PipelineCapacity := { partitions : gmap Z Z; caps : CapacityLimits }.

Definition PipelineCapacity_new (c : CapacityLimits) : PipelineCapacity := {| partitions := ∅; caps := c |}.

(** [adjust]: the partition, then the shared node counter by the same delta. *)
Definition adjust (p : PipelineCapacity) (n : NodeCapacity) (partition : Z) (delta : Z)
    : PipelineCapacity * NodeCapacity :=
  let entry := default 0%Z (partitions p !! partition) in
  ({| partitions := <[partition := apply_delta entry delta]> (partitions p); caps := caps p |},
   node_adjust n delta).

(** [values().sum()], wrapping in a release build. *)
Definition pipeline_bytes (p : PipelineCapacity) : Z :=
  u64 (foldr Z.add 0%Z (map_to_list (partitions p)).*2).

Definition partition_bytes (p : PipelineCapacity) (partition : Z) : Z :=
  default 0%Z (partitions p !! partition).

Definition decide_pressure (p : PipelineCapacity) (n : NodeCapacity) (partition : Z) (kind : SourceKind)
    : BackpressureDecision :=
  if is_pressured n then for_kind kind LNode
  else
    let pipeline_breached :=
      match pipeline_max_bytes (caps p) with
      | Some cap => (0 <? cap)%Z && at_95 (pipeline_bytes p) cap
      | None => false
      end in
    if pipeline_breached then for_kind kind LPipeline
    else
      let partition_breached :=
        match partition_soft_target (caps p) with
        | Some target => (0 <? target)%Z && (target <=? partition_bytes p partition)%Z
        | None => false
        end in
      if partition_breached then for_kind kind LPartition else BNone.

(** * A node with its pipelines *)

Record NodeState := { node : NodeCapacity; pipelines : gmap string PipelineCapacity }.

Definition node_state_adjust (s : NodeState) (pipe : string) (partition delta : Z) : NodeState :=
  match pipelines s !! pipe with
  | None => s
  | Some p => let '(p', n') := adjust p (node s) partition delta in
              {| node := n'; pipelines := <[pipe := p']> (pipelines s) |}
  end.

(** Mathematical totals. *)
Definition part_sum (m : gmap Z Z) : Z := map_fold (fun _ => Z.add) 0%Z m.
Definition total (s : NodeState) : Z := map_fold (fun _ p => Z.add (part_sum (partitions p))) 0%Z (pipelines s).

Lemma part_sum_insert m k v : part_sum (<[k := v]> m) = (part_sum m - default 0 (m !! k) + v)%Z.
Proof.
  unfold part_sum. destruct (m !! k) as [w|] eqn:E.
  - rewrite <-(insert_delete_id m k w E) at 2. rewrite <-insert_delete_eq.
    rewrite !map_fold_insert_L by (lia || apply lookup_delete_eq). cbn. lia.
  - rewrite map_fold_insert_L by (lia || done). cbn. lia.
Qed.

Lemma total_insert m k p n :
  total {| node := n; pipelines := <[k := p]> m |}
  = (total {| node := n; pipelines := m |}
     - default 0 (part_sum ∘ partitions <$> m !! k) + part_sum (partitions p))%Z.
Proof.
  unfold total. cbn [pipelines]. destruct (m !! k) as [w|] eqn:E.
  - rewrite <-(insert_delete_id m k w E) at 2. rewrite <-insert_delete_eq.
    rewrite !map_fold_insert_L by (lia || apply lookup_delete_eq). cbn. lia.
  - rewrite map_fold_insert_L by (lia || done). cbn. lia.
Qed.

Lemma part_sum_list m : part_sum m = foldr Z.add 0%Z (map_to_list m).*2.
Proof.
  unfold part_sum. rewrite map_fold_foldr. induction (map_to_list m) as [|[k v] l IH]; [done|].
  cbn. by rewrite <-IH.
Qed.

(** A run of accounting calls. *)
Definition adjust_run (s : NodeState) (ops : list (string * Z * Z)) : NodeState :=
  foldl (fun s '(pipe, part, delta) => node_state_adjust s pipe part delta) s ops.

(** A call that names a pipeline, stays in the 64-bit range, and never takes more off a
    partition than was counted there. *)
Definition covered (s : NodeState) (pipe : string) (part delta : Z) : Prop :=
  exists p, pipelines s !! pipe = Some p /\ (- 2 ^ 63 <= delta < 2 ^ 63)%Z
    /\ (0 <= partition_bytes p part + delta)%Z /\ (total s + delta <= u64_max)%Z.

Fixpoint all_covered (s : NodeState) (ops : list (string * Z * Z)) : Prop :=
  match ops with
  | [] => True
  | (pipe, part, delta) :: rest =>
    covered s pipe part delta /\ all_covered (node_state_adjust s pipe part delta) rest
  end.

(** Counters are non-negative and the node counter is the sum of them all. *)
Definition accounted (s : NodeState) : Prop :=
  node_bytes (node s) = total s /\
  map_Forall (fun _ p => map_Forall (fun _ b => (0 <= b)%Z) (partitions p)) (pipelines s).

Lemma part_sum_nonneg m k : map_Forall (fun _ b => (0 <= b)%Z) m -> (0 <= default 0 (m !! k) <= part_sum m)%Z.
Proof.
  intros Hm. split.
  - destruct (m !! k) as [b|] eqn:E; [exact (Hm k b E)|done].
  - revert Hm. induction m as [|i x m Hi IH] using map_ind; intros Hm; [by rewrite lookup_empty|].
    apply map_Forall_insert in Hm as [Hx Hm]; [|done]. rewrite part_sum_insert, Hi. cbn. specialize (IH Hm).
    destruct (decide (i = k)) as [->|Hne].
    + rewrite lookup_insert_eq. cbn. rewrite Hi in IH. cbn in IH. lia.
    + rewrite lookup_insert_ne by done. lia.
Qed.

Lemma part_sum_pos m : map_Forall (fun _ b => (0 <= b)%Z) m -> (0 <= part_sum m)%Z.
Proof. intros Hm. pose proof (part_sum_nonneg m 0%Z Hm). lia. Qed.

Lemma total_nonneg s :
  map_Forall (fun _ p => map_Forall (fun _ b => (0 <= b)%Z) (partitions p)) (pipelines s) -> (0 <= total s)%Z.
Proof.
  destruct s as [n m]. cbn [pipelines]. induction m as [|i x m Hi IH] using map_ind; intros Hm; [done|].
  apply map_Forall_insert in Hm as [Hx Hm]; [|done]. rewrite total_insert, Hi. cbn.
  apply part_sum_pos in Hx. specialize (IH Hm). lia.
Qed.

Lemma total_ge s pipe p :
  map_Forall (fun _ p => map_Forall (fun _ b => (0 <= b)%Z) (partitions p)) (pipelines s) ->
  pipelines s !! pipe = Some p -> (0 <= part_sum (partitions p) <= total s)%Z.
Proof.
  intros Hm Hp. split; [by apply part_sum_pos, (Hm pipe)|].
  destruct s as [n ps]. cbn in *. revert p Hp Hm. induction ps as [|i x m Hi IH] using map_ind; intros p Hp Hm; [done|].
  apply map_Forall_insert in Hm as [Hx Hm]; [|done]. rewrite total_insert, Hi. cbn.
  apply part_sum_pos in Hx as Hx0. apply lookup_insert_Some in Hp as [[-> ->]|[Hne Hp]].
  - pose proof (total_nonneg {| node := n; pipelines := m |} Hm). lia.
  - specialize (IH p Hp Hm). lia.
Qed.

Lemma apply_delta_exact b d :
  (- 2 ^ 63 <= d < 2 ^ 63)%Z -> (0 <= b + d <= u64_max)%Z -> apply_delta b d = (b + d)%Z.
Proof.
  unfold apply_delta, u64_sat_add, u64_sat_sub, u64_max. intros Hd Hb.
  destruct (Z.leb_spec 0 d); rewrite wrap_small by lia; lia.
Qed.

Lemma adjust_accounted s pipe part delta :
  accounted s -> covered s pipe part delta ->
  accounted (node_state_adjust s pipe part delta)
  /\ total (node_state_adjust s pipe part delta) = (total s + delta)%Z.
Proof.
  intros [Hn Hm] (p & Hp & Hd & Hb & Ht). unfold partition_bytes in Hb.
  destruct (total_ge s pipe p Hm Hp) as [_ Hle].
  pose proof (part_sum_nonneg (partitions p) part (Hm pipe p Hp)) as Hpart.
  unfold node_state_adjust. rewrite Hp. unfold adjust, node_adjust.
  assert (He : apply_delta (default 0%Z (partitions p !! part)) delta = (default 0 (partitions p !! part) + delta)%Z)
    by (apply apply_delta_exact; lia).
  rewrite He, Hn, (apply_delta_exact (total s)) by lia.
  assert (Htot : total {| node := {| node_bytes := total s + delta; node_cap := node_cap (node s) |};
      pipelines := <[pipe := {| partitions := <[part := (default 0 (partitions p !! part) + delta)%Z]> (partitions p);
                                caps := caps p |}]> (pipelines s) |} = (total s + delta)%Z).
  { rewrite total_insert, Hp. cbn [partitions fmap option_fmap option_map default compose].
    rewrite part_sum_insert. change (total {| node := _; pipelines := pipelines s |}) with (total s). cbn. lia. }
  split; [|done]. split; [done|]. cbn [pipelines]. apply map_Forall_insert_2; [|done].
  apply map_Forall_insert_2; [lia|]. exact (Hm pipe p Hp).
Qed.

(** C20. The node counter is exact: over any run of accounting calls by any of the pipelines
    sharing it, in which no call takes off a partition more than was counted there, it equals
    the sum of all partition counters of all pipelines. *)
Theorem node_counter_exact s ops :
  accounted s -> all_covered s ops ->
  node_bytes (node (adjust_run s ops)) = total (adjust_run s ops)
  /\ total (adjust_run s ops) = (total s + foldr Z.add 0%Z (snd <$> ops))%Z.
Proof.
  revert s. induction ops as [|[[pipe part] delta] ops IH]; intros s Ha Hc.
  { cbn. destruct Ha. split; [done|lia]. }
  destruct Hc as [Hc Hcs]. destruct (adjust_accounted s pipe part delta Ha Hc) as [Ha' Ht].
  destruct (IH _ Ha' Hcs) as [H1 H2]. split; [exact H1|].
  change (adjust_run s ((pipe, part, delta) :: ops)) with (adjust_run (node_state_adjust s pipe part delta) ops).
  rewrite H2, Ht. cbn. lia.
Qed.

Definition two_pipelines : NodeState :=
  {| node := NodeCapacity_new (Some 1000%Z);
     pipelines := {["a" := PipelineCapacity_new unlimited; "b" := PipelineCapacity_new unlimited]} |}.

Lemma two_pipelines_accounted : accounted two_pipelines.
Proof.
  split; [done|]. cbn. repeat (apply map_Forall_insert_2; [done|]). intros i x Hi. done.
Qed.

Lemma node_counter_exact_witness :
  node_bytes (node (adjust_run two_pipelines [("a", 0, 960); ("b", 3, 20); ("a", 0, -60)]%Z)) = 920%Z.
Proof.
  destruct (node_counter_exact two_pipelines [("a", 0, 960); ("b", 3, 20); ("a", 0, -60)]%Z) as [-> ->].
  - apply two_pipelines_accounted.
  - repeat split; eexists; (split; [reflexivity|]); vm_compute; repeat split; discriminate || reflexivity.
  - reflexivity.
Defined.

(** Taking off more than was counted, as garbage-collecting segments that predate the process
    does, empties the partition counter but charges the whole amount to the node counter, which
    then hides what the other pipelines hold. *)
Theorem node_counter_undercounts :
  exists s ops, accounted s /\ node_cap (node s) = Some 1000%Z
    /\ total (adjust_run s ops) = 960%Z /\ node_bytes (node (adjust_run s ops)) = 0%Z
    /\ is_pressured (node (adjust_run s ops)) = false.
Proof.
  exists two_pipelines, [("a", 0, 960); ("b", 3, -960)]%Z. split; [|by vm_compute].
  apply two_pipelines_accounted.
Qed.

(** * The 95% comparison *)

(** The range in which the scaled comparison does not wrap. *)
Definition in_range (used cap : Z) : Prop := (0 <= used /\ used * 20 <= u64_max /\ 0 <= cap /\ cap * 19 <= u64_max)%Z.

Lemma at_95_exact used c : in_range used c -> at_95 used c = (c * 19 <=? used * 20)%Z.
Proof. unfold in_range, at_95, u64_max. intros (? & ? & ? & ?). by rewrite !wrap_small by lia. Qed.

(** Outside that range the comparison wraps: a cap of [2^63] bytes is reported breached at a
    sixteenth of it. *)
Theorem at_95_wraps : at_95 (2 ^ 59) (2 ^ 63) = true /\ (2 ^ 59 * 20 < 2 ^ 63 * 19)%Z.
Proof. by vm_compute. Qed.

Lemma pipeline_bytes_exact p : (0 <= part_sum (partitions p) <= u64_max)%Z -> pipeline_bytes p = part_sum (partitions p).
Proof. intros Hr. unfold pipeline_bytes. rewrite <-part_sum_list. apply wrap_small. unfold u64_max in Hr. lia. Qed.

(** What [decide] returning [None] says about the levels above the partition. *)
Lemma decide_none p n part kind :
  decide_pressure p n part kind = BNone ->
  is_pressured n = false
  /\ forall c, pipeline_max_bytes (caps p) = Some c -> (0 < c)%Z -> at_95 (pipeline_bytes p) c = false.
Proof.
  unfold decide_pressure. intros Hd. destruct (is_pressured n); [by destruct kind|]. split; [done|].
  intros c Hc Hpos. rewrite Hc in Hd. destruct (at_95 (pipeline_bytes p) c); [|done].
  rewrite (proj2 (Z.ltb_lt 0 c)) in Hd by done. by destruct kind.
Qed.
