(* ===== verification/Gate.v ===== *)
(** The capacity gate in front of the sources (the source tasks of crates/aeon-engine/src/pipeline.rs,
    which ask [PipelineCapacity::decide] before every fetch) together with the byte accounting of
    [Backpressure]: how far the bytes on a node can grow.

    [decide] takes the node lock and the pipeline lock one after the other, so other tasks run
    between the two reads and between the decision and the appends of the batch it admits. *)
From stdpp Require Import base gmap list strings relations.
From S2P Require Import Prelude Types Backpressure.

(** * Source tasks *)




Section Gate.
(** The most bytes one batch adds to the event-body stores. *)
Variable batch_max : Z.


(** * Bytes that are still to come *)









(** * The bound *)










End Gate.

(** * Example: two pipelines under a node cap of 1000 bytes, batches of at most 40 *)





