(* ===== verification/Eo2.v ===== *)
(** The delivery side of event-body durability: the L2 registry, the writing source adapter and
    the ack tracker of crates/aeon-engine/src/eo2.rs, and the garbage-collection sweep of
    src/pipeline.rs.

    A store handle [Arc<Mutex<L2BodyStore>>] shared between the registry and its users is the
    registry's own entry here: every user goes through the registry. *)
From stdpp Require Import base gmap list strings.
From S2P Require Import Prelude Types Event AtRest CheckpointWal L2Body Backpressure Recovery.

(** * [AckSeqTracker] *)

Abbreviation AckSeqTracker := (gmap string Z) (only parsing).

Definition record_ack (t : AckSeqTracker) (sink : string) (seq : Z) : AckSeqTracker :=
  let e := default 0%Z (t !! sink) in <[sink := if (e <? seq)%Z then seq else e]> t.

Definition register_sink (t : AckSeqTracker) (sink : string) : AckSeqTracker :=
  match t !! sink with Some _ => t | None => <[sink := 0%Z]> t end.

Definition ack_snapshot (t : AckSeqTracker) : gmap string Z := t.

Definition min_across_sinks (t : AckSeqTracker) : option Z := values_min t.

(** * [PipelineL2Registry] *)

Section Eo2.
Context `{CryptoOps} `{Codec WrappedDek}.
Context {Event : Type} `{Codec Event}.
Variable crc32 : bytes -> Z.

(** [disks]: the partition directories under the root that no store has been opened on. *)
Record PipelineL2Registry := {
  stores : gmap (string * Z) L2BodyStore;
  disks : gmap (string * Z) Dir;
  reg_root : option string;
  reg_config : L2BodyConfig;
}.

Definition reg_put (r : PipelineL2Registry) (k : string * Z) (s : L2BodyStore) : PipelineL2Registry :=
  {| stores := <[k := s]> (stores r); disks := disks r; reg_root := reg_root r; reg_config := reg_config r |}.

Definition no_files : Dir := {| seg_files := ∅; meta_files := ∅ |}.

Definition registry_open (r : PipelineL2Registry) (pipeline : string) (partition : PartitionId)
    : PipelineL2Registry * Result L2BodyStore :=
  let key := (pipeline, partition) in
  match stores r !! key with
  | Some store => (r, Ok store)
  | None =>
    match reg_root r with
    | None => (r, Err (State "l2 registry: no root configured"))
    | Some _ =>
      match Store_open crc32 (default no_files (disks r !! key)) (reg_config r) with
      | Err e => (r, Err e)
      | Ok store => (reg_put r key store, Ok store)
      end
    end
  end.

Definition registry_keys (r : PipelineL2Registry) : list (string * Z) := (map_to_list (stores r)).*1.

(** * The sweep of pipeline.rs *)

(** Collect one partition of the pipeline up to the cursor; a failed call is only logged. *)
Definition sweep_one (o : Z -> io) (now min_ack : Z) (acc : PipelineL2Registry * option (PipelineCapacity * NodeCapacity))
    (key : string * Z) : PipelineL2Registry * option (PipelineCapacity * NodeCapacity) :=
  let '(reg, cap) := acc in
  match registry_open reg (fst key) (snd key) with
  | (reg, Err _) => (reg, cap)
  | (reg, Ok store) =>
    let bytes_before := disk_bytes store in
    let '(store', _) := gc_up_to_at (o (snd key)) store min_ack now in
    let reclaimed := u64_sat_sub bytes_before (disk_bytes store') in
    (reg_put reg key store',
     match cap with
     | Some (p, n) => if (0 <? reclaimed)%Z then Some (adjust p n (snd key) (- as_i64 reclaimed)) else cap
     | None => None
     end)
  end.

Definition eo2_gc_sweep (o : Z -> io) (now : Z) (reg : PipelineL2Registry) (pipeline_name : string)
    (tracker : AckSeqTracker) (cap : option (PipelineCapacity * NodeCapacity))
    : PipelineL2Registry * option (PipelineCapacity * NodeCapacity) :=
  match min_across_sinks tracker with
  | None => (reg, cap)
  | Some min_ack =>
    if decide (min_ack = 0)%Z then (reg, cap)
    else foldl (sweep_one o now min_ack) (reg, cap)
           (filter (fun k => fst k = pipeline_name) (registry_keys reg))
  end.
End Eo2.

(** * Recovery at pipeline start *)

(** [load_recovery_plan]: the plan of the last checkpoint, none when there is no store or it
    cannot be read. *)
Definition load_recovery_plan {E S : Type} `{CheckpointPersist E S} (e : E) (checkpoint_writer : option S)
    : option RecoveryPlan :=
  match checkpoint_writer with
  | None => None
  | Some writer =>
    match cp_read_last e writer with
    | Ok last => Some (RecoveryPlan_from_last last)
    | Err _ => None
    end
  end.

(** * [L2WritingSource] *)

Section Source.
Context `{CryptoOps} `{Codec WrappedDek} `{WireCodecs}.
Variable crc32 : bytes -> Z.

(** The bodies are the MessagePack encodings of the wire events. *)
#[local] Instance body_codec : Codec WireEvent := wire_event_codec MsgPack.

(** The environment of one append and of the fsync after a partition. *)
Record AppendEnv := { a_create : CreateIo; a_write : io; a_rnd : bytes; a_nonce : bytes }.

Record L2WritingSource := {
  kind : SourceKind;
  pipeline : string;
  registry : PipelineL2Registry;
  mode : DurabilityMode;
  last_seqs : list (PartitionId * Z);
  capacity : option (PipelineCapacity * NodeCapacity);
}.

Definition is_passthrough (s : L2WritingSource) : bool :=
  negb (requires_l2_body_store (mode s)) || bool_decide (kind s = Pull).

(** The partitions of a batch; the grouping map is iterated in an order of its own. *)
Definition idxs_of (batch : list Event) (p : PartitionId) : list nat :=
  filter (fun i => ev_partition <$> batch !! i = Some p) (seq 0 (length batch)).

Record Progress := {
  p_store : L2BodyStore;
  p_batch : list Event;
  p_seqs : list (PartitionId * Z);
  p_capacity : option (PipelineCapacity * NodeCapacity);
}.

(** Charge what an append added to the disk. *)
Definition charge (cap : option (PipelineCapacity * NodeCapacity)) (part delta : Z)
    : option (PipelineCapacity * NodeCapacity) :=
  match cap with
  | Some (p, n) => if (0 <? delta)%Z then Some (adjust p n part (as_i64 delta)) else cap
  | None => None
  end.

(** One iteration of the inner loop: append event [i] of the batch. *)
Definition write_one (env : nat -> AppendEnv) (part : PartitionId) (w : Progress) (i : nat) : Progress * Result unit :=
  match p_batch w !! i with
  | None => (w, Ok tt)
  | Some ev =>
    let bytes_before := disk_bytes (p_store w) in
    let e := env i in
    let '(st, r) := Store_append crc32 (a_create e) (a_write e) (a_rnd e) (a_nonce e) (p_store w) (WireEvent_from ev) in
    match r with
    | Err er => ({| p_store := st; p_batch := p_batch w; p_seqs := p_seqs w; p_capacity := p_capacity w |}, Err er)
    | Ok seq =>
      ({| p_store := st; p_batch := <[i := ev_set_l2_seq seq ev]> (p_batch w);
          p_seqs := <[i := (part, seq)]> (p_seqs w);
          p_capacity := charge (p_capacity w) part (u64_sat_sub (disk_bytes st) bytes_before) |}, Ok tt)
    end
  end.

Fixpoint write_group (env : nat -> AppendEnv) (part : PartitionId) (w : Progress) (idxs : list nat)
    : Progress * Result unit :=
  match idxs with
  | [] => (w, Ok tt)
  | i :: rest =>
    let '(w', r) := write_one env part w i in
    match r with Err er => (w', Err er) | Ok _ => write_group env part w' rest end
  end.

Definition set_progress (s : L2WritingSource) (reg : PipelineL2Registry) (w : Progress) : L2WritingSource :=
  {| kind := kind s; pipeline := pipeline s; registry := reg; mode := mode s;
     last_seqs := p_seqs w; capacity := p_capacity w |}.

(** The outer loop over the partitions, in the map's order. *)
Fixpoint write_parts (env : nat -> AppendEnv) (fsync : Z -> io) (s : L2WritingSource) (batch : list Event)
    (parts : list PartitionId) : L2WritingSource * list Event * Result unit :=
  match parts with
  | [] => (s, batch, Ok tt)
  | part :: rest =>
    let '(reg, opened) := registry_open crc32 (registry s) (pipeline s) part in
    match opened with
    | Err er => ({| kind := kind s; pipeline := pipeline s; registry := reg; mode := mode s;
                    last_seqs := last_seqs s; capacity := capacity s |}, batch, Err er)
    | Ok store =>
      let '(w, r) := write_group env part
        {| p_store := store; p_batch := batch; p_seqs := last_seqs s; p_capacity := capacity s |}
        (idxs_of batch part) in
      let s' := set_progress s (reg_put reg (pipeline s, part) (p_store w)) w in
      match r with
      | Err er => (s', p_batch w, Err er)
      | Ok _ =>
        match (if fsync_per_event (mode s) then Store_fsync (fsync part) (p_store w) else Ok tt) with
        | Err er => (s', p_batch w, Err er)
        | Ok _ => write_parts env fsync s' (p_batch w) rest
        end
      end
    end
  end.

(** [next_batch] on what the inner source returned; [parts] is the grouping map's key order. *)
Definition next_batch (env : nat -> AppendEnv) (fsync : Z -> io) (parts : list PartitionId)
    (s : L2WritingSource) (got : Result (list Event)) : L2WritingSource * Result (list Event) :=
  match got with
  | Err er => (s, Err er)
  | Ok batch =>
    let s := {| kind := kind s; pipeline := pipeline s; registry := registry s; mode := mode s;
                last_seqs := []; capacity := capacity s |} in
    if is_passthrough s || bool_decide (batch = []) then (s, Ok batch)
    else
      let s := {| kind := kind s; pipeline := pipeline s; registry := registry s; mode := mode s;
                  last_seqs := replicate (length batch) (0, 0)%Z; capacity := capacity s |} in
      let '(s', batch', r) := write_parts env fsync s batch parts in
      (s', let? _ := r in Ok batch')
  end.

Definition take_last_seqs (s : L2WritingSource) : L2WritingSource * list (PartitionId * Z) :=
  ({| kind := kind s; pipeline := pipeline s; registry := registry s; mode := mode s;
      last_seqs := []; capacity := capacity s |}, last_seqs s).
End Source.
