(* ===== verification/Eo2Proofs.v ===== *)
(** Event-body durability across sinks: what garbage collection may drop and where the recovery
    plan starts, and where the shared cursor goes wrong. *)
From stdpp Require Import base gmap list strings relations.
From S2P Require Import Prelude Types AtRest CheckpointWal L2Body L2BodyProofs Backpressure Recovery Eo2.




Section Retention.
Context `{CryptoLaws} `{CodecLaws WrappedDek}.
Context {Event : Type} `{CodecLaws Event}.
Variable crc32 : bytes -> Z.
Hypothesis crc32_u32 : forall bs, in_u32 (crc32 bs).
Variables (pipe : string) (part : Z) (sinks : list string).













End Retention.

(** * Example *)

#[local] Existing Instances toy_crypto toy_crypto_laws toy_dek_codec toy_dek_laws z_codec z_codec_laws.



(** The sweep compares every partition's sequence numbers with one cursor per sink, although
    each partition counts from 0: after the sink acknowledged two events of partition 0 and
    none of partition 1, the sweep deletes the first event of partition 1, which recovery then
    no longer finds. *)
Theorem cross_partition_gc :
  exists (reg : PipelineL2Registry) st reg' st',
    stores reg !! ("p", 1%Z) = Some st
    /\ iter_from sum32 st 0 = Ok [(0, 11); (1, 22)]%Z
    /\ fst (eo2_gc_sweep (Event := Z) sum32 (fun _ => IoOk) 0 reg "p"
              (record_ack (record_ack (register_sink ∅ "s") "s" 0) "s" 1) None) = reg'
    /\ stores reg' !! ("p", 1%Z) = Some st'
    /\ iter_from sum32 st' 0 = Ok [(1, 22)]%Z.
Proof.
  exists {| stores := {[ ("p", 0%Z) := w_st2; ("p", 1%Z) := w_st2 ]}; disks := ∅; reg_root := Some "r";
            reg_config := w_config |}, w_st2.
  eexists _, _. split; [reflexivity|]. split; [vm_compute; reflexivity|]. split; [reflexivity|].
  split; [vm_compute; reflexivity|]. vm_compute. reflexivity.
Qed.
